(** * The specification executor of Gauge (package [execution])

    A shallow embedding of [specExecutor] and of the functions that drive it:
    resolution of the static items of a specification into proto items,
    execution of scenarios, concepts and steps against the runner, and the
    aggregation of results.

    Go pointers to objects that are mutated while shared are modelled by
    addresses into a store kept in the executor state:
    - [steps] holds the [gauge.Step] objects (the parsed steps and the
      per-invocation copies made by [resolveToProtoConceptItem]);
    - [results] holds the [ProtoExecutionResult] objects that the result tree
      points to.
    A nil dereference, an index out of range and a resolution that runs out
    of recursion depth all end the run: the functions return [None] there. *)

From Stdlib Require Import ZArith Lia Ascii String.
From stdpp Require Import base option list gmap strings pretty.

Open Scope Z_scope.

(** ** Machine integers *)

Module Int.

(** Two's complement wrap-around of a 64-bit signed integer; Go's [int]
    is 64 bits wide on the platforms Gauge is built for, like [int64]. *)
Definition wrap64 (z : Z) : Z := (z + 2 ^ 63) mod 2 ^ 64 - 2 ^ 63.

Definition add64 (a b : Z) : Z := wrap64 (a + b).

Definition inRange64 (z : Z) : Prop := - 2 ^ 63 <= z < 2 ^ 63.

Definition maxInt : Z := 2 ^ 63 - 1.

End Int.

Export Int.

(** ** Wire messages (package [gauge_messages]) *)

Abbreviation addr := nat.

Inductive Message_MessageType :=
| Message_ExecutionStarting
| Message_SpecExecutionStarting
| Message_SpecExecutionEnding
| Message_ScenarioExecutionStarting
| Message_ScenarioExecutionEnding
| Message_StepExecutionStarting
| Message_StepExecutionEnding
| Message_ExecuteStep
| Message_ExecutionEnding
| Message_StepValidateRequest
| Message_StepValidateResponse
| Message_ExecutionStatusResponse
| Message_SpecDataStoreInit
| Message_ScenarioDataStoreInit
| Message_KillProcessRequest.

Global Instance Message_MessageType_eq_dec : EqDecision Message_MessageType.
Proof. solve_decision. Defined.

(** The [String] method of the enumeration, used by [%s]. *)
Definition Message_MessageType_String (t : Message_MessageType) : string :=
  match t with
  | Message_ExecutionStarting => "ExecutionStarting"
  | Message_SpecExecutionStarting => "SpecExecutionStarting"
  | Message_SpecExecutionEnding => "SpecExecutionEnding"
  | Message_ScenarioExecutionStarting => "ScenarioExecutionStarting"
  | Message_ScenarioExecutionEnding => "ScenarioExecutionEnding"
  | Message_StepExecutionStarting => "StepExecutionStarting"
  | Message_StepExecutionEnding => "StepExecutionEnding"
  | Message_ExecuteStep => "ExecuteStep"
  | Message_ExecutionEnding => "ExecutionEnding"
  | Message_StepValidateRequest => "StepValidateRequest"
  | Message_StepValidateResponse => "StepValidateResponse"
  | Message_ExecutionStatusResponse => "ExecutionStatusResponse"
  | Message_SpecDataStoreInit => "SpecDataStoreInit"
  | Message_ScenarioDataStoreInit => "ScenarioDataStoreInit"
  | Message_KillProcessRequest => "KillProcessRequest"
  end.

(** [gauge_messages.Parameter]. *)
Record ProtoParameter := mkProtoParameter {
  Parameter_Name : string;
  Parameter_Value : string
}.

Inductive Fragment_FragmentType := Fragment_Text | Fragment_Parameter.

Record Fragment := mkFragment {
  FragmentType : Fragment_FragmentType;
  Fragment_Text_ : string;
  Fragment_Parameter_ : option ProtoParameter
}.

(** Optional scalars of the wire format are [option]s; the generated getters
    return the default of the type when the field is absent. *)
Record ProtoExecutionResult := mkProtoExecutionResult {
  Failed : option bool;
  RecoverableError : option bool;
  ErrorMessage : option string;
  StackTrace : option string;
  ExecutionTime : option Z;
  Message_ : list string
}.

Definition emptyExecutionResult : ProtoExecutionResult :=
  mkProtoExecutionResult None None None None None [].

Definition GetFailed (r : option ProtoExecutionResult) : bool :=
  match r with Some r => default false (Failed r) | None => false end.

Definition GetRecoverableError (r : option ProtoExecutionResult) : bool :=
  match r with Some r => default false (RecoverableError r) | None => false end.

Definition GetErrorMessage (r : option ProtoExecutionResult) : string :=
  match r with Some r => default "" (ErrorMessage r) | None => "" end.

Definition GetStackTrace (r : option ProtoExecutionResult) : string :=
  match r with Some r => default "" (StackTrace r) | None => "" end.

Definition GetExecutionTime (r : option ProtoExecutionResult) : Z :=
  match r with Some r => default 0 (ExecutionTime r) | None => 0 end.

Definition setFailed (b : bool) (r : ProtoExecutionResult) : ProtoExecutionResult :=
  mkProtoExecutionResult (Some b) (RecoverableError r) (ErrorMessage r)
    (StackTrace r) (ExecutionTime r) (Message_ r).

Definition setExecutionTime (t : Z) (r : ProtoExecutionResult) : ProtoExecutionResult :=
  mkProtoExecutionResult (Failed r) (RecoverableError r) (ErrorMessage r)
    (StackTrace r) (Some t) (Message_ r).

Definition setMessage (m : list string) (r : ProtoExecutionResult) : ProtoExecutionResult :=
  mkProtoExecutionResult (Failed r) (RecoverableError r) (ErrorMessage r)
    (StackTrace r) (ExecutionTime r) m.

Record ProtoHookFailure := mkProtoHookFailure {
  HookFailure_StackTrace : string;
  HookFailure_ErrorMessage : string
}.

(** [ExecutionResult] is a pointer to a [ProtoExecutionResult] object: an
    address into the [results] store of the executor. *)
Record ProtoStepExecutionResult := mkProtoStepExecutionResult {
  ExecutionResult : option addr;
  PreHookFailure : option ProtoHookFailure;
  PostHookFailure : option ProtoHookFailure;
  Skipped : option bool;
  SkippedReason : option string
}.

Definition emptyStepExecutionResult : ProtoStepExecutionResult :=
  mkProtoStepExecutionResult None None None None None.

Record ProtoStep := mkProtoStep {
  ActualText : string;
  ParsedText : string;
  Fragments : list Fragment;
  StepExecutionResult : option ProtoStepExecutionResult
}.

Definition setStepExecutionResult (r : option ProtoStepExecutionResult)
    (s : ProtoStep) : ProtoStep :=
  mkProtoStep (ActualText s) (ParsedText s) (Fragments s) r.

Definition setFragments (fs : list Fragment) (s : ProtoStep) : ProtoStep :=
  mkProtoStep (ActualText s) (ParsedText s) fs (StepExecutionResult s).

Inductive ProtoItem_ItemType :=
| ProtoItem_Step
| ProtoItem_Comment
| ProtoItem_Concept
| ProtoItem_Scenario
| ProtoItem_TableDrivenScenario
| ProtoItem_Table
| ProtoItem_Tags.

Global Instance ProtoItem_ItemType_eq_dec : EqDecision ProtoItem_ItemType.
Proof. solve_decision. Defined.

Set Warnings "-register-all".

(** A [ProtoItem] carries its type tag and the payload of that type.  A
    concept owns its representative step, its resolved children and its
    result slot [ConceptExecutionResult]. *)
Inductive ProtoItem :=
| ItemStep (Step : ProtoStep)
| ItemConcept (ConceptStep : ProtoStep) (Steps : list ProtoItem)
    (ConceptExecutionResult : option ProtoStepExecutionResult)
| ItemComment (text : string)
| ItemTable (text : string)
| ItemTags (tags : list string).

Definition GetItemType (i : ProtoItem) : ProtoItem_ItemType :=
  match i with
  | ItemStep _ => ProtoItem_Step
  | ItemConcept _ _ _ => ProtoItem_Concept
  | ItemComment _ => ProtoItem_Comment
  | ItemTable _ => ProtoItem_Table
  | ItemTags _ => ProtoItem_Tags
  end.

Record ExecuteStepRequest := mkExecuteStepRequest {
  ActualStepText : string;
  ParsedStepText : string;
  Parameters : list (option ProtoParameter)
}.

Record SpecInfo := mkSpecInfo {
  SpecInfo_Name : string;
  SpecInfo_FileName : string;
  SpecInfo_IsFailed : bool;
  SpecInfo_Tags : list string
}.

Record ScenarioInfo := mkScenarioInfo {
  ScenarioInfo_Name : string;
  ScenarioInfo_IsFailed : bool;
  ScenarioInfo_Tags : list string
}.

Record StepInfo := mkStepInfo {
  StepInfo_Step : ExecuteStepRequest;
  StepInfo_IsFailed : bool
}.

Record ExecutionInfo := mkExecutionInfo {
  CurrentSpec : option SpecInfo;
  CurrentScenario : option ScenarioInfo;
  CurrentStep : option StepInfo
}.

(** A request to the runner.  The hook requests carry the execution info as
    it is when the message is sent; [ExecuteStep] carries the step request. *)
Record Message := mkMessage {
  MessageType : Message_MessageType;
  CurrentExecutionInfo : option ExecutionInfo;
  ExecuteStepRequest_ : option ExecuteStepRequest
}.

Record ExecutionStatusResponse := mkExecutionStatusResponse {
  Response_ExecutionResult : option ProtoExecutionResult
}.

(** What [conn.GetResponseForGaugeMessage] returns: an error, or a response
    message with its type and, possibly, an execution status. *)
Inductive ChannelReply :=
| TransportError (err : string)
| Response (type : Message_MessageType)
    (status : option ExecutionStatusResponse).

(** ** The parsed specification (package [gauge]) *)

Inductive ArgType := Static | Dynamic | TableArg | SpecialString | SpecialTable.

Record StepArg := mkStepArg {
  StepArg_Name : string;
  StepArg_Value : string;
  StepArg_Type : ArgType
}.

(** A binding of argument names to values. *)
Definition ArgLookup := list (string * StepArg).

(** A [gauge.Step] object.  [ConceptSteps] is a slice of pointers and
    [Parent] a pointer: both hold addresses into the [steps] store. *)
Record Step := mkStep {
  LineNo : Z;
  Value : string;
  LineText : string;
  Args : list StepArg;
  IsConcept : bool;
  Lookup : ArgLookup;
  ConceptSteps : list addr;
  Step_Fragments : list Fragment;
  Parent : option addr
}.

Definition setParent (p : option addr) (s : Step) : Step :=
  mkStep (LineNo s) (Value s) (LineText s) (Args s) (IsConcept s) (Lookup s)
    (ConceptSteps s) (Step_Fragments s) p.

Definition setLookup (l : ArgLookup) (s : Step) : Step :=
  mkStep (LineNo s) (Value s) (LineText s) (Args s) (IsConcept s) l
    (ConceptSteps s) (Step_Fragments s) (Parent s).

(** The items of a scenario or of a specification, by [Kind]. *)
Inductive Item :=
| Item_Step (step : addr)
| Item_Comment (text : string)
| Item_DataTable (text : string)
| Item_Tags (tags : list string)
| Item_TearDown.

Inductive ItemKind := StepKind | CommentKind | DataTableKind | TagKind | TearDownKind.

Global Instance ItemKind_eq_dec : EqDecision ItemKind.
Proof. solve_decision. Defined.

Definition Kind (i : Item) : ItemKind :=
  match i with
  | Item_Step _ => StepKind
  | Item_Comment _ => CommentKind
  | Item_DataTable _ => DataTableKind
  | Item_Tags _ => TagKind
  | Item_TearDown => TearDownKind
  end.

Record Table := mkTable {
  Headers : list string;
  Rows : list (list string)
}.

Definition GetRowCount (t : Table) : Z := Z.of_nat (length (Rows t)).

(** A scenario is referred to by pointer; [scenarioPtr] is its address, the
    key of the scenario in the skip map. *)
Record Scenario := mkScenario {
  scenarioPtr : addr;
  Scenario_Heading : string;
  Scenario_Tags : option (list string);
  Scenario_Items : list Item
}.

Record Specification := mkSpecification {
  specPtr : addr;
  Heading : string;
  FileName : string;
  Tags : option (list string);
  Contexts : list addr;
  TearDownSteps : list addr;
  DataTable : Table;
  Scenarios : list Scenario;
  SpecItems : list Item
}.

(** ** Validation errors and the skip maps *)

Record stepValidationError := mkStepValidationError {
  err_step : addr;
  err_message : string;
  err_fileName : string
}.

Record validationErrMaps := mkValidationErrMaps {
  specErrs : gmap addr (list stepValidationError);
  scenarioErrs : gmap addr (list stepValidationError);
  stepErrs : gmap addr (list stepValidationError)
}.

(** ** Results (package [result]) *)

Record ScenarioResult := mkScenarioResult {
  ProtoScenario_Heading : string;
  ProtoScenario_Failed : bool;
  ProtoScenario_Contexts : list ProtoItem;
  ProtoScenario_ScenarioItems : list ProtoItem;
  ProtoScenario_TearDownSteps : list ProtoItem;
  ProtoScenario_PreHookFailure : option ProtoHookFailure;
  ProtoScenario_PostHookFailure : option ProtoHookFailure;
  ProtoScenario_ExecutionTime : Z;
  ProtoScenario_Skipped : option bool;
  ProtoScenario_SkipErrors : list string
}.

Record SpecResult := mkSpecResult {
  ProtoSpec_Heading : string;
  ProtoSpec_Items : list ProtoItem;
  ProtoSpec_ScenarioResults : list ScenarioResult;
  ProtoSpec_TableDrivenResults : list (list ScenarioResult);
  ProtoSpec_PreHookFailure : option ProtoHookFailure;
  ProtoSpec_PostHookFailure : option ProtoHookFailure;
  IsFailed : bool;
  Spec_Skipped : bool;
  ScenarioSkippedCount : Z;
  Spec_ExecutionTime : Z
}.

(** ** The reporter *)

Inductive ReporterEvent :=
| SpecStart (name : string)
| SpecEnd
| ScenarioStart (name : string)
| ScenarioEnd (failed : bool)
| StepStart (step : ExecuteStepRequest)
| StepEnd (failed : bool)
| ConceptStart (conceptStep : ProtoStep)
| ConceptEnd (failed : bool)
| ReportDataTable (table : Table)
| ReportError (text : string).

(** ** The executor *)

Record indexRange := mkIndexRange {
  range_start : Z;
  range_end : Z
}.

(** [runner] answers a message given the messages sent before it; [sent] is
    the traffic on the runner's connection and [notified] what the plugin
    handler was told, oldest first; [reported] is what the console reporter
    received and [logged] what went to the logger.  [steps] and
    [results] are the two object stores. *)
Record specExecutor := mkSpecExecutor {
  specification : Specification;
  dataTableIndex : indexRange;
  runner : list Message -> Message -> ChannelReply;
  sent : list Message;
  notified : list Message;
  currentExecutionInfo : option ExecutionInfo;
  specResult : option SpecResult;
  currentTableRow : Z;
  reported : list ReporterEvent;
  logged : list string;
  errMap : validationErrMaps;
  steps : list Step;
  results : list ProtoExecutionResult
}.

Definition set_sent (v : list Message) (e : specExecutor) : specExecutor :=
  mkSpecExecutor (specification e) (dataTableIndex e) (runner e) v
    (notified e) (currentExecutionInfo e) (specResult e) (currentTableRow e)
    (reported e) (logged e) (errMap e) (steps e) (results e).

Definition set_notified (v : list Message) (e : specExecutor) : specExecutor :=
  mkSpecExecutor (specification e) (dataTableIndex e) (runner e) (sent e)
    v (currentExecutionInfo e) (specResult e) (currentTableRow e)
    (reported e) (logged e) (errMap e) (steps e) (results e).

Definition set_currentExecutionInfo (v : option ExecutionInfo)
    (e : specExecutor) : specExecutor :=
  mkSpecExecutor (specification e) (dataTableIndex e) (runner e) (sent e)
    (notified e) v (specResult e) (currentTableRow e)
    (reported e) (logged e) (errMap e) (steps e) (results e).

Definition set_specResult (v : option SpecResult) (e : specExecutor) : specExecutor :=
  mkSpecExecutor (specification e) (dataTableIndex e) (runner e) (sent e)
    (notified e) (currentExecutionInfo e) v (currentTableRow e)
    (reported e) (logged e) (errMap e) (steps e) (results e).

Definition set_currentTableRow (v : Z) (e : specExecutor) : specExecutor :=
  mkSpecExecutor (specification e) (dataTableIndex e) (runner e) (sent e)
    (notified e) (currentExecutionInfo e) (specResult e) v
    (reported e) (logged e) (errMap e) (steps e) (results e).

Definition set_reported (v : list ReporterEvent) (e : specExecutor) : specExecutor :=
  mkSpecExecutor (specification e) (dataTableIndex e) (runner e) (sent e)
    (notified e) (currentExecutionInfo e) (specResult e) (currentTableRow e)
    v (logged e) (errMap e) (steps e) (results e).

Definition set_logged (v : list string) (e : specExecutor) : specExecutor :=
  mkSpecExecutor (specification e) (dataTableIndex e) (runner e) (sent e)
    (notified e) (currentExecutionInfo e) (specResult e) (currentTableRow e)
    (reported e) v (errMap e) (steps e) (results e).

Definition set_steps (v : list Step) (e : specExecutor) : specExecutor :=
  mkSpecExecutor (specification e) (dataTableIndex e) (runner e) (sent e)
    (notified e) (currentExecutionInfo e) (specResult e) (currentTableRow e)
    (reported e) (logged e) (errMap e) v (results e).

Definition set_results (v : list ProtoExecutionResult) (e : specExecutor) : specExecutor :=
  mkSpecExecutor (specification e) (dataTableIndex e) (runner e) (sent e)
    (notified e) (currentExecutionInfo e) (specResult e) (currentTableRow e)
    (reported e) (logged e) (errMap e) (steps e) v.

(** ** The monad of the executor's methods: state, and [None] when the run
    ends in a panic. *)

Definition Exec (A : Type) : Type := specExecutor -> option (A * specExecutor).

Definition ret {A} (a : A) : Exec A := fun e => Some (a, e).

Definition bind {A B} (m : Exec A) (k : A -> Exec B) : Exec B :=
  fun e => match m e with
           | Some (a, e') => k a e'
           | None => None
           end.

Definition panic {A} : Exec A := fun _ => None.

Definition gets {A} (f : specExecutor -> A) : Exec A := fun e => Some (f e, e).

Definition modify (f : specExecutor -> specExecutor) : Exec unit :=
  fun e => Some (tt, f e).

(** Dereference of a pointer that may be nil. *)
Definition deref {A} (o : option A) : Exec A :=
  match o with
  | Some a => ret a
  | None => panic
  end.

Notation "'let*' x ':=' m 'in' k" := (bind m (fun x => k))
  (at level 10, x pattern, m at level 100, k at level 200).
Notation "m ';;' k" := (bind m (fun _ => k))
  (at level 100, k at level 200, right associativity).

Definition getSpecResult : Exec SpecResult :=
  let* r := gets specResult in deref r.

Definition modifySpecResult (f : SpecResult -> SpecResult) : Exec unit :=
  let* r := getSpecResult in modify (set_specResult (Some (f r))).

Definition getExecutionInfo : Exec ExecutionInfo :=
  let* i := gets currentExecutionInfo in deref i.

Definition report (ev : ReporterEvent) : Exec unit :=
  modify (fun e => set_reported (reported e ++ [ev]) e).

Definition logError (msg : string) : Exec unit :=
  modify (fun e => set_logged (logged e ++ [msg]) e).

Definition NotifyPlugins (message : Message) : Exec unit :=
  modify (fun e => set_notified (notified e ++ [message]) e).

(** [conn.GetResponseForGaugeMessage]: the message goes out on the runner's
    connection and the runner's reply comes back. *)
Definition GetResponseForGaugeMessage (message : Message) : Exec ChannelReply :=
  fun e => Some (runner e (sent e) message, set_sent (sent e ++ [message]) e).

(** Allocation of a [ProtoExecutionResult] object. *)
Definition newResult (r : ProtoExecutionResult) : Exec addr :=
  fun e => Some (length (results e), set_results (results e ++ [r]) e).

(** Reading through a pointer with the nil-safe getters. *)
Definition readResult (e : specExecutor) (p : option addr) : option ProtoExecutionResult :=
  match p with
  | Some a => results e !! a
  | None => None
  end.

Definition loadResult (p : option addr) : Exec (option ProtoExecutionResult) :=
  gets (fun e => readResult e p).

Definition updateResult (a : addr) (f : ProtoExecutionResult -> ProtoExecutionResult) : Exec unit :=
  fun e => match results e !! a with
           | Some r => Some (tt, set_results (<[a := f r]> (results e)) e)
           | None => None
           end.

(** Allocation of a [gauge.Step] object, and access through a pointer. *)
Definition newStep (s : Step) : Exec addr :=
  fun e => Some (length (steps e), set_steps (steps e ++ [s]) e).

Definition loadStep (a : addr) : Exec Step :=
  let* ss := gets steps in deref (ss !! a).

Definition updateStep (a : addr) (f : Step -> Step) : Exec unit :=
  fun e => match steps e !! a with
           | Some s => Some (tt, set_steps (<[a := f s]> (steps e)) e)
           | None => None
           end.

(** ** Collaborators outside this package *)

(** Modelled from the spec: [gauge.ConvertToProtoItem] on a plain step, the
    structural conversion of a step to its proto step, without any result. *)
Definition convertToProtoStep (s : Step) : ProtoStep :=
  mkProtoStep (LineText s) (Value s) (Step_Fragments s) None.

(** Modelled from the spec: [gauge.ConvertToProtoItem] on a concept, one
    proto item per child in order.  The expansion of a child that is itself a
    concept is left empty here: [resolveToProtoConceptItem] replaces every
    such child by its own resolution. *)
Definition convertToProtoConcept (concept : Step) : Exec ProtoItem :=
  let* ss := gets steps in
  let* children :=
    deref (mapM (fun a : addr =>
                   s ← ss !! a;
                   Some (if IsConcept s
                         then ItemConcept (convertToProtoStep s) [] None
                         else ItemStep (convertToProtoStep s)))
                (ConceptSteps concept)) in
  ret (ItemConcept (convertToProtoStep concept) children None).

(** Modelled from the spec: [gauge.NewProtoScenario], the shell of a scenario
    result before any item is attached. *)
Definition NewProtoScenario (scenario : Scenario) : ScenarioResult :=
  mkScenarioResult (Scenario_Heading scenario) false [] [] [] None None 0 None [].

(** Modelled from the spec: [gauge.NewSpecResult], the empty result of a
    specification. *)
Definition NewSpecResult (spec : Specification) : SpecResult :=
  mkSpecResult (Heading spec) [] [] [] None None false false 0 0.

(** Modelled from the spec: the methods of [result.ScenarioResult] that
    attach the resolved items, set and read the failure flag and add to the
    execution time. *)
Definition AddContexts (items : list ProtoItem) (r : ScenarioResult) : ScenarioResult :=
  mkScenarioResult (ProtoScenario_Heading r) (ProtoScenario_Failed r)
    (ProtoScenario_Contexts r ++ items) (ProtoScenario_ScenarioItems r)
    (ProtoScenario_TearDownSteps r) (ProtoScenario_PreHookFailure r)
    (ProtoScenario_PostHookFailure r) (ProtoScenario_ExecutionTime r)
    (ProtoScenario_Skipped r) (ProtoScenario_SkipErrors r).

Definition AddTearDownSteps (items : list ProtoItem) (r : ScenarioResult) : ScenarioResult :=
  mkScenarioResult (ProtoScenario_Heading r) (ProtoScenario_Failed r)
    (ProtoScenario_Contexts r) (ProtoScenario_ScenarioItems r)
    (ProtoScenario_TearDownSteps r ++ items) (ProtoScenario_PreHookFailure r)
    (ProtoScenario_PostHookFailure r) (ProtoScenario_ExecutionTime r)
    (ProtoScenario_Skipped r) (ProtoScenario_SkipErrors r).

Definition AddItems (items : list ProtoItem) (r : ScenarioResult) : ScenarioResult :=
  mkScenarioResult (ProtoScenario_Heading r) (ProtoScenario_Failed r)
    (ProtoScenario_Contexts r) (ProtoScenario_ScenarioItems r ++ items)
    (ProtoScenario_TearDownSteps r) (ProtoScenario_PreHookFailure r)
    (ProtoScenario_PostHookFailure r) (ProtoScenario_ExecutionTime r)
    (ProtoScenario_Skipped r) (ProtoScenario_SkipErrors r).

Definition setContexts (items : list ProtoItem) (r : ScenarioResult) : ScenarioResult :=
  mkScenarioResult (ProtoScenario_Heading r) (ProtoScenario_Failed r)
    items (ProtoScenario_ScenarioItems r)
    (ProtoScenario_TearDownSteps r) (ProtoScenario_PreHookFailure r)
    (ProtoScenario_PostHookFailure r) (ProtoScenario_ExecutionTime r)
    (ProtoScenario_Skipped r) (ProtoScenario_SkipErrors r).

Definition setScenarioItems (items : list ProtoItem) (r : ScenarioResult) : ScenarioResult :=
  mkScenarioResult (ProtoScenario_Heading r) (ProtoScenario_Failed r)
    (ProtoScenario_Contexts r) items
    (ProtoScenario_TearDownSteps r) (ProtoScenario_PreHookFailure r)
    (ProtoScenario_PostHookFailure r) (ProtoScenario_ExecutionTime r)
    (ProtoScenario_Skipped r) (ProtoScenario_SkipErrors r).

Definition setTearDownSteps (items : list ProtoItem) (r : ScenarioResult) : ScenarioResult :=
  mkScenarioResult (ProtoScenario_Heading r) (ProtoScenario_Failed r)
    (ProtoScenario_Contexts r) (ProtoScenario_ScenarioItems r)
    items (ProtoScenario_PreHookFailure r)
    (ProtoScenario_PostHookFailure r) (ProtoScenario_ExecutionTime r)
    (ProtoScenario_Skipped r) (ProtoScenario_SkipErrors r).

Definition SetFailure (r : ScenarioResult) : ScenarioResult :=
  mkScenarioResult (ProtoScenario_Heading r) true
    (ProtoScenario_Contexts r) (ProtoScenario_ScenarioItems r)
    (ProtoScenario_TearDownSteps r) (ProtoScenario_PreHookFailure r)
    (ProtoScenario_PostHookFailure r) (ProtoScenario_ExecutionTime r)
    (ProtoScenario_Skipped r) (ProtoScenario_SkipErrors r).

Definition GetFailure (r : ScenarioResult) : bool := ProtoScenario_Failed r.

Definition Scenario_AddExecTime (t : Z) (r : ScenarioResult) : ScenarioResult :=
  mkScenarioResult (ProtoScenario_Heading r) (ProtoScenario_Failed r)
    (ProtoScenario_Contexts r) (ProtoScenario_ScenarioItems r)
    (ProtoScenario_TearDownSteps r) (ProtoScenario_PreHookFailure r)
    (ProtoScenario_PostHookFailure r) (add64 (ProtoScenario_ExecutionTime r) t)
    (ProtoScenario_Skipped r) (ProtoScenario_SkipErrors r).

Definition setScenarioSkipped (b : option bool) (r : ScenarioResult) : ScenarioResult :=
  mkScenarioResult (ProtoScenario_Heading r) (ProtoScenario_Failed r)
    (ProtoScenario_Contexts r) (ProtoScenario_ScenarioItems r)
    (ProtoScenario_TearDownSteps r) (ProtoScenario_PreHookFailure r)
    (ProtoScenario_PostHookFailure r) (ProtoScenario_ExecutionTime r)
    b (ProtoScenario_SkipErrors r).

Definition setSkipErrors (errs : list string) (r : ScenarioResult) : ScenarioResult :=
  mkScenarioResult (ProtoScenario_Heading r) (ProtoScenario_Failed r)
    (ProtoScenario_Contexts r) (ProtoScenario_ScenarioItems r)
    (ProtoScenario_TearDownSteps r) (ProtoScenario_PreHookFailure r)
    (ProtoScenario_PostHookFailure r) (ProtoScenario_ExecutionTime r)
    (ProtoScenario_Skipped r) errs.

(** Modelled from the spec: [result.GetProtoHookFailure], the failure detail
    of a hook result. *)
Definition GetProtoHookFailure (r : ProtoExecutionResult) : ProtoHookFailure :=
  mkProtoHookFailure (GetStackTrace (Some r)) (GetErrorMessage (Some r)).

(** Modelled from the spec: [result.AddPreHook] and [result.AddPostHook]
    record a failed hook on the result and mark the result failed; a hook
    that did not fail leaves the result as it is. *)
Definition Scenario_AddPreHook (h : ProtoExecutionResult) (r : ScenarioResult) : ScenarioResult :=
  if GetFailed (Some h) then
    mkScenarioResult (ProtoScenario_Heading r) true
      (ProtoScenario_Contexts r) (ProtoScenario_ScenarioItems r)
      (ProtoScenario_TearDownSteps r) (Some (GetProtoHookFailure h))
      (ProtoScenario_PostHookFailure r) (ProtoScenario_ExecutionTime r)
      (ProtoScenario_Skipped r) (ProtoScenario_SkipErrors r)
  else r.

Definition Scenario_AddPostHook (h : ProtoExecutionResult) (r : ScenarioResult) : ScenarioResult :=
  if GetFailed (Some h) then
    mkScenarioResult (ProtoScenario_Heading r) true
      (ProtoScenario_Contexts r) (ProtoScenario_ScenarioItems r)
      (ProtoScenario_TearDownSteps r) (ProtoScenario_PreHookFailure r)
      (Some (GetProtoHookFailure h)) (ProtoScenario_ExecutionTime r)
      (ProtoScenario_Skipped r) (ProtoScenario_SkipErrors r)
  else r.

Definition Spec_AddPreHook (h : ProtoExecutionResult) (r : SpecResult) : SpecResult :=
  if GetFailed (Some h) then
    mkSpecResult (ProtoSpec_Heading r) (ProtoSpec_Items r)
      (ProtoSpec_ScenarioResults r) (ProtoSpec_TableDrivenResults r)
      (Some (GetProtoHookFailure h)) (ProtoSpec_PostHookFailure r)
      true (Spec_Skipped r) (ScenarioSkippedCount r) (Spec_ExecutionTime r)
  else r.

Definition Spec_AddPostHook (h : ProtoExecutionResult) (r : SpecResult) : SpecResult :=
  if GetFailed (Some h) then
    mkSpecResult (ProtoSpec_Heading r) (ProtoSpec_Items r)
      (ProtoSpec_ScenarioResults r) (ProtoSpec_TableDrivenResults r)
      (ProtoSpec_PreHookFailure r) (Some (GetProtoHookFailure h))
      true (Spec_Skipped r) (ScenarioSkippedCount r) (Spec_ExecutionTime r)
  else r.

(** Modelled from the spec: the methods of [result.SpecResult] that attach
    resolved items and scenario results and add to the execution time. *)
Definition AddSpecItems (items : list ProtoItem) (r : SpecResult) : SpecResult :=
  mkSpecResult (ProtoSpec_Heading r) (ProtoSpec_Items r ++ items)
    (ProtoSpec_ScenarioResults r) (ProtoSpec_TableDrivenResults r)
    (ProtoSpec_PreHookFailure r) (ProtoSpec_PostHookFailure r)
    (IsFailed r) (Spec_Skipped r) (ScenarioSkippedCount r) (Spec_ExecutionTime r).

Definition AddScenarioResults (rs : list ScenarioResult) (r : SpecResult) : SpecResult :=
  mkSpecResult (ProtoSpec_Heading r) (ProtoSpec_Items r)
    (ProtoSpec_ScenarioResults r ++ rs) (ProtoSpec_TableDrivenResults r)
    (ProtoSpec_PreHookFailure r) (ProtoSpec_PostHookFailure r)
    (IsFailed r || existsb GetFailure rs) (Spec_Skipped r)
    (ScenarioSkippedCount r) (Spec_ExecutionTime r).

Definition AddTableDrivenScenarioResult (rs : list (list ScenarioResult))
    (r : SpecResult) : SpecResult :=
  mkSpecResult (ProtoSpec_Heading r) (ProtoSpec_Items r)
    (ProtoSpec_ScenarioResults r) (ProtoSpec_TableDrivenResults r ++ rs)
    (ProtoSpec_PreHookFailure r) (ProtoSpec_PostHookFailure r)
    (IsFailed r || existsb (existsb GetFailure) rs) (Spec_Skipped r)
    (ScenarioSkippedCount r) (Spec_ExecutionTime r).

Definition Spec_AddExecTime (t : Z) (r : SpecResult) : SpecResult :=
  mkSpecResult (ProtoSpec_Heading r) (ProtoSpec_Items r)
    (ProtoSpec_ScenarioResults r) (ProtoSpec_TableDrivenResults r)
    (ProtoSpec_PreHookFailure r) (ProtoSpec_PostHookFailure r)
    (IsFailed r) (Spec_Skipped r) (ScenarioSkippedCount r)
    (add64 (Spec_ExecutionTime r) t).

Definition setSpecSkipped (b : bool) (r : SpecResult) : SpecResult :=
  mkSpecResult (ProtoSpec_Heading r) (ProtoSpec_Items r)
    (ProtoSpec_ScenarioResults r) (ProtoSpec_TableDrivenResults r)
    (ProtoSpec_PreHookFailure r) (ProtoSpec_PostHookFailure r)
    (IsFailed r) b (ScenarioSkippedCount r) (Spec_ExecutionTime r).

Definition setScenarioSkippedCount (n : Z) (r : SpecResult) : SpecResult :=
  mkSpecResult (ProtoSpec_Heading r) (ProtoSpec_Items r)
    (ProtoSpec_ScenarioResults r) (ProtoSpec_TableDrivenResults r)
    (ProtoSpec_PreHookFailure r) (ProtoSpec_PostHookFailure r)
    (IsFailed r) (Spec_Skipped r) n (Spec_ExecutionTime r).

(** Modelled from the spec: [GetSpecItems], the specification's own
    top-level items. *)
Definition GetSpecItems (spec : Specification) : list Item := SpecItems spec.

(** [strings.TrimSpace], on the white space of ASCII. *)
Definition isSpace (c : Ascii.ascii) : bool :=
  let n := Ascii.nat_of_ascii c in
  ((9 <=? n) && (n <=? 13) || (n =? 32))%nat.

Fixpoint trimLeft (s : string) : string :=
  match s with
  | String c rest => if isSpace c then trimLeft rest else s
  | EmptyString => EmptyString
  end.

Definition TrimSpace (s : string) : string :=
  String.rev (trimLeft (String.rev (trimLeft s))).

(** ** The methods of [specExecutor] *)

Section Executor.

(** The argument lookup of a data-table row, [ArgLookup.FromDataTableRow]. *)
Variable FromDataTableRow : Table -> Z -> ArgLookup.

(** [parser.PopulateConceptDynamicParams]: the lookup of a concept copy,
    from its own lookup, the lookup of the concept its [Parent] points to
    and the lookup of the active row. *)
Variable PopulateConceptDynamicParams :
  ArgLookup -> option ArgLookup -> ArgLookup -> ArgLookup.

(** [ParamResolver.GetResolvedParams]: the parameter values of a step, from
    its arguments, the lookup of the enclosing concept (if any) and the
    lookup of the active row. *)
Variable GetResolvedParams :
  list StepArg -> option ArgLookup -> ArgLookup -> list ProtoParameter.

Definition getTagValue (tags : option (list string)) : list string :=
  match tags with
  | Some values => [] ++ values
  | None => []
  end.

Definition dataTableLookup : Exec ArgLookup :=
  gets (fun e => FromDataTableRow (DataTable (specification e)) (currentTableRow e)).

(** *** Failure flags of the execution info *)

Definition setSpecFailure : Exec unit :=
  let* info := getExecutionInfo in
  let* spec := deref (CurrentSpec info) in
  modify (set_currentExecutionInfo
    (Some (mkExecutionInfo
             (Some (mkSpecInfo (SpecInfo_Name spec) (SpecInfo_FileName spec)
                      true (SpecInfo_Tags spec)))
             (CurrentScenario info) (CurrentStep info)))).

Definition setScenarioFailure : Exec unit :=
  setSpecFailure ;;
  let* info := getExecutionInfo in
  let* scenario := deref (CurrentScenario info) in
  modify (set_currentExecutionInfo
    (Some (mkExecutionInfo (CurrentSpec info)
             (Some (mkScenarioInfo (ScenarioInfo_Name scenario) true
                      (ScenarioInfo_Tags scenario)))
             (CurrentStep info)))).

Definition setStepFailure : Exec unit :=
  setScenarioFailure ;;
  let* info := getExecutionInfo in
  let* step := deref (CurrentStep info) in
  modify (set_currentExecutionInfo
    (Some (mkExecutionInfo (CurrentSpec info) (CurrentScenario info)
             (Some (mkStepInfo (StepInfo_Step step) true))))).

Definition printStatus (executionResult : ProtoExecutionResult) : Exec unit :=
  report (ReportError ("Error Message: " +:+ GetErrorMessage (Some executionResult))) ;;
  report (ReportError ("Stacktrace: 
" +:+ GetStackTrace (Some executionResult))).

(** *** The round trip to the runner *)

Definition errorResult (message : string) : ProtoExecutionResult :=
  mkProtoExecutionResult (Some true) (Some false) (Some message) None None [].

Definition executeAndGetStatus (message : Message) : Exec ProtoExecutionResult :=
  let* reply := GetResponseForGaugeMessage message in
  match reply with
  | TransportError err =>
      ret (mkProtoExecutionResult (Some true) None (Some err) None None [])
  | Response type status =>
      if decide (type = Message_ExecutionStatusResponse) then
        match status ≫= Response_ExecutionResult with
        | None =>
            let errMsg := "ProtoExecutionResult obtained is nil" in
            logError errMsg ;;
            ret (errorResult errMsg)
        | Some executionResult => ret executionResult
        end
      else
        let errMsg := "Expected ExecutionStatusResponse. Obtained: "
                      +:+ Message_MessageType_String type in
        logError errMsg ;;
        ret (errorResult errMsg)
  end.

(** [execTimeTracker] is the [AddExecTime] method of the result that keeps
    the time of the hook. *)
Definition executeHook {T} (message : Message) (execTimeTracker : Z -> Exec T)
    : Exec (ProtoExecutionResult * T) :=
  NotifyPlugins message ;;
  let* executionResult := executeAndGetStatus message in
  let* t := execTimeTracker (GetExecutionTime (Some executionResult)) in
  ret (executionResult, t).

Definition hookMessage (type : Message_MessageType) : Exec Message :=
  let* info := gets currentExecutionInfo in
  ret (mkMessage type info None).

Definition executeBeforeSpecHook : Exec ProtoExecutionResult :=
  let* message := hookMessage Message_SpecExecutionStarting in
  let* (r, _) := executeHook message (fun t => modifySpecResult (Spec_AddExecTime t)) in
  ret r.

Definition executeAfterSpecHook : Exec ProtoExecutionResult :=
  let* message := hookMessage Message_SpecExecutionEnding in
  let* (r, _) := executeHook message (fun t => modifySpecResult (Spec_AddExecTime t)) in
  ret r.

Definition executeBeforeScenarioHook (scenarioResult : ScenarioResult)
    : Exec (ProtoExecutionResult * ScenarioResult) :=
  let* message := hookMessage Message_ScenarioExecutionStarting in
  executeHook message (fun t => ret (Scenario_AddExecTime t scenarioResult)).

Definition executeAfterScenarioHook (scenarioResult : ScenarioResult)
    : Exec (ProtoExecutionResult * ScenarioResult) :=
  let* message := hookMessage Message_ScenarioExecutionEnding in
  executeHook message (fun t => ret (Scenario_AddExecTime t scenarioResult)).

Definition executeBeforeStepHook : Exec ProtoExecutionResult :=
  let* message := hookMessage Message_StepExecutionStarting in
  NotifyPlugins message ;;
  executeAndGetStatus message.

Definition executeAfterStepHook : Exec ProtoExecutionResult :=
  let* message := hookMessage Message_StepExecutionEnding in
  NotifyPlugins message ;;
  executeAndGetStatus message.

(** *** Resolution of the static items *)

(** The loop of [updateProtoStepParameters] over the fragments, from
    parameter index [paramIndex]; [parameters[paramIndex]] panics out of
    range. *)
Fixpoint updateFragments (fragments : list Fragment)
    (parameters : list ProtoParameter) (paramIndex : nat) : option (list Fragment) :=
  match fragments with
  | [] => Some []
  | fragment :: rest =>
      match FragmentType fragment with
      | Fragment_Parameter =>
          p ← parameters !! paramIndex;
          rest' ← updateFragments rest parameters (S paramIndex);
          Some (mkFragment (FragmentType fragment) (Fragment_Text_ fragment) (Some p)
                  :: rest')
      | Fragment_Text =>
          rest' ← updateFragments rest parameters paramIndex;
          Some (fragment :: rest')
      end
  end.

Definition updateProtoStepParameters (protoStep : ProtoStep)
    (parameters : list ProtoParameter) : Exec ProtoStep :=
  let* fragments := deref (updateFragments (Fragments protoStep) parameters 0) in
  ret (setFragments fragments protoStep).

Definition setSkipInfo (protoStep : ProtoStep) (step : addr) : Exec ProtoStep :=
  let* errs := gets errMap in
  let r := mkProtoStepExecutionResult None None None (Some false) None in
  let r := if decide (is_Some (stepErrs errs !! step))
           then mkProtoStepExecutionResult None None None (Some true)
                  (Some "Step implemenatation not found")
           else r in
  ret (setStepExecutionResult (Some r) protoStep).

Definition resolveToProtoStepItem (step : addr) : Exec ProtoItem :=
  let* s := loadStep step in
  let protoStep := convertToProtoStep s in
  let* lookup := dataTableLookup in
  let parameters := GetResolvedParams (Args s) None lookup in
  let* protoStep := updateProtoStepParameters protoStep parameters in
  let* protoStep := setSkipInfo protoStep step in
  ret (ItemStep protoStep).

(** [protoSteps[stepIndex] = item]. *)
Definition assignIndex (protoSteps : list ProtoItem) (stepIndex : nat)
    (item : ProtoItem) : Exec (list ProtoItem) :=
  if decide (stepIndex < length protoSteps)%nat
  then ret (<[stepIndex := item]> protoSteps)
  else panic.

(** The loop of [resolveToProtoConceptItem] over [concept.ConceptSteps],
    from index [stepIndex]; [concept] is the address of the copy and
    [resolveConcept] the recursive call. *)
Fixpoint resolveConceptSteps (resolveConcept : Step -> Exec ProtoItem)
    (concept : addr) (stepIndex : nat) (conceptSteps : list addr)
    (protoSteps : list ProtoItem) : Exec (list ProtoItem) :=
  match conceptSteps with
  | [] => ret protoSteps
  | step :: rest =>
      let* s := loadStep step in
      let* protoSteps :=
        if IsConcept s then
          updateStep step (setParent (Some concept)) ;;
          let* s := loadStep step in
          let* item := resolveConcept s in
          assignIndex protoSteps stepIndex item
        else
          let* c := loadStep concept in
          let* lookup := dataTableLookup in
          let stepParameters := GetResolvedParams (Args s) (Some (Lookup c)) lookup in
          let* protoItem := deref (protoSteps !! stepIndex) in
          match protoItem with
          | ItemStep protoStep =>
              let* protoStep := updateProtoStepParameters protoStep stepParameters in
              let* protoStep := setSkipInfo protoStep step in
              ret (<[stepIndex := ItemStep protoStep]> protoSteps)
          | _ => panic
          end in
      resolveConceptSteps resolveConcept concept (S stepIndex) rest protoSteps
  end.

(** [concept] is passed by value: the callee works on a copy, a new object
    whose address is taken where the source writes [&concept].  [depth]
    bounds the nesting of the recursive calls. *)
Fixpoint resolveToProtoConceptItem (depth : nat) (concept : Step) : Exec ProtoItem :=
  match depth with
  | O => panic
  | S depth =>
      let* c := newStep concept in
      let* lookup := dataTableLookup in
      let* parentLookup :=
        match Parent concept with
        | Some p => let* ps := loadStep p in ret (Some (Lookup ps))
        | None => ret None
        end in
      updateStep c (setLookup (PopulateConceptDynamicParams (Lookup concept) parentLookup lookup)) ;;
      let* concept := loadStep c in
      let* protoConceptItem := convertToProtoConcept concept in
      match protoConceptItem with
      | ItemConcept conceptStep protoSteps res =>
          let conceptStep := setStepExecutionResult (Some emptyStepExecutionResult) conceptStep in
          let* protoSteps :=
            resolveConceptSteps (resolveToProtoConceptItem depth) c 0
              (ConceptSteps concept) protoSteps in
          let conceptStep :=
            setStepExecutionResult
              (Some (mkProtoStepExecutionResult None None None (Some false) None))
              conceptStep in
          ret (ItemConcept conceptStep protoSteps res)
      | _ => panic
      end
  end.

Definition resolveToProtoItem (depth : nat) (item : Item) : Exec ProtoItem :=
  match item with
  | Item_Step step =>
      let* s := loadStep step in
      if IsConcept s then resolveToProtoConceptItem depth s
      else resolveToProtoStepItem step
  | Item_Comment text => ret (ItemComment text)
  | Item_DataTable text => ret (ItemTable text)
  | Item_Tags tags => ret (ItemTags tags)
  | Item_TearDown => panic
  end.

Fixpoint resolveItems (depth : nat) (items : list Item) : Exec (list ProtoItem) :=
  match items with
  | [] => ret []
  | item :: rest =>
      if decide (Kind item ≠ TearDownKind) then
        let* protoItem := resolveToProtoItem depth item in
        let* protoItems := resolveItems depth rest in
        ret (protoItem :: protoItems)
      else resolveItems depth rest
  end.

Definition getContextItemsForScenarioExecution (depth : nat) (steps : list addr)
    : Exec (list ProtoItem) :=
  resolveItems depth (map Item_Step steps).

Definition addAllItemsForScenarioExecution (depth : nat) (scenario : Scenario)
    (scenarioResult : ScenarioResult) : Exec ScenarioResult :=
  let* spec := gets specification in
  let* contexts := getContextItemsForScenarioExecution depth (Contexts spec) in
  let scenarioResult := AddContexts contexts scenarioResult in
  let* tearDown := getContextItemsForScenarioExecution depth (TearDownSteps spec) in
  let scenarioResult := AddTearDownSteps tearDown scenarioResult in
  let* items := resolveItems depth (Scenario_Items scenario) in
  ret (AddItems items scenarioResult).

(** *** Execution of steps, concepts and items *)

Fixpoint getParameters (fragments : list Fragment) : list (option ProtoParameter) :=
  match fragments with
  | [] => []
  | fragment :: rest =>
      match FragmentType fragment with
      | Fragment_Parameter => Fragment_Parameter_ fragment :: getParameters rest
      | Fragment_Text => getParameters rest
      end
  end.

Definition createStepRequest (protoStep : ProtoStep) : ExecuteStepRequest :=
  mkExecuteStepRequest (ActualText protoStep) (ParsedText protoStep)
    (getParameters (Fragments protoStep)).

(** The time of [stepExecResult.ExecutionResult], read and written through
    the pointer, once per hook result. *)
Fixpoint addExecutionTimes (stepExecResult : ProtoStepExecutionResult)
    (execResults : list ProtoExecutionResult) : Exec unit :=
  match execResults with
  | [] => ret tt
  | execResult :: rest =>
      let* p := deref (ExecutionResult stepExecResult) in
      let* ss := gets results in
      let* r := deref (ss !! p) in
      match ExecutionTime r with
      | None =>
          updateResult p (setExecutionTime (GetExecutionTime (Some execResult)))
      | Some currentScenarioExecTime =>
          updateResult p (setExecutionTime
            (add64 currentScenarioExecTime (GetExecutionTime (Some execResult))))
      end ;;
      addExecutionTimes stepExecResult rest
  end.

Definition setCurrentStep (step : option StepInfo) : Exec unit :=
  let* info := getExecutionInfo in
  modify (set_currentExecutionInfo
    (Some (mkExecutionInfo (CurrentSpec info) (CurrentScenario info) step))).

Definition setCurrentScenario (scenario : option ScenarioInfo) : Exec unit :=
  let* info := getExecutionInfo in
  modify (set_currentExecutionInfo
    (Some (mkExecutionInfo (CurrentSpec info) scenario (CurrentStep info)))).

Definition executeStep (protoStep : ProtoStep) : Exec (bool * ProtoStep) :=
  let stepRequest := createStepRequest protoStep in
  report (StepStart stepRequest) ;;
  setCurrentStep (Some (mkStepInfo stepRequest false)) ;;
  let* beforeHookStatus := executeBeforeStepHook in
  let* protoStepExecResult :=
    if GetFailed (Some beforeHookStatus) then
      let* r := newResult (mkProtoExecutionResult (Some true) None None None None []) in
      setStepFailure ;;
      printStatus beforeHookStatus ;;
      ret (mkProtoStepExecutionResult (Some r)
             (Some (GetProtoHookFailure beforeHookStatus)) None None None)
    else
      let executeStepMessage := mkMessage Message_ExecuteStep None (Some stepRequest) in
      let* stepExecutionStatus := executeAndGetStatus executeStepMessage in
      (if GetFailed (Some stepExecutionStatus) then setStepFailure else ret tt) ;;
      let* r := newResult stepExecutionStatus in
      ret (mkProtoStepExecutionResult (Some r) None None None None) in
  let* afterStepHookStatus := executeAfterStepHook in
  addExecutionTimes protoStepExecResult [beforeHookStatus; afterStepHookStatus] ;;
  let* r := deref (ExecutionResult protoStepExecResult) in
  let* protoStepExecResult :=
    if GetFailed (Some afterStepHookStatus) then
      setStepFailure ;;
      printStatus afterStepHookStatus ;;
      updateResult r (setFailed true) ;;
      ret (mkProtoStepExecutionResult (ExecutionResult protoStepExecResult)
             (PreHookFailure protoStepExecResult)
             (Some (GetProtoHookFailure afterStepHookStatus))
             (Skipped protoStepExecResult) (SkippedReason protoStepExecResult))
    else ret protoStepExecResult in
  updateResult r (setMessage (Message_ afterStepHookStatus)) ;;
  let* old := deref (StepExecutionResult protoStep) in
  let protoStepExecResult :=
    mkProtoStepExecutionResult (ExecutionResult protoStepExecResult)
      (PreHookFailure protoStepExecResult) (PostHookFailure protoStepExecResult)
      (Skipped old) (SkippedReason old) in
  let protoStep := setStepExecutionResult (Some protoStepExecResult) protoStep in
  let* result := loadResult (Some r) in
  let stepFailed := GetFailed result in
  report (StepEnd stepFailed) ;;
  (if stepFailed then
     let* info := getExecutionInfo in
     let* step := deref (CurrentStep info) in
     report (ReportError ("Failed Step: " +:+ ActualStepText (StepInfo_Step step))) ;;
     report (ReportError ("Error Message: " +:+ TrimSpace (GetErrorMessage result))) ;;
     report (ReportError ("Stacktrace: 
" +:+ GetStackTrace result))
   else ret tt) ;;
  ret (stepFailed, protoStep).

(** The walk of [setExecutionResultForConcept] over the children, with the
    time accumulated so far.  At the first failed child the object that the
    child's result points to gets the accumulated time, and the result of
    the concept, which points to that same object, is returned. *)
Fixpoint findFailedChild (protoSteps : list ProtoItem) (conceptExecutionTime : Z)
    : Exec (Z * option ProtoStepExecutionResult) :=
  match protoSteps with
  | [] => ret (conceptExecutionTime, None)
  | step :: rest =>
      match step with
      | ItemConcept _ _ res =>
          let p := res ≫= ExecutionResult in
          let* stepExecResult := loadResult p in
          let conceptExecutionTime :=
            add64 conceptExecutionTime (GetExecutionTime stepExecResult) in
          if GetFailed stepExecResult then
            let* a := deref p in
            updateResult a (setExecutionTime conceptExecutionTime) ;;
            ret (conceptExecutionTime,
                 Some (mkProtoStepExecutionResult p None None (Some false) None))
          else findFailedChild rest conceptExecutionTime
      | ItemStep s =>
          let p := StepExecutionResult s ≫= ExecutionResult in
          let* stepExecResult := loadResult p in
          let conceptExecutionTime :=
            add64 conceptExecutionTime (GetExecutionTime stepExecResult) in
          if GetFailed stepExecResult then
            let* a := deref p in
            updateResult a (setExecutionTime conceptExecutionTime) ;;
            ret (conceptExecutionTime,
                 Some (mkProtoStepExecutionResult p None None (Some false) None))
          else findFailedChild rest conceptExecutionTime
      | _ => findFailedChild rest conceptExecutionTime
      end
  end.

(** A concept as its three fields. *)
Record ProtoConcept := mkProtoConcept {
  ConceptStep : ProtoStep;
  Steps : list ProtoItem;
  ConceptExecutionResult : option ProtoStepExecutionResult
}.

(** Both result slots of the concept hold the same object. *)
Definition setExecutionResultForConcept (protoConcept : ProtoConcept) : Exec ProtoConcept :=
  let* (conceptExecutionTime, failed) := findFailedChild (Steps protoConcept) 0 in
  match failed with
  | Some conceptExecutionResult =>
      ret (mkProtoConcept
             (setStepExecutionResult (Some conceptExecutionResult) (ConceptStep protoConcept))
             (Steps protoConcept) (Some conceptExecutionResult))
  | None =>
      let* r := newResult (mkProtoExecutionResult (Some false) None None None
                             (Some conceptExecutionTime) []) in
      let conceptExecutionResult :=
        mkProtoStepExecutionResult (Some r) None None (Some false) None in
      ret (mkProtoConcept
             (setStepExecutionResult (Some conceptExecutionResult) (ConceptStep protoConcept))
             (Steps protoConcept) (Some conceptExecutionResult))
  end.

(** The loop of [executeConcept]: [done] are the children already
    executed, [todo] those still to execute; after every child the result of
    the concept is set from all its children. *)
Fixpoint executeConceptSteps (executeItem : ProtoItem -> Exec (bool * ProtoItem))
    (conceptStep : ProtoStep) (res : option ProtoStepExecutionResult)
    (done todo : list ProtoItem) : Exec (bool * ProtoConcept) :=
  match todo with
  | [] =>
      let protoConcept := mkProtoConcept conceptStep done res in
      let* r := loadResult (ConceptExecutionResult protoConcept ≫= ExecutionResult) in
      let conceptFailed := GetFailed r in
      report (ConceptEnd conceptFailed) ;;
      ret (conceptFailed, protoConcept)
  | step :: rest =>
      let* (failure, step) := executeItem step in
      let* protoConcept :=
        setExecutionResultForConcept
          (mkProtoConcept conceptStep (done ++ step :: rest) res) in
      if failure then ret (true, protoConcept)
      else executeConceptSteps executeItem (ConceptStep protoConcept)
             (ConceptExecutionResult protoConcept) (done ++ [step]) rest
  end.

Fixpoint executeItem (protoItem : ProtoItem) : Exec (bool * ProtoItem) :=
  match protoItem with
  | ItemConcept conceptStep protoSteps res =>
      (* executeConcept *)
      report (ConceptStart conceptStep) ;;
      let* (failure, c) := executeConceptSteps executeItem conceptStep res [] protoSteps in
      ret (failure, ItemConcept (ConceptStep c) (Steps c) (ConceptExecutionResult c))
  | ItemStep protoStep =>
      let* (failure, protoStep) := executeStep protoStep in
      ret (failure, ItemStep protoStep)
  | _ => ret (false, protoItem)
  end.

Definition executeConcept (protoConcept : ProtoConcept) : Exec (bool * ProtoConcept) :=
  report (ConceptStart (ConceptStep protoConcept)) ;;
  executeConceptSteps executeItem (ConceptStep protoConcept)
    (ConceptExecutionResult protoConcept) [] (Steps protoConcept).

Fixpoint executeItems (executingItems : list ProtoItem) : Exec (bool * list ProtoItem) :=
  match executingItems with
  | [] => ret (false, [])
  | protoItem :: rest =>
      let* (failure, protoItem) := executeItem protoItem in
      if failure then ret (true, protoItem :: rest)
      else
        let* (failure, rest) := executeItems rest in
        ret (failure, protoItem :: rest)
  end.

(** *** Scenarios *)

Definition itemExecutionTime (e : specExecutor) (item : ProtoItem) : Z :=
  match item with
  | ItemStep s => GetExecutionTime (readResult e (StepExecutionResult s ≫= ExecutionResult))
  | ItemConcept _ _ res => GetExecutionTime (readResult e (res ≫= ExecutionResult))
  | _ => 0
  end.

(** Modelled from the spec: [ScenarioResult.UpdateExecutionTime] adds the
    execution times of the scenario's items to its total. *)
Definition UpdateExecutionTime (scenarioResult : ScenarioResult) : Exec ScenarioResult :=
  let* e := gets id in
  ret (foldl (fun r item => Scenario_AddExecTime (itemExecutionTime e item) r)
         scenarioResult
         (ProtoScenario_Contexts scenarioResult
          ++ ProtoScenario_ScenarioItems scenarioResult
          ++ ProtoScenario_TearDownSteps scenarioResult)).

(** [fmt.Sprintf("%s:%d: %s. %s", ...)] on one validation error. *)
Definition formatSkipError (err : stepValidationError) : Exec string :=
  let* step := loadStep (err_step err) in
  ret (err_fileName err +:+ ":" +:+ pretty (LineNo step) +:+ ": "
       +:+ err_message err +:+ ". " +:+ LineText step).

Fixpoint formatSkipErrors (errs : list stepValidationError) : Exec (list string) :=
  match errs with
  | [] => ret []
  | err :: rest =>
      let* s := formatSkipError err in
      let* ss := formatSkipErrors rest in
      ret (s :: ss)
  end.

Definition setSkipInfoInResult (result : ScenarioResult) (scenario : Scenario)
    : Exec ScenarioResult :=
  modifySpecResult (fun r => setScenarioSkippedCount (add64 (ScenarioSkippedCount r) 1) r) ;;
  let result := setScenarioSkipped (Some true) result in
  let* errs := gets errMap in
  let* errors := formatSkipErrors (default [] (scenarioErrs errs !! scenarioPtr scenario)) in
  ret (setSkipErrors errors result).

Definition executeContextItems (scenarioResult : ScenarioResult) : Exec ScenarioResult :=
  let* (failure, items) := executeItems (ProtoScenario_Contexts scenarioResult) in
  let scenarioResult := setContexts items scenarioResult in
  if failure then ret (SetFailure scenarioResult) else ret scenarioResult.

Definition executeTearDownItems (scenarioResult : ScenarioResult) : Exec ScenarioResult :=
  let* (failure, items) := executeItems (ProtoScenario_TearDownSteps scenarioResult) in
  let scenarioResult := setTearDownSteps items scenarioResult in
  if failure then ret (SetFailure scenarioResult) else ret scenarioResult.

Definition executeScenarioItems (scenarioResult : ScenarioResult) : Exec ScenarioResult :=
  let* (failure, items) := executeItems (ProtoScenario_ScenarioItems scenarioResult) in
  let scenarioResult := setScenarioItems items scenarioResult in
  if failure then ret (SetFailure scenarioResult) else ret scenarioResult.

Definition executeScenario (depth : nat) (scenario : Scenario) : Exec ScenarioResult :=
  setCurrentScenario
    (Some (mkScenarioInfo (Scenario_Heading scenario) false
             (getTagValue (Scenario_Tags scenario)))) ;;
  let scenarioResult := NewProtoScenario scenario in
  let* scenarioResult := addAllItemsForScenarioExecution depth scenario scenarioResult in
  let scenarioResult := setScenarioSkipped (Some false) scenarioResult in
  let* errs := gets errMap in
  if decide (is_Some (scenarioErrs errs !! scenarioPtr scenario)) then
    setSkipInfoInResult scenarioResult scenario
  else
    report (ScenarioStart (Scenario_Heading scenario)) ;;
    let* (beforeHookExecutionStatus, scenarioResult) :=
      executeBeforeScenarioHook scenarioResult in
    let* scenarioResult :=
      if GetFailed (Some beforeHookExecutionStatus) then
        let scenarioResult := Scenario_AddPreHook beforeHookExecutionStatus scenarioResult in
        setScenarioFailure ;;
        printStatus beforeHookExecutionStatus ;;
        ret scenarioResult
      else
        let* scenarioResult := executeContextItems scenarioResult in
        let* scenarioResult :=
          if negb (GetFailure scenarioResult)
          then executeScenarioItems scenarioResult
          else ret scenarioResult in
        executeTearDownItems scenarioResult in
    let* (afterHookExecutionStatus, scenarioResult) :=
      executeAfterScenarioHook scenarioResult in
    let scenarioResult := Scenario_AddPostHook afterHookExecutionStatus scenarioResult in
    let* scenarioResult := UpdateExecutionTime scenarioResult in
    (if GetFailed (Some afterHookExecutionStatus) then
       setScenarioFailure ;;
       printStatus afterHookExecutionStatus
     else ret tt) ;;
    report (ScenarioEnd (GetFailure scenarioResult)) ;;
    ret scenarioResult.

Fixpoint executeScenariosOf (depth : nat) (scenarios : list Scenario)
    : Exec (list ScenarioResult) :=
  match scenarios with
  | [] => ret []
  | scenario :: rest =>
      let* r := executeScenario depth scenario in
      let* rs := executeScenariosOf depth rest in
      ret (r :: rs)
  end.

Definition executeScenarios (depth : nat) : Exec (list ScenarioResult) :=
  let* spec := gets specification in
  executeScenariosOf depth (Scenarios spec).

(** *** Specifications *)

Definition getSkippedScenarioResult (depth : nat) (scenario : Scenario) : Exec ScenarioResult :=
  let scenarioResult := NewProtoScenario scenario in
  let* scenarioResult := addAllItemsForScenarioExecution depth scenario scenarioResult in
  setSkipInfoInResult scenarioResult scenario.

Fixpoint getSkippedScenarioResults (depth : nat) (scenarios : list Scenario)
    : Exec (list ScenarioResult) :=
  match scenarios with
  | [] => ret []
  | scenario :: rest =>
      let* r := getSkippedScenarioResult depth scenario in
      let* rs := getSkippedScenarioResults depth rest in
      ret (r :: rs)
  end.

Definition getSkippedSpecResult (depth : nat) : Exec SpecResult :=
  let* spec := gets specification in
  let* scenarioResults := getSkippedScenarioResults depth (Scenarios spec) in
  modifySpecResult (AddScenarioResults scenarioResults) ;;
  modifySpecResult (setSpecSkipped true) ;;
  getSpecResult.

(** [Rows()[i]], which panics out of range. *)
Definition rowAt (t : Table) (i : Z) : option (list string) :=
  if i <? 0 then None else Rows t !! Z.to_nat i.

(** The body of the loop of [executeTableDrivenSpec], run [count] times
    from the current row. *)
Fixpoint executeTableRows (depth : nat) (count : nat)
    (dataTableScenarioExecutionResult : list (list ScenarioResult))
    : Exec (list (list ScenarioResult)) :=
  match count with
  | O => ret dataTableScenarioExecutionResult
  | S count =>
      let* spec := gets specification in
      let* row := gets currentTableRow in
      let* values := deref (rowAt (DataTable spec) row) in
      report (ReportDataTable (mkTable (Headers (DataTable spec)) [values])) ;;
      let* rs := executeScenarios depth in
      modify (set_currentTableRow (add64 row 1)) ;;
      executeTableRows depth count (dataTableScenarioExecutionResult ++ [rs])
  end.

(** The loop runs for the rows [start], [start + 1], ..., [end]. *)
Definition executeTableDrivenSpec (depth : nat) : Exec unit :=
  let* range := gets dataTableIndex in
  modify (set_currentTableRow (range_start range)) ;;
  let* rs := executeTableRows depth
               (Z.to_nat (range_end range - range_start range + 1)) [] in
  modifySpecResult (AddTableDrivenScenarioResult rs).

Definition execute (depth : nat) : Exec SpecResult :=
  let* spec := gets specification in
  let specInfo := mkSpecInfo (Heading spec) (FileName spec) false
                    (getTagValue (Tags spec)) in
  modify (set_currentExecutionInfo (Some (mkExecutionInfo (Some specInfo) None None))) ;;
  modify (set_specResult (Some (NewSpecResult spec))) ;;
  let* resolvedSpecItems := resolveItems depth (GetSpecItems spec) in
  modifySpecResult (AddSpecItems resolvedSpecItems) ;;
  let* errs := gets errMap in
  if decide (is_Some (specErrs errs !! specPtr spec)) then
    getSkippedSpecResult depth
  else
    report (SpecStart (SpecInfo_Name specInfo)) ;;
    let* beforeSpecHookStatus := executeBeforeSpecHook in
    (if GetFailed (Some beforeSpecHookStatus) then
       modifySpecResult (Spec_AddPreHook beforeSpecHookStatus) ;;
       setSpecFailure ;;
       printStatus beforeSpecHookStatus
     else
       let dataTableRowCount := GetRowCount (DataTable spec) in
       if dataTableRowCount =? 0 then
         let* scenarioResult := executeScenarios depth in
         modifySpecResult (AddScenarioResults scenarioResult)
       else executeTableDrivenSpec depth) ;;
    let* afterSpecHookStatus := executeAfterSpecHook in
    (if GetFailed (Some afterSpecHookStatus) then
       modifySpecResult (Spec_AddPostHook afterSpecHookStatus) ;;
       setSpecFailure ;;
       printStatus afterSpecHookStatus
     else ret tt) ;;
    modifySpecResult (fun r => setSpecSkipped (ScenarioSkippedCount r >? 0) r) ;;
    report SpecEnd ;;
    getSpecResult.

End Executor.

(** * Reasoning about the executor *)

(** ** The monad *)

Lemma bind_inv {A B} (m : Exec A) (k : A -> Exec B) e b e' :
  bind m k e = Some (b, e') ->
  exists a e1, m e = Some (a, e1) /\ k a e1 = Some (b, e').
Proof.
  unfold bind. destruct (m e) as [[a e1]|]; [|discriminate].
  intros H. exists a, e1. split; [reflexivity|exact H].
Qed.

Lemma bind_step {A B} (m : Exec A) (k : A -> Exec B) e a e1 :
  m e = Some (a, e1) -> bind m k e = k a e1.
Proof. unfold bind. intros ->. reflexivity. Qed.

Lemma ret_inv {A} (a b : A) e e' : ret a e = Some (b, e') -> b = a /\ e' = e.
Proof. unfold ret. intros H. inversion H. split; reflexivity. Qed.

Lemma gets_inv {A} (f : specExecutor -> A) e b e' :
  gets f e = Some (b, e') -> b = f e /\ e' = e.
Proof. unfold gets. intros H. inversion H. split; reflexivity. Qed.

Lemma modify_inv (f : specExecutor -> specExecutor) e b e' :
  modify f e = Some (b, e') -> e' = f e.
Proof. unfold modify. intros H. inversion H. reflexivity. Qed.

Lemma deref_inv {A} (o : option A) e b e' :
  deref o e = Some (b, e') -> o = Some b /\ e' = e.
Proof.
  destruct o as [a|]; simpl; [|discriminate].
  intros H. apply ret_inv in H. destruct H as [-> ->]. split; reflexivity.
Qed.

(** Decomposition of a run that returned, one primitive at a time. *)
Ltac inv_exec :=
  repeat match goal with
         | H : bind _ _ _ = Some _ |- _ =>
             let a := fresh "a" in
             let e := fresh "e" in
             let Ha := fresh "Hrun" in
             apply bind_inv in H; destruct H as (a & e & Ha & H)
         | H : ret _ _ = Some _ |- _ =>
             apply ret_inv in H; destruct H as [? ?]; subst
         | H : gets _ _ = Some _ |- _ =>
             apply gets_inv in H; destruct H as [? ?]; subst
         | H : modify _ _ = Some _ |- _ =>
             apply modify_inv in H; subst
         | H : deref _ _ = Some _ |- _ =>
             apply deref_inv in H; destruct H as [? ?]; subst
         | H : panic _ = Some _ |- _ => discriminate H
         | H : (let (_, _) := ?p in _) _ = Some _ |- _ => destruct p
         end.

(** A computation preserves a relation between the state it starts in and
    the state it returns in. *)
Definition preserves {A} (R : relation specExecutor) (m : Exec A) : Prop :=
  forall e a e', m e = Some (a, e') -> R e e'.

Section Preserves.

Context (R : relation specExecutor) `{!PreOrder R}.

Lemma preserves_ret {A} (a : A) : preserves R (ret a).
Proof. intros e b e' H. apply ret_inv in H. destruct H as [_ ->]. reflexivity. Qed.

Lemma preserves_panic {A} : preserves R (@panic A).
Proof. intros e b e' H. discriminate H. Qed.

Lemma preserves_gets {A} (f : specExecutor -> A) : preserves R (gets f).
Proof. intros e b e' H. apply gets_inv in H. destruct H as [_ ->]. reflexivity. Qed.

Lemma preserves_deref {A} (o : option A) : preserves R (deref o).
Proof. intros e b e' H. apply deref_inv in H. destruct H as [_ ->]. reflexivity. Qed.

Lemma preserves_modify (f : specExecutor -> specExecutor) :
  (forall e, R e (f e)) -> preserves R (modify f).
Proof. intros Hf e b e' H. apply modify_inv in H. subst. apply Hf. Qed.

Lemma preserves_bind {A B} (m : Exec A) (k : A -> Exec B) :
  preserves R m -> (forall a, preserves R (k a)) -> preserves R (bind m k).
Proof.
  intros Hm Hk e b e' H. apply bind_inv in H. destruct H as (a & e1 & H1 & H2).
  transitivity e1; [eapply Hm|eapply Hk]; eassumption.
Qed.

End Preserves.

(** ** What the round trip returns *)

(** The result that [executeAndGetStatus] makes of a reply. *)
Definition statusOfReply (reply : ChannelReply) : ProtoExecutionResult :=
  match reply with
  | TransportError err =>
      mkProtoExecutionResult (Some true) None (Some err) None None []
  | Response type status =>
      if decide (type = Message_ExecutionStatusResponse) then
        match status ≫= Response_ExecutionResult with
        | None => errorResult "ProtoExecutionResult obtained is nil"
        | Some executionResult => executionResult
        end
      else errorResult ("Expected ExecutionStatusResponse. Obtained: "
                        +:+ Message_MessageType_String type)
  end.

(** What it writes to the log. *)
Definition logOfReply (reply : ChannelReply) : list string :=
  match reply with
  | TransportError err => []
  | Response type status =>
      if decide (type = Message_ExecutionStatusResponse) then
        match status ≫= Response_ExecutionResult with
        | None => ["ProtoExecutionResult obtained is nil"]
        | Some _ => []
        end
      else ["Expected ExecutionStatusResponse. Obtained: "
            +:+ Message_MessageType_String type]
  end.

(** A reply that is not a well-formed execution status: a transport error, a
    response of another type, or a status without a result. *)
Definition protocolError (reply : ChannelReply) : Prop :=
  match reply with
  | TransportError _ => True
  | Response type status =>
      type <> Message_ExecutionStatusResponse
      \/ status ≫= Response_ExecutionResult = None
  end.

Definition afterRoundTrip (message : Message) (e : specExecutor) : specExecutor :=
  set_logged (logged e ++ logOfReply (runner e (sent e) message))
    (set_sent (sent e ++ [message]) e).

Lemma executeAndGetStatus_eq message e :
  executeAndGetStatus message e
  = Some (statusOfReply (runner e (sent e) message), afterRoundTrip message e).
Proof.
  unfold executeAndGetStatus, afterRoundTrip, bind, GetResponseForGaugeMessage,
    statusOfReply, logOfReply.
  destruct (runner e (sent e) message) as [err|type status].
  - unfold ret, set_logged, set_sent. simpl. rewrite app_nil_r. reflexivity.
  - destruct (decide (type = Message_ExecutionStatusResponse)).
    + destruct (status ≫= Response_ExecutionResult); unfold ret, logError, modify,
        set_logged, set_sent; simpl; rewrite ?app_nil_r; reflexivity.
    + unfold ret, logError, modify. reflexivity.
Qed.

Lemma statusOfReply_protocolError reply :
  protocolError reply ->
  GetFailed (Some (statusOfReply reply)) = true
  /\ is_Some (ErrorMessage (statusOfReply reply))
  /\ GetRecoverableError (Some (statusOfReply reply)) = false.
Proof.
  destruct reply as [err|type status]; simpl.
  - intros _. repeat split. eexists. reflexivity.
  - intros [Hne|Hnil].
    + destruct (decide (type = Message_ExecutionStatusResponse)); [contradiction|].
      repeat split. eexists. reflexivity.
    + rewrite Hnil.
      destruct (decide (type = Message_ExecutionStatusResponse));
        repeat split; eexists; reflexivity.
Qed.

(** ** Runs that return *)

(** [returns m e Q]: from state [e] the computation [m] returns, with a
    value and in a state that satisfy [Q]. *)
Definition returns {A} (m : Exec A) (e : specExecutor)
    (Q : A -> specExecutor -> Prop) : Prop :=
  exists a e', m e = Some (a, e') /\ Q a e'.

Lemma returns_ret {A} (a : A) e Q : Q a e -> returns (ret a) e Q.
Proof. intros H. exists a, e. split; [reflexivity|exact H]. Qed.

Lemma returns_bind {A B} (m : Exec A) (k : A -> Exec B) e Q :
  returns m e (fun a e1 => returns (k a) e1 Q) -> returns (bind m k) e Q.
Proof.
  intros (a & e1 & Hm & b & e2 & Hk & HQ). exists b, e2. split; [|exact HQ].
  rewrite (bind_step _ _ _ _ _ Hm). exact Hk.
Qed.

Lemma returns_gets {A} (f : specExecutor -> A) e Q : Q (f e) e -> returns (gets f) e Q.
Proof. intros H. exists (f e), e. split; [reflexivity|exact H]. Qed.

Lemma returns_modify (f : specExecutor -> specExecutor) e Q :
  Q tt (f e) -> returns (modify f) e Q.
Proof. intros H. exists tt, (f e). split; [reflexivity|exact H]. Qed.

Lemma returns_deref {A} (a : A) e Q : Q a e -> returns (deref (Some a)) e Q.
Proof. intros H. exists a, e. split; [reflexivity|exact H]. Qed.

Lemma returns_mono {A} (m : Exec A) e (Q Q' : A -> specExecutor -> Prop) :
  returns m e Q' -> (forall a e', Q' a e' -> Q a e') -> returns m e Q.
Proof. intros (a & e' & Hm & HQ) H. exists a, e'. split; [exact Hm|apply H, HQ]. Qed.

Lemma returns_eq {A} (m : Exec A) e a e' (Q : A -> specExecutor -> Prop) :
  m e = Some (a, e') -> Q a e' -> returns m e Q.
Proof. intros Hm HQ. exists a, e'. split; assumption. Qed.

Lemma returns_inv {A} (m : Exec A) e a e' (Q : A -> specExecutor -> Prop) :
  returns m e Q -> m e = Some (a, e') -> Q a e'.
Proof.
  intros (a0 & e0 & Hm & HQ) H. rewrite Hm in H. inversion H. subst. exact HQ.
Qed.

Ltac step :=
  lazymatch goal with
  | |- returns (bind _ _) _ _ => apply returns_bind
  | |- returns (ret _) _ _ => apply returns_ret
  | |- returns (gets _) _ _ => apply returns_gets
  | |- returns (modify _) _ _ => apply returns_modify
  | |- returns (deref (Some _)) _ _ => apply returns_deref
  | |- returns (report _) _ _ => apply returns_modify
  | |- returns (logError _) _ _ => apply returns_modify
  | |- returns (NotifyPlugins _) _ _ => apply returns_modify
  | |- returns (executeAndGetStatus _) _ _ =>
      eapply returns_eq; [apply executeAndGetStatus_eq|]
  | |- returns (newResult _) _ _ => eapply returns_eq; [reflexivity|]
  | |- returns (newStep _) _ _ => eapply returns_eq; [reflexivity|]
  | |- returns (loadResult _) _ _ => apply returns_gets
  end.

(** Projections of updated states. *)
Ltac proj :=
  cbn [specification dataTableIndex runner sent notified currentExecutionInfo
       specResult currentTableRow reported logged errMap steps results
       set_sent set_notified set_currentExecutionInfo set_specResult
       set_currentTableRow set_reported set_logged set_steps set_results
       afterRoundTrip] in *.

(** ** Objects in the stores *)

Lemma lookup_snoc {A} (l : list A) (x : A) : (l ++ [x]) !! length l = Some x.
Proof. rewrite lookup_app_r by lia. rewrite Nat.sub_diag. reflexivity. Qed.

Lemma insert_snoc {A} (l : list A) (x y : A) : <[length l := y]> (l ++ [x]) = l ++ [y].
Proof.
  rewrite insert_app_r_alt by lia. rewrite Nat.sub_diag. reflexivity.
Qed.

Lemma updateResult_last rs r f e :
  results e = rs ++ [r] ->
  updateResult (length rs) f e = Some (tt, set_results (rs ++ [f r]) e).
Proof.
  intros H. unfold updateResult. rewrite H, lookup_snoc, insert_snoc. reflexivity.
Qed.

(** ** The failure flags *)

(** The scenario hooks and the steps run with the execution info set up to
    the current scenario. *)
Definition inScenario (e : specExecutor) : Prop :=
  match currentExecutionInfo e with
  | Some info => is_Some (CurrentSpec info) /\ is_Some (CurrentScenario info)
  | None => False
  end.

Definition failedSpecInfo (spec : SpecInfo) : SpecInfo :=
  mkSpecInfo (SpecInfo_Name spec) (SpecInfo_FileName spec) true (SpecInfo_Tags spec).

Definition failedScenarioInfo (scenario : ScenarioInfo) : ScenarioInfo :=
  mkScenarioInfo (ScenarioInfo_Name scenario) true (ScenarioInfo_Tags scenario).

Lemma setSpecFailure_eq e spec scenario step :
  currentExecutionInfo e = Some (mkExecutionInfo (Some spec) scenario step) ->
  setSpecFailure e
  = Some (tt, set_currentExecutionInfo
                (Some (mkExecutionInfo (Some (failedSpecInfo spec)) scenario step)) e).
Proof.
  intros H. unfold setSpecFailure, getExecutionInfo, bind, gets. rewrite H. reflexivity.
Qed.

Lemma setScenarioFailure_eq e spec scenario step :
  currentExecutionInfo e = Some (mkExecutionInfo (Some spec) (Some scenario) step) ->
  setScenarioFailure e
  = Some (tt, set_currentExecutionInfo
                (Some (mkExecutionInfo (Some (failedSpecInfo spec))
                         (Some (failedScenarioInfo scenario)) step)) e).
Proof.
  intros H. unfold setScenarioFailure, bind. rewrite (setSpecFailure_eq _ _ _ _ H).
  reflexivity.
Qed.

Lemma setStepFailure_eq e spec scenario step :
  currentExecutionInfo e
  = Some (mkExecutionInfo (Some spec) (Some scenario) (Some step)) ->
  setStepFailure e
  = Some (tt, set_currentExecutionInfo
                (Some (mkExecutionInfo (Some (failedSpecInfo spec))
                         (Some (failedScenarioInfo scenario))
                         (Some (mkStepInfo (StepInfo_Step step) true)))) e).
Proof.
  intros H. unfold setStepFailure, bind. rewrite (setScenarioFailure_eq _ _ _ _ H).
  reflexivity.
Qed.


(** ** Hooks *)

Definition hookRequest (type : Message_MessageType) (e : specExecutor) : Message :=
  mkMessage type (currentExecutionInfo e) None.

Definition afterHook (type : Message_MessageType) (e : specExecutor) : specExecutor :=
  afterRoundTrip (hookRequest type e)
    (set_notified (notified e ++ [hookRequest type e]) e).

Lemma executeBeforeStepHook_eq e :
  executeBeforeStepHook e
  = Some (statusOfReply (runner e (sent e) (hookRequest Message_StepExecutionStarting e)),
          afterHook Message_StepExecutionStarting e).
Proof.
  unfold executeBeforeStepHook, hookMessage, NotifyPlugins, bind, gets, ret, modify.
  rewrite executeAndGetStatus_eq. reflexivity.
Qed.

Lemma executeAfterStepHook_eq e :
  executeAfterStepHook e
  = Some (statusOfReply (runner e (sent e) (hookRequest Message_StepExecutionEnding e)),
          afterHook Message_StepExecutionEnding e).
Proof.
  unfold executeAfterStepHook, hookMessage, NotifyPlugins, bind, gets, ret, modify.
  rewrite executeAndGetStatus_eq. reflexivity.
Qed.

(** ** Steps *)

(** What the execution of items leaves as it is. *)
Definition execFrame (e e' : specExecutor) : Prop :=
  specification e' = specification e /\ dataTableIndex e' = dataTableIndex e
  /\ runner e' = runner e /\ errMap e' = errMap e /\ steps e' = steps e
  /\ specResult e' = specResult e /\ currentTableRow e' = currentTableRow e.

Global Instance execFrame_preorder : PreOrder execFrame.
Proof.
  split.
  - intros e. repeat split.
  - intros e1 e2 e3 (A1 & A2 & A3 & A4 & A5 & A6 & A7) (B1 & B2 & B3 & B4 & B5 & B6 & B7).
    repeat split; congruence.
Qed.

(** One pass of the loop of [addExecutionTimes]. *)
Definition addTime (r h : ProtoExecutionResult) : ProtoExecutionResult :=
  setExecutionTime
    (match ExecutionTime r with
     | None => GetExecutionTime (Some h)
     | Some t => add64 t (GetExecutionTime (Some h))
     end) r.

Lemma addExecutionTimes_last rs hs : forall r e pre post sk skr,
  results e = rs ++ [r] ->
  addExecutionTimes (mkProtoStepExecutionResult (Some (length rs)) pre post sk skr) hs e
  = Some (tt, set_results (rs ++ [foldl addTime r hs]) e).
Proof.
  induction hs as [|h hs IH]; intros r e pre post sk skr Hr; simpl.
  - unfold ret. rewrite <- Hr. destruct e; reflexivity.
  - unfold bind at 1. simpl. unfold bind at 1, gets at 1. rewrite Hr, lookup_snoc. simpl.
    unfold bind.
    assert (Hu : forall f, updateResult (length rs) f e
                           = Some (tt, set_results (rs ++ [f r]) e))
      by (intros f; apply updateResult_last, Hr).
    unfold addTime at 2. unfold ret.
    destruct (ExecutionTime r); rewrite Hu;
      (erewrite IH by (proj; reflexivity)); reflexivity.
Qed.

(** States as explicit records, field by field. *)
Ltac flat :=
  unfold set_sent, set_notified, set_currentExecutionInfo, set_specResult,
    set_currentTableRow, set_reported, set_logged, set_steps, set_results,
    afterRoundTrip, readResult in *;
  cbn [specification dataTableIndex runner sent notified currentExecutionInfo
       specResult currentTableRow reported logged errMap steps results] in *;
  rewrite ?lookup_snoc;
  cbn [ExecutionResult PreHookFailure PostHookFailure Skipped SkippedReason
       CurrentSpec CurrentScenario CurrentStep StepInfo_Step StepInfo_IsFailed
       foldl] in *.

Ltac go1 :=
  cbv beta iota zeta;
  first
    [ step
    | lazymatch goal with
      | |- returns setStepFailure _ _ =>
          eapply returns_eq; [apply setStepFailure_eq; reflexivity|]
      | |- returns setScenarioFailure _ _ =>
          eapply returns_eq; [apply setScenarioFailure_eq; reflexivity|]
      | |- returns setSpecFailure _ _ =>
          eapply returns_eq; [apply setSpecFailure_eq; reflexivity|]
      | |- returns executeBeforeStepHook _ _ =>
          eapply returns_eq; [apply executeBeforeStepHook_eq|];
          unfold afterHook, hookRequest
      | |- returns executeAfterStepHook _ _ =>
          eapply returns_eq; [apply executeAfterStepHook_eq|];
          unfold afterHook, hookRequest
      | |- returns (addExecutionTimes _ _) _ _ =>
          eapply returns_eq; [apply addExecutionTimes_last; reflexivity|]
      | |- returns (updateResult _ _) _ _ =>
          eapply returns_eq; [apply updateResult_last; reflexivity|]
      end ];
  flat.

Ltac go := repeat go1.

(** The request of the before-step hook of a step. *)
Definition beforeStepRequest (spec : SpecInfo) (scenario : ScenarioInfo)
    (protoStep : ProtoStep) : Message :=
  mkMessage Message_StepExecutionStarting
    (Some (mkExecutionInfo (Some spec) (Some scenario)
             (Some (mkStepInfo (createStepRequest protoStep) false))))
    None.

Definition executeStepRequest (protoStep : ProtoStep) : Message :=
  mkMessage Message_ExecuteStep None (Some (createStepRequest protoStep)).

(** The execution of a step, inside a scenario, of a step that carries a
    result slot from its resolution: it returns; its result is one new object,
    at the end of the store; the flag it returns is the failed flag of that
    object; the skip flag and reason of the resolution are carried over; the
    [ExecuteStep] message is sent exactly when the before-step hook did not
    fail. *)
Lemma executeStep_spec protoStep e spec scenario step0 old :
  currentExecutionInfo e = Some (mkExecutionInfo (Some spec) (Some scenario) step0) ->
  StepExecutionResult protoStep = Some old ->
  returns (executeStep protoStep) e (fun a e' =>
    let before := beforeStepRequest spec scenario protoStep in
    let b := statusOfReply (runner e (sent e) before) in
    exists r after pre post,
      results e' = results e ++ [r]
      /\ a.2 = setStepExecutionResult
                 (Some (mkProtoStepExecutionResult (Some (length (results e))) pre post
                          (Skipped old) (SkippedReason old))) protoStep
      /\ a.1 = GetFailed (Some r)
      /\ MessageType after = Message_StepExecutionEnding
      /\ sent e' = sent e ++ (if GetFailed (Some b) then [before; after]
                              else [before; executeStepRequest protoStep; after])
      /\ notified e' = notified e ++ [before; after]
      /\ (GetFailed (Some b) = true -> Failed r = Some true /\ RecoverableError r = None)
      /\ inScenario e'
      /\ execFrame e e').
Proof.
  intros Hinfo Hold. destruct e as [sp dti rn snt ntf inf sr row rep lg em ss rs].
  simpl in Hinfo. subst inf.
  unfold executeStep, setCurrentStep, getExecutionInfo, printStatus,
    beforeStepRequest, executeStepRequest. go.
  set (before := mkMessage Message_StepExecutionStarting _ None).
  set (b := statusOfReply (rn snt before)).
  destruct (GetFailed (Some b)) eqn:Hb.
  - go.
    set (after := mkMessage Message_StepExecutionEnding _ None).
    set (a := statusOfReply (rn (snt ++ [before]) after)).
    destruct (GetFailed (Some a)) eqn:Ha; go; rewrite Hold; go;
      match goal with
      | |- context [if GetFailed (Some ?r) then _ else _] =>
          destruct (GetFailed (Some r)) eqn:Hr
      end; go; cbn [fst snd];
      (eexists _, after, _, _; repeat split;
       try reflexivity; try (rewrite <- app_assoc; reflexivity);
       try (eexists; reflexivity); try (symmetry; assumption)).
  - go.
    set (exec := mkMessage Message_ExecuteStep None _).
    set (s := statusOfReply (rn (snt ++ [before]) exec)).
    destruct (GetFailed (Some s)) eqn:Hs; go;
      match goal with
      | |- context [mkMessage Message_StepExecutionEnding ?i None] =>
          set (after := mkMessage Message_StepExecutionEnding i None)
      end;
      set (a := statusOfReply (rn ((snt ++ [before]) ++ [exec]) after));
      (destruct (GetFailed (Some a)) eqn:Ha; go; rewrite Hold; go;
       match goal with
       | |- context [if GetFailed (Some ?r) then _ else _] =>
           destruct (GetFailed (Some r)) eqn:Hr
       end; go; cbn [fst snd];
       (eexists _, after, _, _; repeat split;
        try reflexivity; try (rewrite <- !app_assoc; reflexivity);
        try (eexists; reflexivity); try discriminate; try (symmetry; assumption))).
Qed.

(** A runner whose connection is down, and an executor inside a scenario
    that talks to it. *)
Definition downRunner (history : list Message) (message : Message) : ChannelReply :=
  TransportError "connection refused".

Definition emptySpecification : Specification :=
  mkSpecification 0%nat "spec" "example.spec" None [] [] (mkTable [] []) [] [].

Definition noErrors : validationErrMaps := mkValidationErrMaps ∅ ∅ ∅.

Definition inScenarioInfo : ExecutionInfo :=
  mkExecutionInfo (Some (mkSpecInfo "spec" "example.spec" false []))
    (Some (mkScenarioInfo "scenario" false [])) None.

Definition downExecutor : specExecutor :=
  mkSpecExecutor emptySpecification (mkIndexRange 0 0) downRunner [] []
    (Some inScenarioInfo) (Some (NewSpecResult emptySpecification)) 0 [] []
    noErrors [] [].

Definition plainProtoStep (text : string) : ProtoStep :=
  mkProtoStep text text []
    (Some (mkProtoStepExecutionResult None None None (Some false) None)).

(** C8: a transport error, a response that is not an execution status, and
    an execution status without a result each make [executeAndGetStatus]
    return a result that is failed, carries an error message and is not
    recoverable (a transport error gives its own text as the message).  And
    when the before-step hook of a step fails, [executeStep] sends the
    before-step and the after-step hook and no [ExecuteStep] message, and the
    result of the step is failed and not recoverable. *)
Theorem protocol_error_gives_failed_result :
  (forall message e,
     protocolError (runner e (sent e) message) ->
     exists r e',
       executeAndGetStatus message e = Some (r, e')
       /\ sent e' = sent e ++ [message]
       /\ GetFailed (Some r) = true
       /\ is_Some (ErrorMessage r)
       /\ GetRecoverableError (Some r) = false
       /\ (forall err, runner e (sent e) message = TransportError err ->
           ErrorMessage r = Some err))
  /\ (forall protoStep e spec scenario step0 old,
        currentExecutionInfo e
        = Some (mkExecutionInfo (Some spec) (Some scenario) step0) ->
        StepExecutionResult protoStep = Some old ->
        GetFailed (Some (statusOfReply
                           (runner e (sent e)
                              (beforeStepRequest spec scenario protoStep)))) = true ->
        exists protoStep' e' after,
          executeStep protoStep e = Some (true, protoStep', e')
          /\ sent e' = sent e ++ [beforeStepRequest spec scenario protoStep; after]
          /\ MessageType after = Message_StepExecutionEnding
          /\ Forall (fun m => MessageType m <> Message_ExecuteStep)
               (drop (length (sent e)) (sent e'))
          /\ GetFailed (readResult e' (StepExecutionResult protoStep' ≫= ExecutionResult))
             = true
          /\ GetRecoverableError
               (readResult e' (StepExecutionResult protoStep' ≫= ExecutionResult))
             = false).
Proof.
  split.
  - intros message e Herr.
    destruct (statusOfReply_protocolError _ Herr) as (Hf & Hm & Hr).
    eexists _, _. split; [apply executeAndGetStatus_eq|].
    repeat split; try assumption.
    intros err Heq. rewrite Heq. reflexivity.
  - intros protoStep e spec scenario step0 old Hinfo Hold Hfail.
    destruct (executeStep_spec protoStep e spec scenario step0 old Hinfo Hold)
      as ([f protoStep'] & e' & Hrun & r & after & pre & post
          & Hres & Hstep & Hflag & Hafter & Hsent & _ & Hfailed & _ & _).
    cbn [fst snd] in *. rewrite Hfail in Hsent.
    destruct (Hfailed Hfail) as [Hf Hrec].
    assert (Hread : readResult e' (StepExecutionResult protoStep' ≫= ExecutionResult)
                    = Some r).
    { rewrite Hstep. simpl. rewrite Hres. apply lookup_snoc. }
    exists protoStep', e', after. rewrite Hread.
    assert (f = true) as -> by (rewrite Hflag; unfold GetFailed; rewrite Hf; reflexivity).
    repeat split; try assumption.
    + rewrite Hsent, drop_app_length. repeat constructor; simpl; [discriminate|].
      rewrite Hafter. discriminate.
    + unfold GetFailed. rewrite Hf. reflexivity.
    + unfold GetRecoverableError. rewrite Hrec. reflexivity.
Qed.

Lemma protocol_error_gives_failed_result_witness :
  (exists r e',
     executeAndGetStatus (executeStepRequest (plainProtoStep "a step")) downExecutor
     = Some (r, e')
     /\ GetFailed (Some r) = true
     /\ ErrorMessage r = Some "connection refused"
     /\ GetRecoverableError (Some r) = false)
  /\ (exists protoStep' e' after,
        executeStep (plainProtoStep "a step") downExecutor = Some (true, protoStep', e')
        /\ map MessageType (sent e')
           = [Message_StepExecutionStarting; Message_StepExecutionEnding]
        /\ MessageType after = Message_StepExecutionEnding
        /\ GetFailed (readResult e' (StepExecutionResult protoStep' ≫= ExecutionResult))
           = true).
Proof.
  destruct protocol_error_gives_failed_result as [Hround Hstep]. split.
  - destruct (Hround (executeStepRequest (plainProtoStep "a step")) downExecutor I)
      as (r & e' & Hrun & _ & Hf & _ & Hrec & Hmsg).
    exists r, e'. repeat split; try assumption. apply Hmsg. reflexivity.
  - destruct (Hstep (plainProtoStep "a step") downExecutor _ _ None _
                eq_refl eq_refl eq_refl)
      as (protoStep' & e' & after & Hrun & Hsent & Hafter & _ & Hf & _).
    exists protoStep', e', after. repeat split; try assumption.
    rewrite Hsent. simpl. rewrite Hafter. reflexivity.
Defined.

(** ** Arithmetic of the 64-bit integers *)

Lemma wrap64_inRange z : inRange64 (wrap64 z).
Proof.
  unfold inRange64, wrap64.
  pose proof (Z.mod_pos_bound (z + 2 ^ 63) (2 ^ 64) eq_refl). lia.
Qed.

Lemma wrap64_id z : inRange64 z -> wrap64 z = z.
Proof.
  unfold inRange64, wrap64. intros H.
  rewrite Z.mod_small by lia. lia.
Qed.

Lemma wrap64_add_l a b : wrap64 (wrap64 a + b) = wrap64 (a + b).
Proof.
  unfold wrap64.
  replace ((a + 2 ^ 63) mod 2 ^ 64 - 2 ^ 63 + b + 2 ^ 63)
    with ((a + 2 ^ 63) mod 2 ^ 64 + b) by lia.
  rewrite Zplus_mod_idemp_l. f_equal. f_equal. lia.
Qed.

Lemma add64_wrap_l a b : add64 (wrap64 a) b = wrap64 (a + b).
Proof. unfold add64. apply wrap64_add_l. Qed.

(** ** The result of a concept *)

(** The pointer of an item to its execution result. *)
Definition itemResult (item : ProtoItem) : option addr :=
  match item with
  | ItemStep s => StepExecutionResult s ≫= ExecutionResult
  | ItemConcept _ _ res => res ≫= ExecutionResult
  | _ => None
  end.

Definition itemFailed (e : specExecutor) (item : ProtoItem) : bool :=
  GetFailed (readResult e (itemResult item)).

(** The sum of the recorded execution times of items. *)
Definition sumTimes (e : specExecutor) (items : list ProtoItem) : Z :=
  foldr Z.add 0 (map (itemExecutionTime e) items).

Lemma itemExecutionTime_itemResult e item :
  itemExecutionTime e item = GetExecutionTime (readResult e (itemResult item)).
Proof. destruct item; reflexivity. Qed.

Lemma sumTimes_app e xs ys : sumTimes e (xs ++ ys) = sumTimes e xs + sumTimes e ys.
Proof.
  unfold sumTimes. induction xs as [|x xs IH]; simpl; [reflexivity|].
  rewrite IH. lia.
Qed.

(** No failed child: the walk reaches the end, with the time of all children,
    and writes nothing. *)
Lemma findFailedChild_none protoSteps : forall t e,
  Forall (fun item => itemFailed e item = false) protoSteps ->
  findFailedChild protoSteps (wrap64 t) e
  = Some ((wrap64 (t + sumTimes e protoSteps), None), e).
Proof.
  induction protoSteps as [|x xs IH]; intros t e Hall.
  - simpl. unfold ret, sumTimes. simpl. rewrite Z.add_0_r. reflexivity.
  - apply Forall_cons in Hall. destruct Hall as [Hx Hxs].
    unfold sumTimes. simpl foldr. fold (sumTimes e xs).
    replace (t + (itemExecutionTime e x + sumTimes e xs))
      with ((t + itemExecutionTime e x) + sumTimes e xs) by lia.
    unfold itemFailed in Hx.
    destruct x as [s|cs ss res|text|text|tags]; simpl in *.
    + unfold bind, loadResult, gets. rewrite Hx, add64_wrap_l. apply IH, Hxs.
    + unfold bind, loadResult, gets. rewrite Hx, add64_wrap_l. apply IH, Hxs.
    + rewrite Z.add_0_r. apply IH, Hxs.
    + rewrite Z.add_0_r. apply IH, Hxs.
    + rewrite Z.add_0_r. apply IH, Hxs.
Qed.

(** A first failed child: its object gets the time accumulated up to and
    including it, and the slot returned points to that same object. *)
Lemma findFailedChild_found pre : forall t e x post a r,
  Forall (fun item => itemFailed e item = false) pre ->
  itemResult x = Some a ->
  results e !! a = Some r ->
  GetFailed (Some r) = true ->
  findFailedChild (pre ++ x :: post) (wrap64 t) e
  = Some ((wrap64 (t + sumTimes e (pre ++ [x])),
           Some (mkProtoStepExecutionResult (Some a) None None (Some false) None)),
          set_results
            (<[a := setExecutionTime (wrap64 (t + sumTimes e (pre ++ [x]))) r]> (results e))
            e).
Proof.
  induction pre as [|y ys IH]; intros t e x post a r Hall Hptr Hr Hfail.
  - simpl app. unfold sumTimes. simpl foldr. rewrite Z.add_0_r.
    rewrite itemExecutionTime_itemResult, Hptr. simpl readResult. rewrite Hr.
    destruct x as [s|cs ss res|text|text|tags]; simpl in Hptr; try discriminate;
      simpl findFailedChild; unfold bind, loadResult, gets; cbv beta; rewrite ?Hptr;
      unfold readResult; rewrite Hr, Hfail; simpl deref; unfold ret;
      unfold updateResult; rewrite Hr, add64_wrap_l; reflexivity.
  - apply Forall_cons in Hall. destruct Hall as [Hy Hys].
    simpl app. unfold sumTimes. simpl foldr. fold (sumTimes e (ys ++ [x])).
    replace (t + (itemExecutionTime e y + sumTimes e (ys ++ [x])))
      with ((t + itemExecutionTime e y) + sumTimes e (ys ++ [x])) by lia.
    unfold itemFailed in Hy.
    destruct y as [s|cs ss res|text|text|tags]; simpl in *.
    + unfold bind at 1, loadResult, gets. rewrite Hy, add64_wrap_l.
      apply IH; assumption.
    + unfold bind at 1, loadResult, gets. rewrite Hy, add64_wrap_l.
      apply IH; assumption.
    + rewrite Z.add_0_r. apply IH; assumption.
    + rewrite Z.add_0_r. apply IH; assumption.
    + rewrite Z.add_0_r. apply IH; assumption.
Qed.

(** Two steps, the first succeeded in 10 ms and the second failed in 5 ms,
    as the children of a concept whose result is not set yet. *)
Definition executedStep (text : string) (result : addr) : ProtoItem :=
  ItemStep (mkProtoStep text text []
              (Some (mkProtoStepExecutionResult (Some result) None None (Some false) None))).

Definition twoStepResults : list ProtoExecutionResult :=
  [mkProtoExecutionResult (Some false) None None None (Some 10) [];
   mkProtoExecutionResult (Some true) None (Some "assertion failed") None (Some 5) []].

Definition twoStepExecutor : specExecutor :=
  mkSpecExecutor emptySpecification (mkIndexRange 0 0) downRunner [] []
    (Some inScenarioInfo) (Some (NewSpecResult emptySpecification)) 0 [] []
    noErrors [] twoStepResults.

Definition twoStepConcept : ProtoConcept :=
  mkProtoConcept (plainProtoStep "a concept")
    [executedStep "first" 0%nat; executedStep "second" 1%nat] None.

(** C10: when the walk over the children of a concept finds a first failed
    child, the result of the concept points to the very object that the
    child's result points to, and the execution time of that object is
    overwritten with the sum of the children's times up to and including the
    failed child (in 64-bit arithmetic, so the sum itself when it is in
    range): afterwards the time recorded for the failed child is the time of
    the concept, and no longer the child's own. *)
Theorem concept_result_is_the_failed_child_object :
  forall protoConcept e pre x post a r,
    Steps protoConcept = pre ++ x :: post ->
    Forall (fun item => itemFailed e item = false) pre ->
    itemResult x = Some a ->
    results e !! a = Some r ->
    GetFailed (Some r) = true ->
    exists c' e',
      let total := sumTimes e (pre ++ [x]) in
      setExecutionResultForConcept protoConcept e = Some (c', e')
      /\ ConceptExecutionResult c' ≫= ExecutionResult = itemResult x
      /\ StepExecutionResult (ConceptStep c') = ConceptExecutionResult c'
      /\ Steps c' = Steps protoConcept
      /\ results e' = <[a := setExecutionTime (wrap64 total) r]> (results e)
      /\ itemExecutionTime e' x = wrap64 total
      /\ GetExecutionTime (readResult e' (ConceptExecutionResult c' ≫= ExecutionResult))
         = wrap64 total
      /\ (inRange64 total -> itemExecutionTime e' x = total).
Proof.
  intros protoConcept e pre x post a r Hsteps Hpre Hptr Hr Hfail.
  unfold setExecutionResultForConcept, bind. rewrite Hsteps.
  change 0 with (wrap64 0) at 1.
  rewrite (findFailedChild_found pre 0 e x post a r Hpre Hptr Hr Hfail).
  rewrite Z.add_0_l. cbv beta iota. unfold ret.
  eexists _, _. cbv zeta. split; [reflexivity|].
  assert (Hlen : (a < length (results e))%nat) by (eapply lookup_lt_Some; eassumption).
  assert (Hread : forall v, <[a := v]> (results e) !! a = Some v)
    by (intros v; apply list_lookup_insert_eq; exact Hlen).
  assert (Htime : itemExecutionTime
                    (set_results
                       (<[a := setExecutionTime (wrap64 (sumTimes e (pre ++ [x]))) r]>
                          (results e)) e) x
                  = wrap64 (sumTimes e (pre ++ [x]))).
  { rewrite itemExecutionTime_itemResult, Hptr. simpl. rewrite Hread. reflexivity. }
  simpl. rewrite Hptr. simpl. rewrite Hread. simpl.
  repeat split; try reflexivity; try exact Htime.
  intros Hrange. rewrite Htime. apply wrap64_id, Hrange.
Qed.

Lemma concept_result_is_the_failed_child_object_witness :
  exists c' e',
    setExecutionResultForConcept twoStepConcept twoStepExecutor = Some (c', e')
    /\ ConceptExecutionResult c' ≫= ExecutionResult = Some 1%nat
    /\ itemExecutionTime twoStepExecutor (executedStep "second" 1%nat) = 5
    /\ itemExecutionTime e' (executedStep "second" 1%nat) = 15.
Proof.
  destruct (concept_result_is_the_failed_child_object twoStepConcept twoStepExecutor
              [executedStep "first" 0%nat] (executedStep "second" 1%nat) [] 1%nat
              (mkProtoExecutionResult (Some true) None (Some "assertion failed")
                 None (Some 5) [])
              eq_refl)
    as (c' & e' & Hrun & Hptr & _ & _ & _ & _ & _ & Htime);
    [repeat constructor|reflexivity|reflexivity|reflexivity|].
  exists c', e'. repeat split; try assumption.
  apply Htime. unfold inRange64. vm_compute. split; [discriminate|reflexivity].
Defined.

(** ** Execution of items and concepts *)

(** An item as resolution leaves it: a step has a result slot without an
    execution result, a concept has no result and its children are as
    resolution leaves them. *)
Fixpoint unexecuted (item : ProtoItem) : bool :=
  match item with
  | ItemStep s =>
      match StepExecutionResult s with
      | Some r => bool_decide (ExecutionResult r = None)
      | None => false
      end
  | ItemConcept _ protoSteps res =>
      bool_decide (res ≫= ExecutionResult = None) && forallb unexecuted protoSteps
  | _ => true
  end.

Lemma ProtoItem_nested_ind (P : ProtoItem -> Prop) :
  (forall s, P (ItemStep s)) ->
  (forall cs protoSteps res, Forall P protoSteps -> P (ItemConcept cs protoSteps res)) ->
  (forall text, P (ItemComment text)) ->
  (forall text, P (ItemTable text)) ->
  (forall tags, P (ItemTags tags)) ->
  forall item, P item.
Proof.
  intros Hstep Hconcept Hcomment Htable Htags.
  fix IH 1. intros [s|cs protoSteps res|text|text|tags].
  - apply Hstep.
  - apply Hconcept. induction protoSteps as [|x xs IHxs]; constructor.
    + apply IH.
    + apply IHxs.
  - apply Hcomment.
  - apply Htable.
  - apply Htags.
Qed.

Definition validResult (e : specExecutor) (item : ProtoItem) : Prop :=
  forall a, itemResult item = Some a -> (a < length (results e))%nat.

Lemma unexecuted_itemResult item : unexecuted item = true -> itemResult item = None.
Proof.
  destruct item as [s|cs ss res|text|text|tags]; simpl; try reflexivity.
  - destruct (StepExecutionResult s) as [r|]; [|discriminate].
    intros H. apply bool_decide_eq_true in H. exact H.
  - intros H. apply andb_true_iff in H. destruct H as [H _].
    apply bool_decide_eq_true in H. exact H.
Qed.

Lemma readResult_grow e e' new p :
  results e' = results e ++ new ->
  (forall a, p = Some a -> (a < length (results e))%nat) ->
  readResult e' p = readResult e p.
Proof.
  intros Hres Hvalid. destruct p as [a|]; [|reflexivity]. simpl.
  rewrite Hres. apply lookup_app_l. apply Hvalid. reflexivity.
Qed.

Lemma itemFailed_grow e e' new item :
  results e' = results e ++ new -> validResult e item ->
  itemFailed e' item = itemFailed e item.
Proof.
  intros Hres Hvalid. unfold itemFailed. erewrite readResult_grow; eauto.
Qed.

Lemma itemExecutionTime_grow e e' new item :
  results e' = results e ++ new -> validResult e item ->
  itemExecutionTime e' item = itemExecutionTime e item.
Proof.
  intros Hres Hvalid. rewrite !itemExecutionTime_itemResult.
  erewrite readResult_grow; eauto.
Qed.

Lemma sumTimes_grow e e' new items :
  results e' = results e ++ new -> Forall (validResult e) items ->
  sumTimes e' items = sumTimes e items.
Proof.
  intros Hres Hvalid. unfold sumTimes. induction Hvalid as [|x xs Hx Hxs IH]; simpl.
  - reflexivity.
  - rewrite IH. erewrite itemExecutionTime_grow; eauto.
Qed.

Lemma validResult_grow e e' new item :
  results e' = results e ++ new -> validResult e item -> validResult e' item.
Proof.
  intros Hres Hvalid a Ha. rewrite Hres, length_app. specialize (Hvalid a Ha). lia.
Qed.

Lemma sumTimes_unexecuted e items :
  forallb unexecuted items = true -> sumTimes e items = 0.
Proof.
  unfold sumTimes. induction items as [|x xs IH]; simpl; [reflexivity|].
  intros H. apply andb_true_iff in H. destruct H as [Hx Hxs].
  rewrite IH by exact Hxs. rewrite itemExecutionTime_itemResult.
  rewrite (unexecuted_itemResult _ Hx). reflexivity.
Qed.

Lemma itemFailed_unexecuted e items :
  forallb unexecuted items = true ->
  Forall (fun item => itemFailed e item = false) items.
Proof.
  induction items as [|x xs IH]; simpl; intros H; constructor.
  - apply andb_true_iff in H. destruct H as [Hx _].
    unfold itemFailed. rewrite (unexecuted_itemResult _ Hx). reflexivity.
  - apply IH. apply andb_true_iff in H. apply H.
Qed.

(** The children of a concept run in order until one fails: each child by
    [executeItem], from the state its predecessor left, to which the interim
    result object of the concept has been added; [executed] are the children
    after their execution and the flag tells whether the last one failed. *)
Inductive childrenRun : list ProtoItem -> specExecutor -> list ProtoItem -> bool
                        -> specExecutor -> Prop :=
| childrenRun_nil e : childrenRun [] e [] false e
| childrenRun_failed x rest e x' e' :
    executeItem x e = Some (true, x', e') ->
    childrenRun (x :: rest) e [x'] true e'
| childrenRun_next x rest e x' e1 r executed failed e2 :
    executeItem x e = Some (false, x', e1) ->
    childrenRun rest (set_results (results e1 ++ [r]) e1) executed failed e2 ->
    childrenRun (x :: rest) e (x' :: executed) failed e2.

(** What the execution of an item establishes: only new result objects; the
    flag returned is the failed flag of the item's result; a failed result is
    one of the new objects. *)
Definition itemPost (e : specExecutor) (a : bool * ProtoItem) (e' : specExecutor) : Prop :=
  (exists new, results e' = results e ++ new)
  /\ a.1 = itemFailed e' a.2
  /\ validResult e' a.2
  /\ (a.1 = true -> exists p, itemResult a.2 = Some p /\ (length (results e) <= p)%nat)
  /\ inScenario e'
  /\ execFrame e e'.

(** The result of a concept between two children: none before the first
    child, and then a fresh object, not failed, with the time of the children
    executed so far. *)
Definition interim (e : specExecutor) (done : list ProtoItem)
    (res : option ProtoStepExecutionResult) : Prop :=
  (done = [] /\ res ≫= ExecutionResult = None)
  \/ (exists p r, res ≫= ExecutionResult = Some p /\ results e !! p = Some r
                  /\ GetFailed (Some r) = false
                  /\ GetExecutionTime (Some r) = wrap64 (sumTimes e done)).

Definition conceptPointer (c : ProtoConcept) : option addr :=
  ConceptExecutionResult c ≫= ExecutionResult.

Definition loopPost (e : specExecutor) (done todo : list ProtoItem)
    (a : bool * ProtoConcept) (e' : specExecutor) : Prop :=
  exists executed e_last,
    childrenRun todo e executed a.1 e_last
    /\ Steps a.2 = done ++ executed ++ drop (length executed) todo
    /\ sent e' = sent e_last
    /\ GetFailed (readResult e' (conceptPointer a.2)) = a.1
    /\ GetExecutionTime (readResult e' (conceptPointer a.2))
       = wrap64 (sumTimes e_last (done ++ executed))
    /\ (a.1 = false -> length executed = length todo)
    /\ (exists new, results e' = results e ++ new)
    /\ (forall p, conceptPointer a.2 = Some p -> (p < length (results e'))%nat)
    /\ (a.1 = true -> exists p, conceptPointer a.2 = Some p /\ (length (results e) <= p)%nat)
    /\ inScenario e'
    /\ execFrame e e'.

Lemma executeConceptSteps_spec todo : forall done cs res e,
  Forall (fun item => forall e, inScenario e -> returns (executeItem item) e (itemPost e)) todo ->
  forallb unexecuted todo = true ->
  inScenario e ->
  Forall (fun item => itemFailed e item = false /\ validResult e item) done ->
  interim e done res ->
  returns (executeConceptSteps executeItem cs res done todo) e (loopPost e done todo).
Proof.
  induction todo as [|x rest IH]; intros done cs res e Hexec Hun Hin Hdone Hint.
  - assert (Hflag : GetFailed (readResult e (res ≫= ExecutionResult)) = false
                    /\ GetExecutionTime (readResult e (res ≫= ExecutionResult))
                       = wrap64 (sumTimes e done)
                    /\ forall p, res ≫= ExecutionResult = Some p -> (p < length (results e))%nat).
    { destruct Hint as [[-> Hnone]|(p & r & Hp & Hr & Hf & Ht)].
      - rewrite Hnone. split; [reflexivity|]. split; [reflexivity|].
        intros p Hp. congruence.
      - rewrite Hp. simpl. rewrite Hr. split; [exact Hf|]. split; [exact Ht|].
        intros p' Hp'. assert (p' = p) as -> by congruence.
        eapply lookup_lt_Some. eassumption. }
    destruct Hflag as (Hf & Ht & Hv).
    simpl. repeat step. cbn [ConceptExecutionResult]. rewrite Hf.
    exists [], e. unfold conceptPointer. cbn [fst snd Steps ConceptExecutionResult].
    split; [constructor|]. split; [rewrite !app_nil_r; reflexivity|].
    split; [reflexivity|]. split; [exact Hf|]. rewrite app_nil_r. split; [exact Ht|].
    split; [reflexivity|]. split; [exists []; rewrite app_nil_r; reflexivity|].
    split; [exact Hv|]. split; [discriminate|]. split; [exact Hin|repeat split].
  - apply Forall_cons in Hexec. destruct Hexec as [Hx Hrest].
    simpl in Hun. apply andb_true_iff in Hun. destruct Hun as [Hunx Hunrest].
    destruct (Hx e Hin) as ([f x'] & e1 & Hrun & Hnew1 & Hflag & Hvalid & Hnewptr & Hin1 & Hframe1).
    destruct Hnew1 as [new1 Hnew1]. cbn [fst snd] in *.
    simpl executeConceptSteps. apply returns_bind.
    eapply returns_eq; [exact Hrun|]. cbv beta iota.
    assert (Hdone1 : Forall (fun item => itemFailed e1 item = false /\ validResult e1 item) done).
    { eapply Forall_impl; [exact Hdone|]. intros y [Hy Hvy]. split.
      - erewrite itemFailed_grow; eauto.
      - eapply validResult_grow; eauto. }
    assert (Hdone1f : Forall (fun item => itemFailed e1 item = false) done).
    { eapply Forall_impl; [exact Hdone1|]. intros y [Hy _]. exact Hy. }
    assert (Hdone1v : Forall (validResult e1) done).
    { eapply Forall_impl; [exact Hdone1|]. intros y [_ Hy]. exact Hy. }
    apply returns_bind. unfold setExecutionResultForConcept.
    cbn [Steps ConceptStep ConceptExecutionResult].
    apply returns_bind.
    destruct f.
    + destruct (Hnewptr eq_refl) as (p & Hp & Hge).
      assert (Hobj : exists r, results e1 !! p = Some r /\ GetFailed (Some r) = true).
      { unfold itemFailed in Hflag. rewrite Hp in Hflag. simpl in Hflag.
        destruct (results e1 !! p) as [r|]; [|discriminate].
        exists r. split; [reflexivity|symmetry; exact Hflag]. }
      destruct Hobj as (r & Hr & Hfail).
      eapply returns_eq.
      { change 0 with (wrap64 0).
        apply (findFailedChild_found done 0 e1 x' rest p r); assumption. }
      rewrite Z.add_0_l. repeat (cbv beta iota; step). unfold loopPost.
      set (total := wrap64 (sumTimes e1 (done ++ [x']))).
      assert (Hlen : (p < length (results e1))%nat) by (eapply lookup_lt_Some; eassumption).
      exists [x'], e1. unfold conceptPointer. cbn [fst snd Steps ConceptExecutionResult].
      simpl mbind. unfold readResult. cbn [results set_results].
      rewrite list_lookup_insert_eq by exact Hlen.
      split; [constructor; exact Hrun|].
      split; [simpl; rewrite drop_0; reflexivity|].
      split; [reflexivity|]. split; [exact Hfail|]. split; [reflexivity|].
      split; [discriminate|].
      split.
      { exists (<[(p - length (results e))%nat := setExecutionTime total r]> new1).
        rewrite Hnew1. apply insert_app_r_alt. exact Hge. }
      split.
      { intros p' Hp'. assert (p' = p) as -> by congruence.
        rewrite length_insert. exact Hlen. }
      split; [intros _; exists p; split; [reflexivity|exact Hge]|].
      split; [exact Hin1|].
      transitivity e1; [exact Hframe1|repeat split].
    + assert (Hall : Forall (fun item => itemFailed e1 item = false) (done ++ x' :: rest)).
      { apply Forall_app. split; [exact Hdone1f|]. constructor; [symmetry; exact Hflag|].
        apply itemFailed_unexecuted, Hunrest. }
      eapply returns_eq.
      { change 0 with (wrap64 0). apply findFailedChild_none, Hall. }
      rewrite Z.add_0_l. repeat (cbv beta iota; step). cbv beta iota.
      assert (Hsum : sumTimes e1 (done ++ x' :: rest) = sumTimes e1 (done ++ [x'])).
      { rewrite !sumTimes_app. f_equal. change (x' :: rest) with ([x'] ++ rest).
        rewrite sumTimes_app, (sumTimes_unexecuted _ _ Hunrest). lia. }
      rewrite Hsum.
      set (r2 := mkProtoExecutionResult (Some false) None None None
                   (Some (wrap64 (sumTimes e1 (done ++ [x'])))) []).
      set (e2 := set_results (results e1 ++ [r2]) e1).
      assert (Hres2 : results e2 = results e1 ++ [r2]) by reflexivity.
      eapply returns_mono.
      { apply IH.
        - exact Hrest.
        - exact Hunrest.
        - exact Hin1.
        - apply Forall_app. split.
          + eapply Forall_impl; [exact Hdone1|]. intros y [Hy Hvy]. split.
            * erewrite itemFailed_grow; eauto.
            * eapply validResult_grow; eauto.
          + constructor; [|constructor]. split.
            * erewrite itemFailed_grow; eauto.
            * eapply validResult_grow; eauto.
        - right. exists (length (results e1)), r2. split; [reflexivity|].
          split; [apply lookup_snoc|]. split; [reflexivity|].
          simpl. f_equal. symmetry. eapply sumTimes_grow; [exact Hres2|].
          apply Forall_app. split; [exact Hdone1v|]. constructor; [exact Hvalid|constructor]. }
      intros [f c'] e' (executed & e_last & Hchain & Hsteps & Hsent & Hcf & Hct & Hlenx
                        & [new2 Hnew2] & Hcv & Hcnew & Hin' & Hframe').
      cbn [fst snd] in *.
      exists (x' :: executed), e_last. cbn [fst snd].
      split; [eapply childrenRun_next; eassumption|].
      split; [rewrite Hsteps, <- app_assoc; reflexivity|].
      split; [exact Hsent|]. split; [exact Hcf|].
      split; [rewrite Hct, <- app_assoc; reflexivity|].
      split; [intros Hf; simpl; f_equal; apply Hlenx, Hf|].
      split.
      { exists (new1 ++ [r2] ++ new2). rewrite Hnew2, Hres2, Hnew1, <- !app_assoc. reflexivity. }
      split; [exact Hcv|].
      split.
      { intros Hf. destruct (Hcnew Hf) as (p & Hp & Hge). exists p. split; [exact Hp|].
        rewrite Hres2, Hnew1, !length_app in Hge. lia. }
      split; [exact Hin'|].
      transitivity e1; [exact Hframe1|]. transitivity e2; [repeat split|exact Hframe'].
Qed.

Lemma executeItem_spec item :
  unexecuted item = true ->
  forall e, inScenario e -> returns (executeItem item) e (itemPost e).
Proof.
  induction item as [s|cs protoSteps res IH|text|text|tags] using ProtoItem_nested_ind;
    intros Hun e Hin.
  - simpl in Hun. destruct (StepExecutionResult s) as [old|] eqn:Hold; [|discriminate].
    apply bool_decide_eq_true in Hun.
    unfold inScenario in Hin.
    destruct (currentExecutionInfo e) as [[spec scenario step0]|] eqn:Hinfo; [|contradiction].
    simpl in Hin. destruct Hin as [[spec' ->] [scenario' ->]].
    simpl executeItem. apply returns_bind.
    eapply returns_mono; [eapply executeStep_spec; eassumption|].
    intros [f s'] e' (r & after & pre & post & Hres & Hstep & Hflag & _ & _ & _ & _ & Hin' & Hframe).
    cbn [fst snd] in *. cbv beta iota. step. unfold itemPost. cbn [fst snd].
    assert (Hptr : itemResult (ItemStep s') = Some (length (results e))).
    { rewrite Hstep. reflexivity. }
    split; [exists [r]; exact Hres|].
    split.
    { unfold itemFailed. rewrite Hptr. simpl. rewrite Hres, lookup_snoc. exact Hflag. }
    split.
    { intros a Ha. rewrite Hptr in Ha. inversion Ha. subst.
      rewrite Hres, length_app. simpl. lia. }
    split; [intros _; exists (length (results e)); split; [exact Hptr|lia]|].
    split; assumption.
  - simpl in Hun. apply andb_true_iff in Hun. destruct Hun as [Hres Hsteps].
    apply bool_decide_eq_true in Hres.
    simpl executeItem. step. step. step.
    set (e0 := set_reported (reported e ++ [ConceptStart cs]) e).
    eapply returns_mono.
    { apply (executeConceptSteps_spec protoSteps [] cs res e0).
      - clear - IH Hsteps. induction IH as [|x xs Hx Hxs IHxs]; constructor.
        + apply Hx. simpl in Hsteps. apply andb_true_iff in Hsteps. apply Hsteps.
        + apply IHxs. simpl in Hsteps. apply andb_true_iff in Hsteps. apply Hsteps.
      - exact Hsteps.
      - exact Hin.
      - constructor.
      - left. split; [reflexivity|exact Hres]. }
    intros [f c'] e' (executed & e_last & _ & _ & _ & Hcf & _ & _ & Hnew & Hcv & Hcnew & Hin' & Hframe).
    cbn [fst snd] in *. cbv beta iota. step. unfold itemPost. cbn [fst snd].
    split; [exact Hnew|]. split; [symmetry; exact Hcf|]. split; [exact Hcv|].
    split; [exact Hcnew|]. split; [exact Hin'|].
    transitivity e0; [repeat split|exact Hframe].
  - simpl. step. unfold itemPost. cbn [fst snd].
    split; [exists []; rewrite app_nil_r; reflexivity|].
    split; [reflexivity|]. split; [intros a Ha; discriminate Ha|].
    split; [discriminate|]. split; [exact Hin|reflexivity].
  - simpl. step. unfold itemPost. cbn [fst snd].
    split; [exists []; rewrite app_nil_r; reflexivity|].
    split; [reflexivity|]. split; [intros a Ha; discriminate Ha|].
    split; [discriminate|]. split; [exact Hin|reflexivity].
  - simpl. step. unfold itemPost. cbn [fst snd].
    split; [exists []; rewrite app_nil_r; reflexivity|].
    split; [reflexivity|]. split; [intros a Ha; discriminate Ha|].
    split; [discriminate|]. split; [exact Hin|reflexivity].
Qed.

(** A runner that answers every hook with success in no time, and the steps
    by their text: the step [first] succeeds in 10 ms, [second] fails in
    5 ms, any other succeeds in 1 ms. *)
Definition statusReply (r : ProtoExecutionResult) : ChannelReply :=
  Response Message_ExecutionStatusResponse (Some (mkExecutionStatusResponse (Some r))).

Definition succeeded (t : Z) : ProtoExecutionResult :=
  mkProtoExecutionResult (Some false) None None None (Some t) [].

Definition failedWith (t : Z) : ProtoExecutionResult :=
  mkProtoExecutionResult (Some true) None (Some "assertion failed") None (Some t) [].

Definition scriptedRunner (history : list Message) (message : Message) : ChannelReply :=
  match ExecuteStepRequest_ message with
  | Some request =>
      if String.eqb (ActualStepText request) "first" then statusReply (succeeded 10)
      else if String.eqb (ActualStepText request) "second" then statusReply (failedWith 5)
      else statusReply (succeeded 1)
  | None => statusReply (succeeded 0)
  end.

Definition scriptedExecutor : specExecutor :=
  mkSpecExecutor emptySpecification (mkIndexRange 0 0) scriptedRunner [] []
    (Some inScenarioInfo) (Some (NewSpecResult emptySpecification)) 0 [] []
    noErrors [] [].

Definition threeStepConcept : ProtoConcept :=
  mkProtoConcept
    (mkProtoStep "a concept" "a concept" []
       (Some (mkProtoStepExecutionResult None None None (Some false) None)))
    [ItemStep (plainProtoStep "first"); ItemStep (plainProtoStep "second");
     ItemStep (plainProtoStep "third")]
    None.

(** C2: the execution of a concept, as resolution leaves it and inside a
    scenario, returns.  Its children are executed in order and the execution
    stops at the first child that fails: the children after it are left as
    they were.  The result of the concept is failed exactly when a child
    failed, and its execution time is the sum of the times of the executed
    children, up to and including the failed one (in 64-bit arithmetic, so
    the sum itself when it is in range); when no child fails all children
    are executed. *)
Theorem concept_stops_at_first_failure_and_sums_times :
  forall protoConcept e,
    inScenario e ->
    conceptPointer protoConcept = None ->
    forallb unexecuted (Steps protoConcept) = true ->
    exists failed c' e' executed e_last,
      let total := sumTimes e_last executed in
      executeConcept protoConcept e = Some (failed, c', e')
      /\ childrenRun (Steps protoConcept)
           (set_reported (reported e ++ [ConceptStart (ConceptStep protoConcept)]) e)
           executed failed e_last
      /\ Steps c' = executed ++ drop (length executed) (Steps protoConcept)
      /\ sent e' = sent e_last
      /\ GetFailed (readResult e' (conceptPointer c')) = failed
      /\ GetExecutionTime (readResult e' (conceptPointer c')) = wrap64 total
      /\ (inRange64 total ->
          GetExecutionTime (readResult e' (conceptPointer c')) = total)
      /\ (failed = false -> length executed = length (Steps protoConcept)).
Proof.
  intros [cs protoSteps res] e Hin Hres Hun.
  unfold conceptPointer in Hres. cbn [ConceptExecutionResult Steps ConceptStep] in *.
  set (e0 := set_reported (reported e ++ [ConceptStart cs]) e).
  destruct (executeConceptSteps_spec protoSteps [] cs res e0) as
    ([f c'] & e' & Hrun & executed & e_last & Hchain & Hsteps & Hsent & Hcf & Hct & Hlen & _).
  - clear - Hun. induction protoSteps as [|x xs IH]; constructor.
    + intros e1 Hin1. apply executeItem_spec; [|exact Hin1].
      simpl in Hun. apply andb_true_iff in Hun. apply Hun.
    + apply IH. simpl in Hun. apply andb_true_iff in Hun. apply Hun.
  - exact Hun.
  - exact Hin.
  - constructor.
  - left. split; [reflexivity|exact Hres].
  - cbn [fst snd] in *. exists f, c', e', executed, e_last. cbv zeta.
    split.
    { unfold executeConcept. cbn [ConceptExecutionResult Steps ConceptStep].
      unfold bind, report, modify. exact Hrun. }
    split; [exact Hchain|]. split; [exact Hsteps|]. split; [exact Hsent|].
    split; [exact Hcf|]. split; [exact Hct|].
    split; [intros Hrange; rewrite Hct; apply wrap64_id, Hrange|exact Hlen].
Qed.

Lemma concept_stops_at_first_failure_and_sums_times_witness :
  exists c' e',
    executeConcept threeStepConcept scriptedExecutor = Some (true, c', e')
    /\ GetFailed (readResult e' (conceptPointer c')) = true
    /\ GetExecutionTime (readResult e' (conceptPointer c')) = 15
    /\ Steps c' !! 2%nat = Some (ItemStep (plainProtoStep "third"))
    /\ map MessageType (sent e')
       = [Message_StepExecutionStarting; Message_ExecuteStep; Message_StepExecutionEnding;
          Message_StepExecutionStarting; Message_ExecuteStep; Message_StepExecutionEnding].
Proof.
  destruct (concept_stops_at_first_failure_and_sums_times threeStepConcept
              scriptedExecutor (conj (ex_intro _ _ eq_refl) (ex_intro _ _ eq_refl))
              eq_refl eq_refl)
    as (failed & c' & e' & executed & e_last & Hrun & _).
  vm_compute in Hrun. inversion Hrun. subst.
  eexists _, _. split; [vm_compute; reflexivity|].
  repeat split; vm_compute; reflexivity.
Defined.

(** ** Resolution *)

(** Resolution works on the store of steps and on nothing else. *)
Definition resolveFrame (e e' : specExecutor) : Prop :=
  specification e' = specification e /\ dataTableIndex e' = dataTableIndex e
  /\ runner e' = runner e /\ sent e' = sent e /\ notified e' = notified e
  /\ currentExecutionInfo e' = currentExecutionInfo e
  /\ specResult e' = specResult e /\ currentTableRow e' = currentTableRow e
  /\ reported e' = reported e /\ logged e' = logged e /\ errMap e' = errMap e
  /\ results e' = results e.

Global Instance resolveFrame_preorder : PreOrder resolveFrame.
Proof.
  split.
  - intros e. repeat split.
  - intros e1 e2 e3 H1 H2. unfold resolveFrame in *.
    destruct H1 as (A1 & A2 & A3 & A4 & A5 & A6 & A7 & A8 & A9 & A10 & A11 & A12).
    destruct H2 as (B1 & B2 & B3 & B4 & B5 & B6 & B7 & B8 & B9 & B10 & B11 & B12).
    repeat split; congruence.
Qed.

(** Proofs that a computation preserves a preorder, primitive by primitive. *)
Ltac pbind := apply preserves_bind; [typeclasses eauto| |].

Ltac preserve :=
  try assumption;
  repeat first
    [ apply preserves_ret; typeclasses eauto
    | apply preserves_panic
    | apply preserves_gets; typeclasses eauto
    | apply preserves_deref; typeclasses eauto
    | pbind; [|intros ?]
    | lazymatch goal with
      | |- preserves _ (match ?x with _ => _ end) => destruct x
      end ].

Lemma newStep_resolveFrame s : preserves resolveFrame (newStep s).
Proof. intros e a e' H. inversion H. subst. repeat split. Qed.

Lemma updateStep_resolveFrame a f : preserves resolveFrame (updateStep a f).
Proof.
  intros e b e' H. unfold updateStep in H. destruct (steps e !! a); [|discriminate].
  inversion H. subst. repeat split.
Qed.

Lemma loadStep_resolveFrame a : preserves resolveFrame (loadStep a).
Proof. unfold loadStep. preserve. Qed.

Section ResolutionFrame.

Variable FromDataTableRow : Table -> Z -> ArgLookup.
Variable PopulateConceptDynamicParams : ArgLookup -> option ArgLookup -> ArgLookup -> ArgLookup.
Variable GetResolvedParams : list StepArg -> option ArgLookup -> ArgLookup -> list ProtoParameter.

Lemma resolveToProtoStepItem_resolveFrame step :
  preserves resolveFrame (resolveToProtoStepItem FromDataTableRow GetResolvedParams step).
Proof.
  unfold resolveToProtoStepItem, updateProtoStepParameters, setSkipInfo, dataTableLookup.
  pbind; [apply loadStep_resolveFrame|intros s]. preserve.
Qed.

Lemma resolveConceptSteps_resolveFrame resolveConcept concept conceptSteps :
  (forall s, preserves resolveFrame (resolveConcept s)) ->
  forall stepIndex protoSteps,
    preserves resolveFrame
      (resolveConceptSteps FromDataTableRow GetResolvedParams resolveConcept concept
         stepIndex conceptSteps protoSteps).
Proof.
  intros Hrec. induction conceptSteps as [|step rest IH]; intros stepIndex protoSteps; simpl.
  - preserve.
  - pbind; [apply loadStep_resolveFrame|intros s].
    pbind; [|intros ?; apply IH].
    destruct (IsConcept s).
    + pbind; [apply updateStep_resolveFrame|intros _].
      pbind; [apply loadStep_resolveFrame|intros s'].
      pbind; [apply Hrec|intros item].
      unfold assignIndex. destruct (decide _); preserve.
    + pbind; [apply loadStep_resolveFrame|intros c].
      unfold dataTableLookup, updateProtoStepParameters, setSkipInfo. preserve.
Qed.

Lemma resolveToProtoConceptItem_resolveFrame depth :
  forall concept,
    preserves resolveFrame
      (resolveToProtoConceptItem FromDataTableRow PopulateConceptDynamicParams
         GetResolvedParams depth concept).
Proof.
  induction depth as [|depth IH]; intros concept; simpl.
  - preserve.
  - pbind; [apply newStep_resolveFrame|intros c].
    pbind; [unfold dataTableLookup; preserve|intros lookup].
    pbind; [|intros parentLookup].
    { destruct (Parent concept); preserve. }
    pbind; [apply updateStep_resolveFrame|intros _].
    pbind; [apply loadStep_resolveFrame|intros concept'].
    pbind; [unfold convertToProtoConcept; preserve|intros item].
    destruct item; preserve.
    apply resolveConceptSteps_resolveFrame. exact IH.
Qed.

Lemma resolveToProtoItem_resolveFrame depth item :
  preserves resolveFrame
    (resolveToProtoItem FromDataTableRow PopulateConceptDynamicParams GetResolvedParams
       depth item).
Proof.
  destruct item as [step| | | |]; simpl; [|preserve..].
  pbind; [apply loadStep_resolveFrame|intros s].
  destruct (IsConcept s).
  - apply resolveToProtoConceptItem_resolveFrame.
  - apply resolveToProtoStepItem_resolveFrame.
Qed.

Lemma resolveItems_resolveFrame depth items :
  preserves resolveFrame
    (resolveItems FromDataTableRow PopulateConceptDynamicParams GetResolvedParams
       depth items).
Proof.
  induction items as [|item rest IH]; simpl.
  - preserve.
  - destruct (decide _); [|exact IH].
    pbind; [apply resolveToProtoItem_resolveFrame|intros protoItem].
    pbind; [exact IH|intros protoItems]. preserve.
Qed.

Lemma addAllItemsForScenarioExecution_resolveFrame depth scenario scenarioResult :
  preserves resolveFrame
    (addAllItemsForScenarioExecution FromDataTableRow PopulateConceptDynamicParams
       GetResolvedParams depth scenario scenarioResult).
Proof.
  unfold addAllItemsForScenarioExecution, getContextItemsForScenarioExecution.
  pbind; [preserve|intros spec].
  pbind; [apply resolveItems_resolveFrame|intros contexts].
  pbind; [apply resolveItems_resolveFrame|intros tearDown].
  pbind; [apply resolveItems_resolveFrame|intros items]. preserve.
Qed.

End ResolutionFrame.

(** ** Resolution as a function of the parsed steps *)

(** Two step objects that differ in their [Parent] at most. *)
Definition sameStatic (s s' : Step) : Prop := setParent None s = setParent None s'.

Global Instance sameStatic_equivalence : Equivalence sameStatic.
Proof.
  unfold sameStatic. split.
  - intros s. reflexivity.
  - intros s s' H. symmetry. exact H.
  - intros s1 s2 s3 H1 H2. congruence.
Qed.

Lemma sameStatic_setParent p s : sameStatic s (setParent p s).
Proof. reflexivity. Qed.

Lemma sameStatic_fields s s' :
  sameStatic s s' ->
  LineNo s' = LineNo s /\ Value s' = Value s /\ LineText s' = LineText s
  /\ Args s' = Args s /\ IsConcept s' = IsConcept s /\ Lookup s' = Lookup s
  /\ ConceptSteps s' = ConceptSteps s /\ Step_Fragments s' = Step_Fragments s.
Proof.
  unfold sameStatic, setParent. intros H. inversion H. repeat split; congruence.
Qed.

(** A step that is the child of no concept. *)
Definition isRoot (tpl : list Step) (a : addr) : Prop :=
  Forall (fun sb => a ∉ ConceptSteps sb) tpl.

(** The store [ss] holds the steps of [tpl] at their addresses, with their
    fields as in [tpl] but for [Parent], which is as in [tpl] for the steps
    that are the child of no concept. *)
Definition agree (tpl ss : list Step) : Prop :=
  forall a s, tpl !! a = Some s ->
    exists s', ss !! a = Some s' /\ sameStatic s s' /\ (isRoot tpl a -> Parent s' = Parent s).

Lemma agree_refl tpl : agree tpl tpl.
Proof. intros a s H. exists s. split; [exact H|]. split; [reflexivity|]. intros _. reflexivity. Qed.

Lemma agree_length tpl ss : agree tpl ss -> (length tpl <= length ss)%nat.
Proof.
  intros H. destruct (decide (length tpl <= length ss)%nat) as [|Hn]; [assumption|].
  destruct (lookup_lt_is_Some_2 tpl (length ss)) as [s Hs]; [lia|].
  destruct (H _ _ Hs) as (s' & Hs' & _). apply lookup_lt_Some in Hs'. lia.
Qed.

Lemma agree_app tpl ss s : agree tpl ss -> agree tpl (ss ++ [s]).
Proof.
  intros H a t Ht. destruct (H a t Ht) as (s' & Hs' & Hst).
  exists s'. split; [|exact Hst]. apply lookup_app_l_Some. exact Hs'.
Qed.

Lemma agree_insert_fresh tpl ss c s :
  agree tpl ss -> (length tpl <= c)%nat -> agree tpl (<[c := s]> ss).
Proof.
  intros H Hc a t Ht. destruct (H a t Ht) as (s' & Hs' & Hst).
  exists s'. split; [|exact Hst].
  rewrite list_lookup_insert_ne; [exact Hs'|].
  apply lookup_lt_Some in Ht. lia.
Qed.

Lemma agree_setParent tpl ss a s p :
  agree tpl ss -> ss !! a = Some s -> ~ isRoot tpl a ->
  agree tpl (<[a := setParent p s]> ss).
Proof.
  intros H Hs Hnot b t Ht. destruct (H b t Ht) as (s' & Hs' & Hst & Hroot).
  destruct (decide (b = a)) as [->|Hne].
  - exists (setParent p s). split.
    + apply list_lookup_insert_eq. eapply lookup_lt_Some. exact Hs.
    + assert (s' = s) as -> by congruence. split; [|contradiction].
      etransitivity; [exact Hst|apply sameStatic_setParent].
  - exists s'. split; [|split; assumption].
    rewrite list_lookup_insert_ne by congruence. exact Hs'.
Qed.

Lemma loadStep_eq a s e : steps e !! a = Some s -> loadStep a e = Some (s, e).
Proof. intros H. unfold loadStep, bind, gets. rewrite H. reflexivity. Qed.

Lemma updateStep_eq a s f e :
  steps e !! a = Some s ->
  updateStep a f e = Some (tt, set_steps (<[a := f s]> (steps e)) e).
Proof. intros H. unfold updateStep. rewrite H. reflexivity. Qed.

Lemma take_S_insert {A} (l : list A) (i : nat) (x : A) :
  (i < length l)%nat -> take (S i) (<[i := x]> l) = take i l ++ [x].
Proof.
  intros H. rewrite (take_S_r _ _ x) by (apply list_lookup_insert_eq; exact H).
  rewrite take_insert_ge by lia. reflexivity.
Qed.

Section PureResolution.

Variable FromDataTableRow : Table -> Z -> ArgLookup.

Variable PopulateConceptDynamicParams : ArgLookup -> option ArgLookup -> ArgLookup -> ArgLookup.
Variable GetResolvedParams : list StepArg -> option ArgLookup -> ArgLookup -> list ProtoParameter.

(** The parsed steps, the skip maps and the lookup of the active row. *)
Variable tpl : list Step.
Variable errs : validationErrMaps.
Variable dt : ArgLookup.

Definition skipSlot (step : addr) : ProtoStepExecutionResult :=
  if decide (is_Some (stepErrs errs !! step))
  then mkProtoStepExecutionResult None None None (Some true)
         (Some "Step implemenatation not found")
  else mkProtoStepExecutionResult None None None (Some false) None.

Definition pureStep (step : addr) (s : Step) (conceptLookup : option ArgLookup)
    : option ProtoItem :=
  fragments ← updateFragments (Step_Fragments s)
                (GetResolvedParams (Args s) conceptLookup dt) 0;
  Some (ItemStep (mkProtoStep (LineText s) (Value s) fragments (Some (skipSlot step)))).

Fixpoint pureConcept (depth : nat) (s : Step) (parentLookup : option ArgLookup)
    : option ProtoItem :=
  match depth with
  | O => None
  | S depth =>
      let lookup := PopulateConceptDynamicParams (Lookup s) parentLookup dt in
      children ← mapM (fun a : addr =>
                         c ← tpl !! a;
                         if IsConcept c then pureConcept depth c (Some lookup)
                         else pureStep a c (Some lookup))
                      (ConceptSteps s);
      Some (ItemConcept
              (mkProtoStep (LineText s) (Value s) (Step_Fragments s)
                 (Some (mkProtoStepExecutionResult None None None (Some false) None)))
              children None)
  end.

Definition pureChild (depth : nat) (lookup : ArgLookup) (a : addr) : option ProtoItem :=
  c ← tpl !! a;
  if IsConcept c then pureConcept depth c (Some lookup) else pureStep a c (Some lookup).

Definition parentLookupOf (p : option addr) : option (option ArgLookup) :=
  match p with
  | None => Some None
  | Some a => s ← tpl !! a; Some (Some (Lookup s))
  end.

Definition pureItem (depth : nat) (item : Item) : option ProtoItem :=
  match item with
  | Item_Step a =>
      s ← tpl !! a;
      if IsConcept s then
        if decide (isRoot tpl a) then
          parentLookup ← parentLookupOf (Parent s);
          pureConcept depth s parentLookup
        else None
      else pureStep a s None
  | Item_Comment text => Some (ItemComment text)
  | Item_DataTable text => Some (ItemTable text)
  | Item_Tags tags => Some (ItemTags tags)
  | Item_TearDown => None
  end.

Fixpoint pureItems (depth : nat) (items : list Item) : option (list ProtoItem) :=
  match items with
  | [] => Some []
  | item :: rest =>
      if decide (Kind item ≠ TearDownKind) then
        protoItem ← pureItem depth item;
        protoItems ← pureItems depth rest;
        Some (protoItem :: protoItems)
      else pureItems depth rest
  end.

Definition pureShell (depth : nat) (spec : Specification) (scenario : Scenario)
    : option ScenarioResult :=
  contexts ← pureItems depth (map Item_Step (Contexts spec));
  tearDown ← pureItems depth (map Item_Step (TearDownSteps spec));
  items ← pureItems depth (Scenario_Items scenario);
  Some (AddItems items
          (AddTearDownSteps tearDown (AddContexts contexts (NewProtoScenario scenario)))).


(** The state supplies the skip maps and the active row that the functions
    above take. *)
Definition resolveInputs (e : specExecutor) : Prop :=
  errMap e = errs
  /\ FromDataTableRow (DataTable (specification e)) (currentTableRow e) = dt.

Lemma resolveInputs_frame e e' : resolveFrame e e' -> resolveInputs e -> resolveInputs e'.
Proof.
  intros (A1 & _ & _ & _ & _ & _ & _ & A8 & _ & _ & A11 & _) [H1 H2].
  split; [congruence|]. rewrite A1, A8. exact H2.
Qed.

Lemma dataTableLookup_eq e :
  resolveInputs e -> dataTableLookup FromDataTableRow e = Some (dt, e).
Proof. intros [_ H]. unfold dataTableLookup, gets. rewrite H. reflexivity. Qed.

(** The objects made during resolution stay as they are. *)
Definition stable (e e' : specExecutor) : Prop :=
  (length (steps e) <= length (steps e'))%nat
  /\ forall a, (length tpl <= a)%nat -> (a < length (steps e))%nat ->
               steps e' !! a = steps e !! a.

Lemma stable_refl e : stable e e.
Proof. split; [lia|]. intros. reflexivity. Qed.

Lemma stable_trans e1 e2 e3 : stable e1 e2 -> stable e2 e3 -> stable e1 e3.
Proof.
  intros [L1 H1] [L2 H2]. split; [lia|]. intros a Ha Hlt.
  rewrite H2 by lia. apply H1; assumption.
Qed.

(** The lookup that [PopulateConceptDynamicParams] finds behind [Parent]. *)
Definition parentIs (e : specExecutor) (p : option addr) (parentLookup : option ArgLookup)
    : Prop :=
  match p with
  | None => parentLookup = None
  | Some a => exists ps, steps e !! a = Some ps /\ parentLookup = Some (Lookup ps)
  end.

(** What [convertToProtoConcept] makes of a child. *)
Definition shallow (c : Step) : ProtoItem :=
  if IsConcept c then ItemConcept (convertToProtoStep c) [] None
  else ItemStep (convertToProtoStep c).

Definition refinesConcept (depth : nat) (rec : Step -> Exec ProtoItem) : Prop :=
  forall s parentLookup item b,
    tpl !! b = Some s ->
    pureConcept depth s parentLookup = Some item ->
    forall e concept,
      sameStatic s concept -> agree tpl (steps e) -> resolveInputs e ->
      parentIs e (Parent concept) parentLookup ->
      exists e', rec concept e = Some (item, e')
                 /\ agree tpl (steps e') /\ stable e e' /\ resolveFrame e e'.

Lemma resolveConceptSteps_pure depth rec c lookup :
  refinesConcept depth rec ->
  (length tpl <= c)%nat ->
  forall cs i protoSteps children e,
    mapM (pureChild depth lookup) cs = Some children ->
    length protoSteps = (i + length cs)%nat ->
    (forall j a, cs !! j = Some a ->
       ~ isRoot tpl a
       /\ exists ca, tpl !! a = Some ca /\ protoSteps !! (i + j)%nat = Some (shallow ca)) ->
    agree tpl (steps e) -> resolveInputs e ->
    (exists cstep, steps e !! c = Some cstep /\ Lookup cstep = lookup) ->
    exists e',
      resolveConceptSteps FromDataTableRow GetResolvedParams rec c i cs protoSteps e
      = Some (take i protoSteps ++ children, e')
      /\ agree tpl (steps e') /\ stable e e' /\ resolveFrame e e'.
Proof.
  intros Hrec Hc. induction cs as [|a rest IH];
    intros i protoSteps children e Hpure Hlen Hshape Hagree Hin (cstep & Hcstep & Hlookup).
  - simpl in Hpure. inversion Hpure. subst children. simpl. unfold ret.
    exists e. rewrite app_nil_r, take_ge by (simpl in Hlen; lia).
    split; [reflexivity|]. split; [exact Hagree|]. split; [apply stable_refl|reflexivity].
  - simpl in Hpure.
    destruct (pureChild depth lookup a) as [child|] eqn:Hchild; [|discriminate].
    destruct (mapM (pureChild depth lookup) rest) as [children'|] eqn:Hrest; [|discriminate].
    simpl in Hpure. inversion Hpure. subst children. clear Hpure.
    destruct (Hshape 0%nat a eq_refl) as (Hnotroot & ca & Hca & Hproto).
    rewrite Nat.add_0_r in Hproto.
    destruct (Hagree a ca Hca) as (scur & Hscur & Hstatic & _).
    destruct (sameStatic_fields _ _ Hstatic) as (_ & _ & _ & Hargs & Hisc & _ & _ & _).
    unfold pureChild in Hchild. rewrite Hca in Hchild. simpl in Hchild.
    assert (Hi : (i < length protoSteps)%nat) by (simpl in Hlen; lia).
    assert (Hac : a <> c) by (apply lookup_lt_Some in Hca; lia).
    simpl resolveConceptSteps.
    rewrite (bind_step _ _ _ _ _ (loadStep_eq _ _ _ Hscur)). rewrite Hisc.
    destruct (IsConcept ca) eqn:Hconcept.
    + set (e1 := set_steps (<[a := setParent (Some c) scur]> (steps e)) e).
      assert (Hload1 : steps e1 !! a = Some (setParent (Some c) scur)).
      { apply list_lookup_insert_eq. eapply lookup_lt_Some. exact Hscur. }
      assert (Hagree1 : agree tpl (steps e1)) by (apply agree_setParent; assumption).
      assert (Hin1 : resolveInputs e1) by exact Hin.
      destruct (Hrec ca (Some lookup) child a Hca Hchild e1 (setParent (Some c) scur))
        as (e2 & Hrun2 & Hagree2 & Hstable2 & Hframe2).
      { etransitivity; [exact Hstatic|apply sameStatic_setParent]. }
      { exact Hagree1. }
      { exact Hin1. }
      { exists cstep. split; [|rewrite Hlookup; reflexivity].
        simpl. rewrite list_lookup_insert_ne by exact Hac. exact Hcstep. }
      destruct (IH (S i) (<[i := child]> protoSteps) children' e2) as
        (e' & Hrun' & Hagree' & Hstable' & Hframe').
      { reflexivity. }
      { rewrite length_insert. simpl in Hlen. lia. }
      { intros j a' Ha'. destruct (Hshape (S j) a' Ha') as (Hnr & ca' & Hca' & Hp').
        split; [exact Hnr|]. exists ca'. split; [exact Hca'|].
        rewrite list_lookup_insert_ne by lia.
        replace (S i + j)%nat with (i + S j)%nat by lia. exact Hp'. }
      { exact Hagree2. }
      { eapply resolveInputs_frame; eassumption. }
      { exists cstep. split; [|exact Hlookup].
        destruct Hstable2 as [_ Hst]. rewrite Hst.
        - simpl. rewrite list_lookup_insert_ne by exact Hac. exact Hcstep.
        - exact Hc.
        - simpl. rewrite length_insert. eapply lookup_lt_Some. exact Hcstep. }
      exists e'. split.
      { unfold bind at 1.
        rewrite (bind_step _ _ _ _ _ (updateStep_eq _ _ _ _ Hscur)). fold e1.
        rewrite (bind_step _ _ _ _ _ (loadStep_eq _ _ _ Hload1)).
        rewrite (bind_step _ _ _ _ _ Hrun2).
        unfold assignIndex. destruct (decide (i < length protoSteps)%nat); [|contradiction].
        unfold ret. rewrite Hrun'. rewrite take_S_insert by exact Hi.
        rewrite <- app_assoc. reflexivity. }
      split; [exact Hagree'|].
      split.
      { eapply stable_trans; [|exact Hstable']. eapply stable_trans; [|exact Hstable2].
        split; [simpl; rewrite length_insert; lia|].
        intros b Hb _. simpl. apply list_lookup_insert_ne.
        apply lookup_lt_Some in Hca. lia. }
      transitivity e2; [|exact Hframe']. transitivity e1; [repeat split|exact Hframe2].
    + unfold pureStep in Hchild.
      destruct (updateFragments (Step_Fragments ca)
                  (GetResolvedParams (Args ca) (Some lookup) dt) 0) as [fragments|] eqn:Hfr;
        [|discriminate].
      simpl in Hchild. inversion Hchild. subst child. clear Hchild.
      unfold shallow in Hproto. rewrite Hconcept in Hproto.
      destruct (IH (S i)
                  (<[i := ItemStep (mkProtoStep (LineText ca) (Value ca) fragments
                                      (Some (skipSlot a)))]> protoSteps)
                  children' e) as (e' & Hrun' & Hagree' & Hstable' & Hframe').
      { reflexivity. }
      { rewrite length_insert. simpl in Hlen. lia. }
      { intros j a' Ha'. destruct (Hshape (S j) a' Ha') as (Hnr & ca' & Hca' & Hp').
        split; [exact Hnr|]. exists ca'. split; [exact Hca'|].
        rewrite list_lookup_insert_ne by lia.
        replace (S i + j)%nat with (i + S j)%nat by lia. exact Hp'. }
      { exact Hagree. }
      { exact Hin. }
      { exists cstep. split; assumption. }
      exists e'. split; [|split; [exact Hagree'|split; assumption]].
      unfold bind at 1.
      rewrite (bind_step _ _ _ _ _ (loadStep_eq _ _ _ Hcstep)).
      rewrite (bind_step _ _ _ _ _ (dataTableLookup_eq _ Hin)).
      unfold bind at 1, deref at 1. rewrite Hproto. unfold ret at 1.
      unfold updateProtoStepParameters. unfold bind at 1.
      rewrite Hargs, Hlookup. simpl Fragments. rewrite Hfr. simpl.
      unfold setSkipInfo, bind, gets, ret. destruct Hin as [Herrs _]. rewrite Herrs.
      fold (skipSlot a).
      replace (setStepExecutionResult (Some (skipSlot a))
                 (setFragments fragments (convertToProtoStep ca)))
        with (mkProtoStep (LineText ca) (Value ca) fragments (Some (skipSlot a)))
        by reflexivity.
      rewrite Hrun'. rewrite take_S_insert by exact Hi.
      rewrite <- app_assoc. reflexivity.
Qed.

Lemma convertToProtoConcept_children ss cs :
  agree tpl ss ->
  (forall a, a ∈ cs -> is_Some (tpl !! a)) ->
  exists initial,
    mapM (fun a : addr =>
            s ← ss !! a;
            Some (if IsConcept s then ItemConcept (convertToProtoStep s) [] None
                  else ItemStep (convertToProtoStep s))) cs = Some initial
    /\ length initial = length cs
    /\ forall j a, cs !! j = Some a ->
         exists ca, tpl !! a = Some ca /\ initial !! j = Some (shallow ca).
Proof.
  intros Hagree. induction cs as [|a rest IH]; intros Hall.
  - exists []. repeat split. intros j a Ha. discriminate Ha.
  - destruct (Hall a) as [ca Hca]; [left|].
    destruct (Hagree a ca Hca) as (s' & Hs' & Hstatic & _).
    destruct (sameStatic_fields _ _ Hstatic) as (_ & Hv & Hlt & _ & Hisc & _ & _ & Hfr).
    destruct IH as (initial & Hmap & Hlen & Hshape).
    { intros b Hb. apply Hall. right. exact Hb. }
    exists (shallow ca :: initial). split.
    { simpl. rewrite Hs'. simpl. rewrite Hmap. simpl. f_equal. f_equal.
      unfold shallow, convertToProtoStep. rewrite Hisc, Hv, Hlt, Hfr. reflexivity. }
    split; [simpl; congruence|].
    intros [|j] b Hb; simpl in Hb.
    + inversion Hb. subst b. exists ca. split; [exact Hca|reflexivity].
    + apply Hshape. exact Hb.
Qed.

Lemma mapM_pureChild_defined depth lookup cs children :
  mapM (pureChild depth lookup) cs = Some children ->
  forall a, a ∈ cs -> is_Some (tpl !! a).
Proof.
  revert children. induction cs as [|b rest IH]; intros children Hmap a Ha.
  - inversion Ha.
  - simpl in Hmap.
    destruct (pureChild depth lookup b) as [child|] eqn:Hchild; [|discriminate].
    destruct (mapM (pureChild depth lookup) rest) as [children'|] eqn:Hrest; [|discriminate].
    apply elem_of_cons in Ha. destruct Ha as [->|Ha].
    + unfold pureChild in Hchild. destruct (tpl !! b); [eexists; reflexivity|discriminate].
    + eapply IH; [reflexivity|exact Ha].
Qed.

Lemma resolveToProtoConceptItem_pure depth :
  refinesConcept depth
    (resolveToProtoConceptItem FromDataTableRow PopulateConceptDynamicParams
       GetResolvedParams depth).
Proof.
  induction depth as [|depth IH];
    intros s parentLookup item b Hb Hpure e concept Hstatic Hagree Hin Hparent.
  - discriminate Hpure.
  - simpl in Hpure.
    set (lookup := PopulateConceptDynamicParams (Lookup s) parentLookup dt) in *.
    change (mapM _ (ConceptSteps s)) with (mapM (pureChild depth lookup) (ConceptSteps s))
      in Hpure.
    destruct (mapM (pureChild depth lookup) (ConceptSteps s)) as [children|] eqn:Hchildren;
      [|discriminate].
    simpl in Hpure. inversion Hpure. subst item. clear Hpure.
    destruct (sameStatic_fields _ _ Hstatic)
      as (_ & Hvalue & Htext & _ & _ & Hlk & Hcs & Hfr).
    set (c := length (steps e)).
    set (e1 := set_steps (steps e ++ [concept]) e).
    set (concept' := setLookup lookup concept).
    set (e2 := set_steps (steps e ++ [concept']) e1).
    assert (Hin1 : resolveInputs e1) by exact Hin.
    assert (Hin2 : resolveInputs e2) by exact Hin.
    assert (Hparent1 :
      (match Parent concept with
       | Some p => let* ps := loadStep p in ret (Some (Lookup ps))
       | None => ret None
       end) e1 = Some (parentLookup, e1)).
    { unfold parentIs in Hparent. destruct (Parent concept) as [p|].
      - destruct Hparent as (ps & Hps & ->).
        rewrite (bind_step _ _ _ _ _ (loadStep_eq p ps e1 (lookup_app_l_Some _ _ _ _ Hps))).
        reflexivity.
      - rewrite Hparent. reflexivity. }
    assert (Hupdate : updateStep c
                        (setLookup (PopulateConceptDynamicParams (Lookup concept)
                                      parentLookup dt)) e1 = Some (tt, e2)).
    { unfold updateStep. simpl. unfold c. rewrite lookup_snoc, insert_snoc.
      rewrite Hlk. reflexivity. }
    assert (Hc2 : steps e2 !! c = Some concept') by (apply lookup_snoc).
    assert (Hagree2 : agree tpl (steps e2)) by (apply agree_app, Hagree).
    destruct (convertToProtoConcept_children (steps e2) (ConceptSteps s) Hagree2)
      as (initial & Hinitial & Hlen & Hshape).
    { eapply mapM_pureChild_defined. exact Hchildren. }
    destruct (resolveConceptSteps_pure depth _ c lookup IH (agree_length _ _ Hagree)
                (ConceptSteps s) 0%nat initial children e2 Hchildren)
      as (e' & Hrun' & Hagree' & Hstable' & Hframe').
    { simpl. exact Hlen. }
    { intros j a Ha. split.
      - intros Hroot. unfold isRoot in Hroot. rewrite Forall_forall in Hroot.
        apply (Hroot s); [eapply list_elem_of_lookup_2; exact Hb|].
        eapply list_elem_of_lookup_2. exact Ha.
      - simpl. apply Hshape. exact Ha. }
    { exact Hagree2. }
    { exact Hin2. }
    { exists concept'. split; [exact Hc2|reflexivity]. }
    assert (Hrun : resolveToProtoConceptItem FromDataTableRow PopulateConceptDynamicParams
                     GetResolvedParams (S depth) concept e
                   = Some (ItemConcept
                             (mkProtoStep (LineText s) (Value s) (Step_Fragments s)
                                (Some (mkProtoStepExecutionResult None None None
                                         (Some false) None)))
                             children None, e')).
    { simpl resolveToProtoConceptItem.
      rewrite (bind_step _ _ _ _ _ (eq_refl : newStep concept e = Some (c, e1))).
      rewrite (bind_step _ _ _ _ _ (dataTableLookup_eq _ Hin1)).
      rewrite (bind_step _ _ _ _ _ Hparent1).
      rewrite (bind_step _ _ _ _ _ Hupdate).
      rewrite (bind_step _ _ _ _ _ (loadStep_eq _ _ _ Hc2)).
      unfold convertToProtoConcept. unfold bind at 1. unfold bind at 1, gets at 1.
      unfold bind at 1.
      change (ConceptSteps concept') with (ConceptSteps concept).
      rewrite Hcs, Hinitial. simpl deref.
      unfold ret at 1. unfold ret at 1. rewrite take_0 in Hrun'. simpl app in Hrun'.
      rewrite (bind_step _ _ _ _ _ Hrun'). unfold ret.
      unfold convertToProtoStep, setStepExecutionResult. simpl.
      rewrite Hvalue, Htext, Hfr. reflexivity. }
    exists e'. split; [exact Hrun|]. split; [exact Hagree'|].
    split.
    { eapply stable_trans; [|exact Hstable'].
      split; [simpl; rewrite !length_app; simpl; lia|].
      intros a _ Ha. simpl. rewrite !lookup_app_l by exact Ha. reflexivity. }
    eapply resolveToProtoConceptItem_resolveFrame. exact Hrun.
Qed.

Lemma resolveToProtoItem_pure depth item protoItem e :
  pureItem depth item = Some protoItem ->
  agree tpl (steps e) -> resolveInputs e ->
  exists e',
    resolveToProtoItem FromDataTableRow PopulateConceptDynamicParams GetResolvedParams
      depth item e = Some (protoItem, e')
    /\ agree tpl (steps e') /\ resolveFrame e e'.
Proof.
  intros Hpure Hagree Hin.
  destruct item as [a|text|text|tags|]; simpl in Hpure; try discriminate;
    try (inversion Hpure; subst; exists e; repeat split; assumption).
  destruct (tpl !! a) as [s|] eqn:Hs; [|discriminate]. simpl in Hpure.
  destruct (Hagree a s Hs) as (s' & Hs' & Hstatic & Hroot).
  destruct (sameStatic_fields _ _ Hstatic) as (_ & Hv & Hlt & Hargs & Hisc & _ & _ & Hfr).
  simpl resolveToProtoItem.
  rewrite (bind_step _ _ _ _ _ (loadStep_eq _ _ _ Hs')). rewrite Hisc.
  destruct (IsConcept s).
  - destruct (decide (isRoot tpl a)) as [Hr|]; [|discriminate].
    destruct (parentLookupOf (Parent s)) as [parentLookup|] eqn:Hpl; [|discriminate].
    simpl in Hpure.
    destruct (resolveToProtoConceptItem_pure depth s parentLookup protoItem a Hs Hpure
                e s' Hstatic Hagree Hin) as (e' & Hrun & Hagree' & _ & Hframe').
    { rewrite (Hroot Hr). unfold parentLookupOf in Hpl. unfold parentIs.
      destruct (Parent s) as [p|].
      - destruct (tpl !! p) as [ps|] eqn:Hps; [|discriminate].
        simpl in Hpl. inversion Hpl. subst parentLookup.
        destruct (Hagree p ps Hps) as (ps' & Hps' & Hst' & _).
        destruct (sameStatic_fields _ _ Hst') as (_ & _ & _ & _ & _ & Hlk & _).
        exists ps'. split; [exact Hps'|]. rewrite Hlk. reflexivity.
      - inversion Hpl. reflexivity. }
    exists e'. split; [exact Hrun|]. split; assumption.
  - unfold pureStep in Hpure.
    destruct (updateFragments (Step_Fragments s) (GetResolvedParams (Args s) None dt) 0)
      as [fragments|] eqn:Hfrag; [|discriminate].
    simpl in Hpure. inversion Hpure. subst protoItem.
    exists e. split; [|split; [exact Hagree|reflexivity]].
    unfold resolveToProtoStepItem.
    rewrite (bind_step _ _ _ _ _ (loadStep_eq _ _ _ Hs')).
    rewrite (bind_step _ _ _ _ _ (dataTableLookup_eq _ Hin)).
    unfold updateProtoStepParameters, bind, setSkipInfo, gets, ret.
    simpl Fragments. rewrite Hfr, Hargs, Hfrag. simpl.
    destruct Hin as [Herrs _]. rewrite Herrs. fold (skipSlot a).
    unfold convertToProtoStep, setStepExecutionResult, setFragments. simpl.
    rewrite Hv, Hlt. reflexivity.
Qed.

Lemma resolveItems_pure depth items : forall protoItems e,
  pureItems depth items = Some protoItems ->
  agree tpl (steps e) -> resolveInputs e ->
  exists e',
    resolveItems FromDataTableRow PopulateConceptDynamicParams GetResolvedParams
      depth items e = Some (protoItems, e')
    /\ agree tpl (steps e') /\ resolveFrame e e'.
Proof.
  induction items as [|item rest IH]; intros protoItems e Hpure Hagree Hin; simpl in *.
  - inversion Hpure. exists e. repeat split. exact Hagree.
  - destruct (decide (Kind item ≠ TearDownKind)); [|apply IH; assumption].
    destruct (pureItem depth item) as [protoItem|] eqn:Hitem; [|discriminate].
    destruct (pureItems depth rest) as [rest'|] eqn:Hrest; [|discriminate].
    simpl in Hpure. inversion Hpure. subst protoItems.
    destruct (resolveToProtoItem_pure depth item protoItem e Hitem Hagree Hin)
      as (e1 & Hrun1 & Hagree1 & Hframe1).
    destruct (IH rest' e1 eq_refl Hagree1 (resolveInputs_frame _ _ Hframe1 Hin))
      as (e' & Hrun' & Hagree' & Hframe').
    exists e'. split; [|split; [exact Hagree'|etransitivity; eassumption]].
    rewrite (bind_step _ _ _ _ _ Hrun1), (bind_step _ _ _ _ _ Hrun'). reflexivity.
Qed.

Lemma addAllItemsForScenarioExecution_pure depth scenario shell e :
  pureShell depth (specification e) scenario = Some shell ->
  agree tpl (steps e) -> resolveInputs e ->
  exists e',
    addAllItemsForScenarioExecution FromDataTableRow PopulateConceptDynamicParams
      GetResolvedParams depth scenario (NewProtoScenario scenario) e = Some (shell, e')
    /\ agree tpl (steps e') /\ resolveFrame e e'.
Proof.
  unfold pureShell. intros Hpure Hagree Hin.
  destruct (pureItems depth (map Item_Step (Contexts (specification e))))
    as [contexts|] eqn:Hc; [|discriminate].
  destruct (pureItems depth (map Item_Step (TearDownSteps (specification e))))
    as [tearDown|] eqn:Ht; [|discriminate].
  destruct (pureItems depth (Scenario_Items scenario)) as [items|] eqn:Hi; [|discriminate].
  simpl in Hpure. inversion Hpure. subst shell.
  destruct (resolveItems_pure depth _ contexts e Hc Hagree Hin) as (e1 & R1 & A1 & F1).
  assert (Hin1 := resolveInputs_frame _ _ F1 Hin).
  assert (Hspec1 : specification e1 = specification e) by apply F1.
  rewrite <- Hspec1 in Ht.
  destruct (resolveItems_pure depth _ tearDown e1 Ht A1 Hin1) as (e2 & R2 & A2 & F2).
  assert (Hin2 := resolveInputs_frame _ _ F2 Hin1).
  destruct (resolveItems_pure depth _ items e2 Hi A2 Hin2) as (e3 & R3 & A3 & F3).
  exists e3. split; [|split; [exact A3|]].
  - unfold addAllItemsForScenarioExecution, getContextItemsForScenarioExecution.
    unfold bind at 1, gets at 1.
    rewrite (bind_step _ _ _ _ _ R1). rewrite <- Hspec1.
    rewrite (bind_step _ _ _ _ _ R2), (bind_step _ _ _ _ _ R3). reflexivity.
  - transitivity e1; [exact F1|]. transitivity e2; assumption.
Qed.

(** What the functions return is as resolution leaves it. *)
Lemma pureConcept_unexecuted depth : forall s parentLookup item,
  pureConcept depth s parentLookup = Some item -> unexecuted item = true.
Proof.
  induction depth as [|depth IH]; intros s parentLookup item Hpure; [discriminate|].
  simpl in Hpure.
  set (lookup := PopulateConceptDynamicParams (Lookup s) parentLookup dt) in *.
  change (mapM _ (ConceptSteps s)) with (mapM (pureChild depth lookup) (ConceptSteps s))
    in Hpure.
  destruct (mapM (pureChild depth lookup) (ConceptSteps s)) as [children|] eqn:Hchildren;
    [|discriminate].
  simpl in Hpure. inversion Hpure. subst item. simpl unexecuted.
  apply mapM_Some in Hchildren. clear Hpure.
  induction Hchildren as [|a child cs children Hchild _ IHc]; [reflexivity|].
  simpl. rewrite IHc, andb_true_r.
  unfold pureChild in Hchild. destruct (tpl !! a) as [c|]; [|discriminate].
  simpl in Hchild. destruct (IsConcept c).
  - eapply IH. exact Hchild.
  - unfold pureStep in Hchild.
    destruct (updateFragments _ _ _); [|discriminate].
    simpl in Hchild. inversion Hchild. simpl. unfold skipSlot.
    destruct (decide _); reflexivity.
Qed.

Lemma pureItems_unexecuted depth items : forall protoItems,
  pureItems depth items = Some protoItems -> forallb unexecuted protoItems = true.
Proof.
  induction items as [|item rest IH]; intros protoItems Hpure; simpl in Hpure.
  - inversion Hpure. reflexivity.
  - destruct (decide (Kind item ≠ TearDownKind)); [|apply IH; assumption].
    destruct (pureItem depth item) as [protoItem|] eqn:Hitem; [|discriminate].
    destruct (pureItems depth rest) as [rest'|] eqn:Hrest; [|discriminate].
    simpl in Hpure. inversion Hpure. subst protoItems. simpl.
    rewrite (IH rest' eq_refl), andb_true_r.
    destruct item as [a|text|text|tags|]; simpl in Hitem; try discriminate;
      try (inversion Hitem; reflexivity).
    destruct (tpl !! a) as [s|]; [|discriminate]. simpl in Hitem.
    destruct (IsConcept s).
    + destruct (decide (isRoot tpl a)); [|discriminate].
      destruct (parentLookupOf (Parent s)); [|discriminate].
      eapply pureConcept_unexecuted. exact Hitem.
    + unfold pureStep in Hitem.
      destruct (updateFragments _ _ _); [|discriminate].
      simpl in Hitem. inversion Hitem. simpl. unfold skipSlot.
      destruct (decide _); reflexivity.
Qed.

End PureResolution.

(** ** Skipped scenarios *)

(** The text of a validation error in the skip errors of a scenario. *)
Definition skipErrorText (err : stepValidationError) (step : Step) : string :=
  err_fileName err +:+ ":" +:+ pretty (LineNo step) +:+ ": "
  +:+ err_message err +:+ ". " +:+ LineText step.

Definition skipErrorTexts (tpl : list Step) (errs : list stepValidationError)
    : option (list string) :=
  mapM (fun err => step ← tpl !! err_step err; Some (skipErrorText err step)) errs.

Lemma formatSkipErrors_eq tpl errs : forall texts e,
  skipErrorTexts tpl errs = Some texts ->
  agree tpl (steps e) ->
  formatSkipErrors errs e = Some (texts, e).
Proof.
  induction errs as [|err rest IH]; intros texts e Htexts Hagree.
  - inversion Htexts. reflexivity.
  - unfold skipErrorTexts in Htexts. simpl in Htexts.
    destruct (tpl !! err_step err) as [step|] eqn:Hstep; [|discriminate].
    simpl in Htexts.
    destruct (mapM _ rest) as [texts'|] eqn:Hrest; [|discriminate].
    simpl in Htexts. inversion Htexts. subst texts.
    destruct (Hagree _ _ Hstep) as (step' & Hstep' & Hstatic & _).
    destruct (sameStatic_fields _ _ Hstatic) as (Hno & _ & Htext & _).
    simpl. unfold formatSkipError.
    unfold bind at 1. unfold bind at 1.
    rewrite (loadStep_eq _ _ _ Hstep'). unfold ret at 1.
    rewrite (bind_step _ _ _ _ _ (IH texts' e Hrest Hagree)).
    unfold ret, skipErrorText. rewrite Hno, Htext. reflexivity.
Qed.

Lemma skipErrorTexts_form tpl errs texts :
  skipErrorTexts tpl errs = Some texts ->
  Forall2 (fun err text =>
             exists step, tpl !! err_step err = Some step
                          /\ text = err_fileName err +:+ ":" +:+ pretty (LineNo step)
                                    +:+ ": " +:+ err_message err +:+ ". "
                                    +:+ LineText step)
          errs texts.
Proof.
  intros H. apply mapM_Some in H. eapply Forall2_impl; [exact H|].
  intros err text Herr. simpl in Herr.
  destruct (tpl !! err_step err) as [step|]; [|discriminate].
  inversion Herr. exists step. split; reflexivity.
Qed.

Section Scenarios.

Variable FromDataTableRow : Table -> Z -> ArgLookup.
Variable PopulateConceptDynamicParams : ArgLookup -> option ArgLookup -> ArgLookup -> ArgLookup.
Variable GetResolvedParams : list StepArg -> option ArgLookup -> ArgLookup -> list ProtoParameter.

(** The shell of a scenario, from the parsed steps, the skip maps and the
    active row of the executor. *)
Definition shellOf (depth : nat) (e : specExecutor) (scenario : Scenario)
    : option ScenarioResult :=
  pureShell PopulateConceptDynamicParams GetResolvedParams (steps e) (errMap e)
    (FromDataTableRow (DataTable (specification e)) (currentTableRow e))
    depth (specification e) scenario.

Definition scenarioInfoOf (scenario : Scenario) : ScenarioInfo :=
  mkScenarioInfo (Scenario_Heading scenario) false (getTagValue (Scenario_Tags scenario)).

(** The state in which the shell of a scenario is materialised. *)
Definition enterScenario (scenario : Scenario) (info : ExecutionInfo) (e : specExecutor)
    : specExecutor :=
  set_currentExecutionInfo
    (Some (mkExecutionInfo (CurrentSpec info) (Some (scenarioInfoOf scenario))
             (CurrentStep info))) e.

Lemma executeScenario_shell depth scenario e info shell :
  currentExecutionInfo e = Some info ->
  shellOf depth e scenario = Some shell ->
  exists e1,
    (setCurrentScenario (Some (scenarioInfoOf scenario)) ;;
     addAllItemsForScenarioExecution FromDataTableRow PopulateConceptDynamicParams
       GetResolvedParams depth scenario (NewProtoScenario scenario)) e
    = Some (shell, e1)
    /\ agree (steps e) (steps e1)
    /\ resolveFrame (enterScenario scenario info e) e1.
Proof.
  intros Hinfo Hshell.
  destruct (addAllItemsForScenarioExecution_pure FromDataTableRow
              PopulateConceptDynamicParams GetResolvedParams (steps e) (errMap e)
              (FromDataTableRow (DataTable (specification e)) (currentTableRow e))
              depth scenario shell (enterScenario scenario info e))
    as (e1 & Hrun & Hagree & Hframe).
  - exact Hshell.
  - apply agree_refl.
  - split; reflexivity.
  - exists e1. split; [|split; assumption].
    unfold bind at 1, setCurrentScenario, getExecutionInfo. unfold bind at 1. unfold bind at 1.
    unfold gets. rewrite Hinfo. simpl. exact Hrun.
Qed.

Lemma executeScenario_skipped depth scenario e info sr errs shell texts :
  currentExecutionInfo e = Some info ->
  specResult e = Some sr ->
  scenarioErrs (errMap e) !! scenarioPtr scenario = Some errs ->
  shellOf depth e scenario = Some shell ->
  skipErrorTexts (steps e) errs = Some texts ->
  exists e1,
    executeScenario FromDataTableRow PopulateConceptDynamicParams GetResolvedParams
      depth scenario e
    = Some (setSkipErrors texts
              (setScenarioSkipped (Some true) (setScenarioSkipped (Some false) shell)),
            set_specResult
              (Some (setScenarioSkippedCount (add64 (ScenarioSkippedCount sr) 1) sr)) e1)
    /\ agree (steps e) (steps e1)
    /\ resolveFrame (enterScenario scenario info e) e1.
Proof.
  intros Hinfo Hsr Herrs Hshell Htexts.
  destruct (executeScenario_shell depth scenario e info shell Hinfo Hshell)
    as (e1 & Hrun & Hagree & Hframe).
  exists e1. split; [|split; assumption].
  unfold executeScenario.
  apply bind_inv in Hrun. destruct Hrun as (u & e0 & Hset & Hadd).
  rewrite (bind_step _ _ _ _ _ Hset).
  rewrite (bind_step _ _ _ _ _ Hadd).
  assert (Hmap : errMap e1 = errMap e) by apply Hframe.
  assert (Hsr1 : specResult e1 = Some sr) by (rewrite <- Hsr; apply Hframe).
  unfold bind at 1, gets at 1. rewrite Hmap.
  destruct (decide (is_Some (scenarioErrs (errMap e) !! scenarioPtr scenario)))
    as [_|Hn]; [|exfalso; apply Hn; rewrite Herrs; eexists; reflexivity].
  unfold setSkipInfoInResult, modifySpecResult, getSpecResult.
  unfold bind at 1. unfold bind at 1. unfold bind at 1. unfold gets at 1.
  rewrite Hsr1. simpl deref. unfold ret at 1. unfold modify at 1.
  unfold bind at 1, gets at 1. simpl errMap. rewrite Hmap, Herrs. simpl default.
  rewrite (bind_step _ _ _ _ _
             (formatSkipErrors_eq (steps e) errs texts (set_specResult _ e1) Htexts Hagree)).
  reflexivity.
Qed.

(** C7: a scenario that is in the scenario skip map, executed when its shell
    can be materialised and the steps of its validation errors exist, gives a
    result that is marked skipped and carries one skip error per validation
    error, of the form [<file>:<line>: <message>. <line text>], in order; the
    count of skipped scenarios of the specification grows by exactly one (in
    64-bit arithmetic); nothing is sent to the runner and nothing is notified
    to the plugins. *)
Theorem skipped_scenario_is_marked_counted_and_not_run :
  forall depth scenario e info sr errs shell texts,
    currentExecutionInfo e = Some info ->
    specResult e = Some sr ->
    scenarioErrs (errMap e) !! scenarioPtr scenario = Some errs ->
    shellOf depth e scenario = Some shell ->
    skipErrorTexts (steps e) errs = Some texts ->
    exists result e',
      executeScenario FromDataTableRow PopulateConceptDynamicParams GetResolvedParams
        depth scenario e = Some (result, e')
      /\ ProtoScenario_Skipped result = Some true
      /\ ProtoScenario_SkipErrors result = texts
      /\ Forall2 (fun err text =>
                    exists step,
                      steps e !! err_step err = Some step
                      /\ text = err_fileName err +:+ ":" +:+ pretty (LineNo step)
                                +:+ ": " +:+ err_message err +:+ ". "
                                +:+ LineText step)
           errs texts
      /\ ScenarioSkippedCount <$> specResult e'
         = Some (add64 (ScenarioSkippedCount sr) 1)
      /\ (inRange64 (ScenarioSkippedCount sr + 1) ->
          ScenarioSkippedCount <$> specResult e' = Some (ScenarioSkippedCount sr + 1))
      /\ sent e' = sent e
      /\ notified e' = notified e.
Proof.
  intros depth scenario e info sr errs shell texts Hinfo Hsr Herrs Hshell Htexts.
  destruct (executeScenario_skipped depth scenario e info sr errs shell texts
              Hinfo Hsr Herrs Hshell Htexts) as (e1 & Hrun & _ & Hframe).
  eexists _, _. split; [exact Hrun|].
  split; [reflexivity|]. split; [reflexivity|].
  split; [apply skipErrorTexts_form, Htexts|].
  split; [reflexivity|].
  split; [intros Hrange; simpl; unfold add64; rewrite wrap64_id by exact Hrange; reflexivity|].
  destruct Hframe as (_ & _ & _ & Hsent & Hnot & _).
  split; [exact Hsent|exact Hnot].
Qed.

End Scenarios.

(** A specification with one scenario of one step, [Say hello] on line 3,
    whose implementation is missing: the step is in the step skip map and the
    scenario in the scenario skip map. *)
Definition noLookup (t : Table) (row : Z) : ArgLookup := [].

Definition keepLookup (own : ArgLookup) (parent : option ArgLookup) (row : ArgLookup)
    : ArgLookup := own.

Definition noParams (args : list StepArg) (concept : option ArgLookup) (row : ArgLookup)
    : list ProtoParameter := [].

Definition helloStep : Step :=
  mkStep 3 "Say hello" "Say hello" [] false [] [] [] None.

Definition helloScenario : Scenario :=
  mkScenario 7%nat "Greeting" None [Item_Step 0%nat].

Definition helloSpecification : Specification :=
  mkSpecification 9%nat "Greetings" "example.spec" None [] [] (mkTable [] [])
    [helloScenario] [].

Definition helloError : stepValidationError :=
  mkStepValidationError 0%nat "Step implementation not found" "example.spec".

Definition helloInfo : ExecutionInfo :=
  mkExecutionInfo (Some (mkSpecInfo "Greetings" "example.spec" false [])) None None.

Definition skippedScenarioExecutor : specExecutor :=
  mkSpecExecutor helloSpecification (mkIndexRange 0 0) scriptedRunner [] []
    (Some helloInfo) (Some (NewSpecResult helloSpecification)) 0 [] []
    (mkValidationErrMaps ∅ {[ 7%nat := [helloError] ]} {[ 0%nat := [helloError] ]})
    [helloStep] [].

Lemma skipped_scenario_is_marked_counted_and_not_run_witness :
  exists result e',
    executeScenario noLookup keepLookup noParams 1 helloScenario skippedScenarioExecutor
    = Some (result, e')
    /\ ProtoScenario_Skipped result = Some true
    /\ ProtoScenario_SkipErrors result
       = ["example.spec:3: Step implementation not found. Say hello"]
    /\ ScenarioSkippedCount <$> specResult e' = Some 1
    /\ sent e' = [].
Proof.
  edestruct (skipped_scenario_is_marked_counted_and_not_run noLookup keepLookup noParams
               1%nat helloScenario skippedScenarioExecutor)
    as (result & e' & Hrun & Hskipped & Herrors & _ & _ & Hcount & Hsent & _);
    [reflexivity|reflexivity|reflexivity|reflexivity|reflexivity|].
  exists result, e'. split; [exact Hrun|]. split; [exact Hskipped|].
  split; [exact Herrors|]. split; [|exact Hsent].
  apply Hcount. vm_compute. split; [discriminate|reflexivity].
Defined.

(** ** Steps flagged as skipped *)

(** The same specification with the step in the step skip map only: the
    scenario is executed. *)
Definition skippedStepExecutor : specExecutor :=
  mkSpecExecutor helloSpecification (mkIndexRange 0 0) scriptedRunner [] []
    None None 0 [] []
    (mkValidationErrMaps ∅ ∅ {[ 0%nat := [helloError] ]})
    [helloStep] [].

Definition skippedProtoStep : ProtoStep :=
  mkProtoStep "Say hello" "Say hello" []
    (Some (mkProtoStepExecutionResult None None None (Some true)
             (Some "Step implemenatation not found"))).

(** A step that is in the step skip map, and flagged skipped by resolution,
    is the subject of a before-step hook, of an [ExecuteStep] message and of
    an after-step hook when its scenario is executed. *)
Lemma skipped_step_is_still_sent :
  is_Some (stepErrs (errMap skippedStepExecutor) !! 0%nat)
  /\ resolveToProtoStepItem noLookup noParams 0%nat skippedStepExecutor
     = Some (ItemStep skippedProtoStep, skippedStepExecutor)
  /\ exists result e',
       execute noLookup keepLookup noParams 1 skippedStepExecutor = Some (result, e')
       /\ map MessageType (sent e')
          = [Message_SpecExecutionStarting; Message_ScenarioExecutionStarting;
             Message_StepExecutionStarting; Message_ExecuteStep;
             Message_StepExecutionEnding; Message_ScenarioExecutionEnding;
             Message_SpecExecutionEnding]
       /\ sent e' !! 3%nat = Some (executeStepRequest skippedProtoStep)
       /\ ((sent e' !! 2%nat ≫= CurrentExecutionInfo) ≫= CurrentStep)
          = Some (mkStepInfo (createStepRequest skippedProtoStep) false)
       /\ ((sent e' !! 4%nat ≫= CurrentExecutionInfo) ≫= CurrentStep)
          = Some (mkStepInfo (createStepRequest skippedProtoStep) false).
Proof.
  split; [eexists; reflexivity|]. split; [reflexivity|].
  eexists _, _. split; [vm_compute; reflexivity|].
  repeat split; reflexivity.
Qed.

Section SkippedSteps.

Variable FromDataTableRow : Table -> Z -> ArgLookup.
Variable PopulateConceptDynamicParams : ArgLookup -> option ArgLookup -> ArgLookup -> ArgLookup.
Variable GetResolvedParams : list StepArg -> option ArgLookup -> ArgLookup -> list ProtoParameter.

(** C1, amended: a scenario that is in the scenario skip map returns from
    [executeScenario] with nothing sent to the runner and nothing notified to
    the plugins.  The skip flag that resolution sets on a step is not
    consulted by [executeStep]: a step executed inside a scenario that runs
    gets its before-step hook, its [ExecuteStep] message unless that hook
    failed, and its after-step hook, whatever its flag; the flag and the
    reason are carried onto its result. *)
Theorem skipped_scenario_sends_nothing_and_step_flag_is_carried :
  (forall depth scenario e info sr errs shell texts,
     currentExecutionInfo e = Some info ->
     specResult e = Some sr ->
     scenarioErrs (errMap e) !! scenarioPtr scenario = Some errs ->
     shellOf FromDataTableRow PopulateConceptDynamicParams GetResolvedParams
       depth e scenario = Some shell ->
     skipErrorTexts (steps e) errs = Some texts ->
     exists result e',
       executeScenario FromDataTableRow PopulateConceptDynamicParams GetResolvedParams
         depth scenario e = Some (result, e')
       /\ sent e' = sent e
       /\ notified e' = notified e)
  /\ (forall protoStep e spec scenario step0 old,
        currentExecutionInfo e
        = Some (mkExecutionInfo (Some spec) (Some scenario) step0) ->
        StepExecutionResult protoStep = Some old ->
        exists failed protoStep' e' after,
          let before := beforeStepRequest spec scenario protoStep in
          executeStep protoStep e = Some (failed, protoStep', e')
          /\ MessageType after = Message_StepExecutionEnding
          /\ sent e'
             = sent e ++ (if GetFailed (Some (statusOfReply (runner e (sent e) before)))
                          then [before; after]
                          else [before; executeStepRequest protoStep; after])
          /\ notified e' = notified e ++ [before; after]
          /\ StepExecutionResult protoStep' ≫= Skipped = Skipped old
          /\ StepExecutionResult protoStep' ≫= SkippedReason = SkippedReason old).
Proof.
  split.
  - intros depth scenario e info sr errs shell texts Hinfo Hsr Herrs Hshell Htexts.
    destruct (executeScenario_skipped FromDataTableRow PopulateConceptDynamicParams
                GetResolvedParams depth scenario e info sr errs shell texts
                Hinfo Hsr Herrs Hshell Htexts) as (e1 & Hrun & _ & Hframe).
    eexists _, _. split; [exact Hrun|].
    destruct Hframe as (_ & _ & _ & Hsent & Hnot & _).
    split; [exact Hsent|exact Hnot].
  - intros protoStep e spec scenario step0 old Hinfo Hold.
    destruct (executeStep_spec protoStep e spec scenario step0 old Hinfo Hold)
      as ([failed protoStep'] & e' & Hrun & r & after & pre & post
          & _ & Hstep & _ & Hafter & Hsent & Hnot & _).
    cbn [fst snd] in *. exists failed, protoStep', e', after. cbv zeta.
    split; [exact Hrun|]. split; [exact Hafter|]. split; [exact Hsent|].
    split; [exact Hnot|]. rewrite Hstep. split; reflexivity.
Qed.

End SkippedSteps.

Lemma skipped_scenario_sends_nothing_and_step_flag_is_carried_witness :
  (exists result e',
     executeScenario noLookup keepLookup noParams 1 helloScenario skippedScenarioExecutor
     = Some (result, e')
     /\ sent e' = [] /\ notified e' = [])
  /\ (exists failed protoStep' e',
        executeStep skippedProtoStep scriptedExecutor = Some (failed, protoStep', e')
        /\ map MessageType (sent e')
           = [Message_StepExecutionStarting; Message_ExecuteStep;
              Message_StepExecutionEnding]
        /\ StepExecutionResult protoStep' ≫= Skipped = Some true).
Proof.
  destruct (skipped_scenario_sends_nothing_and_step_flag_is_carried
              noLookup keepLookup noParams) as [Hscenario Hstep].
  split.
  - edestruct (Hscenario 1%nat helloScenario skippedScenarioExecutor)
      as (result & e' & Hrun & Hsent & Hnot);
      [reflexivity|reflexivity|reflexivity|reflexivity|reflexivity|].
    exists result, e'. repeat split; assumption.
  - edestruct (Hstep skippedProtoStep scriptedExecutor)
      as (failed & protoStep' & e' & after & Hrun & Hafter & Hsent & _ & Hskipped & _);
      [reflexivity|reflexivity|].
    exists failed, protoStep', e'. split; [exact Hrun|].
    split; [|exact Hskipped].
    rewrite Hsent. simpl. rewrite Hafter. reflexivity.
Defined.

(** ** Skipped specifications *)

(** What the materialisation of skipped scenarios leaves as it is: all but
    the store of steps and the result of the specification. *)
Definition skipFrame (e e' : specExecutor) : Prop :=
  specification e' = specification e /\ dataTableIndex e' = dataTableIndex e
  /\ runner e' = runner e /\ sent e' = sent e /\ notified e' = notified e
  /\ currentExecutionInfo e' = currentExecutionInfo e
  /\ currentTableRow e' = currentTableRow e
  /\ reported e' = reported e /\ logged e' = logged e /\ errMap e' = errMap e
  /\ results e' = results e.

Global Instance skipFrame_preorder : PreOrder skipFrame.
Proof.
  split.
  - intros e. repeat split.
  - intros e1 e2 e3 H1 H2. unfold skipFrame in *.
    destruct H1 as (A1 & A2 & A3 & A4 & A5 & A6 & A7 & A8 & A9 & A10 & A11).
    destruct H2 as (B1 & B2 & B3 & B4 & B5 & B6 & B7 & B8 & B9 & B10 & B11).
    repeat split; congruence.
Qed.

Lemma resolveFrame_skipFrame e e' : resolveFrame e e' -> skipFrame e e'.
Proof.
  intros (A1 & A2 & A3 & A4 & A5 & A6 & A7 & A8 & A9 & A10 & A11 & A12).
  repeat split; assumption.
Qed.

(** The count of skipped scenarios after [n] more of them. *)
Definition countAfter (n : nat) (count : Z) : Z := Nat.iter n (fun c => add64 c 1) count.

Lemma countAfter_wrap n : forall count,
  inRange64 count -> countAfter n count = wrap64 (count + Z.of_nat n).
Proof.
  induction n as [|n IH]; intros count Hcount.
  - simpl. rewrite Z.add_0_r, wrap64_id by exact Hcount. reflexivity.
  - unfold countAfter in *. simpl. rewrite IH by exact Hcount.
    rewrite add64_wrap_l. f_equal. lia.
Qed.

Section SkippedSpecification.

Variable FromDataTableRow : Table -> Z -> ArgLookup.
Variable PopulateConceptDynamicParams : ArgLookup -> option ArgLookup -> ArgLookup -> ArgLookup.
Variable GetResolvedParams : list StepArg -> option ArgLookup -> ArgLookup -> list ProtoParameter.

Variable tpl : list Step.
Variable errs : validationErrMaps.
Variable dt : ArgLookup.

(** The result of a scenario that is not run: its shell, marked skipped,
    with the texts of its validation errors. *)
Definition skippedResultOf (depth : nat) (spec : Specification) (scenario : Scenario)
    : option ScenarioResult :=
  shell ← pureShell PopulateConceptDynamicParams GetResolvedParams tpl errs dt
             depth spec scenario;
  texts ← skipErrorTexts tpl (default [] (scenarioErrs errs !! scenarioPtr scenario));
  Some (setSkipErrors texts (setScenarioSkipped (Some true) shell)).

Lemma resolveInputs_skipFrame e e' :
  skipFrame e e' -> resolveInputs FromDataTableRow errs dt e ->
  resolveInputs FromDataTableRow errs dt e'.
Proof.
  intros (A1 & _ & _ & _ & _ & _ & A7 & _ & _ & A10 & _) [H1 H2].
  split; [congruence|]. rewrite A1, A7. exact H2.
Qed.

Lemma getSkippedScenarioResult_pure depth scenario r e sr :
  skippedResultOf depth (specification e) scenario = Some r ->
  agree tpl (steps e) -> resolveInputs FromDataTableRow errs dt e ->
  specResult e = Some sr ->
  exists e',
    getSkippedScenarioResult FromDataTableRow PopulateConceptDynamicParams
      GetResolvedParams depth scenario e = Some (r, e')
    /\ agree tpl (steps e') /\ skipFrame e e'
    /\ specResult e'
       = Some (setScenarioSkippedCount (add64 (ScenarioSkippedCount sr) 1) sr).
Proof.
  unfold skippedResultOf. intros Hpure Hagree Hin Hsr.
  destruct (pureShell _ _ _ _ _ _ _ _) as [shell|] eqn:Hshell; [|discriminate].
  simpl in Hpure.
  destruct (skipErrorTexts _ _) as [texts|] eqn:Htexts; [|discriminate].
  simpl in Hpure. inversion Hpure. subst r. clear Hpure.
  destruct (addAllItemsForScenarioExecution_pure FromDataTableRow
              PopulateConceptDynamicParams GetResolvedParams tpl errs dt
              depth scenario shell e Hshell Hagree Hin)
    as (e1 & Hrun & Hagree1 & Hframe).
  assert (Hmap : errMap e1 = errs).
  { destruct Hin as [<- _]. apply Hframe. }
  assert (Hsr1 : specResult e1 = Some sr) by (rewrite <- Hsr; apply Hframe).
  exists (set_specResult
            (Some (setScenarioSkippedCount (add64 (ScenarioSkippedCount sr) 1) sr)) e1).
  split; [|split; [exact Hagree1|split; [|reflexivity]]].
  - unfold getSkippedScenarioResult.
    rewrite (bind_step _ _ _ _ _ Hrun).
    unfold setSkipInfoInResult, modifySpecResult, getSpecResult.
    unfold bind at 1. unfold bind at 1. unfold bind at 1. unfold gets at 1.
    rewrite Hsr1. simpl deref. unfold ret at 1. unfold modify at 1.
    unfold bind at 1, gets at 1. simpl errMap. rewrite Hmap.
    rewrite (bind_step _ _ _ _ _
               (formatSkipErrors_eq tpl _ texts (set_specResult _ e1) Htexts Hagree1)).
    reflexivity.
  - apply resolveFrame_skipFrame in Hframe.
    destruct Hframe as (A1 & A2 & A3 & A4 & A5 & A6 & A7 & A8 & A9 & A10 & A11).
    repeat split; assumption.
Qed.

Lemma getSkippedScenarioResults_pure depth scenarios : forall rs e sr,
  mapM (skippedResultOf depth (specification e)) scenarios = Some rs ->
  agree tpl (steps e) -> resolveInputs FromDataTableRow errs dt e ->
  specResult e = Some sr ->
  exists e',
    getSkippedScenarioResults FromDataTableRow PopulateConceptDynamicParams
      GetResolvedParams depth scenarios e = Some (rs, e')
    /\ agree tpl (steps e') /\ skipFrame e e'
    /\ specResult e'
       = Some (setScenarioSkippedCount
                 (countAfter (length scenarios) (ScenarioSkippedCount sr)) sr).
Proof.
  induction scenarios as [|scenario rest IH]; intros rs e sr Hpure Hagree Hin Hsr.
  - inversion Hpure. subst rs. exists e.
    split; [reflexivity|]. split; [exact Hagree|]. split; [reflexivity|].
    rewrite Hsr. destruct sr. reflexivity.
  - simpl in Hpure.
    destruct (skippedResultOf depth (specification e) scenario) as [r|] eqn:Hr;
      [|discriminate].
    destruct (mapM _ rest) as [rs'|] eqn:Hrest; [|discriminate].
    simpl in Hpure. inversion Hpure. subst rs. clear Hpure.
    destruct (getSkippedScenarioResult_pure depth scenario r e sr Hr Hagree Hin Hsr)
      as (e1 & Hrun1 & Hagree1 & Hframe1 & Hsr1).
    assert (Hspec1 : specification e1 = specification e) by apply Hframe1.
    rewrite <- Hspec1 in Hrest.
    destruct (IH rs' e1 _ Hrest Hagree1 (resolveInputs_skipFrame _ _ Hframe1 Hin) Hsr1)
      as (e' & Hrun' & Hagree' & Hframe' & Hsr').
    exists e'. split; [|split; [exact Hagree'|split; [etransitivity; eassumption|]]].
    + simpl. rewrite (bind_step _ _ _ _ _ Hrun1), (bind_step _ _ _ _ _ Hrun').
      reflexivity.
    + rewrite Hsr'. simpl ScenarioSkippedCount. unfold countAfter.
      simpl length. rewrite Nat.iter_succ_r. reflexivity.
Qed.

End SkippedSpecification.

Section SkippedSpecificationRun.

Variable FromDataTableRow : Table -> Z -> ArgLookup.
Variable PopulateConceptDynamicParams : ArgLookup -> option ArgLookup -> ArgLookup -> ArgLookup.
Variable GetResolvedParams : list StepArg -> option ArgLookup -> ArgLookup -> list ProtoParameter.

(** The lookup of the active row. *)
Definition rowLookup (e : specExecutor) : ArgLookup :=
  FromDataTableRow (DataTable (specification e)) (currentTableRow e).

Definition specInfoOf (spec : Specification) : SpecInfo :=
  mkSpecInfo (Heading spec) (FileName spec) false (getTagValue (Tags spec)).

(** The state in which [execute] resolves the items of the specification. *)
Definition enterSpec (e : specExecutor) : specExecutor :=
  set_specResult (Some (NewSpecResult (specification e)))
    (set_currentExecutionInfo
       (Some (mkExecutionInfo (Some (specInfoOf (specification e))) None None)) e).

Lemma execute_skipped depth e errors items rs :
  specErrs (errMap e) !! specPtr (specification e) = Some errors ->
  pureItems PopulateConceptDynamicParams GetResolvedParams (steps e) (errMap e)
    (rowLookup e) depth (GetSpecItems (specification e)) = Some items ->
  mapM (skippedResultOf PopulateConceptDynamicParams GetResolvedParams (steps e)
          (errMap e) (rowLookup e) depth (specification e))
       (Scenarios (specification e)) = Some rs ->
  exists e',
    execute FromDataTableRow PopulateConceptDynamicParams GetResolvedParams depth e
    = Some (setSpecSkipped true
              (AddScenarioResults rs
                 (setScenarioSkippedCount
                    (countAfter (length (Scenarios (specification e))) 0)
                    (AddSpecItems items (NewSpecResult (specification e))))), e')
    /\ agree (steps e) (steps e') /\ skipFrame (enterSpec e) e'.
Proof.
  intros Herrors Hitems Hrs.
  destruct (resolveItems_pure FromDataTableRow PopulateConceptDynamicParams
              GetResolvedParams (steps e) (errMap e) (rowLookup e) depth
              (GetSpecItems (specification e)) items (enterSpec e) Hitems)
    as (e1 & Hrun1 & Hagree1 & Hframe1).
  { apply agree_refl. }
  { split; reflexivity. }
  set (sr1 := AddSpecItems items (NewSpecResult (specification e))).
  set (e2 := set_specResult (Some sr1) e1).
  assert (Hspec1 : specification e1 = specification e) by apply Hframe1.
  assert (Hmap1 : errMap e1 = errMap e) by apply Hframe1.
  assert (Hrow1 : currentTableRow e1 = currentTableRow e) by apply Hframe1.
  assert (Hsr1 : specResult e1 = Some (NewSpecResult (specification e))) by apply Hframe1.
  destruct (getSkippedScenarioResults_pure FromDataTableRow PopulateConceptDynamicParams
              GetResolvedParams (steps e) (errMap e) (rowLookup e) depth
              (Scenarios (specification e)) rs e2 sr1)
    as (e3 & Hrun3 & Hagree3 & Hframe3 & Hsr3).
  { simpl. rewrite Hspec1. exact Hrs. }
  { exact Hagree1. }
  { split; simpl; [exact Hmap1|]. unfold rowLookup. rewrite Hspec1, Hrow1. reflexivity. }
  { reflexivity. }
  eexists. split; [|split].
  - unfold execute. unfold bind at 1, gets at 1.
    unfold bind at 1, modify at 1. unfold bind at 1, modify at 1.
    fold (specInfoOf (specification e)). fold (enterSpec e).
    rewrite (bind_step _ _ _ _ _ Hrun1).
    unfold modifySpecResult at 1, getSpecResult.
    unfold bind at 1. unfold bind at 1. unfold bind at 1. unfold gets at 1.
    rewrite Hsr1. simpl deref. unfold ret at 1. unfold modify at 1.
    fold sr1. fold e2.
    unfold bind at 1, gets at 1. change (errMap e2) with (errMap e1). rewrite Hmap1.
    destruct (decide (is_Some (specErrs (errMap e) !! specPtr (specification e))))
      as [_|Hn]; [|exfalso; apply Hn; rewrite Herrors; eexists; reflexivity].
    unfold getSkippedSpecResult. unfold bind at 1, gets at 1.
    change (specification e2) with (specification e1). rewrite Hspec1.
    rewrite (bind_step _ _ _ _ _ Hrun3).
    unfold modifySpecResult, getSpecResult, bind, gets. rewrite Hsr3.
    simpl. reflexivity.
  - simpl. exact Hagree3.
  - transitivity e1; [apply resolveFrame_skipFrame, Hframe1|].
    destruct Hframe3 as (B1 & B2 & B3 & B4 & B5 & B6 & B7 & B8 & B9 & B10 & B11).
    repeat split; assumption.
Qed.

(** C5: the execution of a specification that is in the specification skip
    map, when the items of the specification and the shell of every scenario
    can be materialised, returns a result with one scenario result per
    scenario, in order, each the materialised shell of its scenario marked
    skipped; the count of skipped scenarios is the number of scenarios (in
    64-bit arithmetic), the specification is marked skipped, and nothing is
    sent to the runner or notified to the plugins: no hook and no step. *)
Theorem skipped_specification_is_materialised_and_not_run :
  forall depth e errors items rs,
    specErrs (errMap e) !! specPtr (specification e) = Some errors ->
    pureItems PopulateConceptDynamicParams GetResolvedParams (steps e) (errMap e)
      (rowLookup e) depth (GetSpecItems (specification e)) = Some items ->
    mapM (skippedResultOf PopulateConceptDynamicParams GetResolvedParams (steps e)
            (errMap e) (rowLookup e) depth (specification e))
         (Scenarios (specification e)) = Some rs ->
    exists result e',
      execute FromDataTableRow PopulateConceptDynamicParams GetResolvedParams depth e
      = Some (result, e')
      /\ ProtoSpec_ScenarioResults result = rs
      /\ Forall2 (fun scenario r =>
                    exists shell,
                      pureShell PopulateConceptDynamicParams GetResolvedParams (steps e)
                        (errMap e) (rowLookup e) depth (specification e) scenario
                      = Some shell
                      /\ ProtoScenario_Contexts r = ProtoScenario_Contexts shell
                      /\ ProtoScenario_ScenarioItems r = ProtoScenario_ScenarioItems shell
                      /\ ProtoScenario_TearDownSteps r = ProtoScenario_TearDownSteps shell
                      /\ ProtoScenario_Skipped r = Some true)
           (Scenarios (specification e)) rs
      /\ ScenarioSkippedCount result
         = wrap64 (Z.of_nat (length (Scenarios (specification e))))
      /\ (inRange64 (Z.of_nat (length (Scenarios (specification e)))) ->
          ScenarioSkippedCount result = Z.of_nat (length (Scenarios (specification e))))
      /\ Spec_Skipped result = true
      /\ sent e' = sent e
      /\ notified e' = notified e.
Proof.
  intros depth e errors items rs Herrors Hitems Hrs.
  destruct (execute_skipped depth e errors items rs Herrors Hitems Hrs)
    as (e' & Hrun & _ & Hframe).
  eexists _, e'. split; [exact Hrun|].
  assert (Hcount : countAfter (length (Scenarios (specification e))) 0
                   = wrap64 (Z.of_nat (length (Scenarios (specification e))))).
  { rewrite countAfter_wrap by (vm_compute; split; [discriminate|reflexivity]).
    reflexivity. }
  split; [reflexivity|]. split.
  { apply mapM_Some in Hrs. eapply Forall2_impl; [exact Hrs|].
    intros scenario r Hr. unfold skippedResultOf in Hr.
    destruct (pureShell _ _ _ _ _ _ _ _) as [shell|]; [|discriminate].
    simpl in Hr. destruct (skipErrorTexts _ _) as [texts|]; [|discriminate].
    inversion Hr. exists shell. repeat split. }
  split; [exact Hcount|].
  split; [intros Hrange; simpl; rewrite Hcount; apply wrap64_id, Hrange|].
  split; [reflexivity|].
  destruct Hframe as (_ & _ & _ & Hsent & Hnot & _).
  split; [exact Hsent|exact Hnot].
Qed.

End SkippedSpecificationRun.

(** The specification of one scenario with a step whose implementation is
    missing, in the specification skip map. *)
Definition skippedSpecExecutor : specExecutor :=
  mkSpecExecutor helloSpecification (mkIndexRange 0 0) scriptedRunner [] []
    None None 0 [] []
    (mkValidationErrMaps {[ 9%nat := [helloError] ]} {[ 7%nat := [helloError] ]}
       {[ 0%nat := [helloError] ]})
    [helloStep] [].

Lemma skipped_specification_is_materialised_and_not_run_witness :
  exists result e',
    execute noLookup keepLookup noParams 1 skippedSpecExecutor = Some (result, e')
    /\ (ProtoScenario_Skipped <$> ProtoSpec_ScenarioResults result) = [Some true]
    /\ (ProtoScenario_ScenarioItems <$> ProtoSpec_ScenarioResults result)
       = [[ItemStep skippedProtoStep]]
    /\ ScenarioSkippedCount result = 1
    /\ Spec_Skipped result = true
    /\ sent e' = [].
Proof.
  edestruct (skipped_specification_is_materialised_and_not_run noLookup keepLookup
               noParams 1%nat skippedSpecExecutor)
    as (result & e' & Hrun & Hrs & _ & _ & Hcount & Hskipped & Hsent & _);
    [reflexivity|reflexivity|reflexivity|].
  exists result, e'. split; [exact Hrun|]. rewrite Hrs.
  split; [reflexivity|]. split; [reflexivity|].
  split; [apply Hcount; vm_compute; split; [discriminate|reflexivity]|].
  split; [exact Hskipped|exact Hsent].
Defined.

(** ** The hooks of a specification *)

Ltac unfold_spec_hooks :=
  unfold executeBeforeSpecHook, executeAfterSpecHook, executeBeforeScenarioHook,
    executeAfterScenarioHook, hookMessage, executeHook, modifySpecResult,
    getSpecResult, printStatus.

Section SpecificationHooks.

Variable FromDataTableRow : Table -> Z -> ArgLookup.
Variable PopulateConceptDynamicParams : ArgLookup -> option ArgLookup -> ArgLookup -> ArgLookup.
Variable GetResolvedParams : list StepArg -> option ArgLookup -> ArgLookup -> list ProtoParameter.

(** The requests of the hooks of a specification whose before-spec hook
    failed. *)
Definition beforeSpecRequest (spec : Specification) : Message :=
  mkMessage Message_SpecExecutionStarting
    (Some (mkExecutionInfo (Some (specInfoOf spec)) None None)) None.

Definition afterFailedSpecRequest (spec : Specification) : Message :=
  mkMessage Message_SpecExecutionEnding
    (Some (mkExecutionInfo (Some (failedSpecInfo (specInfoOf spec))) None None)) None.

(** C3: a specification that is not in the specification skip map and whose
    before-spec hook reports a failure: [execute] returns; the two hook
    requests are all that is sent to the runner, the after-spec hook after the
    before-spec hook, so that no scenario and no step is executed; the result
    has no scenario result, records the failure of the hook as its pre-hook
    failure and is failed; the specification is marked failed in the
    execution info, from before the after-spec hook is sent. *)
Theorem failed_before_spec_hook_suppresses_scenarios :
  forall depth e items,
    specErrs (errMap e) !! specPtr (specification e) = None ->
    pureItems PopulateConceptDynamicParams GetResolvedParams (steps e) (errMap e)
      (rowLookup FromDataTableRow e) depth (GetSpecItems (specification e)) = Some items ->
    let before := beforeSpecRequest (specification e) in
    let after := afterFailedSpecRequest (specification e) in
    let status := statusOfReply (runner e (sent e) before) in
    GetFailed (Some status) = true ->
    exists result e',
      execute FromDataTableRow PopulateConceptDynamicParams GetResolvedParams depth e
      = Some (result, e')
      /\ sent e' = sent e ++ [before; after]
      /\ notified e' = notified e ++ [before; after]
      /\ ProtoSpec_ScenarioResults result = []
      /\ ProtoSpec_TableDrivenResults result = []
      /\ ProtoSpec_PreHookFailure result = Some (GetProtoHookFailure status)
      /\ IsFailed result = true
      /\ (currentExecutionInfo e' ≫= CurrentSpec) = Some (failedSpecInfo (specInfoOf (specification e))).
Proof.
  intros depth e items Hnot Hitems before after status Hfailed.
  destruct (resolveItems_pure FromDataTableRow PopulateConceptDynamicParams
              GetResolvedParams (steps e) (errMap e) (rowLookup FromDataTableRow e) depth
              (GetSpecItems (specification e)) items (enterSpec e) Hitems)
    as (e1 & Hrun1 & _ & Hframe1).
  { apply agree_refl. }
  { split; reflexivity. }
  change (returns (execute FromDataTableRow PopulateConceptDynamicParams
                     GetResolvedParams depth) e
            (fun result e' =>
               sent e' = sent e ++ [before; after]
               /\ notified e' = notified e ++ [before; after]
               /\ ProtoSpec_ScenarioResults result = []
               /\ ProtoSpec_TableDrivenResults result = []
               /\ ProtoSpec_PreHookFailure result = Some (GetProtoHookFailure status)
               /\ IsFailed result = true
               /\ (currentExecutionInfo e' ≫= CurrentSpec)
                  = Some (failedSpecInfo (specInfoOf (specification e))))).
  destruct Hframe1 as (A1 & A2 & A3 & A4 & A5 & A6 & A7 & A8 & A9 & A10 & A11 & A12).
  destruct e1 as [sp1 dti1 rn1 snt1 ntf1 inf1 sr1 row1 rep1 lg1 em1 ss1 rs1].
  destruct e as [sp dti rn snt ntf inf sr row rep lg em ss rs].
  unfold enterSpec in *.
  simpl in A1, A2, A3, A4, A5, A6, A7, A8, A9, A10, A11, A12. subst.
  unfold execute. do 6 go1.
  apply returns_bind. eapply returns_eq.
  { exact Hrun1. }
  unfold_spec_hooks. go.
  destruct (decide (is_Some (specErrs em !! specPtr sp)))
    as [Hin|_]; [simpl in Hnot; rewrite Hnot in Hin; destruct Hin; discriminate|].
  go.
  change (statusOfReply (rn snt (mkMessage Message_SpecExecutionStarting _ None)))
    with status.
  rewrite Hfailed. go.
  match goal with
  | |- context [statusOfReply (?r ?h (mkMessage Message_SpecExecutionEnding ?i None))] =>
      set (a := statusOfReply (r h (mkMessage Message_SpecExecutionEnding i None)))
  end.
  unfold Spec_AddPreHook, Spec_AddPostHook. rewrite Hfailed.
  destruct (GetFailed (Some a)) eqn:Ha; go;
    (split; [rewrite <- app_assoc; reflexivity|]);
    (split; [rewrite <- app_assoc; reflexivity|]);
    repeat split.
Qed.

End SpecificationHooks.

(** A runner whose before-spec hook fails, and a specification of one
    scenario run against it. *)
Definition failingHookRunner (history : list Message) (message : Message) : ChannelReply :=
  match MessageType message with
  | Message_SpecExecutionStarting => statusReply (failedWith 4)
  | _ => statusReply (succeeded 1)
  end.

Definition failingHookExecutor : specExecutor :=
  mkSpecExecutor helloSpecification (mkIndexRange 0 0) failingHookRunner [] []
    None None 0 [] [] noErrors [helloStep] [].

Lemma failed_before_spec_hook_suppresses_scenarios_witness :
  exists result e',
    execute noLookup keepLookup noParams 1 failingHookExecutor = Some (result, e')
    /\ map MessageType (sent e')
       = [Message_SpecExecutionStarting; Message_SpecExecutionEnding]
    /\ ProtoSpec_ScenarioResults result = []
    /\ is_Some (ProtoSpec_PreHookFailure result)
    /\ IsFailed result = true
    /\ ((currentExecutionInfo e' ≫= CurrentSpec) ≫= fun spec => Some (SpecInfo_IsFailed spec))
       = Some true.
Proof.
  edestruct (failed_before_spec_hook_suppresses_scenarios noLookup keepLookup noParams
               1%nat failingHookExecutor)
    as (result & e' & Hrun & Hsent & _ & Hrs & _ & Hpre & Hfailed & Hinfo);
    [reflexivity|reflexivity|reflexivity|].
  exists result, e'. split; [exact Hrun|].
  split; [rewrite Hsent; reflexivity|]. split; [exact Hrs|].
  split; [rewrite Hpre; eexists; reflexivity|]. split; [exact Hfailed|].
  rewrite Hinfo. reflexivity.
Defined.

(** ** The items of a scenario *)

(** What the execution of a list of items establishes: only new result
    objects; the flag returned tells whether one of the items failed. *)
Definition itemsPost (e : specExecutor) (a : bool * list ProtoItem) (e' : specExecutor)
    : Prop :=
  (exists new, results e' = results e ++ new)
  /\ a.1 = existsb (itemFailed e') a.2
  /\ Forall (validResult e') a.2
  /\ inScenario e'
  /\ execFrame e e'.

Lemma validResult_unexecuted e items :
  forallb unexecuted items = true -> Forall (validResult e) items.
Proof.
  induction items as [|x xs IH]; simpl; intros H; constructor.
  - apply andb_true_iff in H. destruct H as [Hx _].
    intros a Ha. rewrite (unexecuted_itemResult _ Hx) in Ha. discriminate.
  - apply IH. apply andb_true_iff in H. apply H.
Qed.

Lemma existsb_itemFailed_unexecuted e items :
  forallb unexecuted items = true -> existsb (itemFailed e) items = false.
Proof.
  intros H. apply itemFailed_unexecuted with (e := e) in H.
  induction H as [|x xs Hx _ IH]; simpl; [reflexivity|]. rewrite Hx, IH. reflexivity.
Qed.

Lemma existsb_itemFailed_grow e e' new items :
  results e' = results e ++ new -> Forall (validResult e) items ->
  existsb (itemFailed e') items = existsb (itemFailed e) items.
Proof.
  intros Hres Hvalid. induction Hvalid as [|x xs Hx _ IH]; simpl; [reflexivity|].
  rewrite IH. erewrite itemFailed_grow; eauto.
Qed.

Lemma executeItems_spec items :
  forallb unexecuted items = true ->
  forall e, inScenario e -> returns (executeItems items) e (itemsPost e).
Proof.
  induction items as [|x rest IH]; intros Hun e Hin.
  - simpl. step. unfold itemsPost. cbn [fst snd].
    split; [exists []; rewrite app_nil_r; reflexivity|].
    split; [reflexivity|]. split; [constructor|]. split; [exact Hin|reflexivity].
  - simpl in Hun. apply andb_true_iff in Hun. destruct Hun as [Hx Hrest].
    simpl executeItems. apply returns_bind.
    eapply returns_mono; [apply (executeItem_spec x Hx e Hin)|].
    intros [f x'] e1 ([new1 Hnew1] & Hflag1 & Hvalid1 & _ & Hin1 & Hframe1).
    cbn [fst snd] in *. cbv beta iota. destruct f.
    + step. unfold itemsPost. cbn [fst snd].
      split; [exists new1; exact Hnew1|].
      split; [simpl; rewrite <- Hflag1; reflexivity|].
      split; [constructor; [exact Hvalid1|apply validResult_unexecuted, Hrest]|].
      split; assumption.
    + apply returns_bind.
      eapply returns_mono; [apply (IH Hrest e1 Hin1)|].
      intros [f2 rest'] e2 ([new2 Hnew2] & Hflag2 & Hvalid2 & Hin2 & Hframe2).
      cbn [fst snd] in *. cbv beta iota. step. unfold itemsPost. cbn [fst snd].
      split; [exists (new1 ++ new2); rewrite Hnew2, Hnew1, app_assoc; reflexivity|].
      split.
      { simpl. rewrite (itemFailed_grow e1 e2 new2 x' Hnew2 Hvalid1), <- Hflag1.
        exact Hflag2. }
      split; [constructor; [eapply validResult_grow; eassumption|exact Hvalid2]|].
      split; [exact Hin2|]. transitivity e1; assumption.
Qed.

(** ** Scenarios that run *)

(** The part of [executeScenario] that executes the items: the contexts, the
    items of the scenario unless a context failed, and the tear-down steps. *)
Definition runScenarioItems (scenarioResult : ScenarioResult) : Exec ScenarioResult :=
  let* scenarioResult := executeContextItems scenarioResult in
  let* scenarioResult :=
    if negb (GetFailure scenarioResult)
    then executeScenarioItems scenarioResult
    else ret scenarioResult in
  executeTearDownItems scenarioResult.

(** The part of [executeScenario] from the after-scenario hook on. *)
Definition finishScenario (scenarioResult : ScenarioResult) : Exec ScenarioResult :=
  let* (afterHookExecutionStatus, scenarioResult) :=
    executeAfterScenarioHook scenarioResult in
  let scenarioResult := Scenario_AddPostHook afterHookExecutionStatus scenarioResult in
  let* scenarioResult := UpdateExecutionTime scenarioResult in
  (if GetFailed (Some afterHookExecutionStatus) then
     setScenarioFailure ;;
     printStatus afterHookExecutionStatus
   else ret tt) ;;
  report (ScenarioEnd (GetFailure scenarioResult)) ;;
  ret scenarioResult.

Lemma executeBeforeScenarioHook_eq r e :
  executeBeforeScenarioHook r e
  = Some ((statusOfReply (runner e (sent e) (hookRequest Message_ScenarioExecutionStarting e)),
           Scenario_AddExecTime
             (GetExecutionTime
                (Some (statusOfReply
                         (runner e (sent e)
                            (hookRequest Message_ScenarioExecutionStarting e))))) r),
          afterHook Message_ScenarioExecutionStarting e).
Proof.
  unfold executeBeforeScenarioHook, executeHook, hookMessage, NotifyPlugins, bind, gets,
    ret, modify.
  rewrite executeAndGetStatus_eq. reflexivity.
Qed.

Lemma executeAfterScenarioHook_eq r e :
  executeAfterScenarioHook r e
  = Some ((statusOfReply (runner e (sent e) (hookRequest Message_ScenarioExecutionEnding e)),
           Scenario_AddExecTime
             (GetExecutionTime
                (Some (statusOfReply
                         (runner e (sent e)
                            (hookRequest Message_ScenarioExecutionEnding e))))) r),
          afterHook Message_ScenarioExecutionEnding e).
Proof.
  unfold executeAfterScenarioHook, executeHook, hookMessage, NotifyPlugins, bind, gets,
    ret, modify.
  rewrite executeAndGetStatus_eq. reflexivity.
Qed.

(** Adding to the execution time of a scenario result changes nothing else. *)
Definition sameButTime (r r' : ScenarioResult) : Prop :=
  ProtoScenario_Failed r' = ProtoScenario_Failed r
  /\ ProtoScenario_Contexts r' = ProtoScenario_Contexts r
  /\ ProtoScenario_ScenarioItems r' = ProtoScenario_ScenarioItems r
  /\ ProtoScenario_TearDownSteps r' = ProtoScenario_TearDownSteps r
  /\ ProtoScenario_PreHookFailure r' = ProtoScenario_PreHookFailure r
  /\ ProtoScenario_PostHookFailure r' = ProtoScenario_PostHookFailure r
  /\ ProtoScenario_Skipped r' = ProtoScenario_Skipped r.

Lemma foldl_AddExecTime_sameButTime {A} (f : A -> Z) (xs : list A) : forall r,
  sameButTime r (foldl (fun r x => Scenario_AddExecTime (f x) r) r xs).
Proof.
  induction xs as [|x xs IH]; intros r; simpl.
  - repeat split.
  - destruct (IH (Scenario_AddExecTime (f x) r)) as (A1 & A2 & A3 & A4 & A5 & A6 & A7).
    repeat split; assumption.
Qed.

Lemma finishScenario_spec r e :
  inScenario e ->
  returns (finishScenario r) e (fun result e' =>
    let after := hookRequest Message_ScenarioExecutionEnding e in
    let status := statusOfReply (runner e (sent e) after) in
    sent e' = sent e ++ [after]
    /\ notified e' = notified e ++ [after]
    /\ results e' = results e
    /\ ProtoScenario_Contexts result = ProtoScenario_Contexts r
    /\ ProtoScenario_ScenarioItems result = ProtoScenario_ScenarioItems r
    /\ ProtoScenario_TearDownSteps result = ProtoScenario_TearDownSteps r
    /\ ProtoScenario_PostHookFailure result
       = (if GetFailed (Some status) then Some (GetProtoHookFailure status)
          else ProtoScenario_PostHookFailure r)
    /\ GetFailure result = GetFailure r || GetFailed (Some status)).
Proof.
  intros Hin. unfold inScenario in Hin.
  destruct e as [sp dti rn snt ntf inf sr row rep lg em ss rs].
  simpl in Hin. destruct inf as [[spec scenario step0]|]; [|contradiction].
  simpl in Hin. destruct Hin as [[spec' ->] [scenario' ->]].
  unfold finishScenario. apply returns_bind.
  eapply returns_eq; [apply executeAfterScenarioHook_eq|].
  unfold afterHook, hookRequest, UpdateExecutionTime, printStatus. flat.
  set (after := mkMessage Message_ScenarioExecutionEnding _ None).
  set (status := statusOfReply (rn snt after)).
  destruct (GetFailed (Some status)) eqn:Hstatus; go;
    match goal with
    | |- context [foldl ?g ?r0 ?xs] =>
        match g with
        | (fun r item => Scenario_AddExecTime (itemExecutionTime ?st item) r) =>
            pose proof (foldl_AddExecTime_sameButTime (itemExecutionTime st) xs r0)
              as (A1 & A2 & A3 & A4 & A5 & A6 & A7);
            set (result := foldl g r0 xs) in *
        end
    end;
    unfold Scenario_AddPostHook in *; rewrite Hstatus in *; unfold GetFailure;
    cbn [ProtoScenario_Failed ProtoScenario_Contexts ProtoScenario_ScenarioItems
         ProtoScenario_TearDownSteps ProtoScenario_PostHookFailure Scenario_AddExecTime]
      in *;
    rewrite ?orb_true_r, ?orb_false_r; repeat split; assumption.
Qed.

(** The three passes over the items of a scenario: each is a run of
    [executeItems]; the items of the scenario are passed over when a context
    failed; the tear-down steps are run from wherever the first two passes
    ended. *)
Definition scenarioPhases (r : ScenarioResult) (e : specExecutor)
    (fc fb ft : bool) (contexts body teardown : list ProtoItem)
    (ec eb et : specExecutor) : Prop :=
  executeItems (ProtoScenario_Contexts r) e = Some ((fc, contexts), ec)
  /\ (if fc
      then fb = false /\ body = ProtoScenario_ScenarioItems r /\ eb = ec
      else executeItems (ProtoScenario_ScenarioItems r) ec = Some ((fb, body), eb))
  /\ executeItems (ProtoScenario_TearDownSteps r) eb = Some ((ft, teardown), et).

Lemma runScenarioItems_spec r e :
  inScenario e ->
  forallb unexecuted (ProtoScenario_Contexts r) = true ->
  forallb unexecuted (ProtoScenario_ScenarioItems r) = true ->
  forallb unexecuted (ProtoScenario_TearDownSteps r) = true ->
  GetFailure r = false ->
  exists fc fb ft contexts body teardown ec eb et r',
    scenarioPhases r e fc fb ft contexts body teardown ec eb et
    /\ runScenarioItems r e = Some (r', et)
    /\ ProtoScenario_Contexts r' = contexts
    /\ ProtoScenario_ScenarioItems r' = body
    /\ ProtoScenario_TearDownSteps r' = teardown
    /\ ProtoScenario_PreHookFailure r' = ProtoScenario_PreHookFailure r
    /\ ProtoScenario_PostHookFailure r' = ProtoScenario_PostHookFailure r
    /\ GetFailure r' = fc || fb || ft
    /\ fc = existsb (itemFailed et) contexts
    /\ fb = existsb (itemFailed et) body
    /\ ft = existsb (itemFailed et) teardown
    /\ inScenario et
    /\ execFrame e et.
Proof.
  intros Hin Hc Hb Ht Hok.
  destruct (executeItems_spec _ Hc e Hin)
    as ([fc contexts] & ec & Hrunc & [newc Hnewc] & Hfc & Hvc & Hinc & Hframec).
  cbn [fst snd] in *.
  assert (Hbody : exists fb body eb newb,
             (if fc
              then fb = false /\ body = ProtoScenario_ScenarioItems r /\ eb = ec
              else executeItems (ProtoScenario_ScenarioItems r) ec = Some ((fb, body), eb))
             /\ results eb = results ec ++ newb
             /\ fb = existsb (itemFailed eb) body
             /\ Forall (validResult eb) body
             /\ inScenario eb /\ execFrame ec eb).
  { destruct fc.
    - exists false, (ProtoScenario_ScenarioItems r), ec, [].
      split; [repeat split|]. split; [rewrite app_nil_r; reflexivity|].
      split; [symmetry; apply existsb_itemFailed_unexecuted, Hb|].
      split; [apply validResult_unexecuted, Hb|]. split; [exact Hinc|reflexivity].
    - destruct (executeItems_spec _ Hb ec Hinc)
        as ([fb body] & eb & Hrunb & [newb Hnewb] & Hfb & Hvb & Hinb & Hframeb).
      exists fb, body, eb, newb. cbn [fst snd] in *.
      split; [exact Hrunb|]. split; [exact Hnewb|]. split; [exact Hfb|].
      split; [exact Hvb|]. split; assumption. }
  destruct Hbody as (fb & body & eb & newb & Hrunb & Hnewb & Hfb & Hvb & Hinb & Hframeb).
  destruct (executeItems_spec _ Ht eb Hinb)
    as ([ft teardown] & et & Hrunt & [newt Hnewt] & Hft & Hvt & Hint & Hframet).
  cbn [fst snd] in *.
  assert (Hrun : exists r',
             runScenarioItems r e = Some (r', et)
             /\ ProtoScenario_Contexts r' = contexts
             /\ ProtoScenario_ScenarioItems r' = body
             /\ ProtoScenario_TearDownSteps r' = teardown
             /\ ProtoScenario_PreHookFailure r' = ProtoScenario_PreHookFailure r
             /\ ProtoScenario_PostHookFailure r' = ProtoScenario_PostHookFailure r
             /\ GetFailure r' = fc || fb || ft).
  { unfold runScenarioItems, executeContextItems. unfold bind at 1.
    rewrite (bind_step _ _ _ _ _ Hrunc). cbv beta iota zeta.
    destruct fc.
    - destruct Hrunb as (-> & -> & ->). unfold ret at 1. cbv beta iota.
      cbn [GetFailure SetFailure ProtoScenario_Failed negb]. unfold bind at 1, ret at 1.
      unfold executeTearDownItems.
      cbn [SetFailure setContexts ProtoScenario_TearDownSteps].
      rewrite (bind_step _ _ _ _ _ Hrunt). cbv beta iota zeta.
      destruct ft; eexists; (split; [reflexivity|]); repeat split.
    - unfold ret at 1. cbv beta iota.
      replace (GetFailure (setContexts contexts r)) with false by (symmetry; exact Hok).
      cbn [negb]. unfold executeScenarioItems. unfold bind at 1.
      cbn [setContexts ProtoScenario_ScenarioItems].
      rewrite (bind_step _ _ _ _ _ Hrunb).
      cbv beta iota zeta. unfold executeTearDownItems.
      destruct fb; unfold ret at 1; cbv beta iota;
        cbn [SetFailure setScenarioItems setContexts ProtoScenario_TearDownSteps];
        rewrite (bind_step _ _ _ _ _ Hrunt); cbv beta iota zeta;
        destruct ft; eexists; (split; [reflexivity|]); repeat split; exact Hok. }
  destruct Hrun as (r' & Hrun & R1 & R2 & R3 & R4 & R5 & R6).
  exists fc, fb, ft, contexts, body, teardown, ec, eb, et, r'.
  split; [split; [exact Hrunc|split; [exact Hrunb|exact Hrunt]]|].
  split; [exact Hrun|].
  split; [exact R1|]. split; [exact R2|]. split; [exact R3|]. split; [exact R4|].
  split; [exact R5|]. split; [exact R6|].
  assert (Hvb' : Forall (validResult ec) contexts) by exact Hvc.
  split.
  { rewrite Hfc. symmetry.
    rewrite (existsb_itemFailed_grow eb et newt) by
      first [exact Hnewt
            |eapply Forall_impl; [exact Hvc|];
             intros x Hx; eapply validResult_grow; eassumption].
    apply (existsb_itemFailed_grow ec eb newb); assumption. }
  split.
  { rewrite Hfb. symmetry. apply (existsb_itemFailed_grow eb et newt); assumption. }
  split; [exact Hft|]. split; [exact Hint|].
  transitivity ec; [exact Hframec|]. transitivity eb; assumption.
Qed.

Section RunningScenarios.

Variable FromDataTableRow : Table -> Z -> ArgLookup.
Variable PopulateConceptDynamicParams : ArgLookup -> option ArgLookup -> ArgLookup -> ArgLookup.
Variable GetResolvedParams : list StepArg -> option ArgLookup -> ArgLookup -> list ProtoParameter.

Lemma pureShell_fresh tpl errs dt depth spec scenario shell :
  pureShell PopulateConceptDynamicParams GetResolvedParams tpl errs dt depth spec scenario
  = Some shell ->
  forallb unexecuted (ProtoScenario_Contexts shell) = true
  /\ forallb unexecuted (ProtoScenario_ScenarioItems shell) = true
  /\ forallb unexecuted (ProtoScenario_TearDownSteps shell) = true
  /\ GetFailure shell = false.
Proof.
  unfold pureShell. intros H.
  destruct (pureItems _ _ _ _ _ _ (map Item_Step (Contexts spec))) as [contexts|] eqn:Hc;
    [|discriminate].
  destruct (pureItems _ _ _ _ _ _ (map Item_Step (TearDownSteps spec))) as [tearDown|] eqn:Ht;
    [|discriminate].
  destruct (pureItems _ _ _ _ _ _ (Scenario_Items scenario)) as [items|] eqn:Hi;
    [|discriminate].
  simpl in H. inversion H. subst shell. simpl.
  apply pureItems_unexecuted in Hc, Ht, Hi. repeat split; assumption.
Qed.

(** The request of the before-scenario hook. *)
Definition beforeScenarioRequest (info : ExecutionInfo) (scenario : Scenario) : Message :=
  mkMessage Message_ScenarioExecutionStarting
    (Some (mkExecutionInfo (CurrentSpec info) (Some (scenarioInfoOf scenario))
             (CurrentStep info)))
    None.

(** A scenario that is not in the scenario skip map and whose before-scenario
    hook does not fail: [executeScenario] is the execution of the items of
    the shell and then the after-scenario hook. *)
Lemma executeScenario_run depth scenario e info shell :
  currentExecutionInfo e = Some info ->
  scenarioErrs (errMap e) !! scenarioPtr scenario = None ->
  shellOf FromDataTableRow PopulateConceptDynamicParams GetResolvedParams depth e scenario
  = Some shell ->
  let before := beforeScenarioRequest info scenario in
  let status := statusOfReply (runner e (sent e) before) in
  GetFailed (Some status) = false ->
  exists e1,
    resolveFrame (enterScenario scenario info e) e1
    /\ agree (steps e) (steps e1)
    /\ executeScenario FromDataTableRow PopulateConceptDynamicParams GetResolvedParams
         depth scenario e
       = (let* r := runScenarioItems
                      (Scenario_AddExecTime (GetExecutionTime (Some status))
                         (setScenarioSkipped (Some false) shell)) in
          finishScenario r)
           (afterHook Message_ScenarioExecutionStarting
              (set_reported (reported e1 ++ [ScenarioStart (Scenario_Heading scenario)]) e1)).
Proof.
  intros Hinfo Hnot Hshell before status Hok.
  destruct (executeScenario_shell FromDataTableRow PopulateConceptDynamicParams
              GetResolvedParams depth scenario e info shell Hinfo Hshell)
    as (e1 & Hrun & Hagree & Hframe).
  exists e1. split; [exact Hframe|]. split; [exact Hagree|].
  unfold executeScenario.
  apply bind_inv in Hrun. destruct Hrun as (u & e0 & Hset & Hadd).
  rewrite (bind_step _ _ _ _ _ Hset).
  rewrite (bind_step _ _ _ _ _ Hadd).
  destruct Hframe as (A1 & A2 & A3 & A4 & A5 & A6 & A7 & A8 & A9 & A10 & A11 & A12).
  unfold bind at 1, gets at 1. rewrite A11.
  change (errMap (enterScenario scenario info e)) with (errMap e).
  destruct (decide (is_Some (scenarioErrs (errMap e) !! scenarioPtr scenario)))
    as [Hin|_]; [rewrite Hnot in Hin; destruct Hin; discriminate|].
  unfold bind at 1, report at 1, modify at 1. cbv beta iota.
  unfold bind at 1. rewrite executeBeforeScenarioHook_eq. cbv beta iota.
  assert (Hreq : hookRequest Message_ScenarioExecutionStarting
                   (set_reported (reported e1 ++ [ScenarioStart (Scenario_Heading scenario)])
                      e1) = before).
  { unfold hookRequest, before, beforeScenarioRequest. simpl currentExecutionInfo.
    rewrite A6. reflexivity. }
  rewrite Hreq. simpl runner. simpl sent. rewrite A3, A4.
  simpl runner. simpl sent. fold status. rewrite Hok.
  reflexivity.
Qed.

(** C4: a scenario that is not in the scenario skip map, whose shell can be
    materialised and whose before-scenario hook does not fail.
    [executeScenario] returns, and what it does between the two scenario
    hooks is three runs of [executeItems]: over the contexts; over the items
    of the scenario, unless a context failed, in which case they are left as
    they are and nothing is run for them; and over the tear-down steps, from
    the state the first two left, whether or not one of them failed.  The
    result carries the items as these runs return them, and its failure flag
    is the disjunction of the failure of every context, item and tear-down
    step, and of the after-scenario hook. *)
Theorem teardown_runs_whatever_failed_and_failures_accumulate :
  forall depth scenario e info shell,
    currentExecutionInfo e = Some info ->
    is_Some (CurrentSpec info) ->
    scenarioErrs (errMap e) !! scenarioPtr scenario = None ->
    shellOf FromDataTableRow PopulateConceptDynamicParams GetResolvedParams depth e scenario
    = Some shell ->
    let before := beforeScenarioRequest info scenario in
    GetFailed (Some (statusOfReply (runner e (sent e) before))) = false ->
    exists result e' e0 ec eb et fc fb ft contexts body teardown after,
      executeScenario FromDataTableRow PopulateConceptDynamicParams GetResolvedParams
        depth scenario e = Some (result, e')
      /\ sent e0 = sent e ++ [before]
      /\ executeItems (ProtoScenario_Contexts shell) e0 = Some ((fc, contexts), ec)
      /\ (if fc
          then fb = false /\ body = ProtoScenario_ScenarioItems shell /\ eb = ec
          else executeItems (ProtoScenario_ScenarioItems shell) ec = Some ((fb, body), eb))
      /\ executeItems (ProtoScenario_TearDownSteps shell) eb = Some ((ft, teardown), et)
      /\ MessageType after = Message_ScenarioExecutionEnding
      /\ sent e' = sent et ++ [after]
      /\ ProtoScenario_Contexts result = contexts
      /\ ProtoScenario_ScenarioItems result = body
      /\ ProtoScenario_TearDownSteps result = teardown
      /\ fc = existsb (itemFailed e') contexts
      /\ fb = existsb (itemFailed e') body
      /\ ft = existsb (itemFailed e') teardown
      /\ GetFailure result
         = existsb (itemFailed e') (contexts ++ body ++ teardown)
           || GetFailed (Some (statusOfReply (runner et (sent et) after))).
Proof.
  intros depth scenario e info shell Hinfo Hspec Hnot Hshell before Hok.
  destruct (executeScenario_run depth scenario e info shell Hinfo Hnot Hshell Hok)
    as (e1 & Hframe & _ & Hrun).
  destruct (pureShell_fresh _ _ _ _ _ _ _ Hshell) as (Hc & Hb & Ht & Hfresh).
  set (status := statusOfReply (runner e (sent e) before)) in *.
  set (r0 := Scenario_AddExecTime (GetExecutionTime (Some status))
               (setScenarioSkipped (Some false) shell)) in *.
  set (e0 := afterHook Message_ScenarioExecutionStarting
               (set_reported (reported e1 ++ [ScenarioStart (Scenario_Heading scenario)])
                  e1)) in *.
  destruct Hframe as (A1 & A2 & A3 & A4 & A5 & A6 & A7 & A8 & A9 & A10 & A11 & A12).
  assert (Hin0 : inScenario e0).
  { unfold inScenario, e0, afterHook. simpl. rewrite A6. simpl.
    split; [exact Hspec|eexists; reflexivity]. }
  destruct (runScenarioItems_spec r0 e0 Hin0 Hc Hb Ht Hfresh)
    as (fc & fb & ft & contexts & body & teardown & ec & eb & et & r'
        & (Hrunc & Hrunb & Hrunt) & Hitems & R1 & R2 & R3 & _ & _ & R6
        & Hfc & Hfb & Hft & Hint & _).
  destruct (finishScenario_spec r' et Hint)
    as (result & e' & Hfinish & Hsent & _ & Hres & F1 & F2 & F3 & _ & F5).
  exists result, e', e0, ec, eb, et, fc, fb, ft, contexts, body, teardown,
    (hookRequest Message_ScenarioExecutionEnding et).
  split.
  { rewrite Hrun. rewrite (bind_step _ _ _ _ _ Hitems). exact Hfinish. }
  split.
  { unfold e0, afterHook. simpl. rewrite A4. simpl. f_equal. f_equal.
    unfold hookRequest, before, beforeScenarioRequest. simpl. rewrite A6. reflexivity. }
  split; [exact Hrunc|]. split; [exact Hrunb|]. split; [exact Hrunt|].
  split; [reflexivity|]. split; [exact Hsent|].
  split; [congruence|]. split; [congruence|]. split; [congruence|].
  assert (Hsame : forall items, existsb (itemFailed e') items = existsb (itemFailed et) items).
  { intros items. induction items as [|x xs IH]; simpl; [reflexivity|].
    rewrite IH. unfold itemFailed, readResult. rewrite Hres. reflexivity. }
  rewrite !Hsame. split; [exact Hfc|]. split; [exact Hfb|]. split; [exact Hft|].
  rewrite F5, R6, !existsb_app, <- Hfc, <- Hfb, <- Hft, orb_assoc. reflexivity.
Qed.

End RunningScenarios.

(** A specification with a context that fails, a scenario of one step and a
    tear-down step. *)
Definition tearDownScenario : Scenario :=
  mkScenario 7%nat "Greeting" None [Item_Step 1%nat].

Definition tearDownSpecification : Specification :=
  mkSpecification 9%nat "Greetings" "example.spec" None [0%nat] [2%nat] (mkTable [] [])
    [tearDownScenario] [].

Definition tearDownExecutor : specExecutor :=
  mkSpecExecutor tearDownSpecification (mkIndexRange 0 0) scriptedRunner [] []
    (Some helloInfo) (Some (NewSpecResult tearDownSpecification)) 0 [] [] noErrors
    [mkStep 2 "second" "second" [] false [] [] [] None;
     mkStep 5 "first" "first" [] false [] [] [] None;
     mkStep 8 "third" "third" [] false [] [] [] None]
    [].

Lemma teardown_runs_whatever_failed_and_failures_accumulate_witness :
  exists result e',
    executeScenario noLookup keepLookup noParams 1 tearDownScenario tearDownExecutor
    = Some (result, e')
    /\ GetFailure result = true
    /\ forallb unexecuted (ProtoScenario_ScenarioItems result) = true
    /\ existsb (itemFailed e') (ProtoScenario_TearDownSteps result) = false
    /\ map MessageType (sent e')
       = [Message_ScenarioExecutionStarting;
          Message_StepExecutionStarting; Message_ExecuteStep; Message_StepExecutionEnding;
          Message_StepExecutionStarting; Message_ExecuteStep; Message_StepExecutionEnding;
          Message_ScenarioExecutionEnding]
    /\ ((sent e' !! 5%nat ≫= ExecuteStepRequest_) ≫= fun r => Some (ActualStepText r))
       = Some "third".
Proof.
  edestruct (teardown_runs_whatever_failed_and_failures_accumulate noLookup keepLookup
               noParams 1%nat tearDownScenario tearDownExecutor)
    as (result & e' & e0 & ec & eb & et & fc & fb & ft & contexts & body & teardown & after
        & Hrun & _);
    [reflexivity|eexists; reflexivity|reflexivity|reflexivity|reflexivity|].
  exists result, e'. split; [exact Hrun|].
  vm_compute in Hrun. injection Hrun as <- <-.
  repeat split.
Defined.

(** ** Resolution against several rows *)

Section Rows.

Variable FromDataTableRow : Table -> Z -> ArgLookup.
Variable PopulateConceptDynamicParams : ArgLookup -> option ArgLookup -> ArgLookup -> ArgLookup.
Variable GetResolvedParams : list StepArg -> option ArgLookup -> ArgLookup -> list ProtoParameter.

(** The resolution of an item against a row, as a function of the parsed
    steps. *)
Definition resolvedAt (depth : nat) (e : specExecutor) (row : Z) (item : Item)
    : option ProtoItem :=
  pureItem PopulateConceptDynamicParams GetResolvedParams (steps e) (errMap e)
    (FromDataTableRow (DataTable (specification e)) row) depth item.

Lemma agree_fields tpl ss :
  agree tpl ss ->
  forall a s, tpl !! a = Some s ->
    exists s', ss !! a = Some s' /\ setParent (Parent s) s' = s
               /\ (isRoot tpl a -> s' = s).
Proof.
  intros Hagree a s Hs. destruct (Hagree a s Hs) as (s' & Hs' & Hstatic & Hroot).
  exists s'. split; [exact Hs'|].
  assert (Hset : setParent (Parent s) s' = s).
  { unfold sameStatic in Hstatic.
    transitivity (setParent (Parent s) (setParent None s')); [reflexivity|].
    rewrite <- Hstatic. destruct s. reflexivity. }
  split; [exact Hset|].
  intros Hr. rewrite <- Hset, <- (Hroot Hr). destruct s'. reflexivity.
Qed.

(** C9, amended: the resolution of an item against a row is a function of the
    parsed steps, the skip maps and the row.  It works on copies that it adds
    to the store of steps; of the steps that were there it changes nothing
    but the [Parent] of steps that are the child of a concept, which it
    rebinds to the copy of the concept.  A second resolution, against
    another row, returns what it would have returned without the first. *)
Theorem resolution_does_not_depend_on_earlier_resolutions :
  forall depth item e row item1 item2,
    resolvedAt depth e (currentTableRow e) item = Some item1 ->
    resolvedAt depth e row item = Some item2 ->
    exists e1 e2 e2',
      resolveToProtoItem FromDataTableRow PopulateConceptDynamicParams GetResolvedParams
        depth item e = Some (item1, e1)
      /\ (length (steps e) <= length (steps e1))%nat
      /\ (forall a s, steps e !! a = Some s ->
            exists s', steps e1 !! a = Some s' /\ setParent (Parent s) s' = s
                       /\ (isRoot (steps e) a -> s' = s))
      /\ resolveToProtoItem FromDataTableRow PopulateConceptDynamicParams GetResolvedParams
           depth item (set_currentTableRow row e1) = Some (item2, e2)
      /\ resolveToProtoItem FromDataTableRow PopulateConceptDynamicParams GetResolvedParams
           depth item (set_currentTableRow row e) = Some (item2, e2').
Proof.
  intros depth item e row item1 item2 H1 H2. unfold resolvedAt in *.
  destruct (resolveToProtoItem_pure FromDataTableRow PopulateConceptDynamicParams
              GetResolvedParams (steps e) (errMap e) _ depth item item1 e H1)
    as (e1 & Hrun1 & Hagree1 & Hframe1).
  { apply agree_refl. }
  { split; reflexivity. }
  assert (Hspec1 : specification e1 = specification e) by apply Hframe1.
  assert (Hmap1 : errMap e1 = errMap e) by apply Hframe1.
  destruct (resolveToProtoItem_pure FromDataTableRow PopulateConceptDynamicParams
              GetResolvedParams (steps e) (errMap e) _ depth item item2
              (set_currentTableRow row e1) H2)
    as (e2 & Hrun2 & _ & _).
  { exact Hagree1. }
  { split; simpl; [exact Hmap1|rewrite Hspec1; reflexivity]. }
  destruct (resolveToProtoItem_pure FromDataTableRow PopulateConceptDynamicParams
              GetResolvedParams (steps e) (errMap e) _ depth item item2
              (set_currentTableRow row e) H2)
    as (e2' & Hrun2' & _ & _).
  { apply agree_refl. }
  { split; reflexivity. }
  exists e1, e2, e2'. split; [exact Hrun1|].
  split; [apply agree_length, Hagree1|].
  split; [apply agree_fields, Hagree1|].
  split; assumption.
Qed.

End Rows.

(** A concept [Greet <name>] whose only step is the concept
    [Welcome <name>], whose only step is [Say hi to <name>], in a
    specification with a data table of two rows. *)
Definition fromRow (t : Table) (row : Z) : ArgLookup :=
  match rowAt t row with
  | Some values => zip_with (fun h v => (h, mkStepArg h v Static)) (Headers t) values
  | None => []
  end.

Definition bindRow (own : ArgLookup) (parent : option ArgLookup) (row : ArgLookup)
    : ArgLookup := row.

Fixpoint valueIn (lookup : ArgLookup) (name : string) : option string :=
  match lookup with
  | [] => None
  | (n, a) :: rest => if String.eqb n name then Some (StepArg_Value a) else valueIn rest name
  end.

Definition resolveArgs (args : list StepArg) (concept : option ArgLookup) (row : ArgLookup)
    : list ProtoParameter :=
  map (fun a =>
         mkProtoParameter (StepArg_Name a)
           (default (StepArg_Value a)
              (valueIn (default row concept) (StepArg_Name a))))
      args.

Definition greetConcept : Step :=
  mkStep 1 "Greet {}" "Greet <name>" [mkStepArg "name" "name" Dynamic] true []
    [1%nat] [] None.

Definition welcomeConcept : Step :=
  mkStep 2 "Welcome {}" "Welcome <name>" [mkStepArg "name" "name" Dynamic] true []
    [2%nat] [] (Some 0%nat).

Definition sayHiStep : Step :=
  mkStep 3 "Say hi to {}" "Say hi to <name>" [mkStepArg "name" "name" Dynamic] false []
    [] [mkFragment Fragment_Text "Say hi to " None;
        mkFragment Fragment_Parameter "" None]
    (Some 1%nat).

Definition namesTable : Table := mkTable ["name"] [["alice"]; ["bob"]].

Definition greetSpecification : Specification :=
  mkSpecification 9%nat "Greetings" "example.spec" None [] [] namesTable
    [mkScenario 7%nat "Greeting" None [Item_Step 0%nat]] [].

Definition greetExecutor : specExecutor :=
  mkSpecExecutor greetSpecification (mkIndexRange 0 1) scriptedRunner [] []
    (Some helloInfo) (Some (NewSpecResult greetSpecification)) 0 [] [] noErrors
    [greetConcept; welcomeConcept; sayHiStep] [].

(** The resolution of [Greet <name>] rebinds the [Parent] of the step
    [Welcome <name>] of the parsed concept, from the parsed concept to the
    copy that the resolution works on. *)
Lemma resolution_rebinds_the_parent_of_a_nested_concept :
  exists item e',
    resolveToProtoItem fromRow bindRow resolveArgs 3 (Item_Step 0%nat) greetExecutor
    = Some (item, e')
    /\ ConceptSteps greetConcept = [1%nat]
    /\ steps greetExecutor !! 1%nat = Some welcomeConcept
    /\ steps e' !! 1%nat = Some (setParent (Some 3%nat) welcomeConcept)
    /\ steps e' !! 1%nat <> steps greetExecutor !! 1%nat.
Proof.
  eexists _, _. split; [vm_compute; reflexivity|].
  split; [reflexivity|]. split; [reflexivity|]. split; [reflexivity|].
  simpl. discriminate.
Qed.

Lemma resolution_does_not_depend_on_earlier_resolutions_witness :
  exists item1 item2 e1 e2,
    resolveToProtoItem fromRow bindRow resolveArgs 3 (Item_Step 0%nat) greetExecutor
    = Some (item1, e1)
    /\ resolveToProtoItem fromRow bindRow resolveArgs 3 (Item_Step 0%nat)
         (set_currentTableRow 1 e1) = Some (item2, e2)
    /\ resolvedAt fromRow bindRow resolveArgs 3 greetExecutor 0 (Item_Step 0%nat)
       = Some item1
    /\ resolvedAt fromRow bindRow resolveArgs 3 greetExecutor 1 (Item_Step 0%nat)
       = Some item2
    /\ steps e1 !! 0%nat = Some greetConcept.
Proof.
  edestruct (resolution_does_not_depend_on_earlier_resolutions fromRow bindRow resolveArgs
               3%nat (Item_Step 0%nat) greetExecutor 1)
    as (e1 & e2 & e2' & Hrun1 & _ & Hfields & Hrun2 & _);
    [reflexivity|reflexivity|].
  eexists _, _, e1, e2. split; [exact Hrun1|]. split; [exact Hrun2|].
  split; [reflexivity|]. split; [reflexivity|].
  destruct (Hfields 0%nat greetConcept eq_refl) as (s' & Hs' & _ & Hroot).
  rewrite Hs'. f_equal. apply Hroot.
  repeat constructor; vm_compute; intros H; inversion H as [|? ? ? H']; inversion H'.
Defined.

(** ** The count of skipped scenarios *)

Definition skippedCount (e : specExecutor) : option Z :=
  ScenarioSkippedCount <$> specResult e.

(** What happens between two skipped scenarios: the specification, the rows
    to run, the skip maps and the count of skipped scenarios stay. *)
Definition sameCount (e e' : specExecutor) : Prop :=
  specification e' = specification e /\ dataTableIndex e' = dataTableIndex e
  /\ errMap e' = errMap e /\ skippedCount e' = skippedCount e.

Global Instance sameCount_preorder : PreOrder sameCount.
Proof.
  split.
  - intros e. repeat split.
  - intros e1 e2 e3 (A1 & A2 & A3 & A4) (B1 & B2 & B3 & B4).
    repeat split; congruence.
Qed.

(** [k] more scenarios have been skipped. *)
Definition counts (k : nat) (e e' : specExecutor) : Prop :=
  specification e' = specification e /\ dataTableIndex e' = dataTableIndex e
  /\ errMap e' = errMap e /\ skippedCount e' = countAfter k <$> skippedCount e.

Lemma sameCount_counts e e' : sameCount e e' -> counts 0 e e'.
Proof.
  intros (A1 & A2 & A3 & A4). repeat split; try assumption.
  rewrite A4. destruct (skippedCount e); reflexivity.
Qed.

Lemma counts_trans j k e1 e2 e3 :
  counts j e1 e2 -> counts k e2 e3 -> counts (j + k) e1 e3.
Proof.
  intros (A1 & A2 & A3 & A4) (B1 & B2 & B3 & B4).
  split; [congruence|]. split; [congruence|]. split; [congruence|].
  rewrite B4, A4. destruct (skippedCount e1) as [c|]; [|reflexivity].
  simpl. f_equal. unfold countAfter. rewrite Nat.add_comm, Nat.iter_add. reflexivity.
Qed.

Lemma counts_sameCount_l k e1 e2 e3 : sameCount e1 e2 -> counts k e2 e3 -> counts k e1 e3.
Proof. intros H1 H2. apply (counts_trans 0 k e1 e2 e3); [apply sameCount_counts, H1|exact H2]. Qed.

Lemma counts_sameCount_r k e1 e2 e3 : counts k e1 e2 -> sameCount e2 e3 -> counts k e1 e3.
Proof.
  intros H1 H2. replace k with (k + 0)%nat by lia.
  apply (counts_trans k 0 e1 e2 e3); [exact H1|apply sameCount_counts, H2].
Qed.

Lemma resolveFrame_sameCount e e' : resolveFrame e e' -> sameCount e e'.
Proof.
  intros (A1 & A2 & A3 & A4 & A5 & A6 & A7 & A8 & A9 & A10 & A11 & A12).
  unfold sameCount, skippedCount. rewrite A7. repeat split; assumption.
Qed.

Lemma preserves_weaken {A} (R R' : relation specExecutor) (m : Exec A) :
  (forall e e', R e e' -> R' e e') -> preserves R m -> preserves R' m.
Proof. intros HR Hm e a e' H. apply HR. eapply Hm. exact H. Qed.

Lemma modify_sameCount (f : specExecutor -> specExecutor) :
  (forall e, sameCount e (f e)) -> preserves sameCount (modify f).
Proof. apply preserves_modify. Qed.

Lemma report_sameCount ev : preserves sameCount (report ev).
Proof. apply preserves_modify. intros e. repeat split. Qed.

Lemma logError_sameCount msg : preserves sameCount (logError msg).
Proof. apply preserves_modify. intros e. repeat split. Qed.

Lemma NotifyPlugins_sameCount message : preserves sameCount (NotifyPlugins message).
Proof. apply preserves_modify. intros e. repeat split. Qed.

Lemma GetResponseForGaugeMessage_sameCount message :
  preserves sameCount (GetResponseForGaugeMessage message).
Proof. intros e a e' H. inversion H. subst. repeat split. Qed.

Lemma newResult_sameCount r : preserves sameCount (newResult r).
Proof. intros e a e' H. inversion H. subst. repeat split. Qed.

Lemma updateResult_sameCount a f : preserves sameCount (updateResult a f).
Proof.
  intros e b e' H. unfold updateResult in H. destruct (results e !! a); [|discriminate].
  inversion H. subst. repeat split.
Qed.

Lemma set_currentExecutionInfo_sameCount i :
  preserves sameCount (modify (set_currentExecutionInfo i)).
Proof. apply preserves_modify. intros e. repeat split. Qed.

Lemma modifySpecResult_sameCount f :
  (forall r, ScenarioSkippedCount (f r) = ScenarioSkippedCount r) ->
  preserves sameCount (modifySpecResult f).
Proof.
  intros Hf e a e' H. unfold modifySpecResult, getSpecResult in H. inv_exec.
  unfold sameCount, skippedCount. simpl.
  repeat split.
  match goal with Hr : specResult _ = Some _ |- _ => rewrite Hr end.
  simpl. rewrite Hf. reflexivity.
Qed.

(** Proofs that a computation keeps the count, primitive by primitive. *)
Ltac keep1 :=
  first
    [ assumption
    | match goal with
      | H : context [preserves sameCount _] |- preserves sameCount _ => apply H
      end
    | apply preserves_ret; typeclasses eauto
    | apply preserves_panic
    | apply preserves_gets; typeclasses eauto
    | apply preserves_deref; typeclasses eauto
    | apply report_sameCount
    | apply logError_sameCount
    | apply NotifyPlugins_sameCount
    | apply GetResponseForGaugeMessage_sameCount
    | apply newResult_sameCount
    | apply updateResult_sameCount
    | apply set_currentExecutionInfo_sameCount
    | apply modifySpecResult_sameCount; intros []; reflexivity
    | apply preserves_bind; [typeclasses eauto| |intros ?]
    | lazymatch goal with
      | |- preserves _ (match ?x with _ => _ end) => destruct x
      end ].

Ltac keep := repeat keep1.

Lemma getExecutionInfo_sameCount : preserves sameCount getExecutionInfo.
Proof. unfold getExecutionInfo. keep. Qed.

Lemma setSpecFailure_sameCount : preserves sameCount setSpecFailure.
Proof. unfold setSpecFailure, getExecutionInfo. keep. Qed.

Lemma setScenarioFailure_sameCount : preserves sameCount setScenarioFailure.
Proof.
  unfold setScenarioFailure, getExecutionInfo.
  pose proof setSpecFailure_sameCount. keep.
Qed.

Lemma setStepFailure_sameCount : preserves sameCount setStepFailure.
Proof.
  unfold setStepFailure, getExecutionInfo.
  pose proof setScenarioFailure_sameCount. keep.
Qed.

Lemma printStatus_sameCount r : preserves sameCount (printStatus r).
Proof. unfold printStatus. keep. Qed.

Lemma executeAndGetStatus_sameCount message :
  preserves sameCount (executeAndGetStatus message).
Proof. unfold executeAndGetStatus. keep. Qed.

Lemma executeBeforeStepHook_sameCount : preserves sameCount executeBeforeStepHook.
Proof.
  unfold executeBeforeStepHook, hookMessage.
  pose proof executeAndGetStatus_sameCount. keep.
Qed.

Lemma executeAfterStepHook_sameCount : preserves sameCount executeAfterStepHook.
Proof.
  unfold executeAfterStepHook, hookMessage.
  pose proof executeAndGetStatus_sameCount. keep.
Qed.

Lemma addExecutionTimes_sameCount r hs : preserves sameCount (addExecutionTimes r hs).
Proof. induction hs as [|h hs IH]; simpl; keep. Qed.

Lemma executeStep_sameCount protoStep : preserves sameCount (executeStep protoStep).
Proof.
  unfold executeStep, setCurrentStep, getExecutionInfo, loadResult.
  pose proof executeBeforeStepHook_sameCount.
  pose proof executeAfterStepHook_sameCount.
  pose proof setStepFailure_sameCount.
  pose proof printStatus_sameCount.
  pose proof executeAndGetStatus_sameCount.
  pose proof addExecutionTimes_sameCount.
  keep.
Qed.

Lemma findFailedChild_sameCount protoSteps : forall t,
  preserves sameCount (findFailedChild protoSteps t).
Proof.
  induction protoSteps as [|x xs IH]; intros t; simpl; [keep|].
  unfold loadResult. destruct x; repeat first [apply IH|keep1].
Qed.

Lemma setExecutionResultForConcept_sameCount c :
  preserves sameCount (setExecutionResultForConcept c).
Proof.
  unfold setExecutionResultForConcept. pose proof findFailedChild_sameCount. keep.
Qed.

Lemma executeConceptSteps_sameCount rec todo : forall cs res done,
  Forall (fun x => preserves sameCount (rec x)) todo ->
  preserves sameCount (executeConceptSteps rec cs res done todo).
Proof.
  induction todo as [|x rest IH]; intros cs res done Hrec; simpl.
  - unfold loadResult. keep.
  - apply Forall_cons in Hrec. destruct Hrec as [Hx Hrest].
    pose proof setExecutionResultForConcept_sameCount.
    apply preserves_bind; [typeclasses eauto|exact Hx|intros [f x']].
    apply preserves_bind; [typeclasses eauto|keep|intros c].
    destruct f; [keep|]. apply IH. exact Hrest.
Qed.

Lemma executeItem_sameCount item : preserves sameCount (executeItem item).
Proof.
  induction item as [s|cs protoSteps res IH|text|text|tags] using ProtoItem_nested_ind;
    simpl.
  - pose proof executeStep_sameCount. keep.
  - pose proof (executeConceptSteps_sameCount executeItem protoSteps cs res [] IH). keep.
  - keep.
  - keep.
  - keep.
Qed.

Lemma executeItems_sameCount items : preserves sameCount (executeItems items).
Proof.
  induction items as [|x rest IH]; simpl; [keep|].
  pose proof executeItem_sameCount. keep.
Qed.

Lemma formatSkipErrors_sameCount errs : preserves sameCount (formatSkipErrors errs).
Proof.
  induction errs as [|err rest IH]; simpl; [keep|].
  unfold formatSkipError, loadStep. keep.
Qed.

Lemma setSkipInfoInResult_counts r scenario e a e' :
  setSkipInfoInResult r scenario e = Some (a, e') -> counts 1 e e'.
Proof.
  unfold setSkipInfoInResult. intros H.
  apply bind_inv in H. destruct H as (u & e1 & H1 & H).
  apply (counts_sameCount_r 1 e e1 e').
  - unfold modifySpecResult, getSpecResult in H1. inv_exec.
    unfold counts, skippedCount. simpl. repeat split.
    match goal with Hr : specResult _ = Some _ |- _ => rewrite Hr end.
    reflexivity.
  - revert H. generalize e1 a e'.
    change (preserves sameCount
              (let* errs := gets errMap in
               let* errors := formatSkipErrors
                                (default [] (scenarioErrs errs !! scenarioPtr scenario)) in
               ret (setSkipErrors errors (setScenarioSkipped (Some true) r)))).
    pose proof formatSkipErrors_sameCount. keep.
Qed.

Lemma UpdateExecutionTime_sameCount r : preserves sameCount (UpdateExecutionTime r).
Proof. unfold UpdateExecutionTime. keep. Qed.

Lemma executeScenarioHooks_sameCount r :
  preserves sameCount (executeBeforeScenarioHook r)
  /\ preserves sameCount (executeAfterScenarioHook r).
Proof.
  unfold executeBeforeScenarioHook, executeAfterScenarioHook, executeHook, hookMessage.
  pose proof executeAndGetStatus_sameCount. split; keep.
Qed.

Lemma runScenarioItems_sameCount r : preserves sameCount (runScenarioItems r).
Proof.
  unfold runScenarioItems, executeContextItems, executeScenarioItems, executeTearDownItems.
  pose proof executeItems_sameCount. keep.
Qed.

Lemma finishScenario_sameCount r : preserves sameCount (finishScenario r).
Proof.
  unfold finishScenario.
  pose proof (fun r => proj2 (executeScenarioHooks_sameCount r)).
  pose proof UpdateExecutionTime_sameCount.
  pose proof setScenarioFailure_sameCount. pose proof printStatus_sameCount.
  keep.
Qed.

(** The scenarios that are in the scenario skip map. *)
Definition skippedAmong (errs : validationErrMaps) (scenarios : list Scenario) : nat :=
  length (filter (fun scenario => is_Some (scenarioErrs errs !! scenarioPtr scenario))
            scenarios).

Section Counting.

Variable FromDataTableRow : Table -> Z -> ArgLookup.
Variable PopulateConceptDynamicParams : ArgLookup -> option ArgLookup -> ArgLookup -> ArgLookup.
Variable GetResolvedParams : list StepArg -> option ArgLookup -> ArgLookup -> list ProtoParameter.

Lemma addAllItemsForScenarioExecution_sameCount depth scenario r :
  preserves sameCount
    (addAllItemsForScenarioExecution FromDataTableRow PopulateConceptDynamicParams
       GetResolvedParams depth scenario r).
Proof.
  eapply preserves_weaken; [apply resolveFrame_sameCount|].
  apply addAllItemsForScenarioExecution_resolveFrame.
Qed.

Lemma executeScenario_counts depth scenario e r e' :
  executeScenario FromDataTableRow PopulateConceptDynamicParams GetResolvedParams
    depth scenario e = Some (r, e') ->
  counts (if decide (is_Some (scenarioErrs (errMap e) !! scenarioPtr scenario))
          then 1 else 0) e e'.
Proof.
  unfold executeScenario. intros H.
  apply bind_inv in H. destruct H as (u & e1 & H1 & H).
  apply bind_inv in H. destruct H as (shell & e2 & H2 & H).
  apply bind_inv in H. destruct H as (errs & e3 & H3 & H).
  apply gets_inv in H3. destruct H3 as [-> ->].
  assert (S1 : sameCount e e1).
  { revert H1. unfold setCurrentScenario, getExecutionInfo.
    generalize e u e1.
    match goal with |- forall e u e1, ?m e = _ -> _ => change (preserves sameCount m) end.
    keep. }
  assert (S2 : sameCount e1 e2).
  { eapply addAllItemsForScenarioExecution_sameCount. exact H2. }
  assert (S12 : sameCount e e2) by (transitivity e1; assumption).
  assert (Hmap : errMap e2 = errMap e) by apply S12.
  rewrite Hmap in H.
  destruct (decide (is_Some (scenarioErrs (errMap e) !! scenarioPtr scenario))).
  - apply (counts_sameCount_l 1 e e2 e' S12).
    eapply setSkipInfoInResult_counts. exact H.
  - apply sameCount_counts. transitivity e2; [exact S12|].
    revert H. generalize e2 r e'.
    match goal with |- forall e u e1, ?m e = _ -> _ => change (preserves sameCount m) end.
    pose proof (fun r => proj1 (executeScenarioHooks_sameCount r)).
    pose proof (fun r => proj2 (executeScenarioHooks_sameCount r)).
    pose proof UpdateExecutionTime_sameCount.
    pose proof setScenarioFailure_sameCount. pose proof printStatus_sameCount.
    pose proof executeItems_sameCount.
    unfold executeContextItems, executeScenarioItems, executeTearDownItems.
    keep.
Qed.

Lemma executeScenariosOf_counts depth scenarios : forall e rs e',
  executeScenariosOf FromDataTableRow PopulateConceptDynamicParams GetResolvedParams
    depth scenarios e = Some (rs, e') ->
  counts (skippedAmong (errMap e) scenarios) e e'.
Proof.
  induction scenarios as [|scenario rest IH]; intros e rs e' H; simpl in H.
  - apply ret_inv in H. destruct H as [_ ->]. apply sameCount_counts. reflexivity.
  - apply bind_inv in H. destruct H as (r & e1 & H1 & H).
    apply bind_inv in H. destruct H as (rs' & e2 & H2 & H).
    apply ret_inv in H. destruct H as [_ ->].
    apply executeScenario_counts in H1. apply IH in H2.
    assert (Hmap : errMap e1 = errMap e) by apply H1. rewrite Hmap in H2.
    unfold skippedAmong. rewrite filter_cons.
    destruct (decide (is_Some (scenarioErrs (errMap e) !! scenarioPtr scenario)));
      simpl length.
    + apply (counts_trans 1 _ e e1 e2); assumption.
    + apply (counts_trans 0 _ e e1 e2); assumption.
Qed.

Lemma executeScenarios_counts depth e rs e' :
  executeScenarios FromDataTableRow PopulateConceptDynamicParams GetResolvedParams
    depth e = Some (rs, e') ->
  counts (skippedAmong (errMap e) (Scenarios (specification e))) e e'.
Proof.
  unfold executeScenarios. intros H.
  apply bind_inv in H. destruct H as (spec & e1 & H1 & H).
  apply gets_inv in H1. destruct H1 as [-> ->].
  eapply executeScenariosOf_counts. exact H.
Qed.

Lemma executeTableRows_counts depth count : forall acc e rs e',
  executeTableRows FromDataTableRow PopulateConceptDynamicParams GetResolvedParams
    depth count acc e = Some (rs, e') ->
  counts (count * skippedAmong (errMap e) (Scenarios (specification e))) e e'.
Proof.
  induction count as [|count IH]; intros acc e rs e' H; simpl in H.
  - apply ret_inv in H. destruct H as [_ ->]. apply sameCount_counts. reflexivity.
  - apply bind_inv in H. destruct H as (spec & e1 & H1 & H).
    apply gets_inv in H1. destruct H1 as [-> ->].
    apply bind_inv in H. destruct H as (row & e1 & H1 & H).
    apply gets_inv in H1. destruct H1 as [-> ->].
    apply bind_inv in H. destruct H as (values & e1 & H1 & H).
    apply deref_inv in H1. destruct H1 as [_ ->].
    apply bind_inv in H. destruct H as (u & e1 & H1 & H).
    apply report_sameCount in H1.
    apply bind_inv in H. destruct H as (rs1 & e2 & H2 & H).
    apply executeScenarios_counts in H2.
    apply bind_inv in H. destruct H as (u' & e3 & H3 & H).
    apply modify_inv in H3. subst e3.
    apply IH in H. simpl errMap in H. simpl specification in H.
    assert (Hmap1 : errMap e1 = errMap e) by apply H1.
    assert (Hspec1 : specification e1 = specification e) by apply H1.
    assert (Hmap2 : errMap e2 = errMap e1) by apply H2.
    assert (Hspec2 : specification e2 = specification e1) by apply H2.
    rewrite Hmap2, Hspec2, Hmap1, Hspec1 in H. rewrite Hmap1, Hspec1 in H2.
    simpl Nat.mul.
    apply (counts_sameCount_l _ e e1 _ H1).
    apply (counts_trans _ _ e1 e2 e' H2).
    apply (counts_sameCount_l _ e2 (set_currentTableRow (add64 (currentTableRow e) 1) e2) e');
      [repeat split|exact H].
Qed.


Lemma executeTableDrivenSpec_counts depth e u e' :
  executeTableDrivenSpec FromDataTableRow PopulateConceptDynamicParams GetResolvedParams
    depth e = Some (u, e') ->
  counts (Z.to_nat (range_end (dataTableIndex e) - range_start (dataTableIndex e) + 1)
          * skippedAmong (errMap e) (Scenarios (specification e))) e e'.
Proof.
  unfold executeTableDrivenSpec. intros H.
  apply bind_inv in H. destruct H as (range & e1 & H1 & H).
  apply gets_inv in H1. destruct H1 as [-> ->].
  apply bind_inv in H. destruct H as (u1 & e1 & H1 & H).
  apply modify_inv in H1. subst e1.
  apply bind_inv in H. destruct H as (rs & e2 & H2 & H).
  apply executeTableRows_counts in H2. simpl errMap in H2. simpl specification in H2.
  apply modifySpecResult_sameCount in H; [|intros []; reflexivity].
  apply (counts_sameCount_l _ e (set_currentTableRow (range_start (dataTableIndex e)) e) e');
    [repeat split|].
  apply (counts_sameCount_r _ _ e2 e'); assumption.
Qed.

Lemma getSkippedScenarioResults_counts depth scenarios : forall e rs e',
  getSkippedScenarioResults FromDataTableRow PopulateConceptDynamicParams
    GetResolvedParams depth scenarios e = Some (rs, e') ->
  counts (length scenarios) e e'.
Proof.
  induction scenarios as [|scenario rest IH]; intros e rs e' H; simpl in H.
  - apply ret_inv in H. destruct H as [_ ->]. apply sameCount_counts. reflexivity.
  - apply bind_inv in H. destruct H as (r & e1 & H1 & H).
    apply bind_inv in H. destruct H as (rs' & e2 & H2 & H).
    apply ret_inv in H. destruct H as [_ ->].
    apply IH in H2. unfold getSkippedScenarioResult in H1.
    apply bind_inv in H1. destruct H1 as (shell & e0 & H0 & H1).
    apply addAllItemsForScenarioExecution_sameCount in H0.
    apply setSkipInfoInResult_counts in H1.
    simpl length. apply (counts_trans 1 _ e e1 e2); [|exact H2].
    apply (counts_sameCount_l 1 e e0 e1); assumption.
Qed.

Lemma Spec_AddPreHook_count h r :
  ScenarioSkippedCount (Spec_AddPreHook h r) = ScenarioSkippedCount r.
Proof. unfold Spec_AddPreHook. destruct (GetFailed (Some h)); reflexivity. Qed.

Lemma Spec_AddPostHook_count h r :
  ScenarioSkippedCount (Spec_AddPostHook h r) = ScenarioSkippedCount r.
Proof. unfold Spec_AddPostHook. destruct (GetFailed (Some h)); reflexivity. Qed.

Lemma executeSpecHooks_sameCount :
  preserves sameCount executeBeforeSpecHook /\ preserves sameCount executeAfterSpecHook.
Proof.
  unfold executeBeforeSpecHook, executeAfterSpecHook, executeHook, hookMessage.
  pose proof executeAndGetStatus_sameCount. split; keep.
Qed.

Lemma executeBeforeSpecHook_status e status e' :
  executeBeforeSpecHook e = Some (status, e') ->
  status = statusOfReply (runner e (sent e) (hookRequest Message_SpecExecutionStarting e)).
Proof.
  unfold executeBeforeSpecHook, executeHook, hookMessage, NotifyPlugins. intros H.
  inv_exec.
  match goal with
  | H : executeAndGetStatus _ _ = Some _ |- _ =>
      rewrite executeAndGetStatus_eq in H; inversion H
  end.
  reflexivity.
Qed.

(** The number of executions of a scenario that is in the scenario skip map:
    none when the before-spec hook fails, else one per such scenario, for
    every row of the range when the specification has a data table. *)
Definition skippedExecutions (e : specExecutor) : nat :=
  let spec := specification e in
  if GetFailed (Some (statusOfReply (runner e (sent e) (beforeSpecRequest spec)))) then 0%nat
  else
    let rows :=
      if GetRowCount (DataTable spec) =? 0 then 1%nat
      else Z.to_nat (range_end (dataTableIndex e) - range_start (dataTableIndex e) + 1) in
    (rows * skippedAmong (errMap e) (Scenarios spec))%nat.

(** C6, amended: for every call of [execute] that returns.  When the
    specification is in the specification skip map, the count of skipped
    scenarios of the result is the number of scenarios of the specification
    and the result is marked skipped, whatever the count.  When it is not,
    the count is the number of executions, over the rows, of a scenario that
    is in the scenario skip map, and the result is marked skipped exactly
    when the count is greater than zero.  The count is a 64-bit integer. *)
Theorem skipped_count_of_a_completed_execution :
  forall depth e result e',
    execute FromDataTableRow PopulateConceptDynamicParams GetResolvedParams depth e
    = Some (result, e') ->
    (is_Some (specErrs (errMap e) !! specPtr (specification e)) ->
     ScenarioSkippedCount result
     = wrap64 (Z.of_nat (length (Scenarios (specification e))))
     /\ Spec_Skipped result = true)
    /\ (specErrs (errMap e) !! specPtr (specification e) = None ->
        ScenarioSkippedCount result = wrap64 (Z.of_nat (skippedExecutions e))
        /\ Spec_Skipped result = (ScenarioSkippedCount result >? 0)).
Proof.
  intros depth e result e' H. unfold execute in H.
  apply bind_inv in H. destruct H as (spec & e0 & H0 & H).
  apply gets_inv in H0. destruct H0 as [-> ->].
  apply bind_inv in H. destruct H as (u1 & e1 & H1 & H).
  apply modify_inv in H1. subst e1.
  apply bind_inv in H. destruct H as (u2 & e1 & H1 & H).
  apply modify_inv in H1. subst e1.
  fold (specInfoOf (specification e)) in H.
  change (set_specResult _ (set_currentExecutionInfo _ e)) with (enterSpec e) in H.
  apply bind_inv in H. destruct H as (items & e1 & H1 & H).
  apply resolveItems_resolveFrame in H1.
  apply bind_inv in H. destruct H as (u3 & e2 & H2 & H).
  assert (Hsr2 : specResult e2
                 = Some (AddSpecItems items (NewSpecResult (specification e)))
                 /\ resolveFrame e1 (set_specResult (specResult e1) e2)).
  { unfold modifySpecResult, getSpecResult in H2. inv_exec.
    destruct H1 as (A1 & A2 & A3 & A4 & A5 & A6 & A7 & A8 & A9 & A10 & A11 & A12).
    simpl in A7. split.
    - simpl. match goal with Hr : specResult _ = Some _ |- _ => rewrite A7 in Hr;
        inversion Hr end. reflexivity.
    - repeat split. }
  destruct Hsr2 as [Hsr2 Hframe2].
  destruct H1 as (A1 & A2 & A3 & A4 & A5 & A6 & A7 & A8 & A9 & A10 & A11 & A12).
  destruct Hframe2 as (B1 & B2 & B3 & B4 & B5 & B6 & _ & B8 & B9 & B10 & B11 & B12).
  simpl in A1, A2, A3, A4, A5, A6, A7, A8, A9, A10, A11, A12.
  simpl in B1, B2, B3, B4, B5, B6, B8, B9, B10, B11, B12.
  assert (Hcount2 : skippedCount e2 = Some 0).
  { unfold skippedCount. rewrite Hsr2. reflexivity. }
  assert (Hspec2 : specification e2 = specification e) by congruence.
  assert (Hmap2 : errMap e2 = errMap e) by congruence.
  assert (Hrange2 : dataTableIndex e2 = dataTableIndex e) by congruence.
  assert (Hzero : forall k, countAfter k 0 = wrap64 (Z.of_nat k)).
  { intros k. rewrite countAfter_wrap by (vm_compute; split; [discriminate|reflexivity]).
    reflexivity. }
  apply bind_inv in H. destruct H as (errs & e3 & H3 & H).
  apply gets_inv in H3. destruct H3 as [-> ->]. rewrite Hmap2 in H.
  destruct (decide (is_Some (specErrs (errMap e) !! specPtr (specification e))))
    as [Hin|Hout].
  - split; [intros _|intros Hnone; rewrite Hnone in Hin; destruct Hin; discriminate].
    unfold getSkippedSpecResult in H.
    apply bind_inv in H. destruct H as (spec & e3 & H3 & H).
    apply gets_inv in H3. destruct H3 as [-> ->].
    apply bind_inv in H. destruct H as (rs & e3 & H3 & H).
    apply getSkippedScenarioResults_counts in H3.
    destruct H3 as (_ & _ & _ & Hcount3). rewrite Hcount2, Hspec2 in Hcount3.
    unfold modifySpecResult, getSpecResult in H. inv_exec.
    simpl in *.
    repeat match goal with
           | Hr : Some _ = Some _ |- _ => inversion Hr; clear Hr; subst
           end.
    unfold skippedCount in Hcount3.
    match goal with
    | Hr : specResult e3 = Some ?r |- _ => rewrite Hr in Hcount3
    end.
    simpl in Hcount3. inversion Hcount3 as [Hc]. simpl.
    split; [rewrite Hc; apply Hzero|reflexivity].
  - split; [intros Hin; contradiction|intros _].
    apply bind_inv in H. destruct H as (u4 & e3 & H3 & H).
    unfold report in H3. apply modify_inv in H3. subst e3.
    apply bind_inv in H. destruct H as (status & e4 & H4 & H).
    pose proof (executeBeforeSpecHook_status _ _ _ H4) as Hstatus.
    apply (proj1 executeSpecHooks_sameCount) in H4.
    assert (Hreq : hookRequest Message_SpecExecutionStarting
                     (set_reported
                        (reported e2 ++ [SpecStart (SpecInfo_Name (specInfoOf (specification e)))])
                        e2)
                   = beforeSpecRequest (specification e)).
    { unfold hookRequest, beforeSpecRequest. simpl currentExecutionInfo.
      rewrite B6, A6. reflexivity. }
    rewrite Hreq in Hstatus. simpl runner in Hstatus. simpl sent in Hstatus.
    rewrite B3, A3, B4, A4 in Hstatus.
    assert (S24 : sameCount e2 e4).
    { etransitivity; [|exact H4]. repeat split. }
    apply bind_inv in H. destruct H as (u5 & e5 & H5 & H).
    assert (C45 : counts (skippedExecutions e) e4 e5).
    { unfold skippedExecutions. cbv zeta. rewrite <- Hstatus.
      destruct S24 as (S1 & S2 & S3 & _).
      destruct (GetFailed (Some status)).
      - apply sameCount_counts. revert H5. generalize e4 u5 e5.
        match goal with |- forall e u e1, ?m e = _ -> _ => change (preserves sameCount m) end.
        pose proof setSpecFailure_sameCount. pose proof printStatus_sameCount.
        apply preserves_bind; [typeclasses eauto| |intros ?; keep].
        apply modifySpecResult_sameCount. apply Spec_AddPreHook_count.
      - destruct (GetRowCount (DataTable (specification e)) =? 0).
        + apply bind_inv in H5. destruct H5 as (rs & e45 & Hrun & H5).
          apply executeScenarios_counts in Hrun.
          apply modifySpecResult_sameCount in H5; [|intros []; reflexivity].
          rewrite S3, S1, Hmap2, Hspec2 in Hrun. rewrite Nat.mul_1_l.
          apply (counts_sameCount_r _ e4 e45 e5); assumption.
        + apply executeTableDrivenSpec_counts in H5.
          rewrite S3, S2, S1, Hmap2, Hspec2, Hrange2 in H5. exact H5. }
    apply bind_inv in H. destruct H as (after & e6 & H6 & H).
    apply (proj2 executeSpecHooks_sameCount) in H6.
    apply bind_inv in H. destruct H as (u7 & e7 & H7 & H).
    assert (S67 : sameCount e6 e7).
    { revert H7. generalize e6 u7 e7.
      match goal with |- forall e u e1, ?m e = _ -> _ => change (preserves sameCount m) end.
      pose proof setSpecFailure_sameCount. pose proof printStatus_sameCount.
      destruct (GetFailed (Some after)); [|keep].
      apply preserves_bind; [typeclasses eauto| |intros ?; keep].
      apply modifySpecResult_sameCount. apply Spec_AddPostHook_count. }
    assert (C27 : counts (skippedExecutions e) e2 e7).
    { apply (counts_sameCount_l _ e2 e4 e7 S24).
      apply (counts_sameCount_r _ e4 e5 e7 C45).
      transitivity e6; assumption. }
    destruct C27 as (_ & _ & _ & Hcount7). rewrite Hcount2 in Hcount7.
    unfold modifySpecResult, getSpecResult, report in H. inv_exec.
    simpl in *.
    repeat match goal with
           | Hr : Some _ = Some _ |- _ => inversion Hr; clear Hr; subst
           end.
    unfold skippedCount in Hcount7.
    match goal with
    | Hr : specResult e7 = Some ?r |- _ => rewrite Hr in Hcount7
    end.
    simpl in Hcount7. inversion Hcount7 as [Hc]. simpl.
    split; [rewrite Hc; apply Hzero|reflexivity].
Qed.

End Counting.

(** A specification without scenarios that is in the specification skip map:
    its result is marked skipped although no scenario was skipped. *)
Definition emptySkippedExecutor : specExecutor :=
  mkSpecExecutor emptySpecification (mkIndexRange 0 0) scriptedRunner [] []
    None None 0 [] []
    (mkValidationErrMaps {[ 0%nat := [helloError] ]} ∅ ∅)
    [] [].

Lemma skipped_flag_without_a_skipped_scenario :
  exists result e',
    execute noLookup keepLookup noParams 1 emptySkippedExecutor = Some (result, e')
    /\ ScenarioSkippedCount result = 0
    /\ Spec_Skipped result = true
    /\ ~ (Spec_Skipped result = true <-> ScenarioSkippedCount result > 0).
Proof.
  eexists _, _. split; [vm_compute; reflexivity|].
  split; [reflexivity|]. split; [reflexivity|].
  simpl. intros [H _]. specialize (H eq_refl). lia.
Qed.

(** A specification with a data table of two rows and two scenarios, the
    first of which is in the scenario skip map. *)
Definition twoRowSpecification : Specification :=
  mkSpecification 9%nat "Greetings" "example.spec" None [] [] namesTable
    [mkScenario 7%nat "Greeting" None [Item_Step 0%nat];
     mkScenario 8%nat "Parting" None [Item_Step 0%nat]] [].

Definition twoRowExecutor : specExecutor :=
  mkSpecExecutor twoRowSpecification (mkIndexRange 0 1) scriptedRunner [] []
    None None 0 [] []
    (mkValidationErrMaps ∅ {[ 7%nat := [helloError] ]} {[ 0%nat := [helloError] ]})
    [helloStep] [].

Lemma skipped_count_of_a_completed_execution_witness :
  exists result e',
    execute fromRow bindRow resolveArgs 1 twoRowExecutor = Some (result, e')
    /\ skippedExecutions twoRowExecutor = 2%nat
    /\ ScenarioSkippedCount result = 2
    /\ Spec_Skipped result = true.
Proof.
  destruct (execute fromRow bindRow resolveArgs 1 twoRowExecutor) as [[result e']|] eqn:Hrun;
    [|vm_compute in Hrun; discriminate].
  exists result, e'. split; [reflexivity|]. split; [reflexivity|].
  destruct (skipped_count_of_a_completed_execution fromRow bindRow resolveArgs
              1%nat twoRowExecutor result e' Hrun) as [_ Hnot].
  destruct (Hnot eq_refl) as [Hcount Hskipped].
  rewrite Hskipped, Hcount. split; reflexivity.
Defined.

(** * Further methods of the executor, and what they keep *)

(** ** Parameters of a step *)

(** The number of parameter fragments of a step. *)
Definition parameterCount (fragments : list Fragment) : nat :=
  length (getParameters fragments).

Lemma updateFragments_defined fragments parameters : forall paramIndex,
  (paramIndex <= length parameters)%nat ->
  is_Some (updateFragments fragments parameters paramIndex)
  <-> (paramIndex + parameterCount fragments <= length parameters)%nat.
Proof.
  unfold parameterCount.
  induction fragments as [|fragment rest IH]; intros paramIndex Hle; simpl.
  - split; [intros _; lia|intros _; eexists; reflexivity].
  - destruct (FragmentType fragment); simpl.
    + rewrite <- (IH paramIndex Hle).
      destruct (updateFragments rest parameters paramIndex); simpl;
        split; intros [x Hx]; try discriminate; eexists; reflexivity.
    + destruct (parameters !! paramIndex) as [p|] eqn:Hp; simpl.
      * apply lookup_lt_Some in Hp.
        assert (Hle' : (S paramIndex <= length parameters)%nat) by lia.
        specialize (IH (S paramIndex) Hle').
        destruct (updateFragments rest parameters (S paramIndex)) as [l|]; simpl.
        -- split; [intros _|intros _; eexists; reflexivity].
           assert (is_Some (Some l)) as Hs by (eexists; reflexivity).
           apply IH in Hs. lia.
        -- split; [intros [x Hx]; discriminate|intros H].
           assert (S paramIndex + length (getParameters rest) <= length parameters)%nat
             as Hs by lia.
           apply IH in Hs. destruct Hs as [x Hx]. discriminate.
      * apply lookup_ge_None in Hp.
        split; [intros [x Hx]; discriminate|intros H; lia].
Qed.

Lemma updateFragments_parameters fragments parameters : forall paramIndex fragments',
  updateFragments fragments parameters paramIndex = Some fragments' ->
  getParameters fragments'
  = map Some (take (parameterCount fragments) (drop paramIndex parameters))
  /\ map FragmentType fragments' = map FragmentType fragments
  /\ map Fragment_Text_ fragments' = map Fragment_Text_ fragments.
Proof.
  unfold parameterCount.
  induction fragments as [|fragment rest IH]; intros paramIndex fragments' H;
    simpl in H.
  - inversion H. repeat split.
  - destruct (FragmentType fragment) eqn:Htype.
    + destruct (updateFragments rest parameters paramIndex) as [rest'|] eqn:Hrest;
        [|discriminate].
      simpl in H. inversion H. subst fragments'.
      destruct (IH _ _ Hrest) as (H1 & H2 & H3).
      simpl. rewrite Htype. split; [exact H1|]. split; congruence.
    + destruct (parameters !! paramIndex) as [p|] eqn:Hp; [|discriminate].
      simpl in H.
      destruct (updateFragments rest parameters (S paramIndex)) as [rest'|] eqn:Hrest;
        [|discriminate].
      simpl in H. inversion H. subst fragments'.
      destruct (IH _ _ Hrest) as (H1 & H2 & H3).
      simpl. rewrite Htype. simpl. rewrite H1.
      split; [|split; congruence].
      rewrite (drop_S _ _ _ Hp). reflexivity.
Qed.

(** X1: [updateProtoStepParameters] indexes the parameters by the parameter
    fragments it meets: it returns exactly when the step has no more
    parameter fragments than there are parameters, and ends the run (index
    out of range) when it has more. *)
Theorem updateProtoStepParameters_returns_iff_enough_parameters :
  forall protoStep parameters e,
    is_Some (updateProtoStepParameters protoStep parameters e)
    <-> (parameterCount (Fragments protoStep) <= length parameters)%nat.
Proof.
  intros protoStep parameters e.
  rewrite <- (Nat.add_0_l (parameterCount (Fragments protoStep))).
  rewrite <- updateFragments_defined by lia.
  unfold updateProtoStepParameters, bind, deref, ret, panic.
  destruct (updateFragments (Fragments protoStep) parameters 0); simpl;
    split; intros [x Hx]; try discriminate; eexists; reflexivity.
Qed.

(** X2: the parameters that [updateProtoStepParameters] writes into a step
    are the parameters that [createStepRequest] reads back from it: the
    request of the updated step carries the first parameters given, one per
    parameter fragment and in their order, and the texts of the step; the
    kinds and texts of the fragments and the state are unchanged. *)
Theorem parameters_written_are_the_parameters_requested :
  forall protoStep parameters e protoStep' e',
    updateProtoStepParameters protoStep parameters e = Some (protoStep', e') ->
    createStepRequest protoStep'
    = mkExecuteStepRequest (ActualText protoStep) (ParsedText protoStep)
        (map Some (take (parameterCount (Fragments protoStep)) parameters))
    /\ map FragmentType (Fragments protoStep') = map FragmentType (Fragments protoStep)
    /\ map Fragment_Text_ (Fragments protoStep') = map Fragment_Text_ (Fragments protoStep)
    /\ StepExecutionResult protoStep' = StepExecutionResult protoStep
    /\ e' = e.
Proof.
  intros protoStep parameters e protoStep' e' H.
  unfold updateProtoStepParameters in H.
  apply bind_inv in H. destruct H as (fragments & e1 & H1 & H).
  apply deref_inv in H1. destruct H1 as [H1 ->].
  apply ret_inv in H. destruct H as [-> ->].
  destruct (updateFragments_parameters _ _ _ _ H1) as (P1 & P2 & P3).
  unfold createStepRequest. destruct protoStep. simpl in *.
  rewrite P1. repeat split; assumption.
Qed.

Lemma parameters_written_are_the_parameters_requested_witness :
  exists protoStep',
    updateProtoStepParameters
      (mkProtoStep "Say hi to <name>" "Say hi to {}"
         [mkFragment Fragment_Text "Say hi to " None;
          mkFragment Fragment_Parameter "" None] None)
      [mkProtoParameter "name" "alice"; mkProtoParameter "other" "bob"]
      downExecutor
    = Some (protoStep', downExecutor)
    /\ Parameters (createStepRequest protoStep')
       = [Some (mkProtoParameter "name" "alice")].
Proof.
  eexists. split; [reflexivity|].
  match goal with
  | |- Parameters (createStepRequest ?p) = _ =>
      destruct (parameters_written_are_the_parameters_requested
                  (mkProtoStep "Say hi to <name>" "Say hi to {}"
                     [mkFragment Fragment_Text "Say hi to " None;
                      mkFragment Fragment_Parameter "" None] None)
                  [mkProtoParameter "name" "alice"; mkProtoParameter "other" "bob"]
                  downExecutor p downExecutor eq_refl) as [Hreq _]
  end.
  rewrite Hreq. reflexivity.
Defined.

(** ** Lists of steps and of items *)

(** [executeSteps] runs the steps in order and stops at the first that
    fails; the steps are updated in place, those after the failure are left
    as they were. *)
Fixpoint executeSteps (protoSteps : list ProtoStep) : Exec (bool * list ProtoStep) :=
  match protoSteps with
  | [] => ret (false, [])
  | protoStep :: rest =>
      let* (failure, protoStep) := executeStep protoStep in
      if failure then ret (true, protoStep :: rest)
      else
        let* (failure, rest) := executeSteps rest in
        ret (failure, protoStep :: rest)
  end.

(** The run of a second list of items after a first: not at all when the
    first failed. *)
Definition andThen {A} (run : list A -> Exec (bool * list A)) (ys : list A)
    (first : option ((bool * list A) * specExecutor))
    : option ((bool * list A) * specExecutor) :=
  match first with
  | Some ((true, xs'), e1) => Some ((true, xs' ++ ys), e1)
  | Some ((false, xs'), e1) =>
      match run ys e1 with
      | Some ((failure, ys'), e2) => Some ((failure, xs' ++ ys'), e2)
      | None => None
      end
  | None => None
  end.

(** X3: [executeItems] over a list in two parts.  The second part is run
    from the state the first part left, when no item of the first part
    failed; when one did, the run ends there with a failure, and the items
    of the second part are returned as they were, in the state the first
    part left. *)
Theorem executeItems_app :
  forall xs ys e,
    executeItems (xs ++ ys) e = andThen executeItems ys (executeItems xs e).
Proof.
  induction xs as [|x xs IH]; intros ys e.
  - simpl. unfold ret. destruct (executeItems ys e) as [[[f ys'] e2]|]; reflexivity.
  - simpl. unfold bind at 1 3.
    destruct (executeItem x e) as [[[f x'] e1]|]; [|reflexivity].
    destruct f; [reflexivity|].
    unfold bind. rewrite IH.
    destruct (executeItems xs e1) as [[[f xs'] e2]|]; [|reflexivity].
    destruct f; simpl; [reflexivity|].
    destruct (executeItems ys e2) as [[[f ys'] e3]|]; reflexivity.
Qed.

(** X4: [executeSteps] on steps is [executeItems] on the same steps as
    items: the same failure flag, the same steps after the run, the same
    state, and no return when the other does not return. *)
Theorem executeSteps_is_executeItems_on_steps :
  forall protoSteps e,
    executeItems (map ItemStep protoSteps) e
    = match executeSteps protoSteps e with
      | Some ((failure, protoSteps'), e') => Some ((failure, map ItemStep protoSteps'), e')
      | None => None
      end.
Proof.
  induction protoSteps as [|s rest IH]; intros e; [reflexivity|].
  simpl. unfold bind at 1 2 4.
  destruct (executeStep s e) as [[[f s'] e1]|]; [|reflexivity]. simpl.
  destruct f; [reflexivity|].
  unfold bind. rewrite IH.
  destruct (executeSteps rest e1) as [[[f rest'] e2]|]; reflexivity.
Qed.

(** ** The traffic with the runner and the plugins *)

(** The request of the step that the execution info points to. *)
Definition stepRequestIn (info : option ExecutionInfo) : option ExecuteStepRequest :=
  step ← info ≫= CurrentStep; Some (StepInfo_Step step).

(** Nothing is sent, no plugin is notified and the current step stays. *)
Definition quiet (e e' : specExecutor) : Prop :=
  runner e' = runner e /\ sent e' = sent e /\ notified e' = notified e
  /\ stepRequestIn (currentExecutionInfo e') = stepRequestIn (currentExecutionInfo e).

Global Instance quiet_preorder : PreOrder quiet.
Proof.
  split.
  - intros e. repeat split.
  - intros e1 e2 e3 (A1 & A2 & A3 & A4) (B1 & B2 & B3 & B4).
    repeat split; congruence.
Qed.

(** Nothing is sent and no plugin is notified. *)
Definition silent (e e' : specExecutor) : Prop :=
  runner e' = runner e /\ sent e' = sent e /\ notified e' = notified e.

Global Instance silent_preorder : PreOrder silent.
Proof.
  split.
  - intros e. repeat split.
  - intros e1 e2 e3 (A1 & A2 & A3) (B1 & B2 & B3). repeat split; congruence.
Qed.

Lemma quiet_silent e e' : quiet e e' -> silent e e'.
Proof. intros (A1 & A2 & A3 & _). repeat split; assumption. Qed.

Lemma resolveFrame_quiet e e' : resolveFrame e e' -> quiet e e'.
Proof.
  intros (A1 & A2 & A3 & A4 & A5 & A6 & A7 & A8 & A9 & A10 & A11 & A12).
  unfold quiet. rewrite A6. repeat split; assumption.
Qed.

Create HintDb frames.

Lemma report_quiet ev : preserves quiet (report ev).
Proof. apply preserves_modify. intros e. repeat split. Qed.

Lemma logError_quiet msg : preserves quiet (logError msg).
Proof. apply preserves_modify. intros e. repeat split. Qed.

Lemma newResult_quiet r : preserves quiet (newResult r).
Proof. intros e a e' H. inversion H. subst. repeat split. Qed.

Lemma updateResult_quiet a f : preserves quiet (updateResult a f).
Proof.
  intros e b e' H. unfold updateResult in H. destruct (results e !! a); [|discriminate].
  inversion H. subst. repeat split.
Qed.

Lemma setSpecFailure_quiet : preserves quiet setSpecFailure.
Proof.
  intros e a e' H. unfold setSpecFailure, getExecutionInfo in H. inv_exec.
  unfold quiet, stepRequestIn. simpl.
  match goal with Hi : currentExecutionInfo _ = Some _ |- _ => rewrite Hi end.
  repeat split.
Qed.

Lemma setScenarioFailure_quiet : preserves quiet setScenarioFailure.
Proof.
  intros e a e' H. unfold setScenarioFailure in H.
  apply bind_inv in H. destruct H as (u & e1 & H1 & H).
  apply setSpecFailure_quiet in H1. transitivity e1; [exact H1|].
  unfold getExecutionInfo in H. inv_exec.
  unfold quiet, stepRequestIn. simpl.
  match goal with Hi : currentExecutionInfo _ = Some _ |- _ => rewrite Hi end.
  repeat split.
Qed.

Lemma setStepFailure_quiet : preserves quiet setStepFailure.
Proof.
  intros e a e' H. unfold setStepFailure in H.
  apply bind_inv in H. destruct H as (u & e1 & H1 & H).
  apply setScenarioFailure_quiet in H1. transitivity e1; [exact H1|].
  unfold getExecutionInfo in H. inv_exec.
  unfold quiet, stepRequestIn. simpl.
  match goal with Hi : currentExecutionInfo _ = Some _ |- _ => rewrite Hi end.
  simpl.
  match goal with Hs : CurrentStep _ = Some _ |- _ => rewrite Hs end.
  repeat split.
Qed.

#[global] Hint Resolve report_quiet logError_quiet newResult_quiet updateResult_quiet
  setSpecFailure_quiet setScenarioFailure_quiet setStepFailure_quiet : frames.

(** Proofs that a computation keeps a preorder, primitive by primitive,
    with the lemmas of [frames] for the primitives. *)
Ltac frame1 :=
  first
    [ assumption
    | match goal with
      | H : context [preserves ?R _] |- preserves ?R _ => apply H
      end
    | apply preserves_ret; typeclasses eauto
    | apply preserves_panic
    | apply preserves_gets; typeclasses eauto
    | apply preserves_deref; typeclasses eauto
    | solve [auto with frames nocore]
    | apply preserves_bind; [typeclasses eauto| |intros ?]
    | lazymatch goal with
      | |- preserves _ (match ?x with _ => _ end) => destruct x
      end ].

Ltac frame := repeat frame1.

(** A run that returned, as the preservation of a relation. *)
Ltac as_preserves R H :=
  revert H;
  match goal with
  | |- ?m ?e = Some (?a, ?e') -> _ =>
      generalize e a e'; change (preserves R m)
  end.

Lemma printStatus_quiet r : preserves quiet (printStatus r).
Proof. unfold printStatus. frame. Qed.

Lemma addExecutionTimes_quiet r hs : preserves quiet (addExecutionTimes r hs).
Proof. induction hs as [|h hs IH]; simpl; frame. Qed.

Lemma findFailedChild_quiet protoSteps : forall t,
  preserves quiet (findFailedChild protoSteps t).
Proof.
  induction protoSteps as [|x xs IH]; intros t; simpl; [frame|].
  unfold loadResult. destruct x; frame.
Qed.

Lemma setExecutionResultForConcept_quiet c :
  preserves quiet (setExecutionResultForConcept c).
Proof.
  unfold setExecutionResultForConcept. pose proof findFailedChild_quiet. frame.
Qed.

#[global] Hint Resolve printStatus_quiet addExecutionTimes_quiet findFailedChild_quiet
  setExecutionResultForConcept_quiet : frames.

(** *** Items, for any relation that the steps keep *)

Section ItemsFrame.

Context (R : relation specExecutor) `{!PreOrder R}.

Hypothesis quiet_R : forall e e', quiet e e' -> R e e'.
Hypothesis executeStep_R : forall protoStep, preserves R (executeStep protoStep).

Lemma executeConceptSteps_frame rec todo : forall cs res done,
  Forall (fun x => preserves R (rec x)) todo ->
  preserves R (executeConceptSteps rec cs res done todo).
Proof.
  induction todo as [|x rest IH]; intros cs res done Hrec; simpl.
  - eapply preserves_weaken; [exact quiet_R|]. unfold loadResult. frame.
  - apply Forall_cons in Hrec. destruct Hrec as [Hx Hrest].
    apply preserves_bind; [typeclasses eauto|exact Hx|intros [f x']].
    apply preserves_bind; [typeclasses eauto| |intros c].
    + eapply preserves_weaken; [exact quiet_R|]. frame.
    + destruct f; [frame|]. apply IH. exact Hrest.
Qed.

Lemma executeItem_frame item : preserves R (executeItem item).
Proof.
  induction item as [s|cs protoSteps res IH|text|text|tags] using ProtoItem_nested_ind;
    simpl.
  - pose proof executeStep_R. frame.
  - pose proof (executeConceptSteps_frame executeItem protoSteps cs res [] IH).
    apply preserves_bind; [typeclasses eauto| |intros ?; frame].
    eapply preserves_weaken; [exact quiet_R|]. frame.
  - frame.
  - frame.
  - frame.
Qed.

Lemma executeItems_frame items : preserves R (executeItems items).
Proof.
  induction items as [|x rest IH]; simpl; [frame|].
  pose proof executeItem_frame. frame.
Qed.

End ItemsFrame.

(** *** The grammar of the traffic *)

(** A message that the plugins are told of: every request but
    [ExecuteStep]. *)
Definition isHook (m : Message) : Prop := MessageType m <> Message_ExecuteStep.

Global Instance isHook_dec m : Decision (isHook m).
Proof. unfold isHook. apply _. Defined.

Definition stepRequestOf (m : Message) : option ExecuteStepRequest :=
  stepRequestIn (CurrentExecutionInfo m).

Definition hookFailed (rn : list Message -> Message -> ChannelReply)
    (history : list Message) (m : Message) : bool :=
  GetFailed (Some (statusOfReply (rn history m))).

(** The traffic of steps with the runner [rn] after the messages [history]:
    for each step its before-step hook, its [ExecuteStep] request exactly
    when the runner did not fail the hook, and its after-step hook. *)
Inductive stepTraffic (rn : list Message -> Message -> ChannelReply)
    : list Message -> list Message -> Prop :=
| stepTraffic_nil history : stepTraffic rn history []
| stepTraffic_executed history before request after rest :
    MessageType before = Message_StepExecutionStarting ->
    stepRequestOf before = Some request ->
    hookFailed rn history before = false ->
    MessageType after = Message_StepExecutionEnding ->
    stepRequestOf after = Some request ->
    stepTraffic rn
      (history ++ [before; mkMessage Message_ExecuteStep None (Some request); after]) rest ->
    stepTraffic rn history
      (before :: mkMessage Message_ExecuteStep None (Some request) :: after :: rest)
| stepTraffic_hookFailed history before request after rest :
    MessageType before = Message_StepExecutionStarting ->
    stepRequestOf before = Some request ->
    hookFailed rn history before = true ->
    MessageType after = Message_StepExecutionEnding ->
    stepRequestOf after = Some request ->
    stepTraffic rn (history ++ [before; after]) rest ->
    stepTraffic rn history (before :: after :: rest).

Lemma stepTraffic_app rn history l1 l2 :
  stepTraffic rn history l1 -> stepTraffic rn (history ++ l1) l2 ->
  stepTraffic rn history (l1 ++ l2).
Proof.
  intros H1. revert l2. induction H1 as
    [history|history before request after rest Hb Hrb Hok Ha Hra Hrest IH
    |history before request after rest Hb Hrb Hfail Ha Hra Hrest IH]; intros l2 H2.
  - rewrite app_nil_r in H2. exact H2.
  - simpl. apply stepTraffic_executed; try assumption.
    apply IH. rewrite <- app_assoc. exact H2.
  - simpl. eapply stepTraffic_hookFailed; try eassumption.
    apply IH. rewrite <- app_assoc. exact H2.
Qed.

(** What a run adds to the traffic: the messages [l], which follow the
    grammar [P], go to the runner, and those of them that are hooks to the
    plugins, in the same order. *)
Definition traffic
    (P : (list Message -> Message -> ChannelReply) -> list Message -> list Message -> Prop)
    (e e' : specExecutor) : Prop :=
  runner e' = runner e
  /\ exists l, sent e' = sent e ++ l
               /\ notified e' = notified e ++ filter isHook l
               /\ P (runner e) (sent e) l.

Lemma traffic_refl P e : P (runner e) (sent e) [] -> traffic P e e.
Proof.
  intros H. split; [reflexivity|]. exists [].
  rewrite !app_nil_r. repeat split. exact H.
Qed.

Lemma traffic_trans (P Q PQ : _ -> _ -> _ -> Prop) e1 e2 e3 :
  (forall rn h l1 l2, P rn h l1 -> Q rn (h ++ l1) l2 -> PQ rn h (l1 ++ l2)) ->
  traffic P e1 e2 -> traffic Q e2 e3 -> traffic PQ e1 e3.
Proof.
  intros Happ (A1 & l1 & A2 & A3 & A4) (B1 & l2 & B2 & B3 & B4).
  split; [congruence|]. exists (l1 ++ l2).
  split; [rewrite B2, A2, app_assoc; reflexivity|].
  split; [rewrite B3, A3, filter_app, app_assoc; reflexivity|].
  apply Happ; [exact A4|]. rewrite <- A1, <- A2. exact B4.
Qed.

Lemma silent_traffic P e e' :
  (forall rn h, P rn h []) -> silent e e' -> traffic P e e'.
Proof.
  intros HP (A1 & A2 & A3). split; [exact A1|]. exists [].
  rewrite !app_nil_r. repeat split; [assumption..|apply HP].
Qed.

Global Instance traffic_stepTraffic_preorder : PreOrder (traffic stepTraffic).
Proof.
  split.
  - intros e. apply traffic_refl. constructor.
  - intros e1 e2 e3. apply traffic_trans. apply stepTraffic_app.
Qed.

Lemma setCurrentStep_inv step e u e' :
  setCurrentStep step e = Some (u, e') ->
  silent e e' /\ stepRequestIn (currentExecutionInfo e') = StepInfo_Step <$> step.
Proof.
  unfold setCurrentStep, getExecutionInfo. intros H. inv_exec.
  split; [repeat split|]. unfold stepRequestIn. simpl. destruct step; reflexivity.
Qed.

Lemma afterHook_inv type e :
  runner (afterHook type e) = runner e
  /\ sent (afterHook type e) = sent e ++ [hookRequest type e]
  /\ notified (afterHook type e) = notified e ++ [hookRequest type e]
  /\ currentExecutionInfo (afterHook type e) = currentExecutionInfo e.
Proof. repeat split. Qed.

Lemma executeStep_traffic protoStep : preserves (traffic stepTraffic) (executeStep protoStep).
Proof.
  intros e a e' H. unfold executeStep in H.
  apply bind_inv in H. destruct H as (u1 & e1 & H1 & H).
  apply report_quiet in H1.
  apply bind_inv in H. destruct H as (u2 & e2 & H2 & H).
  apply setCurrentStep_inv in H2. destruct H2 as [S2 Hreq2]. simpl in Hreq2.
  apply bind_inv in H. destruct H as (b & e3 & H3 & H).
  rewrite executeBeforeStepHook_eq in H3. inversion H3 as [[Hb He3]]. clear H3.
  apply bind_inv in H. destruct H as (res & e4 & H4 & H).
  apply bind_inv in H. destruct H as (a0 & e5 & H5 & H).
  rewrite executeAfterStepHook_eq in H5. inversion H5 as [[Ha He5]]. clear H5.
  assert (Q5 : quiet e5 e').
  { as_preserves quiet H. unfold loadResult, getExecutionInfo. frame. }
  set (before := hookRequest Message_StepExecutionStarting e2) in *.
  set (request := createStepRequest protoStep) in *.
  set (exec := mkMessage Message_ExecuteStep None (Some request)) in *.
  set (after := hookRequest Message_StepExecutionEnding e4) in *.
  assert (Hbefore : MessageType before = Message_StepExecutionStarting
                    /\ stepRequestOf before = Some request).
  { split; [reflexivity|]. unfold stepRequestOf, before, hookRequest. simpl. exact Hreq2. }
  destruct Hbefore as [Tb Rb].
  destruct (quiet_silent _ _ H1) as (X1 & X2 & X3).
  destruct S2 as (Y1 & Y2 & Y3).
  assert (Hmid : (GetFailed (Some b) = true /\ quiet e3 e4)
                 \/ (GetFailed (Some b) = false /\ quiet (afterRoundTrip exec e3) e4)).
  { destruct (GetFailed (Some b)).
    - left. split; [reflexivity|]. as_preserves quiet H4. frame.
    - right. split; [reflexivity|].
      apply bind_inv in H4. destruct H4 as (s & e3' & Hs & H4).
      rewrite executeAndGetStatus_eq in Hs. inversion Hs as [[Hs1 Hs2]]. clear Hs.
      subst e3'. as_preserves quiet H4. frame. }
  assert (Hafter : forall e3', quiet e3' e4 ->
            stepRequestIn (currentExecutionInfo e3') = Some request ->
            MessageType after = Message_StepExecutionEnding
            /\ stepRequestOf after = Some request).
  { intros e3' (_ & _ & _ & Q4) Hr. split; [reflexivity|].
    unfold stepRequestOf, after, hookRequest. simpl. rewrite Q4. exact Hr. }
  destruct Q5 as (Z1 & Z2 & Z3 & _). subst e5 e3.
  destruct Hmid as [[Hfail Q4]|[Hok Q4]].
  - destruct (Hafter _ Q4 Hreq2) as [Ta Ra].
    destruct Q4 as (W1 & W2 & W3 & _). simpl in W1, W2, W3.
    split; [simpl in Z1; congruence|].
    exists [before; after]. simpl in Z2, Z3.
    split; [rewrite Z2, W2, Y2, X2, <- app_assoc; reflexivity|].
    split.
    { rewrite Z3, W3, Y3, X3, <- app_assoc. simpl.
      rewrite (filter_cons_True isHook before) by (unfold isHook; rewrite Tb; discriminate).
      rewrite (filter_cons_True isHook after) by (unfold isHook; rewrite Ta; discriminate).
      reflexivity. }
    eapply stepTraffic_hookFailed; try eassumption; [|constructor].
    unfold hookFailed. rewrite <- X1, <- X2, <- Y1, <- Y2. rewrite Hb. exact Hfail.
  - destruct (Hafter _ Q4 Hreq2) as [Ta Ra].
    destruct Q4 as (W1 & W2 & W3 & _). simpl in W1, W2, W3.
    split; [simpl in Z1; congruence|].
    exists [before; exec; after]. simpl in Z2, Z3.
    split; [rewrite Z2, W2, Y2, X2, <- !app_assoc; reflexivity|].
    split.
    { rewrite Z3, W3, Y3, X3, <- app_assoc. simpl.
      rewrite (filter_cons_True isHook before) by (unfold isHook; rewrite Tb; discriminate).
      rewrite (filter_cons_False isHook exec) by (intros n; apply n; reflexivity).
      rewrite (filter_cons_True isHook after) by (unfold isHook; rewrite Ta; discriminate).
      reflexivity. }
    eapply stepTraffic_executed; try eassumption; [|constructor].
    unfold hookFailed. rewrite <- X1, <- X2, <- Y1, <- Y2. rewrite Hb. exact Hok.
Qed.

Lemma quiet_stepTraffic e e' : quiet e e' -> traffic stepTraffic e e'.
Proof.
  intros H. apply silent_traffic; [intros; constructor|apply quiet_silent, H].
Qed.

(** X5: the traffic of [executeItems].  Whatever the items, a run that
    returns has sent to the runner, after what was sent before, a sequence of
    step blocks: the before-step hook of a step, then its [ExecuteStep]
    request exactly when the runner did not fail that hook, then its
    after-step hook, the three for the same step request.  The plugins were
    notified of the hooks of that sequence, in the same order, and of nothing
    else. *)
Theorem executeItems_sends_step_blocks :
  forall items e a e',
    executeItems items e = Some (a, e') ->
    runner e' = runner e
    /\ exists l, sent e' = sent e ++ l
                 /\ notified e' = notified e ++ filter isHook l
                 /\ stepTraffic (runner e) (sent e) l.
Proof.
  intros items e a e' H.
  exact (executeItems_frame (traffic stepTraffic) quiet_stepTraffic executeStep_traffic
           items e a e' H).
Qed.

Lemma executeItems_sends_step_blocks_witness :
  exists a e' l,
    executeItems [ItemStep (plainProtoStep "first"); ItemStep (plainProtoStep "second");
                  ItemStep (plainProtoStep "third")] scriptedExecutor
    = Some (a, e')
    /\ sent e' = sent scriptedExecutor ++ l
    /\ stepTraffic scriptedRunner (sent scriptedExecutor) l
    /\ map MessageType l
       = [Message_StepExecutionStarting; Message_ExecuteStep; Message_StepExecutionEnding;
          Message_StepExecutionStarting; Message_ExecuteStep; Message_StepExecutionEnding].
Proof.
  destruct (executeItems [ItemStep (plainProtoStep "first"); ItemStep (plainProtoStep "second");
                          ItemStep (plainProtoStep "third")] scriptedExecutor)
    as [[a e']|] eqn:Hrun; [|vm_compute in Hrun; discriminate].
  destruct (executeItems_sends_step_blocks _ _ _ _ Hrun) as (_ & l & Hsent & _ & Hl).
  exists a, e', l. split; [reflexivity|]. split; [exact Hsent|]. split; [exact Hl|].
  vm_compute in Hrun. injection Hrun as <- <-. simpl in Hsent.
  rewrite <- Hsent. reflexivity.
Defined.

(** *** Scenarios and specifications *)

Lemma preserves_quiet_silent {A} (m : Exec A) : preserves quiet m -> preserves silent m.
Proof. apply preserves_weaken. exact quiet_silent. Qed.

Lemma set_currentExecutionInfo_silent i :
  preserves silent (modify (set_currentExecutionInfo i)).
Proof. apply preserves_modify. intros e. repeat split. Qed.

Lemma set_currentTableRow_silent row : preserves silent (modify (set_currentTableRow row)).
Proof. apply preserves_modify. intros e. repeat split. Qed.

Lemma set_specResult_silent r : preserves silent (modify (set_specResult r)).
Proof. apply preserves_modify. intros e. repeat split. Qed.

Lemma report_silent ev : preserves silent (report ev).
Proof. apply preserves_quiet_silent, report_quiet. Qed.

Lemma setSpecFailure_silent : preserves silent setSpecFailure.
Proof. apply preserves_quiet_silent, setSpecFailure_quiet. Qed.

Lemma setScenarioFailure_silent : preserves silent setScenarioFailure.
Proof. apply preserves_quiet_silent, setScenarioFailure_quiet. Qed.

Lemma printStatus_silent r : preserves silent (printStatus r).
Proof. apply preserves_quiet_silent, printStatus_quiet. Qed.

#[global] Hint Resolve set_currentExecutionInfo_silent set_currentTableRow_silent
  set_specResult_silent report_silent setSpecFailure_silent setScenarioFailure_silent
  printStatus_silent : frames.

Lemma modifySpecResult_silent f : preserves silent (modifySpecResult f).
Proof. unfold modifySpecResult, getSpecResult. frame. Qed.

Lemma getSpecResult_silent : preserves silent getSpecResult.
Proof. unfold getSpecResult. frame. Qed.

Lemma setCurrentScenario_silent scenario : preserves silent (setCurrentScenario scenario).
Proof. unfold setCurrentScenario, getExecutionInfo. frame. Qed.

Lemma formatSkipErrors_silent errs : preserves silent (formatSkipErrors errs).
Proof.
  induction errs as [|err rest IH]; simpl; [frame|].
  unfold formatSkipError, loadStep. frame.
Qed.

Lemma UpdateExecutionTime_silent r : preserves silent (UpdateExecutionTime r).
Proof. unfold UpdateExecutionTime. frame. Qed.

#[global] Hint Resolve modifySpecResult_silent getSpecResult_silent setCurrentScenario_silent
  formatSkipErrors_silent UpdateExecutionTime_silent : frames.

Lemma setSkipInfoInResult_silent r scenario :
  preserves silent (setSkipInfoInResult r scenario).
Proof. unfold setSkipInfoInResult. frame. Qed.

#[global] Hint Resolve setSkipInfoInResult_silent : frames.

(** The traffic of a scenario that runs: its two hooks around the blocks of
    its steps; no step block when the runner fails the before-scenario
    hook. *)
Definition scenarioRun (rn : list Message -> Message -> ChannelReply)
    (history l : list Message) : Prop :=
  exists before steps after,
    l = before :: steps ++ [after]
    /\ MessageType before = Message_ScenarioExecutionStarting
    /\ MessageType after = Message_ScenarioExecutionEnding
    /\ stepTraffic rn (history ++ [before]) steps
    /\ (hookFailed rn history before = true -> steps = []).

(** The traffic of scenarios, one after the other; a scenario that is
    skipped adds nothing. *)
Inductive scenariosTraffic (rn : list Message -> Message -> ChannelReply)
    : list Message -> list Message -> Prop :=
| scenariosTraffic_nil history : scenariosTraffic rn history []
| scenariosTraffic_run history l rest :
    scenarioRun rn history l ->
    scenariosTraffic rn (history ++ l) rest ->
    scenariosTraffic rn history (l ++ rest).

Lemma scenariosTraffic_app rn history l1 l2 :
  scenariosTraffic rn history l1 -> scenariosTraffic rn (history ++ l1) l2 ->
  scenariosTraffic rn history (l1 ++ l2).
Proof.
  intros H1. revert l2.
  induction H1 as [history|history l rest Hl Hrest IH]; intros l2 H2.
  - rewrite app_nil_r in H2. exact H2.
  - rewrite <- app_assoc. apply scenariosTraffic_run; [exact Hl|].
    apply IH. rewrite <- app_assoc. exact H2.
Qed.

Global Instance traffic_scenariosTraffic_preorder : PreOrder (traffic scenariosTraffic).
Proof.
  split.
  - intros e. apply traffic_refl. constructor.
  - intros e1 e2 e3. apply traffic_trans. apply scenariosTraffic_app.
Qed.

Lemma silent_scenariosTraffic e e' : silent e e' -> traffic scenariosTraffic e e'.
Proof. apply silent_traffic. intros. constructor. Qed.

(** The traffic of a specification that runs: its two hooks around the
    traffic of its scenarios, row after row; no scenario when the runner
    fails the before-spec hook. *)
Definition specRun (rn : list Message -> Message -> ChannelReply)
    (history l : list Message) : Prop :=
  exists before scenarios after,
    l = before :: scenarios ++ [after]
    /\ MessageType before = Message_SpecExecutionStarting
    /\ MessageType after = Message_SpecExecutionEnding
    /\ scenariosTraffic rn (history ++ [before]) scenarios
    /\ (hookFailed rn history before = true -> scenarios = []).

(** One hook: the request goes to the plugins and to the runner. *)
Lemma executeHook_inv {T} message (tracker : Z -> Exec T) e status t e' :
  executeHook message tracker e = Some ((status, t), e') ->
  (forall z, preserves silent (tracker z)) ->
  status = statusOfReply (runner e (sent e) message)
  /\ runner e' = runner e
  /\ sent e' = sent e ++ [message]
  /\ notified e' = notified e ++ [message]
  /\ (forall R : relation specExecutor,
        (forall z, preserves R (tracker z)) ->
        R (afterRoundTrip message (set_notified (notified e ++ [message]) e)) e').
Proof.
  unfold executeHook, NotifyPlugins. intros H Htracker.
  apply bind_inv in H. destruct H as (u & e1 & H1 & H).
  apply modify_inv in H1. subst e1.
  apply bind_inv in H. destruct H as (s & e2 & H2 & H).
  rewrite executeAndGetStatus_eq in H2. inversion H2 as [[Hs He2]]. clear H2.
  apply bind_inv in H. destruct H as (t' & e3 & H3 & H).
  apply ret_inv in H. destruct H as [Heq ->]. inversion Heq. subst.
  pose proof (Htracker _ _ _ _ H3) as (A1 & A2 & A3).
  split; [reflexivity|]. split; [exact A1|]. split; [exact A2|]. split; [exact A3|].
  intros R HR. eapply HR. exact H3.
Qed.

Lemma filter_isHook_hook m :
  MessageType m <> Message_ExecuteStep -> filter isHook [m] = [m].
Proof. intros H. rewrite filter_cons_True by exact H. reflexivity. Qed.

Section TrafficOfRuns.

Variable FromDataTableRow : Table -> Z -> ArgLookup.
Variable PopulateConceptDynamicParams : ArgLookup -> option ArgLookup -> ArgLookup -> ArgLookup.
Variable GetResolvedParams : list StepArg -> option ArgLookup -> ArgLookup -> list ProtoParameter.

Lemma addAllItemsForScenarioExecution_silent depth scenario r :
  preserves silent
    (addAllItemsForScenarioExecution FromDataTableRow PopulateConceptDynamicParams
       GetResolvedParams depth scenario r).
Proof.
  eapply preserves_weaken; [|apply addAllItemsForScenarioExecution_resolveFrame].
  intros e e' H. apply quiet_silent, resolveFrame_quiet, H.
Qed.

Lemma resolveItems_silent depth items :
  preserves silent
    (resolveItems FromDataTableRow PopulateConceptDynamicParams GetResolvedParams
       depth items).
Proof.
  eapply preserves_weaken; [|apply resolveItems_resolveFrame].
  intros e e' H. apply quiet_silent, resolveFrame_quiet, H.
Qed.

Lemma executeScenario_traffic depth scenario e r e' :
  executeScenario FromDataTableRow PopulateConceptDynamicParams GetResolvedParams
    depth scenario e = Some (r, e') ->
  if decide (is_Some (scenarioErrs (errMap e) !! scenarioPtr scenario))
  then silent e e'
  else traffic scenarioRun e e'.
Proof.
  intros H.
  unfold executeScenario in H.
  apply bind_inv in H. destruct H as (u & e1 & H1 & H).
  apply bind_inv in H. destruct H as (shell & e2 & H2 & H).
  apply bind_inv in H. destruct H as (errs & e3 & H3 & H).
  apply gets_inv in H3. destruct H3 as [-> ->].
  assert (C1 : sameCount e e1).
  { as_preserves sameCount H1. unfold setCurrentScenario, getExecutionInfo. keep. }
  pose proof (addAllItemsForScenarioExecution_sameCount _ _ _ _ _ _ _ _ _ H2) as C2.
  assert (Hmap : errMap e2 = errMap e).
  { destruct C1 as (_ & _ & M1 & _). destruct C2 as (_ & _ & M2 & _). congruence. }
  apply setCurrentScenario_silent in H1.
  apply addAllItemsForScenarioExecution_silent in H2.
  assert (S2 : silent e e2) by (transitivity e1; assumption).
  rewrite Hmap in H.
  destruct (decide (is_Some (scenarioErrs (errMap e) !! scenarioPtr scenario))).
  - transitivity e2; [exact S2|]. eapply setSkipInfoInResult_silent. exact H.
  - apply bind_inv in H. destruct H as (u3 & e3 & H3 & H).
    apply report_silent in H3.
    apply bind_inv in H. destruct H as ([b r0] & e4 & H4 & H).
    rewrite executeBeforeScenarioHook_eq in H4. inversion H4 as [[Hb Hr0 He4]]. clear H4.
    apply bind_inv in H. destruct H as (r1 & e5 & H5 & H).
    apply bind_inv in H. destruct H as ([a r2] & e6 & H6 & H).
    rewrite executeAfterScenarioHook_eq in H6. inversion H6 as [[Ha Hr2 He6]]. clear H6.
    assert (S6 : silent e6 e').
    { as_preserves silent H. frame. }
    set (before := hookRequest Message_ScenarioExecutionStarting e3) in *.
    set (after := hookRequest Message_ScenarioExecutionEnding e5) in *.
    assert (T45 : traffic stepTraffic e4 e5
                  /\ (GetFailed (Some b) = true -> silent e4 e5)).
    { destruct (GetFailed (Some b)).
      - assert (S45 : silent e4 e5) by (as_preserves silent H5; frame).
        split; [|intros _; exact S45].
        apply silent_traffic; [intros; constructor|exact S45].
      - split; [|discriminate].
        as_preserves (traffic stepTraffic) H5.
        pose proof (executeItems_frame (traffic stepTraffic) quiet_stepTraffic
                      executeStep_traffic) as Hitems.
        unfold executeContextItems, executeScenarioItems, executeTearDownItems. frame. }
    destruct T45 as [(R45 & steps & Hsent5 & Hnot5 & Hsteps) Hfailed].
    destruct S2 as (A1 & A2 & A3). destruct H3 as (B1 & B2 & B3).
    destruct S6 as (D1 & D2 & D3). subst e4 e6.
    simpl in R45, Hsent5, Hnot5, Hsteps, D1, D2, D3.
    split; [congruence|].
    exists (before :: steps ++ [after]).
    split; [rewrite D2, Hsent5, B2, A2, <- !app_assoc; reflexivity|].
    split.
    { rewrite D3, Hnot5, B3, A3, <- !app_assoc. simpl.
      rewrite (filter_cons_True isHook before) by discriminate.
      rewrite filter_app, (filter_isHook_hook after) by discriminate. reflexivity. }
    exists before, steps, after. split; [reflexivity|].
    split; [reflexivity|]. split; [reflexivity|].
    rewrite B1, A1, B2, A2 in Hsteps. split; [exact Hsteps|].
    intros Hf. unfold hookFailed in Hf.
    rewrite <- A1, <- A2, <- B1, <- B2 in Hf. fold before in Hb. rewrite Hb in Hf.
    destruct (Hfailed Hf) as (_ & E2 & _). simpl in E2.
    rewrite Hsent5 in E2.
    apply (f_equal length) in E2. rewrite length_app in E2.
    destruct steps; [reflexivity|simpl in E2; lia].
Qed.


Lemma scenarioRun_scenariosTraffic e e' :
  traffic scenarioRun e e' -> traffic scenariosTraffic e e'.
Proof.
  intros (A1 & l & A2 & A3 & A4). split; [exact A1|]. exists l.
  split; [exact A2|]. split; [exact A3|].
  rewrite <- (app_nil_r l). apply scenariosTraffic_run; [exact A4|constructor].
Qed.

Lemma executeScenario_scenariosTraffic depth scenario :
  preserves (traffic scenariosTraffic)
    (executeScenario FromDataTableRow PopulateConceptDynamicParams GetResolvedParams
       depth scenario).
Proof.
  intros e r e' H. apply executeScenario_traffic in H.
  destruct (decide _).
  - apply silent_scenariosTraffic, H.
  - apply scenarioRun_scenariosTraffic, H.
Qed.

Lemma executeScenariosOf_traffic depth scenarios :
  preserves (traffic scenariosTraffic)
    (executeScenariosOf FromDataTableRow PopulateConceptDynamicParams GetResolvedParams
       depth scenarios).
Proof.
  induction scenarios as [|scenario rest IH]; simpl; [frame|].
  pose proof (executeScenario_scenariosTraffic depth). frame.
Qed.

Lemma executeScenarios_traffic depth :
  preserves (traffic scenariosTraffic)
    (executeScenarios FromDataTableRow PopulateConceptDynamicParams GetResolvedParams
       depth).
Proof. unfold executeScenarios. pose proof (executeScenariosOf_traffic depth). frame. Qed.

Lemma silent_preserves_scenariosTraffic {A} (m : Exec A) :
  preserves silent m -> preserves (traffic scenariosTraffic) m.
Proof. apply preserves_weaken. exact silent_scenariosTraffic. Qed.

Lemma executeTableRows_traffic depth count : forall acc,
  preserves (traffic scenariosTraffic)
    (executeTableRows FromDataTableRow PopulateConceptDynamicParams GetResolvedParams
       depth count acc).
Proof.
  induction count as [|count IH]; intros acc; simpl; [frame|].
  pose proof (executeScenarios_traffic depth).
  repeat first
    [ apply IH
    | apply silent_preserves_scenariosTraffic; solve [auto with frames nocore]
    | frame1 ].
Qed.

Lemma executeTableDrivenSpec_traffic depth :
  preserves (traffic scenariosTraffic)
    (executeTableDrivenSpec FromDataTableRow PopulateConceptDynamicParams
       GetResolvedParams depth).
Proof.
  unfold executeTableDrivenSpec.
  pose proof (executeTableRows_traffic depth).
  repeat first
    [ apply silent_preserves_scenariosTraffic; solve [auto with frames nocore]
    | frame1 ].
Qed.

Lemma getSkippedScenarioResults_silent depth scenarios :
  preserves silent
    (getSkippedScenarioResults FromDataTableRow PopulateConceptDynamicParams
       GetResolvedParams depth scenarios).
Proof.
  induction scenarios as [|scenario rest IH]; simpl; [frame|].
  unfold getSkippedScenarioResult.
  pose proof (addAllItemsForScenarioExecution_silent depth). frame.
Qed.

Lemma executeSpecHook_inv type e status e' :
  (let* message := hookMessage type in
   let* (r, _) := executeHook message (fun t => modifySpecResult (Spec_AddExecTime t)) in
   ret r) e = Some (status, e') ->
  status = statusOfReply (runner e (sent e) (hookRequest type e))
  /\ runner e' = runner e
  /\ sent e' = sent e ++ [hookRequest type e]
  /\ notified e' = notified e ++ [hookRequest type e]
  /\ sameCount e e'.
Proof.
  unfold hookMessage. intros H.
  apply bind_inv in H. destruct H as (message & e1 & H1 & H).
  apply bind_inv in H1. destruct H1 as (info & e0 & H0 & H1).
  apply gets_inv in H0. destruct H0 as [-> ->].
  apply ret_inv in H1. destruct H1 as [-> ->].
  apply bind_inv in H. destruct H as ([r u] & e2 & H2 & H).
  apply ret_inv in H. destruct H as [-> ->].
  destruct (executeHook_inv _ _ _ _ _ _ H2) as (Hs & A1 & A2 & A3 & HR).
  { intros z. apply modifySpecResult_silent. }
  split; [exact Hs|]. split; [exact A1|]. split; [exact A2|]. split; [exact A3|].
  transitivity (afterRoundTrip (hookRequest type e)
                  (set_notified (notified e ++ [hookRequest type e]) e));
    [repeat split|].
  apply (HR sameCount). intros z. apply modifySpecResult_sameCount. intros []; reflexivity.
Qed.

(** X6: the traffic of [execute].  A run that returns for a specification
    that is in the specification skip map has sent and notified nothing.
    For any other specification it has sent the before-spec hook, then, for
    each scenario that is executed, the before-scenario hook, the blocks of
    its steps and the after-scenario hook, and at the end the after-spec
    hook; nothing comes between the spec hooks when the runner fails the
    first, and nothing between the hooks of a scenario when it fails the
    before-scenario hook.  The plugins are notified of every message of that
    sequence except the [ExecuteStep] requests, in the same order. *)
Theorem execute_sends_bracketed_traffic :
  forall depth e result e',
    execute FromDataTableRow PopulateConceptDynamicParams GetResolvedParams depth e
    = Some (result, e') ->
    runner e' = runner e
    /\ exists l, sent e' = sent e ++ l
                 /\ notified e' = notified e ++ filter isHook l
                 /\ if decide (is_Some (specErrs (errMap e) !! specPtr (specification e)))
                    then l = []
                    else specRun (runner e) (sent e) l.
Proof.
  intros depth e result e' H. unfold execute in H.
  apply bind_inv in H. destruct H as (spec & e0 & H0 & H).
  apply gets_inv in H0. destruct H0 as [-> ->].
  apply bind_inv in H. destruct H as (u1 & e1 & H1 & H).
  apply modify_inv in H1. subst e1.
  apply bind_inv in H. destruct H as (u2 & e1 & H1 & H).
  apply modify_inv in H1. subst e1.
  fold (specInfoOf (specification e)) in H.
  change (set_specResult _ (set_currentExecutionInfo _ e)) with (enterSpec e) in H.
  apply bind_inv in H. destruct H as (items & e1 & H1 & H).
  pose proof (resolveItems_resolveFrame _ _ _ _ _ _ _ _ H1) as F1.
  apply bind_inv in H. destruct H as (u3 & e2 & H2 & H).
  assert (S2 : silent e e2 /\ errMap e2 = errMap e).
  { unfold modifySpecResult, getSpecResult in H2. inv_exec.
    destruct F1 as (A1 & A2 & A3 & A4 & A5 & A6 & A7 & A8 & A9 & A10 & A11 & A12).
    simpl in *. repeat split; assumption. }
  destruct S2 as [S2 Hmap2].
  apply bind_inv in H. destruct H as (errs & e3 & H3 & H).
  apply gets_inv in H3. destruct H3 as [-> ->]. rewrite Hmap2 in H.
  destruct (decide (is_Some (specErrs (errMap e) !! specPtr (specification e)))).
  - assert (S3 : silent e2 e').
    { as_preserves silent H. unfold getSkippedSpecResult.
      pose proof (getSkippedScenarioResults_silent depth). frame. }
    destruct S2 as (A1 & A2 & A3). destruct S3 as (B1 & B2 & B3).
    split; [congruence|]. exists [].
    rewrite !app_nil_r. repeat split; congruence.
  - apply bind_inv in H. destruct H as (u4 & e3 & H3 & H).
    apply report_silent in H3.
    apply bind_inv in H. destruct H as (b & e4 & H4 & H).
    apply executeSpecHook_inv in H4.
    destruct H4 as (Hb & B1 & B2 & B3 & _).
    apply bind_inv in H. destruct H as (u5 & e5 & H5 & H).
    apply bind_inv in H. destruct H as (a & e6 & H6 & H).
    apply executeSpecHook_inv in H6.
    destruct H6 as (Ha & D1 & D2 & D3 & _).
    apply bind_inv in H. destruct H as (u7 & e7 & H7 & H).
    assert (S7 : silent e6 e7) by (as_preserves silent H7; frame).
    assert (S8 : silent e7 e') by (as_preserves silent H; frame).
    assert (T45 : traffic scenariosTraffic e4 e5
                  /\ (GetFailed (Some b) = true -> silent e4 e5)).
    { destruct (GetFailed (Some b)).
      - assert (S45 : silent e4 e5) by (as_preserves silent H5; frame).
        split; [|intros _; exact S45]. apply silent_scenariosTraffic, S45.
      - split; [|discriminate].
        as_preserves (traffic scenariosTraffic) H5.
        pose proof (executeScenarios_traffic depth).
        pose proof (executeTableDrivenSpec_traffic depth).
        repeat first
          [ apply silent_preserves_scenariosTraffic; solve [auto with frames nocore]
          | frame1 ]. }
    destruct T45 as [(R45 & mid & Hsent5 & Hnot5 & Hmid) Hfailed].
    destruct S2 as (A1 & A2 & A3). destruct H3 as (C1 & C2 & C3).
    destruct S7 as (E1 & E2 & E3). destruct S8 as (G1 & G2 & G3).
    set (before := hookRequest Message_SpecExecutionStarting e3) in *.
    set (after := hookRequest Message_SpecExecutionEnding e5) in *.
    split; [congruence|].
    exists (before :: mid ++ [after]).
    split; [rewrite G2, E2, D2, Hsent5, B2, C2, A2, <- !app_assoc; reflexivity|].
    split.
    { rewrite G3, E3, D3, Hnot5, B3, C3, A3, <- !app_assoc. simpl.
      rewrite (filter_cons_True isHook before) by discriminate.
      rewrite filter_app, (filter_isHook_hook after) by discriminate. reflexivity. }
    exists before, mid, after. split; [reflexivity|].
    split; [reflexivity|]. split; [reflexivity|].
    rewrite B1, B2, C1, C2, A1, A2 in Hmid. split; [exact Hmid|].
    intros Hf. unfold hookFailed in Hf.
    rewrite <- A1, <- A2, <- C1, <- C2 in Hf. rewrite <- Hb in Hf.
    destruct (Hfailed Hf) as (_ & X2 & _).
    rewrite Hsent5 in X2.
    apply (f_equal length) in X2. rewrite length_app in X2.
    destruct mid; [reflexivity|simpl in X2; lia].
Qed.

End TrafficOfRuns.

Lemma execute_sends_bracketed_traffic_witness :
  exists result e' l,
    execute fromRow bindRow resolveArgs 1 twoRowExecutor = Some (result, e')
    /\ sent e' = l
    /\ notified e' = filter isHook l
    /\ specRun scriptedRunner [] l
    /\ map MessageType l
       = [Message_SpecExecutionStarting;
          Message_ScenarioExecutionStarting; Message_StepExecutionStarting;
          Message_ExecuteStep; Message_StepExecutionEnding;
          Message_ScenarioExecutionEnding;
          Message_ScenarioExecutionStarting; Message_StepExecutionStarting;
          Message_ExecuteStep; Message_StepExecutionEnding;
          Message_ScenarioExecutionEnding;
          Message_SpecExecutionEnding].
Proof.
  destruct (execute fromRow bindRow resolveArgs 1 twoRowExecutor) as [[result e']|] eqn:Hrun;
    [|vm_compute in Hrun; discriminate].
  destruct (execute_sends_bracketed_traffic fromRow bindRow resolveArgs 1%nat
              twoRowExecutor result e' Hrun) as (_ & l & Hsent & Hnot & Hl).
  exists result, e', l. split; [reflexivity|].
  split; [exact Hsent|]. split; [exact Hnot|]. split; [exact Hl|].
  vm_compute in Hrun. injection Hrun as <- <-. simpl in Hsent.
  rewrite <- Hsent. reflexivity.
Defined.

(** ** A scenario whose before-scenario hook fails *)

Section FailedScenarioHook.

Variable FromDataTableRow : Table -> Z -> ArgLookup.
Variable PopulateConceptDynamicParams : ArgLookup -> option ArgLookup -> ArgLookup -> ArgLookup.
Variable GetResolvedParams : list StepArg -> option ArgLookup -> ArgLookup -> list ProtoParameter.

(** The state after the failure of the before-scenario hook has been
    recorded. *)
Definition afterFailedScenarioHook (scenario : Scenario) (info : ExecutionInfo)
    (status : ProtoExecutionResult) (e1 : specExecutor) : specExecutor :=
  let e0 := afterHook Message_ScenarioExecutionStarting
              (set_reported (reported e1 ++ [ScenarioStart (Scenario_Heading scenario)]) e1) in
  let e2 := set_currentExecutionInfo
              (Some (mkExecutionInfo (failedSpecInfo <$> CurrentSpec info)
                       (Some (failedScenarioInfo (scenarioInfoOf scenario)))
                       (CurrentStep info))) e0 in
  set_reported
    ((reported e2 ++ [ReportError ("Error Message: " +:+ GetErrorMessage (Some status))])
     ++ [ReportError ("Stacktrace: 
" +:+ GetStackTrace (Some status))]) e2.

Lemma executeScenario_hookFailed depth scenario e info shell :
  currentExecutionInfo e = Some info ->
  is_Some (CurrentSpec info) ->
  scenarioErrs (errMap e) !! scenarioPtr scenario = None ->
  shellOf FromDataTableRow PopulateConceptDynamicParams GetResolvedParams depth e scenario
  = Some shell ->
  let before := beforeScenarioRequest info scenario in
  let status := statusOfReply (runner e (sent e) before) in
  GetFailed (Some status) = true ->
  exists e1,
    resolveFrame (enterScenario scenario info e) e1
    /\ executeScenario FromDataTableRow PopulateConceptDynamicParams GetResolvedParams
         depth scenario e
       = finishScenario
           (Scenario_AddPreHook status
              (Scenario_AddExecTime (GetExecutionTime (Some status))
                 (setScenarioSkipped (Some false) shell)))
           (afterFailedScenarioHook scenario info status e1).
Proof.
  intros Hinfo [spec Hspec] Hnot Hshell before status Hfailed.
  destruct (executeScenario_shell FromDataTableRow PopulateConceptDynamicParams
              GetResolvedParams depth scenario e info shell Hinfo Hshell)
    as (e1 & Hrun & Hagree & Hframe).
  exists e1. split; [exact Hframe|].
  unfold executeScenario.
  apply bind_inv in Hrun. destruct Hrun as (u & e0 & Hset & Hadd).
  rewrite (bind_step _ _ _ _ _ Hset).
  rewrite (bind_step _ _ _ _ _ Hadd).
  destruct Hframe as (A1 & A2 & A3 & A4 & A5 & A6 & A7 & A8 & A9 & A10 & A11 & A12).
  unfold bind at 1, gets at 1. rewrite A11.
  change (errMap (enterScenario scenario info e)) with (errMap e).
  destruct (decide (is_Some (scenarioErrs (errMap e) !! scenarioPtr scenario)))
    as [Hin|_]; [rewrite Hnot in Hin; destruct Hin; discriminate|].
  unfold bind at 1, report at 1, modify at 1. cbv beta iota.
  unfold bind at 1. rewrite executeBeforeScenarioHook_eq. cbv beta iota.
  assert (Hreq : hookRequest Message_ScenarioExecutionStarting
                   (set_reported (reported e1 ++ [ScenarioStart (Scenario_Heading scenario)])
                      e1) = before).
  { unfold hookRequest, before, beforeScenarioRequest. simpl currentExecutionInfo.
    rewrite A6. reflexivity. }
  rewrite Hreq. simpl runner. simpl sent. rewrite A3, A4.
  simpl runner. simpl sent. fold status. rewrite Hfailed.
  unfold bind at 1. unfold bind at 1.
  erewrite setScenarioFailure_eq;
    [|unfold afterHook; simpl; rewrite A6; simpl; rewrite Hspec; reflexivity].
  unfold printStatus, report, bind, modify, ret.
  unfold afterFailedScenarioHook. rewrite Hspec. reflexivity.
Qed.

(** X7: a scenario that is not in the scenario skip map and whose
    before-scenario hook fails.  [executeScenario] returns; the two scenario
    hooks are all that it sends, so that no context, no item of the scenario
    and no tear-down step is executed, and no result object is made; the
    after-scenario hook is sent with the scenario and the specification
    marked failed in its execution info; the result keeps the items as
    resolution made them. *)
Theorem failed_before_scenario_hook_runs_no_item :
  forall depth scenario e info shell,
    currentExecutionInfo e = Some info ->
    is_Some (CurrentSpec info) ->
    scenarioErrs (errMap e) !! scenarioPtr scenario = None ->
    shellOf FromDataTableRow PopulateConceptDynamicParams GetResolvedParams depth e scenario
    = Some shell ->
    let before := beforeScenarioRequest info scenario in
    let after :=
      mkMessage Message_ScenarioExecutionEnding
        (Some (mkExecutionInfo (failedSpecInfo <$> CurrentSpec info)
                 (Some (failedScenarioInfo (scenarioInfoOf scenario)))
                 (CurrentStep info)))
        None in
    GetFailed (Some (statusOfReply (runner e (sent e) before))) = true ->
    exists result e',
      executeScenario FromDataTableRow PopulateConceptDynamicParams GetResolvedParams
        depth scenario e = Some (result, e')
      /\ sent e' = sent e ++ [before; after]
      /\ notified e' = notified e ++ [before; after]
      /\ results e' = results e
      /\ ProtoScenario_Contexts result = ProtoScenario_Contexts shell
      /\ ProtoScenario_ScenarioItems result = ProtoScenario_ScenarioItems shell
      /\ ProtoScenario_TearDownSteps result = ProtoScenario_TearDownSteps shell.
Proof.
  intros depth scenario e info shell Hinfo Hspec Hnot Hshell before after Hfailed.
  destruct (executeScenario_hookFailed depth scenario e info shell Hinfo Hspec Hnot Hshell
              Hfailed) as (e1 & Hframe & Hrun).
  set (status := statusOfReply (runner e (sent e) before)) in *.
  set (ef := afterFailedScenarioHook scenario info status e1) in *.
  destruct Hframe as (A1 & A2 & A3 & A4 & A5 & A6 & A7 & A8 & A9 & A10 & A11 & A12).
  assert (Hinf : currentExecutionInfo ef
                 = Some (mkExecutionInfo (failedSpecInfo <$> CurrentSpec info)
                           (Some (failedScenarioInfo (scenarioInfoOf scenario)))
                           (CurrentStep info))) by reflexivity.
  assert (Hin : inScenario ef).
  { unfold inScenario. rewrite Hinf. simpl. destruct Hspec as [spec ->].
    split; eexists; reflexivity. }
  destruct (finishScenario_spec
              (Scenario_AddPreHook status
                 (Scenario_AddExecTime (GetExecutionTime (Some status))
                    (setScenarioSkipped (Some false) shell))) ef Hin)
    as (result & e' & Hfinish & Hsent & Hnotified & Hres & F1 & F2 & F3 & _).
  exists result, e'. split; [rewrite Hrun; exact Hfinish|].
  assert (Hbefore : hookRequest Message_ScenarioExecutionStarting
                      (set_reported
                         (reported e1 ++ [ScenarioStart (Scenario_Heading scenario)]) e1)
                    = before).
  { unfold hookRequest, before, beforeScenarioRequest. simpl. rewrite A6. reflexivity. }
  assert (Hafter : hookRequest Message_ScenarioExecutionEnding ef = after).
  { unfold hookRequest. rewrite Hinf. reflexivity. }
  rewrite Hafter in Hsent, Hnotified.
  split.
  { rewrite Hsent. unfold ef, afterFailedScenarioHook, afterHook. simpl.
    rewrite Hbefore, A4. simpl. rewrite <- app_assoc. reflexivity. }
  split.
  { rewrite Hnotified. unfold ef, afterFailedScenarioHook, afterHook. simpl.
    rewrite Hbefore, A5. simpl. rewrite <- app_assoc. reflexivity. }
  split; [rewrite Hres; unfold ef; simpl; exact A12|].
  unfold Scenario_AddPreHook in F1, F2, F3. fold status in Hfailed.
  rewrite Hfailed in F1, F2, F3.
  split; [exact F1|]. split; [exact F2|exact F3].
Qed.

End FailedScenarioHook.

(** A runner that fails the before-scenario hook. *)
Definition failingScenarioHookRunner (history : list Message) (message : Message)
    : ChannelReply :=
  match MessageType message with
  | Message_ScenarioExecutionStarting => statusReply (failedWith 4)
  | _ => statusReply (succeeded 1)
  end.

Definition failingScenarioHookExecutor : specExecutor :=
  mkSpecExecutor tearDownSpecification (mkIndexRange 0 0) failingScenarioHookRunner [] []
    (Some helloInfo) (Some (NewSpecResult tearDownSpecification)) 0 [] [] noErrors
    (steps tearDownExecutor) [].

Lemma failed_before_scenario_hook_runs_no_item_witness :
  exists result e',
    executeScenario noLookup keepLookup noParams 1 tearDownScenario
      failingScenarioHookExecutor = Some (result, e')
    /\ map MessageType (sent e')
       = [Message_ScenarioExecutionStarting; Message_ScenarioExecutionEnding]
    /\ results e' = []
    /\ forallb unexecuted (ProtoScenario_Contexts result ++ ProtoScenario_ScenarioItems result
                           ++ ProtoScenario_TearDownSteps result) = true.
Proof.
  edestruct (failed_before_scenario_hook_runs_no_item noLookup keepLookup noParams
               1%nat tearDownScenario failingScenarioHookExecutor)
    as (result & e' & Hrun & Hsent & _ & Hres & Hc & Hb & Ht);
    [reflexivity|eexists; reflexivity|reflexivity|reflexivity|reflexivity|].
  exists result, e'. split; [exact Hrun|].
  split; [rewrite Hsent; reflexivity|]. split; [exact Hres|].
  rewrite Hc, Hb, Ht. reflexivity.
Defined.

(** ** The outcome of a step *)

(** The execution info of a step of [request], with the failure flags of
    the specification, the scenario and the step all set to [failed]. *)
Definition stepInfoWith (spec : SpecInfo) (scenario : ScenarioInfo)
    (request : ExecuteStepRequest) (failed : bool) : ExecutionInfo :=
  mkExecutionInfo
    (Some (if failed then failedSpecInfo spec else spec))
    (Some (if failed then failedScenarioInfo scenario else scenario))
    (Some (mkStepInfo request failed)).

(** The time that [addExecutionTimes] leaves on a result whose time was
    [own], for hooks that took [before] and [after]. *)
Definition timeWithHooks (own : option Z) (before after : Z) : Z :=
  add64 (match own with None => before | Some t => add64 t before end) after.

Lemma Failed_addTime r h : Failed (addTime r h) = Failed r.
Proof. reflexivity. Qed.

Lemma ExecutionTime_addTime r h :
  ExecutionTime (addTime r h)
  = Some (match ExecutionTime r with
          | None => GetExecutionTime (Some h)
          | Some t => add64 t (GetExecutionTime (Some h))
          end).
Proof. reflexivity. Qed.

(** The fields of a result after the updates of [executeStep]. *)
Ltac result_fields :=
  unfold GetFailed in *;
  cbn [setMessage setFailed Failed ExecutionTime Message_ default] in *;
  rewrite ?Failed_addTime, ?ExecutionTime_addTime in *;
  cbn [Failed ExecutionTime Message_ default] in *.

(** A runner whose hooks take 3 ms each and whose steps take 10 ms. *)
Definition slowHookRunner (history : list Message) (message : Message) : ChannelReply :=
  match ExecuteStepRequest_ message with
  | Some _ => statusReply (succeeded 10)
  | None => statusReply (succeeded 3)
  end.

Definition slowHookExecutor : specExecutor :=
  mkSpecExecutor emptySpecification (mkIndexRange 0 0) slowHookRunner [] []
    (Some inScenarioInfo) (Some (NewSpecResult emptySpecification)) 0 [] []
    noErrors [] [].

Section StepOutcome.

Variables (protoStep : ProtoStep) (e : specExecutor).
Variables (spec : SpecInfo) (scenario : ScenarioInfo).

Let request := createStepRequest protoStep.
Let before := beforeStepRequest spec scenario protoStep.
Let beforeStatus := statusOfReply (runner e (sent e) before).
Let exec := executeStepRequest protoStep.
Let stepStatus := statusOfReply (runner e (sent e ++ [before]) exec).

(** Whether the step has failed when its after-step hook is sent, the
    request of that hook and its status. *)
Definition failedBeforeAfterHook : bool :=
  if GetFailed (Some beforeStatus) then true else GetFailed (Some stepStatus).

Definition afterStepRequest : Message :=
  mkMessage Message_StepExecutionEnding
    (Some (stepInfoWith spec scenario request failedBeforeAfterHook)) None.

Definition afterStatus : ProtoExecutionResult :=
  statusOfReply
    (runner e
       (sent e ++ (if GetFailed (Some beforeStatus) then [before] else [before; exec]))
       afterStepRequest).

Lemma executeStep_outcome step0 old :
  currentExecutionInfo e = Some (mkExecutionInfo (Some spec) (Some scenario) step0) ->
  StepExecutionResult protoStep = Some old ->
  returns (executeStep protoStep) e (fun a e' =>
    exists r,
      results e' = results e ++ [r]
      /\ a.1 = (failedBeforeAfterHook || GetFailed (Some afterStatus))
      /\ GetFailed (Some r) = a.1
      /\ ExecutionTime r
         = Some (timeWithHooks
                   (if GetFailed (Some beforeStatus) then None
                    else ExecutionTime stepStatus)
                   (GetExecutionTime (Some beforeStatus))
                   (GetExecutionTime (Some afterStatus)))
      /\ Message_ r = Message_ afterStatus
      /\ currentExecutionInfo e' = Some (stepInfoWith spec scenario request a.1)).
Proof.
  intros Hinfo Hold.
  unfold afterStatus, afterStepRequest, failedBeforeAfterHook, stepStatus, exec,
    beforeStatus, before, request.
  destruct e as [sp dti rn snt ntf inf sr row rep lg em ss rs].
  simpl in Hinfo. subst inf.
  unfold executeStep, setCurrentStep, getExecutionInfo, printStatus,
    beforeStepRequest, executeStepRequest, stepInfoWith, timeWithHooks. go.
  set (bfr := mkMessage Message_StepExecutionStarting _ None).
  set (b := statusOfReply (rn snt bfr)).
  destruct (GetFailed (Some b)) eqn:Hb.
  - go.
    set (after := mkMessage Message_StepExecutionEnding _ None).
    set (a := statusOfReply (rn (snt ++ [bfr]) after)).
    destruct (GetFailed (Some a)) eqn:Ha; go; rewrite Hold; go;
      match goal with
      | |- context [if GetFailed (Some ?r) then _ else _] =>
          destruct (GetFailed (Some r)) eqn:Hr
      end; go; cbn [fst snd];
      (eexists; repeat split; try reflexivity; try discriminate).
  - go.
    set (exc := mkMessage Message_ExecuteStep None _).
    set (s := statusOfReply (rn (snt ++ [bfr]) exc)).
    destruct (GetFailed (Some s)) eqn:Hs; go;
      match goal with
      | |- context [mkMessage Message_StepExecutionEnding ?i None] =>
          set (after := mkMessage Message_StepExecutionEnding i None)
      end;
      assert (Hhist : (snt ++ [bfr]) ++ [exc] = snt ++ [bfr; exc])
        by (rewrite <- app_assoc; reflexivity);
      rewrite Hhist;
      set (a := statusOfReply (rn (snt ++ [bfr; exc]) after));
      (destruct (GetFailed (Some a)) eqn:Ha; go; rewrite Hold; go;
       match goal with
       | |- context [if GetFailed (Some ?r) then _ else _] =>
           destruct (GetFailed (Some r)) eqn:Hr
       end; go; cbn [fst snd];
       (eexists; repeat split; try reflexivity; try discriminate);
       result_fields; try congruence; try reflexivity).
Qed.

(** X8: the execution time of a step.  A step executed inside a scenario
    gets one new result object, and the time recorded on it is the time that
    the runner reported for the step (none when the before-step hook failed
    and the step was not sent) plus the times it reported for the before-step
    and the after-step hook, in 64-bit arithmetic. *)
Theorem step_time_includes_the_time_of_its_hooks :
  forall step0 old,
    currentExecutionInfo e = Some (mkExecutionInfo (Some spec) (Some scenario) step0) ->
    StepExecutionResult protoStep = Some old ->
    let own := if GetFailed (Some beforeStatus) then None else ExecutionTime stepStatus in
    let hooks := GetExecutionTime (Some beforeStatus) + GetExecutionTime (Some afterStatus) in
    exists failed protoStep' e' r,
      executeStep protoStep e = Some ((failed, protoStep'), e')
      /\ StepExecutionResult protoStep' ≫= ExecutionResult = Some (length (results e))
      /\ results e' = results e ++ [r]
      /\ ExecutionTime r
         = Some (timeWithHooks own (GetExecutionTime (Some beforeStatus))
                   (GetExecutionTime (Some afterStatus)))
      /\ GetExecutionTime (Some r) = wrap64 (default 0 own + hooks)
      /\ (inRange64 (default 0 own + hooks) ->
          GetExecutionTime (Some r) = default 0 own + hooks).
Proof.
  intros step0 old Hinfo Hold own hooks.
  destruct (executeStep_outcome step0 old Hinfo Hold)
    as ([failed protoStep'] & e' & Hrun & r & Hres & _ & _ & Htime & _).
  pose proof (returns_inv _ _ _ _ _ (executeStep_spec protoStep e spec scenario step0 old
                                       Hinfo Hold) Hrun)
    as (r0 & after & pre & post & _ & Hstep & _).
  cbn [fst snd] in *.
  exists failed, protoStep', e', r. split; [exact Hrun|].
  split; [rewrite Hstep; reflexivity|]. split; [exact Hres|]. split; [exact Htime|].
  assert (Hwrap : GetExecutionTime (Some r) = wrap64 (default 0 own + hooks)).
  { unfold GetExecutionTime. rewrite Htime. fold own. unfold timeWithHooks, hooks. simpl.
    destruct own as [t|]; simpl.
    - unfold add64. rewrite wrap64_add_l. f_equal. lia.
    - unfold add64. f_equal. }
  split; [exact Hwrap|].
  intros Hrange. rewrite Hwrap. apply wrap64_id, Hrange.
Qed.

(** X9: the failure of a step.  [executeStep] returns the failed flag of the
    step's result, and that flag is set exactly when the runner failed the
    before-step hook, the step, or the after-step hook.  When it is set, the
    step, its scenario and its specification are marked failed in the
    execution info; when it is not, the step is marked not failed and the
    flags of the scenario and of the specification are as they were. *)
Theorem step_failure_is_flagged_in_the_execution_info :
  forall step0 old,
    currentExecutionInfo e = Some (mkExecutionInfo (Some spec) (Some scenario) step0) ->
    StepExecutionResult protoStep = Some old ->
    exists failed protoStep' e',
      executeStep protoStep e = Some ((failed, protoStep'), e')
      /\ failed
         = ((if GetFailed (Some beforeStatus) then true else GetFailed (Some stepStatus))
            || GetFailed (Some afterStatus))
      /\ itemFailed e' (ItemStep protoStep') = failed
      /\ currentExecutionInfo e' = Some (stepInfoWith spec scenario request failed).
Proof.
  intros step0 old Hinfo Hold.
  destruct (executeStep_outcome step0 old Hinfo Hold)
    as ([failed protoStep'] & e' & Hrun & r & Hres & Hflag & Hfailed & _ & _ & Hinf).
  pose proof (returns_inv _ _ _ _ _ (executeStep_spec protoStep e spec scenario step0 old
                                       Hinfo Hold) Hrun)
    as (r0 & after & pre & post & _ & Hstep & _).
  cbn [fst snd] in *.
  exists failed, protoStep', e'. split; [exact Hrun|]. split; [exact Hflag|].
  split; [|exact Hinf].
  unfold itemFailed. rewrite Hstep. simpl. rewrite Hres, lookup_snoc. exact Hfailed.
Qed.

End StepOutcome.

Lemma step_time_includes_the_time_of_its_hooks_witness :
  exists failed protoStep' e' r,
    executeStep (plainProtoStep "first") slowHookExecutor = Some ((failed, protoStep'), e')
    /\ results e' = [r]
    /\ GetExecutionTime (Some r) = 16.
Proof.
  edestruct (step_time_includes_the_time_of_its_hooks (plainProtoStep "first")
               slowHookExecutor)
    as (failed & protoStep' & e' & r & Hrun & _ & Hres & _ & _ & Htime);
    [reflexivity|reflexivity|].
  exists failed, protoStep', e', r. split; [exact Hrun|]. split; [exact Hres|].
  rewrite Htime; [reflexivity|]. vm_compute. split; [discriminate|reflexivity].
Defined.

Lemma step_failure_is_flagged_in_the_execution_info_witness :
  exists protoStep' e',
    executeStep (plainProtoStep "second") scriptedExecutor = Some ((true, protoStep'), e')
    /\ ((currentExecutionInfo e' ≫= CurrentSpec) ≫= fun i => Some (SpecInfo_IsFailed i))
       = Some true
    /\ ((currentExecutionInfo e' ≫= CurrentStep) ≫= fun i => Some (StepInfo_IsFailed i))
       = Some true.
Proof.
  edestruct (step_failure_is_flagged_in_the_execution_info (plainProtoStep "second")
               scriptedExecutor)
    as (failed & protoStep' & e' & Hrun & Hflag & _ & Hinf);
    [reflexivity|reflexivity|].
  vm_compute in Hflag. subst failed.
  exists protoStep', e'. split; [exact Hrun|]. rewrite Hinf. split; reflexivity.
Defined.

(** ** The results of the scenarios *)

(** What the execution of a scenario never changes on its result: the
    heading, the skipped flag and the skip errors. *)
Definition sameLabel (r r' : ScenarioResult) : Prop :=
  ProtoScenario_Heading r' = ProtoScenario_Heading r
  /\ ProtoScenario_Skipped r' = ProtoScenario_Skipped r
  /\ ProtoScenario_SkipErrors r' = ProtoScenario_SkipErrors r.

Global Instance sameLabel_preorder : PreOrder sameLabel.
Proof.
  split.
  - intros r. repeat split.
  - intros r1 r2 r3 (A1 & A2 & A3) (B1 & B2 & B3). repeat split; congruence.
Qed.

Lemma foldl_AddExecTime_sameLabel {A} (f : A -> Z) (xs : list A) : forall r,
  sameLabel r (foldl (fun r x => Scenario_AddExecTime (f x) r) r xs).
Proof.
  induction xs as [|x xs IH]; intros r; simpl; [reflexivity|].
  transitivity (Scenario_AddExecTime (f x) r); [repeat split|apply IH].
Qed.

Lemma Scenario_AddPreHook_sameLabel h r : sameLabel r (Scenario_AddPreHook h r).
Proof. unfold Scenario_AddPreHook. destruct (GetFailed (Some h)); repeat split. Qed.

Lemma Scenario_AddPostHook_sameLabel h r : sameLabel r (Scenario_AddPostHook h r).
Proof. unfold Scenario_AddPostHook. destruct (GetFailed (Some h)); repeat split. Qed.

Lemma executeContextItems_sameLabel r e r' e' :
  executeContextItems r e = Some (r', e') -> sameLabel r r'.
Proof.
  unfold executeContextItems. intros H.
  apply bind_inv in H. destruct H as ([f items] & e1 & _ & H).
  destruct f; apply ret_inv in H; destruct H as [-> _]; repeat split.
Qed.

Lemma executeScenarioItems_sameLabel r e r' e' :
  executeScenarioItems r e = Some (r', e') -> sameLabel r r'.
Proof.
  unfold executeScenarioItems. intros H.
  apply bind_inv in H. destruct H as ([f items] & e1 & _ & H).
  destruct f; apply ret_inv in H; destruct H as [-> _]; repeat split.
Qed.

Lemma executeTearDownItems_sameLabel r e r' e' :
  executeTearDownItems r e = Some (r', e') -> sameLabel r r'.
Proof.
  unfold executeTearDownItems. intros H.
  apply bind_inv in H. destruct H as ([f items] & e1 & _ & H).
  destruct f; apply ret_inv in H; destruct H as [-> _]; repeat split.
Qed.

Lemma formatSkipErrors_length errs : forall e texts e',
  formatSkipErrors errs e = Some (texts, e') -> length texts = length errs.
Proof.
  induction errs as [|err rest IH]; intros e texts e' H; simpl in H.
  - apply ret_inv in H. destruct H as [-> _]. reflexivity.
  - apply bind_inv in H. destruct H as (s & e1 & _ & H).
    apply bind_inv in H. destruct H as (ss & e2 & H2 & H).
    apply ret_inv in H. destruct H as [-> _]. simpl. f_equal. eapply IH. exact H2.
Qed.

(** Whether a scenario is in the scenario skip map. *)
Definition scenarioSkipped (errs : validationErrMaps) (scenario : Scenario) : bool :=
  bool_decide (is_Some (scenarioErrs errs !! scenarioPtr scenario)).

(** The result that belongs to a scenario. *)
Definition resultOf (errs : validationErrMaps) (scenario : Scenario) (r : ScenarioResult)
    : Prop :=
  ProtoScenario_Heading r = Scenario_Heading scenario
  /\ ProtoScenario_Skipped r = Some (scenarioSkipped errs scenario)
  /\ length (ProtoScenario_SkipErrors r)
     = (if scenarioSkipped errs scenario
        then length (default [] (scenarioErrs errs !! scenarioPtr scenario))
        else 0%nat).

Section ScenarioResults.

Variable FromDataTableRow : Table -> Z -> ArgLookup.
Variable PopulateConceptDynamicParams : ArgLookup -> option ArgLookup -> ArgLookup -> ArgLookup.
Variable GetResolvedParams : list StepArg -> option ArgLookup -> ArgLookup -> list ProtoParameter.

Lemma addAllItemsForScenarioExecution_sameLabel depth scenario r e r' e' :
  addAllItemsForScenarioExecution FromDataTableRow PopulateConceptDynamicParams
    GetResolvedParams depth scenario r e = Some (r', e') ->
  sameLabel r r'.
Proof.
  unfold addAllItemsForScenarioExecution. intros H.
  apply bind_inv in H. destruct H as (spec & e0 & _ & H).
  apply bind_inv in H. destruct H as (contexts & e1 & _ & H).
  apply bind_inv in H. destruct H as (tearDown & e2 & _ & H).
  apply bind_inv in H. destruct H as (items & e3 & _ & H).
  apply ret_inv in H. destruct H as [-> _]. repeat split.
Qed.

Lemma executeScenario_resultOf depth scenario e r e' :
  executeScenario FromDataTableRow PopulateConceptDynamicParams GetResolvedParams
    depth scenario e = Some (r, e') ->
  resultOf (errMap e) scenario r.
Proof.
  intros H. unfold executeScenario in H.
  apply bind_inv in H. destruct H as (u & e1 & H1 & H).
  apply bind_inv in H. destruct H as (shell & e2 & H2 & H).
  apply bind_inv in H. destruct H as (errs & e3 & H3 & H).
  apply gets_inv in H3. destruct H3 as [-> ->].
  assert (C1 : sameCount e e1).
  { as_preserves sameCount H1. unfold setCurrentScenario, getExecutionInfo. keep. }
  pose proof (addAllItemsForScenarioExecution_sameCount _ _ _ _ _ _ _ _ _ H2) as C2.
  assert (Hmap : errMap e2 = errMap e).
  { destruct C1 as (_ & _ & M1 & _). destruct C2 as (_ & _ & M2 & _). congruence. }
  apply addAllItemsForScenarioExecution_sameLabel in H2.
  destruct H2 as (L1 & L2 & L3). simpl in L1, L2, L3.
  rewrite Hmap in H. unfold resultOf, scenarioSkipped.
  destruct (decide (is_Some (scenarioErrs (errMap e) !! scenarioPtr scenario))) as [Hin|Hout].
  - rewrite (bool_decide_eq_true_2 _ Hin).
    unfold setSkipInfoInResult in H.
    apply bind_inv in H. destruct H as (u2 & e3 & H3 & H).
    assert (C3 : counts 1 e2 e3).
    { unfold modifySpecResult, getSpecResult in H3. inv_exec.
      unfold counts, skippedCount. simpl. repeat split.
      match goal with Hr : specResult _ = Some _ |- _ => rewrite Hr end. reflexivity. }
    apply bind_inv in H. destruct H as (errs & e4 & H4 & H).
    apply gets_inv in H4. destruct H4 as [-> ->].
    apply bind_inv in H. destruct H as (texts & e5 & H5 & H).
    apply ret_inv in H. destruct H as [-> _].
    apply formatSkipErrors_length in H5.
    assert (Hmap3 : errMap e3 = errMap e) by (destruct C3 as (_ & _ & M3 & _); congruence).
    rewrite Hmap3 in H5.
    simpl. split; [exact L1|]. split; [reflexivity|exact H5].
  - rewrite (bool_decide_eq_false_2 _ Hout).
    apply bind_inv in H. destruct H as (u3 & e3 & _ & H).
    apply bind_inv in H. destruct H as ([b r0] & e4 & H4 & H).
    rewrite executeBeforeScenarioHook_eq in H4. inversion H4 as [[Hb Hr0 He4]]. clear H4.
    apply bind_inv in H. destruct H as (r1 & e5 & H5 & H).
    apply bind_inv in H. destruct H as ([a r2] & e6 & H6 & H).
    rewrite executeAfterScenarioHook_eq in H6. inversion H6 as [[Ha Hr2 He6]]. clear H6.
    apply bind_inv in H. destruct H as (r3 & e7 & H7 & H).
    unfold UpdateExecutionTime in H7.
    apply bind_inv in H7. destruct H7 as (e0 & e8 & _ & H7).
    apply ret_inv in H7. destruct H7 as [Hr3 _].
    apply bind_inv in H. destruct H as (u8 & e9 & _ & H).
    apply bind_inv in H. destruct H as (u9 & e10 & _ & H).
    apply ret_inv in H. destruct H as [-> _].
    assert (L01 : sameLabel r0 r1).
    { destruct (GetFailed (Some b)).
      - apply bind_inv in H5. destruct H5 as (x1 & y1 & _ & H5).
        apply bind_inv in H5. destruct H5 as (x2 & y2 & _ & H5).
        apply ret_inv in H5. destruct H5 as [-> _].
        apply Scenario_AddPreHook_sameLabel.
      - apply bind_inv in H5. destruct H5 as (rc & ec & Hc & H5).
        apply bind_inv in H5. destruct H5 as (rb & eb & Hb' & H5).
        apply executeContextItems_sameLabel in Hc.
        apply executeTearDownItems_sameLabel in H5.
        transitivity rc; [exact Hc|]. transitivity rb; [|exact H5].
        destruct (negb (GetFailure rc)).
        + eapply executeScenarioItems_sameLabel. exact Hb'.
        + apply ret_inv in Hb'. destruct Hb' as [-> _]. reflexivity. }
    assert (L13 : sameLabel r1 r3).
    { rewrite Hr3. etransitivity; [|apply foldl_AddExecTime_sameLabel].
      etransitivity; [|apply Scenario_AddPostHook_sameLabel].
      rewrite <- Hr2. repeat split. }
    assert (L0 : sameLabel (setScenarioSkipped (Some false) shell) r0)
      by (rewrite <- Hr0; repeat split).
    destruct (transitivity L0 (transitivity L01 L13)) as (M1 & M2 & M3).
    simpl in M1, M2, M3.
    split; [congruence|]. split; [exact M2|]. rewrite M3, L3. reflexivity.
Qed.

Lemma executeScenariosOf_results depth scenarios : forall e rs e',
  executeScenariosOf FromDataTableRow PopulateConceptDynamicParams GetResolvedParams
    depth scenarios e = Some (rs, e') ->
  Forall2 (resultOf (errMap e)) scenarios rs.
Proof.
  induction scenarios as [|scenario rest IH]; intros e rs e' H; simpl in H.
  - apply ret_inv in H. destruct H as [-> _]. constructor.
  - apply bind_inv in H. destruct H as (r & e1 & H1 & H).
    apply bind_inv in H. destruct H as (rs' & e2 & H2 & H).
    apply ret_inv in H. destruct H as [-> _].
    pose proof (executeScenario_counts _ _ _ _ _ _ _ _ H1) as (_ & _ & Hmap & _).
    apply executeScenario_resultOf in H1. apply IH in H2. rewrite Hmap in H2.
    constructor; assumption.
Qed.

Lemma executeScenarios_results depth e rs e' :
  executeScenarios FromDataTableRow PopulateConceptDynamicParams GetResolvedParams
    depth e = Some (rs, e') ->
  Forall2 (resultOf (errMap e)) (Scenarios (specification e)) rs.
Proof.
  intros H. unfold executeScenarios in H.
  apply bind_inv in H. destruct H as (spec & e1 & H1 & H).
  apply gets_inv in H1. destruct H1 as [-> ->].
  eapply executeScenariosOf_results. exact H.
Qed.

(** X10: the results of [executeScenarios].  A run that returns gives one
    result per scenario of the specification, in the order of the scenarios:
    the result has the heading of its scenario, is marked skipped exactly
    when the scenario is in the scenario skip map, and carries one skip error
    per validation error of the scenario in that case and none otherwise. *)
Theorem executeScenarios_gives_one_result_per_scenario :
  forall depth e rs e',
    executeScenarios FromDataTableRow PopulateConceptDynamicParams GetResolvedParams
      depth e = Some (rs, e') ->
    Forall2 (resultOf (errMap e)) (Scenarios (specification e)) rs.
Proof.
  intros depth e rs e' H. eapply executeScenarios_results. exact H.
Qed.

End ScenarioResults.

Lemma executeScenarios_gives_one_result_per_scenario_witness :
  exists rs e',
    executeScenarios fromRow bindRow resolveArgs 1 (enterSpec twoRowExecutor) = Some (rs, e')
    /\ map ProtoScenario_Heading rs = ["Greeting"; "Parting"]
    /\ map ProtoScenario_Skipped rs = [Some true; Some false].
Proof.
  destruct (executeScenarios fromRow bindRow resolveArgs 1 (enterSpec twoRowExecutor))
    as [[rs e']|] eqn:Hrun; [|vm_compute in Hrun; discriminate].
  pose proof (executeScenarios_gives_one_result_per_scenario _ _ _ _ _ _ _ Hrun) as Hrs.
  exists rs, e'. split; [reflexivity|].
  simpl in Hrs.
  inversion Hrs as [|s1 r1 l1 l1' (H1 & S1 & _) Hrest]; subst.
  inversion Hrest as [|s2 r2 l2 l2' (H2 & S2 & _) Hnil]; subst.
  inversion Hnil; subst. simpl. rewrite H1, H2, S1, S2. split; reflexivity.
Defined.

(** ** The rows of a table-driven run *)

(** The specification result without its count of skipped scenarios. *)
Definition butCount (r : SpecResult) : SpecResult := setScenarioSkippedCount 0 r.

(** The current row of the data table is kept, and so is the specification
    result but for its count of skipped scenarios. *)
Definition sameRow (e e' : specExecutor) : Prop :=
  currentTableRow e' = currentTableRow e
  /\ (butCount <$> specResult e') = (butCount <$> specResult e).

Global Instance sameRow_preorder : PreOrder sameRow.
Proof.
  split.
  - intros e. split; reflexivity.
  - intros e1 e2 e3 [A1 A2] [B1 B2]. split; congruence.
Qed.

Lemma resolveFrame_sameRow e e' : resolveFrame e e' -> sameRow e e'.
Proof.
  intros (A1 & A2 & A3 & A4 & A5 & A6 & A7 & A8 & A9). split; congruence.
Qed.

Lemma report_sameRow ev : preserves sameRow (report ev).
Proof. apply preserves_modify. intros e. split; reflexivity. Qed.

Lemma logError_sameRow msg : preserves sameRow (logError msg).
Proof. apply preserves_modify. intros e. split; reflexivity. Qed.

Lemma NotifyPlugins_sameRow message : preserves sameRow (NotifyPlugins message).
Proof. apply preserves_modify. intros e. split; reflexivity. Qed.

Lemma GetResponseForGaugeMessage_sameRow message :
  preserves sameRow (GetResponseForGaugeMessage message).
Proof. intros e a e' H. inversion H. subst. split; reflexivity. Qed.

Lemma newResult_sameRow r : preserves sameRow (newResult r).
Proof. intros e a e' H. inversion H. subst. split; reflexivity. Qed.

Lemma updateResult_sameRow a f : preserves sameRow (updateResult a f).
Proof.
  intros e b e' H. unfold updateResult in H. destruct (results e !! a); [|discriminate].
  inversion H. subst. split; reflexivity.
Qed.

Lemma set_currentExecutionInfo_sameRow i :
  preserves sameRow (modify (set_currentExecutionInfo i)).
Proof. apply preserves_modify. intros e. split; reflexivity. Qed.

#[global] Hint Resolve report_sameRow logError_sameRow NotifyPlugins_sameRow
  GetResponseForGaugeMessage_sameRow newResult_sameRow updateResult_sameRow
  set_currentExecutionInfo_sameRow : frames.

Lemma setSpecFailure_sameRow : preserves sameRow setSpecFailure.
Proof. unfold setSpecFailure, getExecutionInfo. frame. Qed.

Lemma setScenarioFailure_sameRow : preserves sameRow setScenarioFailure.
Proof.
  unfold setScenarioFailure, getExecutionInfo. pose proof setSpecFailure_sameRow. frame.
Qed.

Lemma setStepFailure_sameRow : preserves sameRow setStepFailure.
Proof.
  unfold setStepFailure, getExecutionInfo. pose proof setScenarioFailure_sameRow. frame.
Qed.

Lemma printStatus_sameRow r : preserves sameRow (printStatus r).
Proof. unfold printStatus. frame. Qed.

Lemma executeAndGetStatus_sameRow message : preserves sameRow (executeAndGetStatus message).
Proof. unfold executeAndGetStatus. frame. Qed.

Lemma addExecutionTimes_sameRow r hs : preserves sameRow (addExecutionTimes r hs).
Proof. induction hs as [|h hs IH]; simpl; frame. Qed.

#[global] Hint Resolve setSpecFailure_sameRow
  setScenarioFailure_sameRow setStepFailure_sameRow printStatus_sameRow
  executeAndGetStatus_sameRow addExecutionTimes_sameRow : frames.

Lemma executeStep_sameRow protoStep : preserves sameRow (executeStep protoStep).
Proof.
  unfold executeStep, setCurrentStep, getExecutionInfo, loadResult,
    executeBeforeStepHook, executeAfterStepHook, hookMessage.
  frame.
Qed.

Lemma findFailedChild_sameRow protoSteps : forall t,
  preserves sameRow (findFailedChild protoSteps t).
Proof.
  induction protoSteps as [|x xs IH]; intros t; simpl; [frame|].
  unfold loadResult. destruct x; frame.
Qed.

Lemma setExecutionResultForConcept_sameRow c :
  preserves sameRow (setExecutionResultForConcept c).
Proof.
  unfold setExecutionResultForConcept. pose proof findFailedChild_sameRow. frame.
Qed.

#[global] Hint Resolve executeStep_sameRow setExecutionResultForConcept_sameRow : frames.

Lemma executeConceptSteps_sameRow rec todo : forall cs res done,
  Forall (fun x => preserves sameRow (rec x)) todo ->
  preserves sameRow (executeConceptSteps rec cs res done todo).
Proof.
  induction todo as [|x rest IH]; intros cs res done Hrec; simpl.
  - unfold loadResult. frame.
  - apply Forall_cons in Hrec. destruct Hrec as [Hx Hrest].
    apply preserves_bind; [typeclasses eauto|exact Hx|intros [f x']].
    apply preserves_bind; [typeclasses eauto|frame|intros c].
    destruct f; [frame|]. apply IH. exact Hrest.
Qed.

Lemma executeItem_sameRow item : preserves sameRow (executeItem item).
Proof.
  induction item as [s|cs protoSteps res IH|text|text|tags] using ProtoItem_nested_ind;
    simpl.
  - frame.
  - pose proof (executeConceptSteps_sameRow executeItem protoSteps cs res [] IH). frame.
  - frame.
  - frame.
  - frame.
Qed.

Lemma executeItems_sameRow items : preserves sameRow (executeItems items).
Proof.
  induction items as [|x rest IH]; simpl; [frame|].
  pose proof executeItem_sameRow. frame.
Qed.

Lemma formatSkipErrors_sameRow errs : preserves sameRow (formatSkipErrors errs).
Proof.
  induction errs as [|err rest IH]; simpl; [frame|].
  unfold formatSkipError, loadStep. frame.
Qed.

Lemma setSkipInfoInResult_sameRow r scenario :
  preserves sameRow (setSkipInfoInResult r scenario).
Proof.
  unfold setSkipInfoInResult.
  apply preserves_bind; [typeclasses eauto| |intros ?; pose proof formatSkipErrors_sameRow; frame].
  intros e a e' H. unfold modifySpecResult, getSpecResult in H. inv_exec.
  split; [reflexivity|]. simpl.
  match goal with Hr : specResult _ = Some _ |- _ => rewrite Hr end.
  reflexivity.
Qed.

#[global] Hint Resolve executeItems_sameRow formatSkipErrors_sameRow
  setSkipInfoInResult_sameRow : frames.

Section RowsOfARun.

Variable FromDataTableRow : Table -> Z -> ArgLookup.
Variable PopulateConceptDynamicParams : ArgLookup -> option ArgLookup -> ArgLookup -> ArgLookup.
Variable GetResolvedParams : list StepArg -> option ArgLookup -> ArgLookup -> list ProtoParameter.

Lemma executeScenario_sameRow depth scenario :
  preserves sameRow
    (executeScenario FromDataTableRow PopulateConceptDynamicParams GetResolvedParams
       depth scenario).
Proof.
  assert (Hadd : forall r, preserves sameRow
            (addAllItemsForScenarioExecution FromDataTableRow PopulateConceptDynamicParams
               GetResolvedParams depth scenario r)).
  { intros r. eapply preserves_weaken; [apply resolveFrame_sameRow|].
    apply addAllItemsForScenarioExecution_resolveFrame. }
  unfold executeScenario, setCurrentScenario, getExecutionInfo,
    executeBeforeScenarioHook, executeAfterScenarioHook, executeHook, hookMessage,
    executeContextItems, executeScenarioItems, executeTearDownItems, UpdateExecutionTime.
  frame.
Qed.

Lemma executeScenarios_sameRow depth :
  preserves sameRow
    (executeScenarios FromDataTableRow PopulateConceptDynamicParams GetResolvedParams depth).
Proof.
  unfold executeScenarios.
  apply preserves_bind; [typeclasses eauto|frame|intros spec].
  induction (Scenarios spec) as [|scenario rest IH]; simpl; [frame|].
  pose proof (executeScenario_sameRow depth). frame.
Qed.

(** The rows [row], [row + 1], ... that [count] turns of the loop visit lie
    in the table, and each turn adds the results of the scenarios. *)
Lemma executeTableRows_rows depth count : forall acc e rs e',
  currentTableRow e + Z.of_nat count <= 2 ^ 63 ->
  executeTableRows FromDataTableRow PopulateConceptDynamicParams GetResolvedParams
    depth count acc e = Some (rs, e') ->
  (forall i, currentTableRow e <= i < currentTableRow e + Z.of_nat count ->
     (0 <= i < Z.of_nat (length (Rows (DataTable (specification e)))))%Z)
  /\ (butCount <$> specResult e') = (butCount <$> specResult e)
  /\ exists new,
       rs = acc ++ new /\ length new = count
       /\ Forall (Forall2 (resultOf (errMap e)) (Scenarios (specification e))) new.
Proof.
  induction count as [|count IH]; intros acc e rs e' Hmax H; simpl in H.
  - apply ret_inv in H. destruct H as [-> ->]. split; [intros i Hi; lia|].
    split; [reflexivity|]. exists []. rewrite app_nil_r. repeat split. constructor.
  - apply bind_inv in H. destruct H as (spec & e1 & H1 & H).
    apply gets_inv in H1. destruct H1 as [-> ->].
    apply bind_inv in H. destruct H as (row & e1 & H1 & H).
    apply gets_inv in H1. destruct H1 as [-> ->].
    apply bind_inv in H. destruct H as (values & e1 & H1 & H).
    apply deref_inv in H1. destruct H1 as [Hrow ->].
    apply bind_inv in H. destruct H as (u & e1 & H1 & H).
    pose proof (report_sameCount _ _ _ _ H1) as C1.
    apply report_sameRow in H1.
    apply bind_inv in H. destruct H as (rs1 & e2 & H2 & H).
    pose proof (executeScenarios_counts _ _ _ _ _ _ _ H2) as C2.
    pose proof (executeScenarios_sameRow _ _ _ _ H2) as [_ R2].
    destruct H1 as [_ R1].
    apply executeScenarios_results in H2.
    apply bind_inv in H. destruct H as (u' & e3 & H3 & H).
    apply modify_inv in H3. subst e3.
    assert (Hmap1 : errMap e1 = errMap e) by apply C1.
    assert (Hspec1 : specification e1 = specification e) by apply C1.
    assert (Hmap2 : errMap e2 = errMap e1) by apply C2.
    assert (Hspec2 : specification e2 = specification e1) by apply C2.
    unfold rowAt in Hrow.
    destruct (currentTableRow e <? 0) eqn:Hneg; [discriminate|].
    apply Z.ltb_ge in Hneg. apply lookup_lt_Some in Hrow.
    rewrite Hmap1 in H2. rewrite Hspec1 in H2.
    destruct count as [|count'].
    { simpl in H. apply ret_inv in H. destruct H as [-> ->].
      split; [intros i Hi; lia|]. split; [simpl; congruence|].
      exists [rs1]. repeat split. constructor; [exact H2|constructor]. }
    assert (Hnext : add64 (currentTableRow e) 1 = currentTableRow e + 1).
    { unfold add64, wrap64. rewrite Z.mod_small; lia. }
    apply IH in H; [|simpl currentTableRow; lia].
    simpl currentTableRow in H. simpl errMap in H. simpl specification in H.
    rewrite Hnext, Hmap2, Hspec2, Hmap1, Hspec1 in H.
    simpl specResult in H.
    destruct H as (Hrows & Hres & new & -> & Hlen & Hnew).
    split; [|split; [congruence|]].
    + intros i Hi. destruct (decide (i = currentTableRow e)) as [->|Hne]; [lia|].
      apply Hrows. lia.
    + exists (rs1 :: new). rewrite <- app_assoc. simpl.
      split; [reflexivity|]. split; [rewrite Hlen; reflexivity|].
      constructor; assumption.
Qed.

(** X11: the rows of [executeTableDrivenSpec].  For a range whose end is a
    64-bit integer, a run that returns has visited only rows of the data
    table: every index from the start to the end of the range is inside the
    table.  It has added to the table-driven results one list per row of the
    range, each holding one result per scenario, in the order of the
    scenarios. *)
Theorem table_driven_run_stays_inside_the_table :
  forall depth e u e',
    inRange64 (range_start (dataTableIndex e)) ->
    inRange64 (range_end (dataTableIndex e)) ->
    executeTableDrivenSpec FromDataTableRow PopulateConceptDynamicParams
      GetResolvedParams depth e = Some (u, e') ->
    (forall i, range_start (dataTableIndex e) <= i <= range_end (dataTableIndex e) ->
       0 <= i < Z.of_nat (length (Rows (DataTable (specification e)))))
    /\ exists before rows,
         (ProtoSpec_TableDrivenResults <$> specResult e) = Some before
         /\ (ProtoSpec_TableDrivenResults <$> specResult e') = Some (before ++ rows)
         /\ Z.of_nat (length rows)
            = Z.max 0 (range_end (dataTableIndex e) - range_start (dataTableIndex e) + 1)
         /\ Forall (Forall2 (resultOf (errMap e)) (Scenarios (specification e))) rows.
Proof.
  intros depth e u e' Hstart Hend H. unfold inRange64 in Hstart, Hend.
  unfold executeTableDrivenSpec in H.
  apply bind_inv in H. destruct H as (range & e1 & H1 & H).
  apply gets_inv in H1. destruct H1 as [-> ->].
  apply bind_inv in H. destruct H as (u1 & e1 & H1 & H).
  apply modify_inv in H1. subst e1.
  apply bind_inv in H. destruct H as (rs & e2 & H2 & H).
  apply executeTableRows_rows in H2; [|simpl currentTableRow; lia].
  simpl in H2. destruct H2 as (Hrows & Hres & new & -> & Hlen & Hnew).
  split; [intros i Hi; apply Hrows; lia|].
  unfold modifySpecResult, getSpecResult in H. inv_exec.
  match goal with Hr : specResult e2 = Some ?r |- _ => rewrite Hr in Hres; rename r into r2 end.
  destruct (specResult e) as [r0|]; [|discriminate].
  apply (f_equal (fmap ProtoSpec_TableDrivenResults)) in Hres.
  simpl in Hres. injection Hres as Hbut.
  exists (ProtoSpec_TableDrivenResults r0), new.
  split; [reflexivity|]. split.
  - simpl. rewrite Hbut. reflexivity.
  - split; [rewrite Hlen; lia|exact Hnew].
Qed.

End RowsOfARun.

Lemma table_driven_run_stays_inside_the_table_witness :
  exists u e',
    executeTableDrivenSpec fromRow bindRow resolveArgs 1 (enterSpec twoRowExecutor)
      = Some (u, e')
    /\ (forall i, 0 <= i <= 1 -> 0 <= i < 2)
    /\ length <$> (ProtoSpec_TableDrivenResults <$> specResult e') = Some 2%nat.
Proof.
  destruct (executeTableDrivenSpec fromRow bindRow resolveArgs 1 (enterSpec twoRowExecutor))
    as [[u e']|] eqn:Hrun; [|vm_compute in Hrun; discriminate].
  assert (Hstart : inRange64 (range_start (dataTableIndex (enterSpec twoRowExecutor))))
    by (vm_compute; split; [discriminate|reflexivity]).
  assert (Hend : inRange64 (range_end (dataTableIndex (enterSpec twoRowExecutor))))
    by (vm_compute; split; [discriminate|reflexivity]).
  destruct (table_driven_run_stays_inside_the_table _ _ _ _ _ _ _ Hstart Hend Hrun)
    as (Hrows & before & rows & Hbefore & Hafter & Hlen & _).
  exists u, e'. split; [reflexivity|]. split; [exact Hrows|].
  rewrite Hafter. simpl. f_equal.
  vm_compute in Hbefore. inversion Hbefore; subst before. simpl.
  simpl in Hlen. lia.
Defined.

(** ** The items that resolution gives *)

(** The skip information that [setSkipInfo] writes for a step. *)
Definition skipInfoOf (errs : validationErrMaps) (step : addr) : ProtoStepExecutionResult :=
  if decide (is_Some (stepErrs errs !! step))
  then mkProtoStepExecutionResult None None None (Some true)
         (Some "Step implemenatation not found")
  else mkProtoStepExecutionResult None None None (Some false) None.

(** The resolved item that belongs to an item: a comment, a table or tags
    are carried over; a step gives a step item with its skip information, or
    a concept item that is not marked skipped. *)
Definition resolvedFrom (errs : validationErrMaps) (item : Item) (p : ProtoItem) : Prop :=
  match item, p with
  | Item_Comment text, ItemComment text' => text' = text
  | Item_DataTable text, ItemTable text' => text' = text
  | Item_Tags tags, ItemTags tags' => tags' = tags
  | Item_Step step, ItemStep protoStep =>
      StepExecutionResult protoStep = Some (skipInfoOf errs step)
  | Item_Step step, ItemConcept conceptStep _ _ =>
      StepExecutionResult conceptStep
      = Some (mkProtoStepExecutionResult None None None (Some false) None)
  | _, _ => False
  end.

Section ResolvedItems.

Variable FromDataTableRow : Table -> Z -> ArgLookup.
Variable PopulateConceptDynamicParams : ArgLookup -> option ArgLookup -> ArgLookup -> ArgLookup.
Variable GetResolvedParams : list StepArg -> option ArgLookup -> ArgLookup -> list ProtoParameter.

Lemma resolveToProtoItem_resolvedFrom depth item e p e' :
  resolveToProtoItem FromDataTableRow PopulateConceptDynamicParams GetResolvedParams
    depth item e = Some (p, e') ->
  resolvedFrom (errMap e) item p.
Proof.
  intros H. destruct item as [step|text|text|tags|]; simpl in H.
  - apply bind_inv in H. destruct H as (s & e1 & H1 & H).
    unfold loadStep in H1. apply deref_inv in H1. destruct H1 as [_ ->].
    destruct (IsConcept s).
    + destruct depth as [|depth]; [discriminate|]. simpl in H.
      apply bind_inv in H. destruct H as (c & e1 & _ & H).
      apply bind_inv in H. destruct H as (lookup & e2 & _ & H).
      apply bind_inv in H. destruct H as (parentLookup & e3 & _ & H).
      apply bind_inv in H. destruct H as (u & e4 & _ & H).
      apply bind_inv in H. destruct H as (concept & e5 & _ & H).
      apply bind_inv in H. destruct H as (protoConceptItem & e6 & _ & H).
      destruct protoConceptItem; try discriminate.
      apply bind_inv in H. destruct H as (protoSteps & e7 & _ & H).
      apply ret_inv in H. destruct H as [-> _]. reflexivity.
    + unfold resolveToProtoStepItem in H.
      apply bind_inv in H. destruct H as (s' & e1 & H1 & H).
      unfold loadStep in H1. apply deref_inv in H1. destruct H1 as [_ ->].
      apply bind_inv in H. destruct H as (lookup & e1 & H1 & H).
      unfold dataTableLookup in H1. inv_exec.
      match goal with
      | Hu : updateProtoStepParameters _ _ _ = Some _ |- _ =>
          unfold updateProtoStepParameters in Hu; inv_exec
      end.
      match goal with
      | Hs : setSkipInfo _ _ _ = Some _ |- _ => unfold setSkipInfo in Hs; inv_exec
      end.
      simpl. unfold skipInfoOf. reflexivity.
  - apply ret_inv in H. destruct H as [-> _]. reflexivity.
  - apply ret_inv in H. destruct H as [-> _]. reflexivity.
  - apply ret_inv in H. destruct H as [-> _]. reflexivity.
  - discriminate.
Qed.

(** X12: the items of [resolveItems].  A run that returns gives one resolved
    item for every item that is not of the tear-down kind, in the order of
    the items, and none for an item of the tear-down kind: a comment, a data
    table and tags are carried over as they are, a step gives a step item
    whose result says whether the step is in the step skip map, or a concept
    item whose result is not marked skipped. *)
Theorem resolveItems_keeps_all_but_tear_down :
  forall depth items e ps e',
    resolveItems FromDataTableRow PopulateConceptDynamicParams GetResolvedParams
      depth items e = Some (ps, e') ->
    Forall2 (resolvedFrom (errMap e))
      (filter (fun item => Kind item <> TearDownKind) items) ps.
Proof.
  intros depth items. induction items as [|item rest IH]; intros e ps e' H; simpl in H.
  - apply ret_inv in H. destruct H as [-> _]. constructor.
  - destruct (decide (Kind item <> TearDownKind)) as [Hkind|Hkind].
    + rewrite filter_cons_True by exact Hkind.
      apply bind_inv in H. destruct H as (p & e1 & H1 & H).
      apply bind_inv in H. destruct H as (ps' & e2 & H2 & H).
      apply ret_inv in H. destruct H as [-> _].
      pose proof (resolveToProtoItem_resolveFrame _ _ _ _ _ _ _ _ H1) as F1.
      assert (Hmap : errMap e1 = errMap e) by apply F1.
      apply resolveToProtoItem_resolvedFrom in H1. apply IH in H2.
      rewrite Hmap in H2. constructor; assumption.
    + rewrite filter_cons_False by exact Hkind. eapply IH. exact H.
Qed.

End ResolvedItems.

Lemma resolveItems_keeps_all_but_tear_down_witness :
  exists ps e',
    resolveItems fromRow bindRow resolveArgs 1
      [Item_Comment "note"; Item_TearDown; Item_Step 0%nat; Item_Tags ["smoke"]]
      twoRowExecutor = Some (ps, e')
    /\ map GetItemType ps = [ProtoItem_Comment; ProtoItem_Step; ProtoItem_Tags].
Proof.
  destruct (resolveItems fromRow bindRow resolveArgs 1
              [Item_Comment "note"; Item_TearDown; Item_Step 0%nat; Item_Tags ["smoke"]]
              twoRowExecutor) as [[ps e']|] eqn:Hrun; [|vm_compute in Hrun; discriminate].
  pose proof (resolveItems_keeps_all_but_tear_down _ _ _ _ _ _ _ _ Hrun) as Hps.
  exists ps, e'. split; [reflexivity|].
  rewrite filter_cons_True in Hps by discriminate.
  rewrite filter_cons_False in Hps by (intros Hk; apply Hk; reflexivity).
  rewrite filter_cons_True in Hps by discriminate.
  rewrite filter_cons_True in Hps by discriminate.
  inversion Hps as [|i1 p1 l1 l1' R1 Hps1]; subst.
  inversion Hps1 as [|i2 p2 l2 l2' R2 Hps2]; subst.
  inversion Hps2 as [|i3 p3 l3 l3' R3 Hps3]; subst.
  inversion Hps3; subst.
  destruct p1; try contradiction. destruct p3; try contradiction.
  destruct p2; try contradiction.
  - reflexivity.
  - vm_compute in Hrun. discriminate.
Defined.

(** ** The range of table rows given as text *)

(** [strings.Split(s, sep)] for a separator of one byte: the pieces of [s]
    between the occurrences of [sep], one more than there are occurrences. *)
Fixpoint Split (s : string) (sep : ascii) : list string :=
  match s with
  | EmptyString => [EmptyString]
  | String c rest =>
      if Ascii.eqb c sep then EmptyString :: Split rest sep
      else match Split rest sep with
           | piece :: pieces => String c piece :: pieces
           | [] => [String c EmptyString]
           end
  end.

(** [strings.Count(s, sep)] for a separator of one byte. *)
Fixpoint Count (s : string) (sep : ascii) : nat :=
  match s with
  | EmptyString => 0
  | String c rest => if Ascii.eqb c sep then S (Count rest sep) else Count rest sep
  end.

Section RowsRange.

(** [validateTableRowsRange] is not among the sources at hand; it is a
    parameter here.  It gives a start, an end and an error, the last being
    [None] for [nil]. *)
Variable validateTableRowsRange : string -> string -> Z -> Z * Z * option string.

Definition getDataTableRowsRange (tableRows : string) (rowCount : Z)
    : indexRange * option string :=
  let indexRanges := Split tableRows "-" in
  let checked '(startIndex, endIndex, err) :=
    match err with
    | Some msg => (mkIndexRange 0 0, Some msg)
    | None => (mkIndexRange startIndex endIndex, None)
    end in
  match indexRanges with
  | [first; second] => checked (validateTableRowsRange first second rowCount)
  | [_] => checked (validateTableRowsRange tableRows tableRows rowCount)
  | _ => (mkIndexRange 0 0, Some "Table rows range validation failed.")
  end.

End RowsRange.

(** The outcome of a validation, as [getDataTableRowsRange] passes it on. *)
Definition passedOn (v : Z * Z * option string) : indexRange * option string :=
  match v with
  | (_, _, Some msg) => (mkIndexRange 0 0, Some msg)
  | (startIndex, endIndex, None) => (mkIndexRange startIndex endIndex, None)
  end.

Lemma Split_length s sep : length (Split s sep) = S (Count s sep).
Proof.
  induction s as [|c rest IH]; simpl; [reflexivity|].
  destruct (Ascii.eqb c sep); simpl; [rewrite IH; reflexivity|].
  destruct (Split rest sep) as [|piece pieces]; [discriminate IH|exact IH].
Qed.

Lemma Split_join s sep : String.concat (String sep EmptyString) (Split s sep) = s.
Proof.
  induction s as [|c rest IH]; simpl; [reflexivity|].
  destruct (Ascii.eqb c sep) eqn:Hc.
  - apply Ascii.eqb_eq in Hc. subst c.
    pose proof (Split_length rest sep) as Hlen.
    destruct (Split rest sep) as [|piece pieces]; [discriminate Hlen|].
    simpl in *. rewrite IH. reflexivity.
  - pose proof (Split_length rest sep) as Hlen.
    destruct (Split rest sep) as [|piece pieces]; [discriminate Hlen|].
    simpl in *. destruct pieces; simpl in *; rewrite <- IH; reflexivity.
Qed.

Lemma Split_pieces s sep :
  Forall (fun piece => Count piece sep = 0%nat) (Split s sep).
Proof.
  induction s as [|c rest IH]; simpl; [repeat constructor|].
  destruct (Ascii.eqb c sep) eqn:Hc.
  - constructor; [reflexivity|exact IH].
  - destruct (Split rest sep) as [|piece pieces].
    + repeat constructor. simpl. rewrite Hc. reflexivity.
    + apply Forall_cons in IH. destruct IH as [Hp Hps].
      constructor; [simpl; rewrite Hc; exact Hp|exact Hps].
Qed.

(** X13: [getDataTableRowsRange] by the number of dashes of the text.  Text
    without a dash is validated as the range from the text to itself; text
    with one dash is validated as the range from what is before the dash to
    what is after it; text with two dashes or more is refused with the error
    of a failed validation, without being validated.  An error never comes
    with a range other than the one from 0 to 0. *)
Theorem rows_range_by_the_dashes_of_the_text :
  forall validate tableRows rowCount,
    let outcome := getDataTableRowsRange validate tableRows rowCount in
    match Count tableRows "-" with
    | 0%nat => outcome = passedOn (validate tableRows tableRows rowCount)
    | 1%nat =>
        exists first second,
          tableRows = (first ++ "-" ++ second)%string
          /\ Count first "-" = 0%nat /\ Count second "-" = 0%nat
          /\ outcome = passedOn (validate first second rowCount)
    | _ => outcome = (mkIndexRange 0 0, Some "Table rows range validation failed.")
    end
    /\ (forall msg, outcome.2 = Some msg -> outcome.1 = mkIndexRange 0 0).
Proof.
  intros validate tableRows rowCount outcome.
  assert (Hpassed : forall v msg, (passedOn v).2 = Some msg
                                  -> (passedOn v).1 = mkIndexRange 0 0).
  { intros [[s e] [m|]] msg; simpl; [reflexivity|discriminate]. }
  assert (Hchecked : forall v,
            (let '(startIndex, endIndex, err) := v in
             match err with
             | Some msg => (mkIndexRange 0 0, Some msg)
             | None => (mkIndexRange startIndex endIndex, None)
             end) = passedOn v).
  { intros [[s e] [m|]]; reflexivity. }
  pose proof (Split_length tableRows "-") as Hlen.
  pose proof (Split_join tableRows "-") as Hjoin.
  pose proof (Split_pieces tableRows "-") as Hpieces.
  subst outcome. unfold getDataTableRowsRange. rewrite !Hchecked.
  destruct (Split tableRows "-") as [|first [|second [|third rest]]];
    simpl in Hlen; [discriminate Hlen| | |]; injection Hlen as Hlen; rewrite <- Hlen.
  - split; [reflexivity|apply Hpassed].
  - split; [|apply Hpassed].
    exists first, second. simpl in Hjoin.
    apply Forall_cons in Hpieces. destruct Hpieces as [H1 Hpieces].
    apply Forall_cons in Hpieces. destruct Hpieces as [H2 _].
    split; [symmetry; exact Hjoin|]. repeat split; assumption.
  - split; [reflexivity|intros msg _; reflexivity].
Qed.

(** ** What execution writes on the items *)

(** The result slot of a step without what execution writes into it: the
    skipped flag and the skipped reason stay. *)
Definition skipInfoOnly (r : ProtoStepExecutionResult) : ProtoStepExecutionResult :=
  mkProtoStepExecutionResult None None None (Skipped r) (SkippedReason r).

(** An item without its results: of the result slot of a step only the skip
    information is kept; the result of a concept and of its representative
    step are erased; and so in the children of a concept, at every depth. *)
Fixpoint unexecutedForm (item : ProtoItem) : ProtoItem :=
  match item with
  | ItemStep s =>
      ItemStep (setStepExecutionResult (skipInfoOnly <$> StepExecutionResult s) s)
  | ItemConcept conceptStep protoSteps _ =>
      ItemConcept (setStepExecutionResult None conceptStep)
        (map unexecutedForm protoSteps) None
  | _ => item
  end.

Lemma executeStep_unexecutedForm protoStep e f protoStep' e' :
  executeStep protoStep e = Some ((f, protoStep'), e') ->
  unexecutedForm (ItemStep protoStep') = unexecutedForm (ItemStep protoStep).
Proof.
  intros H. unfold executeStep in H.
  apply bind_inv in H. destruct H as (u1 & e1 & _ & H).
  apply bind_inv in H. destruct H as (u2 & e2 & _ & H).
  apply bind_inv in H. destruct H as (b & e3 & _ & H).
  apply bind_inv in H. destruct H as (r1 & e4 & _ & H).
  apply bind_inv in H. destruct H as (a & e5 & _ & H).
  apply bind_inv in H. destruct H as (u3 & e6 & _ & H).
  apply bind_inv in H. destruct H as (r & e7 & _ & H).
  apply bind_inv in H. destruct H as (r2 & e8 & _ & H).
  apply bind_inv in H. destruct H as (u4 & e9 & _ & H).
  apply bind_inv in H. destruct H as (old & e10 & Hold & H).
  apply deref_inv in Hold. destruct Hold as [Hold ->].
  apply bind_inv in H. destruct H as (res & e11 & _ & H).
  apply bind_inv in H. destruct H as (u5 & e12 & _ & H).
  apply bind_inv in H. destruct H as (u6 & e13 & _ & H).
  apply ret_inv in H. destruct H as [H _]. injection H as _ ->.
  simpl. rewrite Hold. reflexivity.
Qed.

Lemma setExecutionResultForConcept_unexecutedForm c e c' e' :
  setExecutionResultForConcept c e = Some (c', e') ->
  setStepExecutionResult None (ConceptStep c') = setStepExecutionResult None (ConceptStep c)
  /\ Steps c' = Steps c.
Proof.
  intros H. unfold setExecutionResultForConcept in H.
  apply bind_inv in H. destruct H as ([t failed] & e1 & _ & H).
  destruct failed as [res|].
  - apply ret_inv in H. destruct H as [-> _]. split; reflexivity.
  - apply bind_inv in H. destruct H as (r & e2 & _ & H).
    apply ret_inv in H. destruct H as [-> _]. split; reflexivity.
Qed.

Lemma executeConceptSteps_unexecutedForm rec todo :
  Forall (fun x => forall e f x' e', rec x e = Some ((f, x'), e') ->
                                     unexecutedForm x' = unexecutedForm x) todo ->
  forall cs res done e f c e',
    executeConceptSteps rec cs res done todo e = Some ((f, c), e') ->
    setStepExecutionResult None (ConceptStep c) = setStepExecutionResult None cs
    /\ map unexecutedForm (Steps c) = map unexecutedForm (done ++ todo).
Proof.
  induction todo as [|x rest IH]; intros Hrec cs res done e f c e' H; simpl in H.
  - apply bind_inv in H. destruct H as (r & e1 & _ & H).
    apply bind_inv in H. destruct H as (u & e2 & _ & H).
    apply ret_inv in H. destruct H as [H _]. injection H as _ ->.
    simpl. rewrite app_nil_r. split; reflexivity.
  - apply Forall_cons in Hrec. destruct Hrec as [Hx Hrest].
    apply bind_inv in H. destruct H as ([fx x'] & e1 & H1 & H).
    apply Hx in H1.
    apply bind_inv in H. destruct H as (c1 & e2 & H2 & H).
    apply setExecutionResultForConcept_unexecutedForm in H2.
    destruct H2 as [Hcs Hsteps]. simpl in Hcs, Hsteps.
    destruct fx.
    + apply ret_inv in H. destruct H as [H _]. injection H as _ ->.
      split; [exact Hcs|]. rewrite Hsteps, !map_app. simpl. rewrite H1. reflexivity.
    + apply (IH Hrest) in H. destruct H as [Hcs' Hsteps'].
      split; [congruence|]. rewrite Hsteps', <- app_assoc, !map_app. simpl.
      rewrite H1. reflexivity.
Qed.

Lemma executeItem_unexecutedForm item : forall e f item' e',
  executeItem item e = Some ((f, item'), e') ->
  unexecutedForm item' = unexecutedForm item.
Proof.
  induction item as [s|cs protoSteps res IH|text|text|tags] using ProtoItem_nested_ind;
    intros e f item' e' H; simpl in H.
  - apply bind_inv in H. destruct H as ([f1 s'] & e1 & H1 & H).
    apply ret_inv in H. destruct H as [H _]. injection H as _ ->.
    eapply executeStep_unexecutedForm. exact H1.
  - apply bind_inv in H. destruct H as (u & e1 & _ & H).
    apply bind_inv in H. destruct H as ([f1 c] & e2 & H2 & H).
    apply ret_inv in H. destruct H as [H _]. injection H as _ ->.
    apply (executeConceptSteps_unexecutedForm _ _ IH) in H2. destruct H2 as [Hcs Hsteps].
    simpl. rewrite Hcs, Hsteps. reflexivity.
  - apply ret_inv in H. destruct H as [H _]. injection H as _ ->. reflexivity.
  - apply ret_inv in H. destruct H as [H _]. injection H as _ ->. reflexivity.
  - apply ret_inv in H. destruct H as [H _]. injection H as _ ->. reflexivity.
Qed.

(** X14: what [executeItems] writes.  A run that returns gives back the
    items it was given with nothing changed but their results: the same
    items in the same order, the same texts and fragments of every step, the
    same children of every concept, and comments, tables and tags as they
    were; and every step, also inside a concept at any depth, keeps the
    skipped flag and the skipped reason that it had. *)
Theorem executeItems_changes_only_results :
  forall items e f items' e',
    executeItems items e = Some ((f, items'), e') ->
    map unexecutedForm items' = map unexecutedForm items.
Proof.
  induction items as [|x rest IH]; intros e f items' e' H; simpl in H.
  - apply ret_inv in H. destruct H as [H _]. injection H as _ ->. reflexivity.
  - apply bind_inv in H. destruct H as ([fx x'] & e1 & H1 & H).
    apply executeItem_unexecutedForm in H1.
    destruct fx.
    + apply ret_inv in H. destruct H as [H _]. injection H as _ ->.
      simpl. rewrite H1. reflexivity.
    + apply bind_inv in H. destruct H as ([f2 rest'] & e2 & H2 & H).
      apply ret_inv in H. destruct H as [H _]. injection H as _ ->.
      apply IH in H2. simpl. rewrite H1, H2. reflexivity.
Qed.

Lemma executeItems_changes_only_results_witness :
  exists f items' e',
    executeItems [ItemComment "note";
                  ItemConcept (ConceptStep threeStepConcept) (Steps threeStepConcept)
                    (ConceptExecutionResult threeStepConcept)]
      scriptedExecutor = Some ((f, items'), e')
    /\ f = true
    /\ map unexecutedForm items'
       = [ItemComment "note";
          ItemConcept (setStepExecutionResult None (ConceptStep threeStepConcept))
            [ItemStep (plainProtoStep "first"); ItemStep (plainProtoStep "second");
             ItemStep (plainProtoStep "third")] None].
Proof.
  destruct (executeItems [ItemComment "note";
                          ItemConcept (ConceptStep threeStepConcept)
                            (Steps threeStepConcept)
                            (ConceptExecutionResult threeStepConcept)] scriptedExecutor)
    as [[[f items'] e']|] eqn:Hrun; [|vm_compute in Hrun; discriminate].
  pose proof (executeItems_changes_only_results _ _ _ _ _ Hrun) as Hw.
  exists f, items', e'. split; [reflexivity|]. split; [|exact Hw].
  vm_compute in Hrun. injection Hrun as <- _ _. reflexivity.
Defined.

(** X15: [executeItems] on items as resolution leaves them, inside a
    scenario.  The run returns.  It changes no result object that existed
    before, it only makes new ones; the flag it returns tells whether the
    result of one of the items it gives back is failed; and it leaves the
    specification, the range of rows, the current row, the runner, the skip
    maps, the steps and the specification result as they were. *)
Theorem executeItems_returns_on_resolved_items :
  forall items e,
    forallb unexecuted items = true ->
    inScenario e ->
    exists f items' e',
      executeItems items e = Some ((f, items'), e')
      /\ (exists new, results e' = results e ++ new)
      /\ f = existsb (itemFailed e') items'
      /\ inScenario e'
      /\ execFrame e e'.
Proof.
  intros items e Hun Hin.
  destruct (executeItems_spec items Hun e Hin) as ([f items'] & e' & Hrun & Hpost).
  destruct Hpost as (Hnew & Hflag & _ & Hin' & Hframe).
  exists f, items', e'. repeat split; try assumption; apply Hframe.
Qed.

Lemma executeItems_returns_on_resolved_items_witness :
  exists f items' e',
    executeItems [ItemStep (plainProtoStep "first"); ItemStep (plainProtoStep "second");
                  ItemStep (plainProtoStep "third")] scriptedExecutor
    = Some ((f, items'), e')
    /\ length (results e') = 2%nat
    /\ f = true.
Proof.
  assert (Hun : forallb unexecuted
                  [ItemStep (plainProtoStep "first"); ItemStep (plainProtoStep "second");
                   ItemStep (plainProtoStep "third")] = true) by reflexivity.
  assert (Hin : inScenario scriptedExecutor) by (simpl; split; eexists; reflexivity).
  destruct (executeItems_returns_on_resolved_items _ _ Hun Hin)
    as (f & items' & e' & Hrun & _ & _ & _ & _).
  exists f, items', e'. split; [exact Hrun|].
  vm_compute in Hrun. injection Hrun as <- _ <-. split; reflexivity.
Defined.

(** ** Runs that return *)

(** The execution info names the specification that is executed. *)
Definition specReady (e : specExecutor) : Prop :=
  match currentExecutionInfo e with
  | Some info => is_Some (CurrentSpec info)
  | None => False
  end.

Lemma inScenario_specReady e : inScenario e -> specReady e.
Proof.
  unfold inScenario, specReady. destruct (currentExecutionInfo e); [|exact id].
  intros [H _]. exact H.
Qed.

(** From the after-scenario hook on, the run returns and keeps what the
    execution of items keeps. *)
Lemma finishScenario_returns r e :
  inScenario e ->
  returns (finishScenario r) e (fun _ e' => execFrame e e' /\ inScenario e').
Proof.
  intros Hin. unfold inScenario in Hin.
  destruct e as [sp dti rn snt ntf inf sr row rep lg em ss rs].
  simpl in Hin. destruct inf as [[spec scenario step0]|]; [|contradiction].
  simpl in Hin. destruct Hin as [[spec' ->] [scenario' ->]].
  unfold finishScenario. apply returns_bind.
  eapply returns_eq; [apply executeAfterScenarioHook_eq|].
  unfold afterHook, hookRequest, UpdateExecutionTime, printStatus. flat.
  set (after := mkMessage Message_ScenarioExecutionEnding _ None).
  set (status := statusOfReply (rn snt after)).
  destruct (GetFailed (Some status)) eqn:Hstatus; go;
    (split; [repeat split|]); unfold inScenario; simpl; split; eexists; reflexivity.
Qed.

(** The part of [execute] from the after-spec hook on. *)
Definition finishSpec : Exec SpecResult :=
  let* afterSpecHookStatus := executeAfterSpecHook in
  (if GetFailed (Some afterSpecHookStatus) then
     modifySpecResult (Spec_AddPostHook afterSpecHookStatus) ;;
     setSpecFailure ;;
     printStatus afterSpecHookStatus
   else ret tt) ;;
  modifySpecResult (fun r => setSpecSkipped (ScenarioSkippedCount r >? 0) r) ;;
  report SpecEnd ;;
  getSpecResult.

Lemma finishSpec_returns e :
  is_Some (specResult e) -> specReady e ->
  returns finishSpec e (fun _ _ => True).
Proof.
  intros [r Hr] Hready. unfold specReady in Hready.
  destruct e as [sp dti rn snt ntf inf sr row rep lg em ss rs].
  simpl in Hr, Hready. subst sr.
  destruct inf as [[spec scenario step0]|]; [|contradiction].
  simpl in Hready. destruct Hready as [spec' ->].
  unfold finishSpec. unfold_spec_hooks. go.
  match goal with
  | |- context [GetFailed (Some ?s)] => destruct (GetFailed (Some s))
  end; go; exact I.
Qed.

Section Returning.

Variable FromDataTableRow : Table -> Z -> ArgLookup.
Variable PopulateConceptDynamicParams : ArgLookup -> option ArgLookup -> ArgLookup -> ArgLookup.
Variable GetResolvedParams : list StepArg -> option ArgLookup -> ArgLookup -> list ProtoParameter.

(** The steps as they were parsed, and the bound on the nesting of
    concepts. *)
Variable tpl : list Step.
Variable depth : nat.

(** A scenario can be run against a row: its shell can be materialised from
    the parsed steps, and the steps of its validation errors exist. *)
Definition runnable (errs : validationErrMaps) (spec : Specification) (row : Z)
    (scenario : Scenario) : Prop :=
  is_Some (pureShell PopulateConceptDynamicParams GetResolvedParams tpl errs
             (FromDataTableRow (DataTable spec) row) depth spec scenario)
  /\ is_Some (skipErrorTexts tpl (default [] (scenarioErrs errs !! scenarioPtr scenario))).

(** The state between two scenarios: the store of steps holds the parsed
    steps, there is a specification result, and the execution info names
    the specification. *)
Definition ready (e : specExecutor) : Prop :=
  agree tpl (steps e) /\ is_Some (specResult e) /\ specReady e.

Lemma executeScenario_returns scenario e :
  ready e ->
  runnable (errMap e) (specification e) (currentTableRow e) scenario ->
  returns (executeScenario FromDataTableRow PopulateConceptDynamicParams
             GetResolvedParams depth scenario) e (fun _ e' => ready e').
Proof.
  intros (Hagree & [sr Hsr] & Hready) [[shell Hshell] [texts Htexts]].
  unfold specReady in Hready.
  destruct (currentExecutionInfo e) as [info|] eqn:Hinfo; [|contradiction].
  destruct Hready as [spec Hspec].
  destruct (addAllItemsForScenarioExecution_pure FromDataTableRow
              PopulateConceptDynamicParams GetResolvedParams tpl (errMap e)
              (FromDataTableRow (DataTable (specification e)) (currentTableRow e))
              depth scenario shell (enterScenario scenario info e) Hshell)
    as (e1 & Hadd & Hagree1 & Hframe).
  { exact Hagree. }
  { split; reflexivity. }
  assert (Hset : setCurrentScenario (Some (scenarioInfoOf scenario)) e
                 = Some (tt, enterScenario scenario info e)).
  { unfold setCurrentScenario, getExecutionInfo, bind, gets, deref, modify.
    rewrite Hinfo. reflexivity. }
  destruct Hframe as (A1 & A2 & A3 & A4 & A5 & A6 & A7 & A8 & A9 & A10 & A11 & A12).
  change (specResult (enterScenario scenario info e)) with (specResult e) in A7.
  change (errMap (enterScenario scenario info e)) with (errMap e) in A11.
  change (currentExecutionInfo (enterScenario scenario info e))
    with (Some (mkExecutionInfo (CurrentSpec info) (Some (scenarioInfoOf scenario))
                  (CurrentStep info))) in A6.
  rewrite Hspec in A6. rewrite Hsr in A7.
  unfold executeScenario.
  apply returns_bind. eapply returns_eq; [exact Hset|].
  apply returns_bind. eapply returns_eq; [exact Hadd|].
  apply returns_bind. apply returns_gets. rewrite A11.
  destruct (decide (is_Some (scenarioErrs (errMap e) !! scenarioPtr scenario)))
    as [Hin|Hout].
  - unfold setSkipInfoInResult, modifySpecResult, getSpecResult.
    apply returns_bind. apply returns_bind. apply returns_bind.
    apply returns_gets. rewrite A7. apply returns_deref. apply returns_modify.
    apply returns_bind. apply returns_gets. simpl errMap. rewrite A11.
    apply returns_bind.
    eapply returns_eq; [apply (formatSkipErrors_eq tpl _ texts); [exact Htexts|exact Hagree1]|].
    apply returns_ret. split; [exact Hagree1|]. split; [eexists; reflexivity|].
    unfold specReady. simpl. rewrite A6. eexists. reflexivity.
  - destruct (pureShell_fresh _ _ _ _ _ _ _ _ _ Hshell) as (U1 & U2 & U3 & U4).
    apply returns_bind. apply returns_modify.
    apply returns_bind. eapply returns_eq; [apply executeBeforeScenarioHook_eq|].
    cbv beta iota.
    set (e4 := afterHook Message_ScenarioExecutionStarting
                 (set_reported (reported e1 ++ [ScenarioStart (Scenario_Heading scenario)])
                    e1)).
    assert (Hinfo4 : currentExecutionInfo e4
                     = Some (mkExecutionInfo (Some spec) (Some (scenarioInfoOf scenario))
                               (CurrentStep info))) by exact A6.
    assert (Hin4 : inScenario e4).
    { unfold inScenario. rewrite Hinfo4. split; eexists; reflexivity. }
    match goal with
    | |- context [GetFailed (Some ?s)] => set (status := s)
    end.
    apply returns_bind.
    apply returns_mono with (Q' := fun _ e5 => execFrame e4 e5 /\ inScenario e5).
    + destruct (GetFailed (Some status)).
      * apply returns_bind.
        eapply returns_eq; [apply setScenarioFailure_eq; exact Hinfo4|].
        unfold printStatus. apply returns_bind. apply returns_bind.
        apply returns_modify. apply returns_modify. apply returns_ret.
        split; [repeat split|].
        unfold inScenario. simpl. split; eexists; reflexivity.
      * destruct (runScenarioItems_spec
                    (Scenario_AddExecTime (GetExecutionTime (Some status))
                       (setScenarioSkipped (Some false) shell)) e4 Hin4 U1 U2 U3 U4)
          as (fc & fb & ft & contexts & body & teardown & ec & eb & et & r' & _ & Hrun
              & _ & _ & _ & _ & _ & _ & _ & _ & _ & Hint & Hframet).
        eapply returns_eq; [exact Hrun|]. split; assumption.
    + intros r1 e5 [Hframe5 Hin5].
      eapply returns_mono; [exact (finishScenario_returns r1 e5 Hin5)|].
      intros r2 e6 [Hframe6 Hin6]. simpl.
      assert (Hframe46 : execFrame e4 e6) by (transitivity e5; assumption).
      destruct Hframe46 as (B1 & B2 & B3 & B4 & B5 & B6 & B7).
      split; [rewrite B5; exact Hagree1|].
      split; [rewrite B6; simpl; rewrite A7; eexists; reflexivity|].
      apply inScenario_specReady, Hin6.
Qed.

Lemma modifySpecResult_returns f e :
  ready e -> returns (modifySpecResult f) e (fun _ e' => ready e').
Proof.
  intros (Hagree & [sr Hsr] & Hinfo).
  unfold modifySpecResult, getSpecResult.
  apply returns_bind. apply returns_bind. apply returns_gets. rewrite Hsr.
  apply returns_deref. apply returns_modify.
  split; [exact Hagree|]. split; [eexists; reflexivity|exact Hinfo].
Qed.

Lemma executeScenariosOf_returns scenarios : forall e,
  ready e ->
  Forall (runnable (errMap e) (specification e) (currentTableRow e)) scenarios ->
  returns (executeScenariosOf FromDataTableRow PopulateConceptDynamicParams
             GetResolvedParams depth scenarios) e (fun _ e' => ready e').
Proof.
  induction scenarios as [|scenario rest IH]; intros e Hready Hall; simpl.
  - apply returns_ret. exact Hready.
  - apply Forall_cons in Hall. destruct Hall as [Hx Hrest].
    destruct (executeScenario_returns scenario e Hready Hx)
      as (r & e1 & Hrun & Hready1).
    apply returns_bind. eapply returns_eq; [exact Hrun|].
    pose proof (executeScenario_counts _ _ _ _ _ _ _ _ Hrun) as (C1 & _ & C3 & _).
    pose proof (executeScenario_sameRow _ _ _ _ _ _ _ _ Hrun) as [R1 _].
    apply returns_bind. eapply returns_mono.
    + apply IH; [exact Hready1|]. rewrite C3, C1, R1. exact Hrest.
    + intros rs e2 Hready2. apply returns_ret. exact Hready2.
Qed.

Lemma executeScenarios_returns e :
  ready e ->
  Forall (runnable (errMap e) (specification e) (currentTableRow e))
    (Scenarios (specification e)) ->
  returns (executeScenarios FromDataTableRow PopulateConceptDynamicParams
             GetResolvedParams depth) e (fun _ e' => ready e').
Proof.
  intros Hready Hall. unfold executeScenarios.
  apply returns_bind. apply returns_gets.
  apply executeScenariosOf_returns; assumption.
Qed.

Lemma executeTableRows_returns count : forall acc e,
  ready e ->
  currentTableRow e + Z.of_nat count <= 2 ^ 63 ->
  (forall i, currentTableRow e <= i < currentTableRow e + Z.of_nat count ->
     0 <= i < GetRowCount (DataTable (specification e))
     /\ Forall (runnable (errMap e) (specification e) i) (Scenarios (specification e))) ->
  returns (executeTableRows FromDataTableRow PopulateConceptDynamicParams
             GetResolvedParams depth count acc) e (fun _ e' => ready e').
Proof.
  induction count as [|count IH]; intros acc e Hready Hmax Hrows; simpl.
  - apply returns_ret. exact Hready.
  - destruct (Hrows (currentTableRow e)) as [Hrow Hall]; [lia|].
    unfold GetRowCount in Hrow.
    apply returns_bind. apply returns_gets.
    apply returns_bind. apply returns_gets.
    destruct (rowAt (DataTable (specification e)) (currentTableRow e)) as [values|] eqn:Hat.
    2:{ exfalso. unfold rowAt in Hat.
        destruct (currentTableRow e <? 0) eqn:Hneg; [apply Z.ltb_lt in Hneg; lia|].
        apply lookup_ge_None in Hat. lia. }
    apply returns_bind. apply returns_deref.
    apply returns_bind. apply returns_modify.
    set (e1 := set_reported _ e).
    assert (Hready1 : ready e1) by exact Hready.
    destruct (executeScenarios_returns e1 Hready1 Hall) as (rs1 & e2 & Hrun & Hready2).
    apply returns_bind. eapply returns_eq; [exact Hrun|].
    pose proof (executeScenarios_counts _ _ _ _ _ _ _ Hrun) as (C1 & _ & C3 & _).
    pose proof (executeScenarios_sameRow _ _ _ _ _ _ _ Hrun) as [R1 _].
    simpl in C1, C3, R1.
    apply returns_bind. apply returns_modify.
    destruct Hready2 as (G1 & G2 & G3).
    apply IH.
    + split; [exact G1|]. split; [exact G2|exact G3].
    + simpl currentTableRow. destruct count as [|count'].
      * pose proof (wrap64_inRange (currentTableRow e + 1)) as Hw.
        unfold add64, inRange64 in *. lia.
      * unfold add64, wrap64. rewrite Z.mod_small; lia.
    + simpl currentTableRow. simpl specification. simpl errMap.
      rewrite C1, C3. intros i Hi.
      destruct count as [|count']; [lia|].
      assert (Hnext : add64 (currentTableRow e) 1 = currentTableRow e + 1).
      { unfold add64, wrap64. rewrite Z.mod_small; lia. }
      rewrite Hnext in Hi. apply Hrows. lia.
Qed.

Lemma executeTableDrivenSpec_returns e :
  ready e ->
  inRange64 (range_start (dataTableIndex e)) ->
  inRange64 (range_end (dataTableIndex e)) ->
  (forall i, range_start (dataTableIndex e) <= i <= range_end (dataTableIndex e) ->
     0 <= i < GetRowCount (DataTable (specification e))
     /\ Forall (runnable (errMap e) (specification e) i) (Scenarios (specification e))) ->
  returns (executeTableDrivenSpec FromDataTableRow PopulateConceptDynamicParams
             GetResolvedParams depth) e (fun _ e' => ready e').
Proof.
  intros Hready Hstart Hend Hrows. unfold inRange64 in *.
  unfold executeTableDrivenSpec.
  apply returns_bind. apply returns_gets.
  apply returns_bind. apply returns_modify.
  apply returns_bind. eapply returns_mono.
  - apply executeTableRows_returns.
    + exact Hready.
    + simpl currentTableRow. lia.
    + simpl currentTableRow. simpl specification. simpl errMap.
      intros i Hi. apply Hrows. lia.
  - intros rs e2 Hready2. apply modifySpecResult_returns. exact Hready2.
Qed.

End Returning.

Section ExecuteReturns.

Variable FromDataTableRow : Table -> Z -> ArgLookup.
Variable PopulateConceptDynamicParams : ArgLookup -> option ArgLookup -> ArgLookup -> ArgLookup.
Variable GetResolvedParams : list StepArg -> option ArgLookup -> ArgLookup -> list ProtoParameter.

(** The rows against which [execute] resolves the scenarios: the rows of
    the range for a specification with a data table that is executed, and
    the current row otherwise. *)
Definition activeRows (e : specExecutor) : list Z :=
  if bool_decide (is_Some (specErrs (errMap e) !! specPtr (specification e)))
     || (GetRowCount (DataTable (specification e)) =? 0)
  then [currentTableRow e]
  else seqZ (range_start (dataTableIndex e))
         (range_end (dataTableIndex e) - range_start (dataTableIndex e) + 1).

(** The range of rows is a range of 64-bit integers inside the table. *)
Definition rangeInTable (e : specExecutor) : Prop :=
  inRange64 (range_start (dataTableIndex e))
  /\ inRange64 (range_end (dataTableIndex e))
  /\ forall i, range_start (dataTableIndex e) <= i <= range_end (dataTableIndex e) ->
       0 <= i < GetRowCount (DataTable (specification e)).

(** X16: [execute] returns.  When the items of the specification resolve
    from the parsed steps, every scenario is runnable against every active
    row, and, for a specification with a data table that is executed, the
    range of rows is a range of 64-bit integers inside the table, [execute]
    returns a result, whatever the runner answers to the hooks and to the
    steps: it meets no nil pointer, no index out of range and no missing
    row. *)
Theorem execute_returns_when_everything_resolves :
  forall depth e,
    is_Some (pureItems PopulateConceptDynamicParams GetResolvedParams (steps e) (errMap e)
               (rowLookup FromDataTableRow e) depth (GetSpecItems (specification e))) ->
    (forall row scenario,
       row ∈ activeRows e -> scenario ∈ Scenarios (specification e) ->
       runnable FromDataTableRow PopulateConceptDynamicParams GetResolvedParams
         (steps e) depth (errMap e) (specification e) row scenario) ->
    (specErrs (errMap e) !! specPtr (specification e) = None ->
     GetRowCount (DataTable (specification e)) <> 0 ->
     rangeInTable e) ->
    exists result e',
      execute FromDataTableRow PopulateConceptDynamicParams GetResolvedParams depth e
      = Some (result, e').
Proof.
  intros depth e [items Hitems] Hrunnable Hrange.
  destruct (specErrs (errMap e) !! specPtr (specification e)) as [errors|] eqn:Hskip.
  - assert (Hrs : is_Some (mapM (skippedResultOf PopulateConceptDynamicParams
                                   GetResolvedParams (steps e) (errMap e)
                                   (rowLookup FromDataTableRow e) depth (specification e))
                             (Scenarios (specification e)))).
    { apply mapM_is_Some. apply Forall_forall. intros scenario Hscenario.
      destruct (Hrunnable (currentTableRow e) scenario) as [[shell Hshell] [texts Htexts]].
      - unfold activeRows. rewrite Hskip.
        rewrite bool_decide_eq_true_2 by (eexists; reflexivity).
        simpl. apply list_elem_of_singleton. reflexivity.
      - exact Hscenario.
      - simpl. unfold skippedResultOf, rowLookup. rewrite Hshell. simpl.
        rewrite Htexts. simpl. eexists. reflexivity. }
    destruct Hrs as [rs Hrs].
    destruct (execute_skipped FromDataTableRow PopulateConceptDynamicParams
                GetResolvedParams depth e errors items rs Hskip Hitems Hrs)
      as (e' & Hrun & _).
    eexists _, e'. exact Hrun.
  - destruct (resolveItems_pure FromDataTableRow PopulateConceptDynamicParams
                GetResolvedParams (steps e) (errMap e) (rowLookup FromDataTableRow e) depth
                (GetSpecItems (specification e)) items (enterSpec e) Hitems)
      as (e1 & Hrun1 & Hagree1 & Hframe1).
    { apply agree_refl. }
    { split; reflexivity. }
    cut (returns (execute FromDataTableRow PopulateConceptDynamicParams
                    GetResolvedParams depth) e (fun _ _ => True)).
    { intros (result & e' & Hrun & _). exists result, e'. exact Hrun. }
    assert (Hplain : (GetRowCount (DataTable (specification e)) =? 0) = true ->
                     Forall (runnable FromDataTableRow PopulateConceptDynamicParams
                               GetResolvedParams (steps e) depth (errMap e)
                               (specification e) (currentTableRow e))
                       (Scenarios (specification e))).
    { intros Hz. apply Forall_forall. intros scenario Hscenario.
      apply Hrunnable; [|exact Hscenario].
      unfold activeRows. rewrite Hz, orb_true_r. apply list_elem_of_singleton. reflexivity. }
    assert (Htable : (GetRowCount (DataTable (specification e)) =? 0) = false ->
                     inRange64 (range_start (dataTableIndex e))
                     /\ inRange64 (range_end (dataTableIndex e))
                     /\ forall i,
                          range_start (dataTableIndex e) <= i <= range_end (dataTableIndex e) ->
                          0 <= i < GetRowCount (DataTable (specification e))
                          /\ Forall (runnable FromDataTableRow PopulateConceptDynamicParams
                                       GetResolvedParams (steps e) depth (errMap e)
                                       (specification e) i)
                               (Scenarios (specification e))).
    { intros Hz. apply Z.eqb_neq in Hz.
      destruct (Hrange eq_refl Hz) as (Hstart & Hend & Hin).
      split; [exact Hstart|]. split; [exact Hend|].
      intros i Hi. split; [apply Hin, Hi|].
      apply Forall_forall. intros scenario Hscenario.
      apply Hrunnable; [|exact Hscenario].
      unfold activeRows. rewrite Hskip.
      rewrite bool_decide_eq_false_2 by (intros [x Hx]; discriminate).
      apply Z.eqb_neq in Hz. rewrite Hz. simpl. apply elem_of_seqZ. lia. }
    clear Hrunnable Hrange.
    destruct Hframe1 as (A1 & A2 & A3 & A4 & A5 & A6 & A7 & A8 & A9 & A10 & A11 & A12).
    destruct e1 as [sp1 dti1 rn1 snt1 ntf1 inf1 sr1 row1 rep1 lg1 em1 ss1 rs1].
    destruct e as [sp dti rn snt ntf inf sr row rep lg em ss rs].
    unfold enterSpec in *.
    simpl in A1, A2, A3, A4, A5, A6, A7, A8, A9, A10, A11, A12. subst.
    simpl in Hskip, Hplain, Htable, Hagree1.
    unfold execute. do 6 go1.
    apply returns_bind. eapply returns_eq.
    { exact Hrun1. }
    unfold_spec_hooks. go.
    destruct (decide (is_Some (specErrs em !! specPtr sp)))
      as [Hin|_]; [rewrite Hskip in Hin; destruct Hin; discriminate|].
    go.
    match goal with
    | |- returns (if GetFailed (Some ?s) then _ else _) ?e0 _ =>
        set (status := s); set (e4 := e0)
    end.
    assert (Hready4 : ready ss e4).
    { split; [exact Hagree1|]. split; eexists; reflexivity. }
    apply returns_mono with (Q' := fun _ e5 => ready ss e5).
    + destruct (GetFailed (Some status)).
      * subst e4. go. split; [exact Hagree1|]. split; eexists; reflexivity.
      * destruct (GetRowCount (DataTable sp) =? 0) eqn:Hz.
        { apply returns_bind. eapply returns_mono.
          { apply (executeScenarios_returns FromDataTableRow PopulateConceptDynamicParams
                     GetResolvedParams ss depth e4 Hready4). apply Hplain. reflexivity. }
          intros rs5 e5 Hready5.
          exact (modifySpecResult_returns ss (AddScenarioResults rs5) e5 Hready5). }
        { destruct (Htable eq_refl) as (Hstart & Hend & Hrows).
          apply (executeTableDrivenSpec_returns FromDataTableRow
                   PopulateConceptDynamicParams GetResolvedParams ss depth e4 Hready4
                   Hstart Hend Hrows). }
    + intros u e5 (_ & Hsr5 & Hinfo5).
      exact (finishSpec_returns e5 Hsr5 Hinfo5).
Qed.

End ExecuteReturns.

Lemma execute_returns_when_everything_resolves_witness :
  activeRows twoRowExecutor = [0; 1]
  /\ exists result e',
       execute fromRow bindRow resolveArgs 1 twoRowExecutor = Some (result, e').
Proof.
  assert (Hrows : activeRows twoRowExecutor = [0; 1]) by reflexivity.
  split; [exact Hrows|].
  apply execute_returns_when_everything_resolves.
  - vm_compute. eexists. reflexivity.
  - intros row scenario Hrow Hscenario. rewrite Hrows in Hrow.
    assert (Hr : row = 0 \/ row = 1).
    { apply elem_of_cons in Hrow. destruct Hrow as [->|Hrow]; [left; reflexivity|].
      apply elem_of_cons in Hrow. destruct Hrow as [->|Hrow]; [right; reflexivity|].
      apply elem_of_nil in Hrow. contradiction. }
    simpl in Hscenario.
    apply elem_of_cons in Hscenario. destruct Hscenario as [->|Hscenario].
    + destruct Hr as [-> | ->]; split; vm_compute; eexists; reflexivity.
    + apply elem_of_cons in Hscenario. destruct Hscenario as [->|Hscenario].
      * destruct Hr as [-> | ->]; split; vm_compute; eexists; reflexivity.
      * apply elem_of_nil in Hscenario. contradiction.
  - intros _ _. unfold rangeInTable, inRange64. simpl. repeat split; try lia.
    all: intros; unfold GetRowCount; simpl in *; lia.
Defined.

(** ** The failure flag of the specification, along the traffic *)

(** The same specification, with its failure flag still set if it was. *)
Definition laterSpec (s s' : SpecInfo) : Prop :=
  SpecInfo_Name s' = SpecInfo_Name s /\ SpecInfo_FileName s' = SpecInfo_FileName s
  /\ SpecInfo_Tags s' = SpecInfo_Tags s
  /\ (SpecInfo_IsFailed s = true -> SpecInfo_IsFailed s' = true).

Global Instance laterSpec_preorder : PreOrder laterSpec.
Proof.
  split.
  - intros s. repeat split. exact id.
  - intros s1 s2 s3 (A1 & A2 & A3 & A4) (B1 & B2 & B3 & B4).
    repeat split; try congruence. auto.
Qed.

(** The specification that a message, or the executor, names. *)
Definition msgSpec (m : Message) : option SpecInfo := CurrentExecutionInfo m ≫= CurrentSpec.

Definition infoSpec (e : specExecutor) : option SpecInfo :=
  currentExecutionInfo e ≫= CurrentSpec.

(** The execution info still names the specification it named, and has not
    cleared its failure flag. *)
Definition specKept (e e' : specExecutor) : Prop :=
  forall s, infoSpec e = Some s -> exists s', infoSpec e' = Some s' /\ laterSpec s s'.

(** Along a list of messages the specification is the same and its failure
    flag is never cleared. *)
Definition rising (l : list Message) : Prop :=
  forall i j m m' s s',
    (i < j)%nat -> l !! i = Some m -> l !! j = Some m' ->
    msgSpec m = Some s -> msgSpec m' = Some s' -> laterSpec s s'.

(** What was sent between two states names the specification of the first
    state, with the failure flag rising up to the flag of the second. *)
Definition rises (e e' : specExecutor) : Prop :=
  exists l,
    sent e' = sent e ++ l
    /\ rising l
    /\ (forall m s s0, m ∈ l -> msgSpec m = Some s -> infoSpec e = Some s0 -> laterSpec s0 s)
    /\ (forall m s, m ∈ l -> msgSpec m = Some s ->
          exists s', infoSpec e' = Some s' /\ laterSpec s s')
    /\ specKept e e'.

Lemma specKept_refl e : specKept e e.
Proof. intros s Hs. exists s. split; [exact Hs|reflexivity]. Qed.

Lemma specKept_trans e1 e2 e3 : specKept e1 e2 -> specKept e2 e3 -> specKept e1 e3.
Proof.
  intros H12 H23 s Hs. destruct (H12 s Hs) as (s2 & Hs2 & L2).
  destruct (H23 s2 Hs2) as (s3 & Hs3 & L3). exists s3. split; [exact Hs3|].
  transitivity s2; assumption.
Qed.

Global Instance rises_preorder : PreOrder rises.
Proof.
  split.
  - intros e. exists []. rewrite app_nil_r. split; [reflexivity|].
    split; [intros i j m m' s s' _ H; rewrite lookup_nil in H; discriminate|].
    split; [intros m s s0 H; apply elem_of_nil in H; contradiction|].
    split; [intros m s H; apply elem_of_nil in H; contradiction|].
    apply specKept_refl.
  - intros e1 e2 e3 (l1 & S1 & R1 & L1 & U1 & K1) (l2 & S2 & R2 & L2 & U2 & K2).
    exists (l1 ++ l2). split; [rewrite S2, S1, app_assoc; reflexivity|].
    split.
    { intros i j m m' s s' Hij Hi Hj Hs Hs'.
      apply lookup_app_Some in Hi. apply lookup_app_Some in Hj.
      destruct Hi as [Hi|[Hi1 Hi]]; destruct Hj as [Hj|[Hj1 Hj]].
      - exact (R1 i j m m' s s' Hij Hi Hj Hs Hs').
      - destruct (U1 m s) as (s2 & Hs2 & La); [eapply list_elem_of_lookup_2, Hi|exact Hs|].
        transitivity s2; [exact La|].
        apply (L2 m' s' s2); [eapply list_elem_of_lookup_2, Hj|exact Hs'|exact Hs2].
      - apply lookup_lt_Some in Hj. lia.
      - apply (R2 (i - length l1)%nat (j - length l1)%nat m m' s s'); try assumption. lia. }
    split.
    { intros m s s0 Hm Hs Hs0. apply elem_of_app in Hm. destruct Hm as [Hm|Hm].
      - exact (L1 m s s0 Hm Hs Hs0).
      - destruct (K1 s0 Hs0) as (s2 & Hs2 & La). transitivity s2; [exact La|].
        exact (L2 m s s2 Hm Hs Hs2). }
    split.
    { intros m s Hm Hs. apply elem_of_app in Hm. destruct Hm as [Hm|Hm].
      - destruct (U1 m s Hm Hs) as (s2 & Hs2 & La).
        destruct (K2 s2 Hs2) as (s3 & Hs3 & Lb).
        exists s3. split; [exact Hs3|]. transitivity s2; assumption.
      - exact (U2 m s Hm Hs). }
    eapply specKept_trans; eassumption.
Qed.

(** Nothing is sent, and the specification named is kept. *)
Lemma rises_kept e e' : sent e' = sent e -> specKept e e' -> rises e e'.
Proof.
  intros Hsent Hkept. exists []. rewrite app_nil_r. split; [exact Hsent|].
  split; [intros i j m m' s s' _ H; rewrite lookup_nil in H; discriminate|].
  split; [intros m s s0 H; apply elem_of_nil in H; contradiction|].
  split; [intros m s H; apply elem_of_nil in H; contradiction|].
  exact Hkept.
Qed.

Lemma rises_same e e' :
  sent e' = sent e -> currentExecutionInfo e' = currentExecutionInfo e -> rises e e'.
Proof.
  intros Hsent Hinfo. apply rises_kept; [exact Hsent|].
  intros s Hs. exists s. unfold infoSpec in *. rewrite Hinfo. split; [exact Hs|reflexivity].
Qed.

(** One message is sent, which carries the execution info or none. *)
Lemma rises_send m e e' :
  sent e' = sent e ++ [m] ->
  currentExecutionInfo e' = currentExecutionInfo e ->
  CurrentExecutionInfo m = None \/ CurrentExecutionInfo m = currentExecutionInfo e ->
  rises e e'.
Proof.
  intros Hsent Hinfo Hm. exists [m]. split; [exact Hsent|].
  assert (Hspec : forall s, msgSpec m = Some s -> infoSpec e = Some s).
  { intros s Hs. unfold msgSpec, infoSpec in *. destruct Hm as [Hm|Hm]; rewrite Hm in Hs.
    - discriminate.
    - exact Hs. }
  split.
  { intros i j x x' s s' Hij Hi Hj. apply lookup_lt_Some in Hj. simpl in Hj.
    apply lookup_lt_Some in Hi. simpl in Hi. lia. }
  split.
  { intros x s s0 Hx Hs Hs0. apply list_elem_of_singleton in Hx. subst x.
    apply Hspec in Hs. rewrite Hs in Hs0. inversion Hs0. reflexivity. }
  split.
  { intros x s Hx Hs. apply list_elem_of_singleton in Hx. subst x.
    apply Hspec in Hs. exists s. unfold infoSpec in *. rewrite Hinfo.
    split; [exact Hs|reflexivity]. }
  intros s Hs. exists s. unfold infoSpec in *. rewrite Hinfo. split; [exact Hs|reflexivity].
Qed.

Lemma resolveFrame_rises e e' : resolveFrame e e' -> rises e e'.
Proof.
  intros (A1 & A2 & A3 & A4 & A5 & A6 & _). apply rises_same; assumption.
Qed.

Lemma silent_info_rises {A} (m : Exec A) :
  preserves (fun e e' => sent e' = sent e
                         /\ currentExecutionInfo e' = currentExecutionInfo e) m ->
  preserves rises m.
Proof. intros H e a e' Hrun. destruct (H e a e' Hrun). apply rises_same; assumption. Qed.

Lemma report_rises ev : preserves rises (report ev).
Proof. apply preserves_modify. intros e. apply rises_same; reflexivity. Qed.

Lemma logError_rises msg : preserves rises (logError msg).
Proof. apply preserves_modify. intros e. apply rises_same; reflexivity. Qed.

Lemma NotifyPlugins_rises message : preserves rises (NotifyPlugins message).
Proof. apply preserves_modify. intros e. apply rises_same; reflexivity. Qed.

Lemma newResult_rises r : preserves rises (newResult r).
Proof. intros e a e' H. inversion H. subst. apply rises_same; reflexivity. Qed.

Lemma updateResult_rises a f : preserves rises (updateResult a f).
Proof.
  intros e b e' H. unfold updateResult in H. destruct (results e !! a); [|discriminate].
  inversion H. subst. apply rises_same; reflexivity.
Qed.

Lemma modifySpecResult_rises f : preserves rises (modifySpecResult f).
Proof.
  intros e a e' H. unfold modifySpecResult, getSpecResult in H. inv_exec.
  apply rises_same; reflexivity.
Qed.

Lemma set_currentTableRow_rises row : preserves rises (modify (set_currentTableRow row)).
Proof. apply preserves_modify. intros e. apply rises_same; reflexivity. Qed.

Lemma setCurrentStep_rises step : preserves rises (setCurrentStep step).
Proof.
  intros e a e' H. unfold setCurrentStep, getExecutionInfo in H. inv_exec.
  match goal with Hi : currentExecutionInfo _ = Some _ |- _ => rename Hi into Hinfo end.
  apply rises_kept; [reflexivity|].
  intros s Hs. unfold infoSpec in *. rewrite Hinfo in Hs. simpl in Hs.
  exists s. split; [exact Hs|reflexivity].
Qed.

Lemma setCurrentScenario_rises scenario : preserves rises (setCurrentScenario scenario).
Proof.
  intros e a e' H. unfold setCurrentScenario, getExecutionInfo in H. inv_exec.
  match goal with Hi : currentExecutionInfo _ = Some _ |- _ => rename Hi into Hinfo end.
  apply rises_kept; [reflexivity|].
  intros s Hs. unfold infoSpec in *. rewrite Hinfo in Hs. simpl in Hs.
  exists s. split; [exact Hs|reflexivity].
Qed.

Lemma setSpecFailure_rises : preserves rises setSpecFailure.
Proof.
  intros e a e' H. unfold setSpecFailure, getExecutionInfo in H. inv_exec.
  match goal with Hi : currentExecutionInfo _ = Some _ |- _ => rename Hi into Hinfo end.
  match goal with Hc : CurrentSpec _ = Some _ |- _ => rename Hc into Hspec end.
  apply rises_kept; [reflexivity|].
  intros s Hs. unfold infoSpec in *. rewrite Hinfo in Hs. simpl in Hs.
  rewrite Hspec in Hs. inversion Hs. subst s.
  eexists. split; [reflexivity|]. repeat split.
Qed.

Lemma setScenarioFailure_rises : preserves rises setScenarioFailure.
Proof.
  intros e a e' H. unfold setScenarioFailure in H.
  apply bind_inv in H. destruct H as (u & e1 & H1 & H).
  apply setSpecFailure_rises in H1. transitivity e1; [exact H1|].
  unfold getExecutionInfo in H. inv_exec.
  match goal with Hi : currentExecutionInfo _ = Some _ |- _ => rename Hi into Hinfo end.
  apply rises_kept; [reflexivity|].
  intros s Hs. unfold infoSpec in *. rewrite Hinfo in Hs. simpl in Hs.
  exists s. split; [exact Hs|reflexivity].
Qed.

Lemma setStepFailure_rises : preserves rises setStepFailure.
Proof.
  intros e a e' H. unfold setStepFailure in H.
  apply bind_inv in H. destruct H as (u & e1 & H1 & H).
  apply setScenarioFailure_rises in H1. transitivity e1; [exact H1|].
  unfold getExecutionInfo in H. inv_exec.
  match goal with Hi : currentExecutionInfo _ = Some _ |- _ => rename Hi into Hinfo end.
  apply rises_kept; [reflexivity|].
  intros s Hs. unfold infoSpec in *. rewrite Hinfo in Hs. simpl in Hs.
  exists s. split; [exact Hs|reflexivity].
Qed.

(** A request without execution info, as [ExecuteStep] is. *)
Lemma executeAndGetStatus_rises message :
  CurrentExecutionInfo message = None -> preserves rises (executeAndGetStatus message).
Proof.
  intros Hm e a e' H. rewrite executeAndGetStatus_eq in H. inversion H. subst.
  apply (rises_send message); [reflexivity|reflexivity|left; exact Hm].
Qed.

(** A hook: its request carries the execution info. *)
Lemma afterHook_rises type e : rises e (afterHook type e).
Proof.
  apply (rises_send (hookRequest type e)); [reflexivity|reflexivity|right; reflexivity].
Qed.

Lemma executeBeforeStepHook_rises : preserves rises executeBeforeStepHook.
Proof.
  intros e a e' H. rewrite executeBeforeStepHook_eq in H. inversion H. subst.
  apply afterHook_rises.
Qed.

Lemma executeAfterStepHook_rises : preserves rises executeAfterStepHook.
Proof.
  intros e a e' H. rewrite executeAfterStepHook_eq in H. inversion H. subst.
  apply afterHook_rises.
Qed.

Lemma executeBeforeScenarioHook_rises r : preserves rises (executeBeforeScenarioHook r).
Proof.
  intros e a e' H. rewrite executeBeforeScenarioHook_eq in H. inversion H. subst.
  apply afterHook_rises.
Qed.

Lemma executeAfterScenarioHook_rises r : preserves rises (executeAfterScenarioHook r).
Proof.
  intros e a e' H. rewrite executeAfterScenarioHook_eq in H. inversion H. subst.
  apply afterHook_rises.
Qed.

Lemma executeSpecHook_rises type :
  preserves rises
    (let* message := hookMessage type in
     let* (r, _) := executeHook message (fun t => modifySpecResult (Spec_AddExecTime t)) in
     ret r).
Proof.
  intros e a e' H. unfold hookMessage in H.
  apply bind_inv in H. destruct H as (message & e1 & H1 & H).
  apply bind_inv in H1. destruct H1 as (info & e0 & H0 & H1).
  apply gets_inv in H0. destruct H0 as [-> ->].
  apply ret_inv in H1. destruct H1 as [-> ->].
  apply bind_inv in H. destruct H as ([r u] & e2 & H2 & H).
  apply ret_inv in H. destruct H as [-> ->].
  destruct (executeHook_inv _ _ _ _ _ _ H2) as (_ & _ & _ & _ & HR).
  { intros z. apply modifySpecResult_silent. }
  transitivity (afterHook type e); [apply afterHook_rises|].
  apply (HR rises). intros z. apply modifySpecResult_rises.
Qed.

#[global] Hint Resolve report_rises logError_rises NotifyPlugins_rises newResult_rises
  updateResult_rises modifySpecResult_rises set_currentTableRow_rises setCurrentStep_rises
  setCurrentScenario_rises setSpecFailure_rises setScenarioFailure_rises
  setStepFailure_rises executeBeforeStepHook_rises executeAfterStepHook_rises
  executeBeforeScenarioHook_rises executeAfterScenarioHook_rises : frames.

Lemma printStatus_rises r : preserves rises (printStatus r).
Proof. unfold printStatus. frame. Qed.

Lemma addExecutionTimes_rises r hs : preserves rises (addExecutionTimes r hs).
Proof. induction hs as [|h hs IH]; simpl; frame. Qed.

#[global] Hint Resolve printStatus_rises addExecutionTimes_rises : frames.

Lemma executeStep_rises protoStep : preserves rises (executeStep protoStep).
Proof.
  unfold executeStep, getExecutionInfo, loadResult.
  pose proof (fun request =>
                executeAndGetStatus_rises (mkMessage Message_ExecuteStep None (Some request))
                  eq_refl) as Hsend.
  frame.
Qed.

Lemma findFailedChild_rises protoSteps : forall t,
  preserves rises (findFailedChild protoSteps t).
Proof.
  induction protoSteps as [|x xs IH]; intros t; simpl; [frame|].
  unfold loadResult. destruct x; frame.
Qed.

Lemma setExecutionResultForConcept_rises c :
  preserves rises (setExecutionResultForConcept c).
Proof.
  unfold setExecutionResultForConcept. pose proof findFailedChild_rises. frame.
Qed.

#[global] Hint Resolve executeStep_rises setExecutionResultForConcept_rises : frames.

Lemma executeConceptSteps_rises rec todo : forall cs res done,
  Forall (fun x => preserves rises (rec x)) todo ->
  preserves rises (executeConceptSteps rec cs res done todo).
Proof.
  induction todo as [|x rest IH]; intros cs res done Hrec; simpl.
  - unfold loadResult. frame.
  - apply Forall_cons in Hrec. destruct Hrec as [Hx Hrest].
    apply preserves_bind; [typeclasses eauto|exact Hx|intros [f x']].
    apply preserves_bind; [typeclasses eauto|frame|intros c].
    destruct f; [frame|]. apply IH. exact Hrest.
Qed.

Lemma executeItem_rises item : preserves rises (executeItem item).
Proof.
  induction item as [s|cs protoSteps res IH|text|text|tags] using ProtoItem_nested_ind;
    simpl.
  - frame.
  - pose proof (executeConceptSteps_rises executeItem protoSteps cs res [] IH). frame.
  - frame.
  - frame.
  - frame.
Qed.

Lemma executeItems_rises items : preserves rises (executeItems items).
Proof.
  induction items as [|x rest IH]; simpl; [frame|].
  pose proof executeItem_rises. frame.
Qed.

Lemma formatSkipErrors_rises errs : preserves rises (formatSkipErrors errs).
Proof.
  induction errs as [|err rest IH]; simpl; [frame|].
  unfold formatSkipError, loadStep. frame.
Qed.

#[global] Hint Resolve executeItems_rises formatSkipErrors_rises : frames.

Section FlagsOfARun.

Variable FromDataTableRow : Table -> Z -> ArgLookup.
Variable PopulateConceptDynamicParams : ArgLookup -> option ArgLookup -> ArgLookup -> ArgLookup.
Variable GetResolvedParams : list StepArg -> option ArgLookup -> ArgLookup -> list ProtoParameter.

Lemma resolveItems_rises depth items :
  preserves rises
    (resolveItems FromDataTableRow PopulateConceptDynamicParams GetResolvedParams
       depth items).
Proof.
  eapply preserves_weaken; [apply resolveFrame_rises|]. apply resolveItems_resolveFrame.
Qed.

Lemma executeScenario_rises depth scenario :
  preserves rises
    (executeScenario FromDataTableRow PopulateConceptDynamicParams GetResolvedParams
       depth scenario).
Proof.
  assert (Hadd : forall r, preserves rises
            (addAllItemsForScenarioExecution FromDataTableRow PopulateConceptDynamicParams
               GetResolvedParams depth scenario r)).
  { intros r. eapply preserves_weaken; [apply resolveFrame_rises|].
    apply addAllItemsForScenarioExecution_resolveFrame. }
  unfold executeScenario, setSkipInfoInResult,
    executeContextItems, executeScenarioItems, executeTearDownItems, UpdateExecutionTime.
  frame.
Qed.

Lemma executeScenarios_rises depth :
  preserves rises
    (executeScenarios FromDataTableRow PopulateConceptDynamicParams GetResolvedParams depth).
Proof.
  unfold executeScenarios.
  apply preserves_bind; [typeclasses eauto|frame|intros spec].
  induction (Scenarios spec) as [|scenario rest IH]; simpl; [frame|].
  pose proof (executeScenario_rises depth). frame.
Qed.

Lemma executeTableRows_rises depth count : forall acc,
  preserves rises
    (executeTableRows FromDataTableRow PopulateConceptDynamicParams GetResolvedParams
       depth count acc).
Proof.
  induction count as [|count IH]; intros acc; simpl; [frame|].
  pose proof (executeScenarios_rises depth). frame.
Qed.

Lemma getSkippedScenarioResults_rises depth scenarios :
  preserves rises
    (getSkippedScenarioResults FromDataTableRow PopulateConceptDynamicParams
       GetResolvedParams depth scenarios).
Proof.
  assert (Hadd : forall scenario r, preserves rises
            (addAllItemsForScenarioExecution FromDataTableRow PopulateConceptDynamicParams
               GetResolvedParams depth scenario r)).
  { intros scenario r. eapply preserves_weaken; [apply resolveFrame_rises|].
    apply addAllItemsForScenarioExecution_resolveFrame. }
  induction scenarios as [|scenario rest IH]; simpl; [frame|].
  unfold getSkippedScenarioResult, setSkipInfoInResult. frame.
Qed.

(** X17: the specification named along the traffic of [execute].  Every
    message that a run of [execute] sends with an execution info names the
    specification that is executed, with its heading, file and tags.  The
    failure flag of the specification never goes back: once a message
    carries the specification as failed, every later message that names it
    carries it as failed, and so does the execution info at the end of the
    run. *)
Theorem failure_flag_rises_along_the_traffic :
  forall depth e result e',
    execute FromDataTableRow PopulateConceptDynamicParams GetResolvedParams depth e
    = Some (result, e') ->
    exists l,
      sent e' = sent e ++ l
      /\ (forall m s, m ∈ l -> msgSpec m = Some s ->
            SpecInfo_Name s = Heading (specification e)
            /\ SpecInfo_FileName s = FileName (specification e)
            /\ SpecInfo_Tags s = getTagValue (Tags (specification e)))
      /\ (forall i j m m' s s',
            (i < j)%nat -> l !! i = Some m -> l !! j = Some m' ->
            msgSpec m = Some s -> msgSpec m' = Some s' ->
            SpecInfo_IsFailed s = true -> SpecInfo_IsFailed s' = true)
      /\ (forall m s, m ∈ l -> msgSpec m = Some s -> SpecInfo_IsFailed s = true ->
            SpecInfo_IsFailed <$> infoSpec e' = Some true).
Proof.
  intros depth e result e' H. unfold execute in H.
  apply bind_inv in H. destruct H as (spec & e0 & H0 & H).
  apply gets_inv in H0. destruct H0 as [-> ->].
  apply bind_inv in H. destruct H as (u1 & e1 & H1 & H).
  apply modify_inv in H1. subst e1.
  apply bind_inv in H. destruct H as (u2 & e2 & H2 & H).
  apply modify_inv in H2. subst e2.
  assert (Hrises : rises (enterSpec e) e').
  { match type of H with ?m ?s = _ => change (rises s e') end.
    as_preserves rises H.
    pose proof (resolveItems_rises depth).
    pose proof (getSkippedScenarioResults_rises depth).
    pose proof (executeScenarios_rises depth).
    pose proof (executeTableRows_rises depth).
    pose proof executeSpecHook_rises.
    unfold getSkippedSpecResult, executeTableDrivenSpec, executeBeforeSpecHook,
      executeAfterSpecHook, getSpecResult.
    frame. }
  destruct Hrises as (l & Hsent & Hrising & Hlater & Hlast & _).
  exists l. split; [exact Hsent|].
  split.
  { intros m s Hm Hs.
    destruct (Hlater m s (specInfoOf (specification e)) Hm Hs eq_refl) as (A1 & A2 & A3 & _).
    repeat split; assumption. }
  split.
  { intros i j m m' s s' Hij Hi Hj Hs Hs' Hfailed.
    destruct (Hrising i j m m' s s' Hij Hi Hj Hs Hs') as (_ & _ & _ & A4).
    apply A4, Hfailed. }
  intros m s Hm Hs Hfailed.
  destruct (Hlast m s Hm Hs) as (s' & Hs' & _ & _ & _ & A4).
  rewrite Hs'. simpl. rewrite (A4 Hfailed). reflexivity.
Qed.

End FlagsOfARun.

Lemma failure_flag_rises_along_the_traffic_witness :
  exists result e' l,
    execute noLookup keepLookup noParams 1 failingHookExecutor = Some (result, e')
    /\ sent e' = sent failingHookExecutor ++ l
    /\ map (fun m => SpecInfo_IsFailed <$> msgSpec m) l = [Some false; Some true]
    /\ SpecInfo_IsFailed <$> infoSpec e' = Some true.
Proof.
  destruct (execute noLookup keepLookup noParams 1 failingHookExecutor)
    as [[result e']|] eqn:Hrun; [|vm_compute in Hrun; discriminate].
  destruct (failure_flag_rises_along_the_traffic _ _ _ _ _ _ _ Hrun)
    as (l & Hsent & _ & _ & Hlast).
  exists result, e', l. split; [reflexivity|]. split; [exact Hsent|].
  vm_compute in Hrun. injection Hrun as _ <-.
  simpl in Hsent. subst l. split; reflexivity.
Defined.

(** ** What is reported *)

(** Between two states, events have been reported that are all in [P]. *)
Definition reports (P : ReporterEvent -> Prop) (e e' : specExecutor) : Prop :=
  exists l, reported e' = reported e ++ l /\ Forall P l.

Global Instance reports_preorder P : PreOrder (reports P).
Proof.
  split.
  - intros e. exists []. rewrite app_nil_r. split; [reflexivity|constructor].
  - intros e1 e2 e3 (l1 & H1 & P1) (l2 & H2 & P2). exists (l1 ++ l2).
    split; [rewrite H2, H1, app_assoc; reflexivity|]. apply Forall_app. split; assumption.
Qed.

Lemma reports_none P e e' : reported e' = reported e -> reports P e e'.
Proof. intros H. exists []. rewrite app_nil_r. split; [exact H|constructor]. Qed.

Lemma report_reports (P : ReporterEvent -> Prop) ev : P ev -> preserves (reports P) (report ev).
Proof.
  intros HP. apply preserves_modify. intros e. exists [ev].
  split; [reflexivity|]. constructor; [exact HP|constructor].
Qed.

Section Reports.

Variable P : ReporterEvent -> Prop.
Hypothesis P_error : forall text, P (ReportError text).

Lemma reportError_reports text : preserves (reports P) (report (ReportError text)).
Proof. apply report_reports, P_error. Qed.

Lemma logError_reports msg : preserves (reports P) (logError msg).
Proof. apply preserves_modify. intros e. apply reports_none. reflexivity. Qed.

Lemma NotifyPlugins_reports message : preserves (reports P) (NotifyPlugins message).
Proof. apply preserves_modify. intros e. apply reports_none. reflexivity. Qed.

Lemma GetResponseForGaugeMessage_reports message :
  preserves (reports P) (GetResponseForGaugeMessage message).
Proof. intros e a e' H. inversion H. subst. apply reports_none. reflexivity. Qed.

Lemma newResult_reports r : preserves (reports P) (newResult r).
Proof. intros e a e' H. inversion H. subst. apply reports_none. reflexivity. Qed.

Lemma updateResult_reports a f : preserves (reports P) (updateResult a f).
Proof.
  intros e b e' H. unfold updateResult in H. destruct (results e !! a); [|discriminate].
  inversion H. subst. apply reports_none. reflexivity.
Qed.

Lemma set_currentExecutionInfo_reports i :
  preserves (reports P) (modify (set_currentExecutionInfo i)).
Proof. apply preserves_modify. intros e. apply reports_none. reflexivity. Qed.

Lemma modifySpecResult_reports f : preserves (reports P) (modifySpecResult f).
Proof.
  intros e a e' H. unfold modifySpecResult, getSpecResult in H. inv_exec.
  apply reports_none. reflexivity.
Qed.

Lemma resolveFrame_reports e e' : resolveFrame e e' -> reports P e e'.
Proof.
  intros (A1 & A2 & A3 & A4 & A5 & A6 & A7 & A8 & A9 & _). apply reports_none. exact A9.
Qed.

#[local] Hint Resolve reportError_reports logError_reports NotifyPlugins_reports
  GetResponseForGaugeMessage_reports newResult_reports updateResult_reports
  set_currentExecutionInfo_reports modifySpecResult_reports : frames.

Lemma setCurrentStep_reports step : preserves (reports P) (setCurrentStep step).
Proof. unfold setCurrentStep, getExecutionInfo. frame. Qed.

Lemma setSpecFailure_reports : preserves (reports P) setSpecFailure.
Proof. unfold setSpecFailure, getExecutionInfo. frame. Qed.

Lemma setScenarioFailure_reports : preserves (reports P) setScenarioFailure.
Proof.
  unfold setScenarioFailure, getExecutionInfo. pose proof setSpecFailure_reports. frame.
Qed.

Lemma setStepFailure_reports : preserves (reports P) setStepFailure.
Proof.
  unfold setStepFailure, getExecutionInfo. pose proof setScenarioFailure_reports. frame.
Qed.

Lemma printStatus_reports r : preserves (reports P) (printStatus r).
Proof. unfold printStatus. frame. Qed.

Lemma executeAndGetStatus_reports message : preserves (reports P) (executeAndGetStatus message).
Proof. unfold executeAndGetStatus. frame. Qed.

Lemma addExecutionTimes_reports r hs : preserves (reports P) (addExecutionTimes r hs).
Proof. induction hs as [|h hs IH]; simpl; frame. Qed.

Lemma stepHooks_reports :
  preserves (reports P) executeBeforeStepHook /\ preserves (reports P) executeAfterStepHook.
Proof.
  pose proof executeAndGetStatus_reports.
  unfold executeBeforeStepHook, executeAfterStepHook, hookMessage. split; frame.
Qed.

Lemma findFailedChild_reports protoSteps : forall t,
  preserves (reports P) (findFailedChild protoSteps t).
Proof.
  induction protoSteps as [|x xs IH]; intros t; simpl; [frame|].
  unfold loadResult. destruct x; frame.
Qed.

Lemma setExecutionResultForConcept_reports c :
  preserves (reports P) (setExecutionResultForConcept c).
Proof.
  unfold setExecutionResultForConcept. pose proof findFailedChild_reports. frame.
Qed.

End Reports.

(** *** The events of steps and concepts *)

(** An event that is not the start or the end of a step or of a concept. *)
Definition besideItems (ev : ReporterEvent) : Prop :=
  match ev with
  | StepStart _ | StepEnd _ | ConceptStart _ | ConceptEnd _ => False
  | _ => True
  end.

Definition isStepStart (ev : ReporterEvent) : bool :=
  match ev with StepStart _ => true | _ => false end.

Definition isStepEnd (ev : ReporterEvent) : bool :=
  match ev with StepEnd _ => true | _ => false end.

Definition isConceptStart (ev : ReporterEvent) : bool :=
  match ev with ConceptStart _ => true | _ => false end.

Definition isConceptEnd (ev : ReporterEvent) : bool :=
  match ev with ConceptEnd _ => true | _ => false end.

(** The end of a step or of a concept that is reported as failed. *)
Definition isFailedEnd (ev : ReporterEvent) : bool :=
  match ev with StepEnd true | ConceptEnd true => true | _ => false end.

(** The number of events of a kind. *)
Fixpoint count (p : ReporterEvent -> bool) (l : list ReporterEvent) : nat :=
  match l with
  | [] => 0
  | ev :: rest => (if p ev then 1 else 0) + count p rest
  end.

Lemma count_app p l1 l2 : count p (l1 ++ l2) = (count p l1 + count p l2)%nat.
Proof. induction l1 as [|ev l1 IH]; simpl; [reflexivity|]. rewrite IH. lia. Qed.

Lemma count_besideItems p l :
  (forall ev, p ev = true -> ~ besideItems ev) -> Forall besideItems l -> count p l = 0%nat.
Proof.
  intros Hp Hl. induction Hl as [|ev l Hev _ IH]; simpl; [reflexivity|].
  rewrite IH. destruct (p ev) eqn:Hpev; [|reflexivity]. destruct (Hp ev Hpev Hev).
Qed.

(** The events of items that returned the failure flag [f]: every step that
    started has ended; no more concepts have ended than have started; and
    without a failure every concept that started has ended and no end is
    reported as failed. *)
Definition itemEvents (f : bool) (l : list ReporterEvent) : Prop :=
  count isStepStart l = count isStepEnd l
  /\ (count isConceptEnd l <= count isConceptStart l)%nat
  /\ (f = false ->
      count isConceptEnd l = count isConceptStart l /\ count isFailedEnd l = 0%nat).

(** The same for the loop over the children of a concept, which owes the end
    of the concept. *)
Definition loopEvents (f : bool) (l : list ReporterEvent) : Prop :=
  count isStepStart l = count isStepEnd l
  /\ (count isConceptEnd l <= count isConceptStart l + 1)%nat
  /\ (f = false ->
      count isConceptEnd l = (count isConceptStart l + 1)%nat
      /\ count isFailedEnd l = 0%nat).

Lemma besideItems_counts l :
  Forall besideItems l ->
  count isStepStart l = 0%nat /\ count isStepEnd l = 0%nat
  /\ count isConceptStart l = 0%nat /\ count isConceptEnd l = 0%nat
  /\ count isFailedEnd l = 0%nat.
Proof.
  intros H. repeat split; apply count_besideItems; try exact H;
    intros [] Hp; simpl in *; try discriminate; exact id.
Qed.

Lemma itemEvents_nil f : itemEvents f [].
Proof. repeat split; simpl; lia. Qed.

Lemma itemEvents_app f l1 l2 :
  itemEvents false l1 -> itemEvents f l2 -> itemEvents f (l1 ++ l2).
Proof.
  intros (A1 & A2 & A3) (B1 & B2 & B3). destruct (A3 eq_refl) as [A4 A5].
  unfold itemEvents. rewrite !count_app. split; [lia|]. split; [lia|].
  intros Hf. destruct (B3 Hf). lia.
Qed.

Lemma loopEvents_app f l1 l2 :
  itemEvents false l1 -> loopEvents f l2 -> loopEvents f (l1 ++ l2).
Proof.
  intros (A1 & A2 & A3) (B1 & B2 & B3). destruct (A3 eq_refl) as [A4 A5].
  unfold loopEvents. rewrite !count_app. split; [lia|]. split; [lia|].
  intros Hf. destruct (B3 Hf). lia.
Qed.

(** A run that returned, cut after its first computation, which keeps a
    relation. *)
Ltac peel H R :=
  let a := fresh "a" in
  let e1 := fresh "e" in
  let Hp := fresh "Hp" in
  let HR := fresh "HR" in
  apply bind_inv in H; destruct H as (a & e1 & Hp & H);
  match type of Hp with
  | ?m ?e0 = Some (?x, ?e2) =>
      assert (HR : R e0 e2)
        by (revert Hp; generalize e0 x e2; change (preserves R m); frame);
      clear Hp
  end.

Lemma executeStep_events protoStep e f protoStep' e' :
  executeStep protoStep e = Some ((f, protoStep'), e') ->
  exists l, reported e' = reported e ++ l /\ itemEvents f l.
Proof.
  intros H. unfold executeStep in H.
  pose proof (reportError_reports besideItems (fun _ => I)) as L0.
  pose proof (setCurrentStep_reports besideItems) as L1.
  pose proof (proj1 (stepHooks_reports besideItems)) as L2.
  pose proof (proj2 (stepHooks_reports besideItems)) as L3.
  pose proof (newResult_reports besideItems) as L4.
  pose proof (setStepFailure_reports besideItems) as L5.
  pose proof (printStatus_reports besideItems (fun _ => I)) as L6.
  pose proof (executeAndGetStatus_reports besideItems) as L7.
  pose proof (addExecutionTimes_reports besideItems) as L8.
  pose proof (updateResult_reports besideItems) as L9.
  apply bind_inv in H. destruct H as (u0 & e0 & H0 & H).
  apply modify_inv in H0. subst e0.
  peel H (reports besideItems). peel H (reports besideItems).
  peel H (reports besideItems). peel H (reports besideItems).
  peel H (reports besideItems). peel H (reports besideItems).
  peel H (reports besideItems). peel H (reports besideItems).
  peel H (reports besideItems).
  match type of H with
  | bind _ _ ?s = Some _ =>
      assert (Hmid : reports besideItems
                       (set_reported
                          (reported e ++ [StepStart (createStepRequest protoStep)]) e) s)
        by (repeat (etransitivity; [eassumption|]); reflexivity)
  end.
  apply bind_inv in H. destruct H as (result & e10 & H10 & H).
  unfold loadResult in H10. apply gets_inv in H10. destruct H10 as [-> ->].
  apply bind_inv in H. destruct H as (u11 & e11 & H11 & H).
  apply modify_inv in H11. subst e11.
  unfold getExecutionInfo in H.
  apply bind_inv in H. destruct H as (u12 & e12 & H12 & H).
  apply ret_inv in H. destruct H as [H He']. injection H as Hf Hs. subst e'.
  match type of H12 with
  | ?m ?s = Some _ =>
      assert (Hlast : reports besideItems s e12)
        by (revert H12; generalize s u12 e12;
            change (preserves (reports besideItems) m); frame)
  end.
  destruct Hmid as (l1 & Hl1 & P1). destruct Hlast as (l2 & Hl2 & P2).
  simpl in Hl1, Hl2.
  exists ([StepStart (createStepRequest protoStep)] ++ l1 ++ [StepEnd f] ++ l2).
  split; [rewrite Hl2, Hl1, <- !app_assoc, Hf; reflexivity|].
  destruct (besideItems_counts l1 P1) as (A1 & A2 & A3 & A4 & A5).
  destruct (besideItems_counts l2 P2) as (B1 & B2 & B3 & B4 & B5).
  unfold itemEvents. rewrite !count_app. simpl.
  rewrite A1, A2, A3, A4, A5, B1, B2, B3, B4, B5.
  split; [reflexivity|]. split; [lia|]. intros ->. split; reflexivity.
Qed.

Lemma executeConceptSteps_events rec todo :
  Forall (fun x => forall e f x' e', rec x e = Some ((f, x'), e') ->
                     exists l, reported e' = reported e ++ l /\ itemEvents f l) todo ->
  forall cs res done e f c e',
    executeConceptSteps rec cs res done todo e = Some ((f, c), e') ->
    exists l, reported e' = reported e ++ l /\ loopEvents f l.
Proof.
  induction todo as [|x rest IH]; intros Hrec cs res done e f c e' H; simpl in H.
  - apply bind_inv in H. destruct H as (r & e1 & H1 & H).
    unfold loadResult in H1. apply gets_inv in H1. destruct H1 as [-> ->].
    apply bind_inv in H. destruct H as (u & e2 & H2 & H).
    apply modify_inv in H2. subst e2.
    apply ret_inv in H. destruct H as [H ->]. injection H as -> _.
    eexists [_]. split; [reflexivity|].
    unfold loopEvents. simpl. split; [reflexivity|]. split; [lia|].
    intros ->. split; reflexivity.
  - apply Forall_cons in Hrec. destruct Hrec as [Hx Hrest].
    apply bind_inv in H. destruct H as ([fx x'] & e1 & H1 & H).
    apply Hx in H1. destruct H1 as (l1 & Hl1 & E1).
    apply bind_inv in H. destruct H as (c1 & e2 & H2 & H).
    apply (setExecutionResultForConcept_reports besideItems) in H2.
    destruct H2 as (l2 & Hl2 & P2).
    destruct (besideItems_counts l2 P2) as (B1 & B2 & B3 & B4 & B5).
    destruct fx.
    + apply ret_inv in H. destruct H as [H ->]. injection H as -> _.
      exists (l1 ++ l2). split; [rewrite Hl2, Hl1, app_assoc; reflexivity|].
      destruct E1 as (A1 & A2 & _).
      unfold loopEvents. rewrite !count_app, B1, B2, B3, B4.
      split; [lia|]. split; [lia|]. discriminate.
    + apply (IH Hrest) in H. destruct H as (l3 & Hl3 & E3).
      exists (l1 ++ l2 ++ l3).
      split; [rewrite Hl3, Hl2, Hl1, <- !app_assoc; reflexivity|].
      apply loopEvents_app; [exact E1|].
      destruct E3 as (C1 & C2 & C3).
      unfold loopEvents. rewrite !count_app, B1, B2, B3, B4, B5. simpl.
      split; [exact C1|]. split; [exact C2|exact C3].
Qed.

Lemma executeItem_events item : forall e f item' e',
  executeItem item e = Some ((f, item'), e') ->
  exists l, reported e' = reported e ++ l /\ itemEvents f l.
Proof.
  induction item as [s|cs protoSteps res IH|text|text|tags] using ProtoItem_nested_ind;
    intros e f item' e' H; simpl in H.
  - apply bind_inv in H. destruct H as ([f1 s'] & e1 & H1 & H).
    apply ret_inv in H. destruct H as [H ->]. injection H as -> _.
    eapply executeStep_events. exact H1.
  - apply bind_inv in H. destruct H as (u & e1 & H1 & H).
    apply modify_inv in H1. subst e1.
    apply bind_inv in H. destruct H as ([f1 c] & e2 & H2 & H).
    apply ret_inv in H. destruct H as [H ->]. injection H as -> _.
    apply (executeConceptSteps_events _ _ IH) in H2. destruct H2 as (l & Hl & E1 & E2 & E3).
    simpl in Hl.
    exists (ConceptStart cs :: l). split; [rewrite Hl, <- app_assoc; reflexivity|].
    unfold itemEvents. simpl. split; [exact E1|]. split; [lia|].
    intros Hf. destruct (E3 Hf). split; [lia|assumption].
  - apply ret_inv in H. destruct H as [H ->]. injection H as -> _.
    exists []. rewrite app_nil_r. split; [reflexivity|apply itemEvents_nil].
  - apply ret_inv in H. destruct H as [H ->]. injection H as -> _.
    exists []. rewrite app_nil_r. split; [reflexivity|apply itemEvents_nil].
  - apply ret_inv in H. destruct H as [H ->]. injection H as -> _.
    exists []. rewrite app_nil_r. split; [reflexivity|apply itemEvents_nil].
Qed.

(** X18: what [executeItems] reports.  Among the events that a run of
    [executeItems] reports, there are as many ends of steps as starts of
    steps, and no more ends of concepts than starts of concepts.  When the
    run returns no failure, there are as many ends of concepts as starts of
    concepts, and no step or concept is reported as failed.  (With a failure
    the ends of concepts can be fewer: [executeConcept] returns at the first
    child that fails, before it reports the end of the concept.) *)
Theorem executeItems_reports_matching_starts_and_ends :
  forall items e f items' e',
    executeItems items e = Some ((f, items'), e') ->
    exists l,
      reported e' = reported e ++ l
      /\ count isStepStart l = count isStepEnd l
      /\ (count isConceptEnd l <= count isConceptStart l)%nat
      /\ (f = false ->
          count isConceptEnd l = count isConceptStart l
          /\ count isFailedEnd l = 0%nat).
Proof.
  induction items as [|x rest IH]; intros e f items' e' H; simpl in H.
  - apply ret_inv in H. destruct H as [H ->]. injection H as -> _.
    exists []. rewrite app_nil_r. split; [reflexivity|apply itemEvents_nil].
  - apply bind_inv in H. destruct H as ([fx x'] & e1 & H1 & H).
    apply executeItem_events in H1. destruct H1 as (l1 & Hl1 & E1).
    destruct fx.
    + apply ret_inv in H. destruct H as [H ->]. injection H as -> _.
      exists l1. split; [exact Hl1|exact E1].
    + apply bind_inv in H. destruct H as ([f2 rest'] & e2 & H2 & H).
      apply ret_inv in H. destruct H as [H ->]. injection H as -> _.
      apply IH in H2. destruct H2 as (l2 & Hl2 & E2).
      exists (l1 ++ l2). split; [rewrite Hl2, Hl1, app_assoc; reflexivity|].
      apply (itemEvents_app f2 l1 l2 E1 E2).
Qed.

Lemma executeItems_reports_matching_starts_and_ends_witness :
  exists f items' e' l,
    executeItems [ItemConcept (ConceptStep threeStepConcept) (Steps threeStepConcept)
                    (ConceptExecutionResult threeStepConcept)] scriptedExecutor
    = Some ((f, items'), e')
    /\ reported e' = reported scriptedExecutor ++ l
    /\ f = true
    /\ count isStepStart l = 2%nat /\ count isStepEnd l = 2%nat
    /\ count isConceptStart l = 1%nat /\ count isConceptEnd l = 0%nat.
Proof.
  destruct (executeItems [ItemConcept (ConceptStep threeStepConcept) (Steps threeStepConcept)
                            (ConceptExecutionResult threeStepConcept)] scriptedExecutor)
    as [[[f items'] e']|] eqn:Hrun; [|vm_compute in Hrun; discriminate].
  destruct (executeItems_reports_matching_starts_and_ends _ _ _ _ _ Hrun)
    as (l & Hl & _).
  exists f, items', e', l. split; [reflexivity|]. split; [exact Hl|].
  vm_compute in Hrun. injection Hrun as <- _ <-.
  simpl in Hl. subst l. repeat split.
Defined.

(** *** The events of scenarios *)

Section ItemReports.

Variable P : ReporterEvent -> Prop.
Hypothesis P_error : forall text, P (ReportError text).
Hypothesis P_stepStart : forall step, P (StepStart step).
Hypothesis P_stepEnd : forall failed, P (StepEnd failed).
Hypothesis P_conceptStart : forall conceptStep, P (ConceptStart conceptStep).
Hypothesis P_conceptEnd : forall failed, P (ConceptEnd failed).

Lemma executeStep_reports protoStep : preserves (reports P) (executeStep protoStep).
Proof.
  pose proof (report_reports P).
  pose proof (reportError_reports P P_error).
  pose proof (setCurrentStep_reports P).
  pose proof (proj1 (stepHooks_reports P)).
  pose proof (proj2 (stepHooks_reports P)).
  pose proof (newResult_reports P).
  pose proof (setStepFailure_reports P).
  pose proof (printStatus_reports P P_error).
  pose proof (executeAndGetStatus_reports P).
  pose proof (addExecutionTimes_reports P).
  pose proof (updateResult_reports P).
  assert (forall step, preserves (reports P) (report (StepStart step)))
    by (intros; apply report_reports, P_stepStart).
  assert (forall failed, preserves (reports P) (report (StepEnd failed)))
    by (intros; apply report_reports, P_stepEnd).
  unfold executeStep, getExecutionInfo, loadResult. frame.
Qed.

Lemma executeConceptSteps_reports rec todo : forall cs res done,
  Forall (fun x => preserves (reports P) (rec x)) todo ->
  preserves (reports P) (executeConceptSteps rec cs res done todo).
Proof.
  assert (forall failed, preserves (reports P) (report (ConceptEnd failed)))
    by (intros; apply report_reports, P_conceptEnd).
  pose proof (setExecutionResultForConcept_reports P).
  induction todo as [|x rest IH]; intros cs res done Hrec; simpl.
  - unfold loadResult. frame.
  - apply Forall_cons in Hrec. destruct Hrec as [Hx Hrest].
    apply preserves_bind; [typeclasses eauto|exact Hx|intros [f x']].
    apply preserves_bind; [typeclasses eauto|frame|intros c].
    destruct f; [frame|]. apply IH. exact Hrest.
Qed.

Lemma executeItem_reports item : preserves (reports P) (executeItem item).
Proof.
  assert (forall conceptStep, preserves (reports P) (report (ConceptStart conceptStep)))
    by (intros; apply report_reports, P_conceptStart).
  pose proof executeStep_reports.
  induction item as [s|cs protoSteps res IH|text|text|tags] using ProtoItem_nested_ind;
    simpl.
  - frame.
  - pose proof (executeConceptSteps_reports executeItem protoSteps cs res [] IH). frame.
  - frame.
  - frame.
  - frame.
Qed.

Lemma executeItems_reports items : preserves (reports P) (executeItems items).
Proof.
  induction items as [|x rest IH]; simpl; [frame|].
  pose proof executeItem_reports. frame.
Qed.

End ItemReports.

(** An event that is not the start or the end of a scenario or of a
    specification. *)
Definition insideScenario (ev : ReporterEvent) : Prop :=
  match ev with
  | StepStart _ | StepEnd _ | ConceptStart _ | ConceptEnd _ | ReportError _ => True
  | _ => False
  end.

(** The headings of the scenarios reported as started, and the flags of the
    scenarios reported as ended. *)
Definition scenarioStarts (l : list ReporterEvent) : list string :=
  omap (fun ev => match ev with ScenarioStart name => Some name | _ => None end) l.

Definition scenarioEnds (l : list ReporterEvent) : list bool :=
  omap (fun ev => match ev with ScenarioEnd failed => Some failed | _ => None end) l.

(** Whether a result is the result of a scenario that was run. *)
Definition wasRun (r : ScenarioResult) : bool :=
  bool_decide (ProtoScenario_Skipped r = Some false).

Lemma scenarioStarts_inside l : Forall insideScenario l -> scenarioStarts l = [].
Proof.
  intros H. induction H as [|ev l Hev _ IH]; [reflexivity|].
  destruct ev; try contradiction; exact IH.
Qed.

Lemma scenarioEnds_inside l : Forall insideScenario l -> scenarioEnds l = [].
Proof.
  intros H. induction H as [|ev l Hev _ IH]; [reflexivity|].
  destruct ev; try contradiction; exact IH.
Qed.

Section ScenarioReports.

Variable FromDataTableRow : Table -> Z -> ArgLookup.
Variable PopulateConceptDynamicParams : ArgLookup -> option ArgLookup -> ArgLookup -> ArgLookup.
Variable GetResolvedParams : list StepArg -> option ArgLookup -> ArgLookup -> list ProtoParameter.

Lemma executeScenario_events depth scenario e r e' :
  executeScenario FromDataTableRow PopulateConceptDynamicParams GetResolvedParams
    depth scenario e = Some (r, e') ->
  exists l,
    reported e' = reported e ++ l
    /\ scenarioStarts l
       = (if scenarioSkipped (errMap e) scenario then [] else [Scenario_Heading scenario])
    /\ scenarioEnds l = (if wasRun r then [GetFailure r] else [])
    /\ wasRun r = negb (scenarioSkipped (errMap e) scenario).
Proof.
  intros H.
  pose proof (executeScenario_resultOf _ _ _ _ _ _ _ _ H) as (_ & Hskipped & _).
  assert (Hwas : wasRun r = negb (scenarioSkipped (errMap e) scenario)).
  { unfold wasRun. rewrite Hskipped.
    destruct (scenarioSkipped (errMap e) scenario); reflexivity. }
  unfold executeScenario in H.
  apply bind_inv in H. destruct H as (u & e1 & H1 & H).
  apply bind_inv in H. destruct H as (shell & e2 & H2 & H).
  apply bind_inv in H. destruct H as (errs & e3 & H3 & H).
  apply gets_inv in H3. destruct H3 as [-> ->].
  assert (C1 : sameCount e e1).
  { as_preserves sameCount H1. unfold setCurrentScenario, getExecutionInfo. keep. }
  pose proof (addAllItemsForScenarioExecution_sameCount _ _ _ _ _ _ _ _ _ H2) as C2.
  assert (Hmap : errMap e2 = errMap e).
  { destruct C1 as (_ & _ & M1 & _). destruct C2 as (_ & _ & M2 & _). congruence. }
  assert (R1 : reported e1 = reported e).
  { unfold setCurrentScenario, getExecutionInfo in H1. inv_exec. reflexivity. }
  assert (R2 : reported e2 = reported e1).
  { apply addAllItemsForScenarioExecution_resolveFrame in H2.
    destruct H2 as (_ & _ & _ & _ & _ & _ & _ & _ & A9 & _). exact A9. }
  rewrite Hmap in H. unfold scenarioSkipped in *.
  destruct (decide (is_Some (scenarioErrs (errMap e) !! scenarioPtr scenario))) as [Hin|Hout].
  - rewrite (bool_decide_eq_true_2 _ Hin) in *. rewrite Hwas.
    assert (R3 : reports (fun _ => False) e2 e').
    { as_preserves (reports (fun _ : ReporterEvent => False)) H.
      pose proof (modifySpecResult_reports (fun _ : ReporterEvent => False)).
      unfold setSkipInfoInResult.
      assert (forall errs, preserves (reports (fun _ : ReporterEvent => False))
                             (formatSkipErrors errs)).
      { induction errs as [|err rest IH]; simpl; [frame|].
        unfold formatSkipError, loadStep. frame. }
      frame. }
    destruct R3 as (l & Hl & Pl). destruct l as [|ev l]; [|inversion Pl; contradiction].
    exists []. rewrite app_nil_r in *. split; [congruence|].
    split; [reflexivity|]. split; reflexivity.
  - rewrite (bool_decide_eq_false_2 _ Hout) in *. rewrite Hwas.
    apply bind_inv in H. destruct H as (u3 & e3 & H3 & H).
    apply modify_inv in H3. subst e3.
    apply bind_inv in H. destruct H as ([b r0] & e4 & H4 & H).
    rewrite executeBeforeScenarioHook_eq in H4. inversion H4 as [[Hb Hr0 He4]]. clear H4.
    apply bind_inv in H. destruct H as (r1 & e5 & H5 & H).
    apply bind_inv in H. destruct H as ([a r2] & e6 & H6 & H).
    rewrite executeAfterScenarioHook_eq in H6. inversion H6 as [[Ha Hr2 He6]]. clear H6.
    apply bind_inv in H. destruct H as (r3 & e7 & H7 & H).
    unfold UpdateExecutionTime in H7.
    apply bind_inv in H7. destruct H7 as (e0 & e8 & H8 & H7).
    apply gets_inv in H8. destruct H8 as [_ ->].
    apply ret_inv in H7. destruct H7 as [Hr3 ->].
    apply bind_inv in H. destruct H as (u8 & e9 & H9 & H).
    apply bind_inv in H. destruct H as (u9 & e10 & H10 & H).
    apply modify_inv in H10. subst e10.
    apply ret_inv in H. destruct H as [-> ->].
    assert (R45 : reports insideScenario e4 e5).
    { as_preserves (reports insideScenario) H5.
      pose proof (executeItems_reports insideScenario (fun _ => I) (fun _ => I)
                    (fun _ => I) (fun _ => I) (fun _ => I)).
      pose proof (setScenarioFailure_reports insideScenario).
      pose proof (printStatus_reports insideScenario (fun _ => I)).
      unfold executeContextItems, executeScenarioItems, executeTearDownItems. frame. }
    assert (R69 : reports insideScenario e6 e9).
    { as_preserves (reports insideScenario) H9.
      pose proof (setScenarioFailure_reports insideScenario).
      pose proof (printStatus_reports insideScenario (fun _ => I)).
      frame. }
    destruct R45 as (l1 & Hl1 & P1). destruct R69 as (l2 & Hl2 & P2).
    subst e4 e6. simpl in Hl1, Hl2.
    exists ([ScenarioStart (Scenario_Heading scenario)] ++ l1 ++ l2
            ++ [ScenarioEnd (GetFailure r3)]).
    split.
    { simpl. rewrite Hl2, Hl1, R2, R1, <- !app_assoc. reflexivity. }
    unfold scenarioStarts, scenarioEnds. rewrite !omap_app.
    fold (scenarioStarts l1) (scenarioStarts l2) (scenarioEnds l1) (scenarioEnds l2).
    rewrite (scenarioStarts_inside l1 P1), (scenarioStarts_inside l2 P2),
      (scenarioEnds_inside l1 P1), (scenarioEnds_inside l2 P2).
    split; [reflexivity|]. split; reflexivity.
Qed.

Lemma executeScenariosOf_events depth scenarios : forall e rs e',
  executeScenariosOf FromDataTableRow PopulateConceptDynamicParams GetResolvedParams
    depth scenarios e = Some (rs, e') ->
  exists l,
    reported e' = reported e ++ l
    /\ scenarioStarts l
       = map Scenario_Heading
           (filter (fun scenario => scenarioSkipped (errMap e) scenario = false) scenarios)
    /\ scenarioEnds l = map GetFailure (filter (fun r => wasRun r = true) rs).
Proof.
  induction scenarios as [|scenario rest IH]; intros e rs e' H; simpl in H.
  - apply ret_inv in H. destruct H as [-> ->]. exists []. rewrite app_nil_r.
    split; [reflexivity|]. split; reflexivity.
  - apply bind_inv in H. destruct H as (r & e1 & H1 & H).
    apply bind_inv in H. destruct H as (rs' & e2 & H2 & H).
    apply ret_inv in H. destruct H as [-> ->].
    pose proof (executeScenario_counts _ _ _ _ _ _ _ _ H1) as (_ & _ & Hmap & _).
    apply executeScenario_events in H1. destruct H1 as (l1 & Hl1 & S1 & E1 & Hwas).
    apply IH in H2. destruct H2 as (l2 & Hl2 & S2 & E2). rewrite Hmap in S2.
    exists (l1 ++ l2). split; [rewrite Hl2, Hl1, app_assoc; reflexivity|].
    unfold scenarioStarts, scenarioEnds in *. rewrite !omap_app, S1, E1, S2, E2.
    split.
    + destruct (scenarioSkipped (errMap e) scenario) eqn:Hs.
      * rewrite filter_cons_False by (rewrite Hs; discriminate). reflexivity.
      * rewrite filter_cons_True by exact Hs. reflexivity.
    + destruct (wasRun r) eqn:Hr.
      * rewrite filter_cons_True by exact Hr. reflexivity.
      * rewrite filter_cons_False by (rewrite Hr; discriminate). reflexivity.
Qed.

(** X19: the scenarios that [executeScenarios] reports.  A run that returns
    has reported the start of exactly the scenarios that are not in the
    scenario skip map, by their headings and in their order, and the end of
    exactly the scenarios whose result is not marked skipped, each with the
    failure flag of its result, in the order of the results.  For a scenario
    in the skip map neither a start nor an end is reported. *)
Theorem executeScenarios_reports_the_scenarios_it_runs :
  forall depth e rs e',
    executeScenarios FromDataTableRow PopulateConceptDynamicParams GetResolvedParams
      depth e = Some (rs, e') ->
    exists l,
      reported e' = reported e ++ l
      /\ scenarioStarts l
         = map Scenario_Heading
             (filter (fun scenario => scenarioSkipped (errMap e) scenario = false)
                (Scenarios (specification e)))
      /\ scenarioEnds l = map GetFailure (filter (fun r => wasRun r = true) rs).
Proof.
  intros depth e rs e' H. unfold executeScenarios in H.
  apply bind_inv in H. destruct H as (spec & e1 & H1 & H).
  apply gets_inv in H1. destruct H1 as [-> ->].
  apply executeScenariosOf_events in H. exact H.
Qed.

End ScenarioReports.

Lemma executeScenarios_reports_the_scenarios_it_runs_witness :
  exists rs e' l,
    executeScenarios fromRow bindRow resolveArgs 1 (enterSpec twoRowExecutor) = Some (rs, e')
    /\ reported e' = reported (enterSpec twoRowExecutor) ++ l
    /\ scenarioStarts l = ["Parting"]
    /\ scenarioEnds l = [false].
Proof.
  destruct (executeScenarios fromRow bindRow resolveArgs 1 (enterSpec twoRowExecutor))
    as [[rs e']|] eqn:Hrun; [|vm_compute in Hrun; discriminate].
  destruct (executeScenarios_reports_the_scenarios_it_runs _ _ _ _ _ _ _ Hrun)
    as (l & Hl & Hstarts & Hends).
  exists rs, e', l. split; [reflexivity|]. split; [exact Hl|].
  vm_compute in Hrun. injection Hrun as <- <-.
  simpl in Hl. subst l. split; reflexivity.
Defined.
